(** * Articulation points and self-healing of RPL topologies

    A shallow embedding of [algorithm.c] (the Contiki-NG process
    "RPL Cut-Vertex Detection"): the bounded adjacency store, Tarjan's
    depth-first search for cut vertices and biconnected components, the
    leaf-block classifier and the redundant-edge planner, followed by the
    properties of the design document stated and proved over that embedding. *)

From Stdlib Require Import ZArith List Lia Bool Arith FinFun.
Import ListNotations.
Local Open Scope Z_scope.

(** ** Configuration constants ([#define]s of the source) *)

Definition MAX_NODES : Z := 1000.
Definition MAX_NEIGHBORS : Z := 80.
Definition MAX_BLOCKS : Z := 1250.

(** ** Memory model

    Every global of the program is a statically allocated, zero-initialised
    array or an [int].  An array is modelled by the total map from index to
    content; a two-dimensional array by a curried map.  [char] flags keep
    their integer content ([0] is false). *)

Definition upd {A : Type} (a : Z -> A) (i : Z) (x : A) : Z -> A :=
  fun j => if j =? i then x else a j.

Definition upd2 {A : Type} (a : Z -> Z -> A) (i j : Z) (x : A) : Z -> Z -> A :=
  upd a i (upd (a i) j x).

(** [typedef struct { int u, v; } Edge;] *)
Record Edge : Type := mkEdge { e_u : Z; e_v : Z }.

(** The globals, in the order of their declaration. *)
Record state : Type := mkState {
  n_nodes : Z;
  neighbors : Z -> Z -> Z;
  degree : Z -> Z;
  exists_edge : Z -> Z -> Z;
  disc : Z -> Z;
  low : Z -> Z;
  parent_tarjan : Z -> Z;
  visited : Z -> Z;
  time_dfs : Z;
  is_cut : Z -> Z;
  edge_stack : Z -> Edge;
  stack_top : Z;
  block_nodes : Z -> Z -> Z;
  block_size : Z -> Z;
  num_blocks : Z;
  is_leaf_block : Z -> Z;
  leaf_blocks : Z -> Z;
  num_leaf_blocks : Z;
  redundant_edge : Z -> Z -> Z;
  original_edges : Z;
  redundant_edges_added : Z
}.

(** Assignment to one global. *)
Definition set_neighbors (x : Z -> Z -> Z) (st : state) : state :=
  mkState (n_nodes st) x (degree st) (exists_edge st) (disc st) (low st) (parent_tarjan st) (visited st) (time_dfs st) (is_cut st) (edge_stack st) (stack_top st) (block_nodes st) (block_size st) (num_blocks st) (is_leaf_block st) (leaf_blocks st) (num_leaf_blocks st) (redundant_edge st) (original_edges st) (redundant_edges_added st).
Definition set_degree (x : Z -> Z) (st : state) : state :=
  mkState (n_nodes st) (neighbors st) x (exists_edge st) (disc st) (low st) (parent_tarjan st) (visited st) (time_dfs st) (is_cut st) (edge_stack st) (stack_top st) (block_nodes st) (block_size st) (num_blocks st) (is_leaf_block st) (leaf_blocks st) (num_leaf_blocks st) (redundant_edge st) (original_edges st) (redundant_edges_added st).
Definition set_exists_edge (x : Z -> Z -> Z) (st : state) : state :=
  mkState (n_nodes st) (neighbors st) (degree st) x (disc st) (low st) (parent_tarjan st) (visited st) (time_dfs st) (is_cut st) (edge_stack st) (stack_top st) (block_nodes st) (block_size st) (num_blocks st) (is_leaf_block st) (leaf_blocks st) (num_leaf_blocks st) (redundant_edge st) (original_edges st) (redundant_edges_added st).
Definition set_disc (x : Z -> Z) (st : state) : state :=
  mkState (n_nodes st) (neighbors st) (degree st) (exists_edge st) x (low st) (parent_tarjan st) (visited st) (time_dfs st) (is_cut st) (edge_stack st) (stack_top st) (block_nodes st) (block_size st) (num_blocks st) (is_leaf_block st) (leaf_blocks st) (num_leaf_blocks st) (redundant_edge st) (original_edges st) (redundant_edges_added st).
Definition set_low (x : Z -> Z) (st : state) : state :=
  mkState (n_nodes st) (neighbors st) (degree st) (exists_edge st) (disc st) x (parent_tarjan st) (visited st) (time_dfs st) (is_cut st) (edge_stack st) (stack_top st) (block_nodes st) (block_size st) (num_blocks st) (is_leaf_block st) (leaf_blocks st) (num_leaf_blocks st) (redundant_edge st) (original_edges st) (redundant_edges_added st).
Definition set_parent_tarjan (x : Z -> Z) (st : state) : state :=
  mkState (n_nodes st) (neighbors st) (degree st) (exists_edge st) (disc st) (low st) x (visited st) (time_dfs st) (is_cut st) (edge_stack st) (stack_top st) (block_nodes st) (block_size st) (num_blocks st) (is_leaf_block st) (leaf_blocks st) (num_leaf_blocks st) (redundant_edge st) (original_edges st) (redundant_edges_added st).
Definition set_visited (x : Z -> Z) (st : state) : state :=
  mkState (n_nodes st) (neighbors st) (degree st) (exists_edge st) (disc st) (low st) (parent_tarjan st) x (time_dfs st) (is_cut st) (edge_stack st) (stack_top st) (block_nodes st) (block_size st) (num_blocks st) (is_leaf_block st) (leaf_blocks st) (num_leaf_blocks st) (redundant_edge st) (original_edges st) (redundant_edges_added st).
Definition set_time_dfs (x : Z) (st : state) : state :=
  mkState (n_nodes st) (neighbors st) (degree st) (exists_edge st) (disc st) (low st) (parent_tarjan st) (visited st) x (is_cut st) (edge_stack st) (stack_top st) (block_nodes st) (block_size st) (num_blocks st) (is_leaf_block st) (leaf_blocks st) (num_leaf_blocks st) (redundant_edge st) (original_edges st) (redundant_edges_added st).
Definition set_is_cut (x : Z -> Z) (st : state) : state :=
  mkState (n_nodes st) (neighbors st) (degree st) (exists_edge st) (disc st) (low st) (parent_tarjan st) (visited st) (time_dfs st) x (edge_stack st) (stack_top st) (block_nodes st) (block_size st) (num_blocks st) (is_leaf_block st) (leaf_blocks st) (num_leaf_blocks st) (redundant_edge st) (original_edges st) (redundant_edges_added st).
Definition set_edge_stack (x : Z -> Edge) (st : state) : state :=
  mkState (n_nodes st) (neighbors st) (degree st) (exists_edge st) (disc st) (low st) (parent_tarjan st) (visited st) (time_dfs st) (is_cut st) x (stack_top st) (block_nodes st) (block_size st) (num_blocks st) (is_leaf_block st) (leaf_blocks st) (num_leaf_blocks st) (redundant_edge st) (original_edges st) (redundant_edges_added st).
Definition set_stack_top (x : Z) (st : state) : state :=
  mkState (n_nodes st) (neighbors st) (degree st) (exists_edge st) (disc st) (low st) (parent_tarjan st) (visited st) (time_dfs st) (is_cut st) (edge_stack st) x (block_nodes st) (block_size st) (num_blocks st) (is_leaf_block st) (leaf_blocks st) (num_leaf_blocks st) (redundant_edge st) (original_edges st) (redundant_edges_added st).
Definition set_block_nodes (x : Z -> Z -> Z) (st : state) : state :=
  mkState (n_nodes st) (neighbors st) (degree st) (exists_edge st) (disc st) (low st) (parent_tarjan st) (visited st) (time_dfs st) (is_cut st) (edge_stack st) (stack_top st) x (block_size st) (num_blocks st) (is_leaf_block st) (leaf_blocks st) (num_leaf_blocks st) (redundant_edge st) (original_edges st) (redundant_edges_added st).
Definition set_block_size (x : Z -> Z) (st : state) : state :=
  mkState (n_nodes st) (neighbors st) (degree st) (exists_edge st) (disc st) (low st) (parent_tarjan st) (visited st) (time_dfs st) (is_cut st) (edge_stack st) (stack_top st) (block_nodes st) x (num_blocks st) (is_leaf_block st) (leaf_blocks st) (num_leaf_blocks st) (redundant_edge st) (original_edges st) (redundant_edges_added st).
Definition set_num_blocks (x : Z) (st : state) : state :=
  mkState (n_nodes st) (neighbors st) (degree st) (exists_edge st) (disc st) (low st) (parent_tarjan st) (visited st) (time_dfs st) (is_cut st) (edge_stack st) (stack_top st) (block_nodes st) (block_size st) x (is_leaf_block st) (leaf_blocks st) (num_leaf_blocks st) (redundant_edge st) (original_edges st) (redundant_edges_added st).
Definition set_is_leaf_block (x : Z -> Z) (st : state) : state :=
  mkState (n_nodes st) (neighbors st) (degree st) (exists_edge st) (disc st) (low st) (parent_tarjan st) (visited st) (time_dfs st) (is_cut st) (edge_stack st) (stack_top st) (block_nodes st) (block_size st) (num_blocks st) x (leaf_blocks st) (num_leaf_blocks st) (redundant_edge st) (original_edges st) (redundant_edges_added st).
Definition set_leaf_blocks (x : Z -> Z) (st : state) : state :=
  mkState (n_nodes st) (neighbors st) (degree st) (exists_edge st) (disc st) (low st) (parent_tarjan st) (visited st) (time_dfs st) (is_cut st) (edge_stack st) (stack_top st) (block_nodes st) (block_size st) (num_blocks st) (is_leaf_block st) x (num_leaf_blocks st) (redundant_edge st) (original_edges st) (redundant_edges_added st).
Definition set_num_leaf_blocks (x : Z) (st : state) : state :=
  mkState (n_nodes st) (neighbors st) (degree st) (exists_edge st) (disc st) (low st) (parent_tarjan st) (visited st) (time_dfs st) (is_cut st) (edge_stack st) (stack_top st) (block_nodes st) (block_size st) (num_blocks st) (is_leaf_block st) (leaf_blocks st) x (redundant_edge st) (original_edges st) (redundant_edges_added st).
Definition set_redundant_edge (x : Z -> Z -> Z) (st : state) : state :=
  mkState (n_nodes st) (neighbors st) (degree st) (exists_edge st) (disc st) (low st) (parent_tarjan st) (visited st) (time_dfs st) (is_cut st) (edge_stack st) (stack_top st) (block_nodes st) (block_size st) (num_blocks st) (is_leaf_block st) (leaf_blocks st) (num_leaf_blocks st) x (original_edges st) (redundant_edges_added st).
Definition set_original_edges (x : Z) (st : state) : state :=
  mkState (n_nodes st) (neighbors st) (degree st) (exists_edge st) (disc st) (low st) (parent_tarjan st) (visited st) (time_dfs st) (is_cut st) (edge_stack st) (stack_top st) (block_nodes st) (block_size st) (num_blocks st) (is_leaf_block st) (leaf_blocks st) (num_leaf_blocks st) (redundant_edge st) x (redundant_edges_added st).
Definition set_redundant_edges_added (x : Z) (st : state) : state :=
  mkState (n_nodes st) (neighbors st) (degree st) (exists_edge st) (disc st) (low st) (parent_tarjan st) (visited st) (time_dfs st) (is_cut st) (edge_stack st) (stack_top st) (block_nodes st) (block_size st) (num_blocks st) (is_leaf_block st) (leaf_blocks st) (num_leaf_blocks st) (redundant_edge st) (original_edges st) x.

(** ** Initialization *)

(** [init_arrays]: the [memset]s and the four counters. *)
Definition init_arrays (st : state) : state :=
  let st := set_degree (fun _ => 0) st in
  let st := set_exists_edge (fun _ _ => 0) st in
  let st := set_neighbors (fun _ _ => 0) st in
  let st := set_redundant_edge (fun _ _ => 0) st in
  let st := set_block_size (fun _ => 0) st in
  let st := set_is_leaf_block (fun _ => 0) st in
  let st := set_original_edges 0 st in
  let st := set_redundant_edges_added 0 st in
  let st := set_num_blocks 0 st in
  set_stack_top 0 st.

(** The program image at start-up: every static is zero, [n_nodes] is the
    configured node count. *)
Definition boot (n : Z) : state :=
  mkState n (fun _ _ => 0) (fun _ => 0) (fun _ _ => 0)
    (fun _ => 0) (fun _ => 0) (fun _ => 0) (fun _ => 0) 0 (fun _ => 0)
    (fun _ => mkEdge 0 0) 0 (fun _ _ => 0) (fun _ => 0) 0
    (fun _ => 0) (fun _ => 0) 0 (fun _ _ => 0) 0 0.

(** ** Graph store

    The same three statements insert a link in the generator (twice) and in
    the planner:
<<
      neighbors[u][degree[u]++] = v;
      neighbors[v][degree[v]++] = u;
      exists_edge[u][v] = exists_edge[v][u] = 1;
>> *)
Definition link (u v : Z) (st : state) : state :=
  let st := set_neighbors (upd2 (neighbors st) u (degree st u) v) st in
  let st := set_degree (upd (degree st) u (degree st u + 1)) st in
  let st := set_neighbors (upd2 (neighbors st) v (degree st v) u) st in
  let st := set_degree (upd (degree st) v (degree st v + 1)) st in
  let st := set_exists_edge (upd2 (exists_edge st) v u 1) st in
  set_exists_edge (upd2 (exists_edge st) u v 1) st.

(** The neighbour list of [u]: the first [degree[u]] cells of
    [neighbors[u]], in insertion order. *)
Definition neighbor_list (st : state) (u : Z) : list Z :=
  map (fun i => neighbors st u (Z.of_nat i)) (seq 0 (Z.to_nat (degree st u))).

(** ** Topology generator

    [rand()] is modelled by the stream [rand_seq] of its successive results
    and a cursor; the two floating-point computations of the generator (the
    edge target [(int)(n_nodes * connection_prob * 10)] and the acceptance
    test [(double)rand() / RAND_MAX < 1.0 / (1.0 + dist / 10.0)]) are
    parameters: nothing below depends on their value. *)
Section Generator.
Variable rand_seq : nat -> Z.
Variable target_edges : Z -> Z.
Variable accept : Z -> Z -> bool.

(** Step 1, tree backbone: [for(i = 1; i < n_nodes; i++)]. *)
Fixpoint backbone (k : nat) (i : Z) (c : nat) (st : state) : nat * state :=
  match k with
  | O => (c, st)
  | S k' =>
    if i <? n_nodes st then
      let parent := Z.rem (rand_seq c) i in
      let st :=
        if (degree st i <? MAX_NEIGHBORS) && (degree st parent <? MAX_NEIGHBORS)
        then set_original_edges (original_edges st + 1) (link i parent st)
        else st in
      backbone k' (i + 1) (S c) st
    else (c, st)
  end.

(** Step 2, random cross edges:
    [while(original_edges < target_edges && attempts < max_attempts)]. *)
Fixpoint cross_edges (k : nat) (target attempts max_attempts : Z) (c : nat)
    (st : state) : nat * state :=
  match k with
  | O => (c, st)
  | S k' =>
    if (original_edges st <? target) && (attempts <? max_attempts) then
      let u := Z.rem (rand_seq c) (n_nodes st) in
      let v := Z.rem (rand_seq (S c)) (n_nodes st) in
      if negb (u =? v) && (exists_edge st u v =? 0)
         && (degree st u <? MAX_NEIGHBORS) && (degree st v <? MAX_NEIGHBORS)
      then
        let dist := Z.abs (u - v) in
        let st :=
          if accept dist (rand_seq (S (S c)))
          then set_original_edges (original_edges st + 1) (link u v st)
          else st in
        cross_edges k' target (attempts + 1) max_attempts (S (S (S c))) st
      else cross_edges k' target (attempts + 1) max_attempts (S (S c)) st
    else (c, st)
  end.

(** [generate_random_topology]; [c] is the cursor in the stream of random
    numbers, returned advanced. *)
Definition generate_random_topology (c : nat) (st : state) : nat * state :=
  let '(c, st) := backbone (Z.to_nat (n_nodes st - 1)) 1 c st in
  let target := target_edges (n_nodes st) in
  let max_attempts := target * 3 in
  cross_edges (Z.to_nat max_attempts) target 0 max_attempts c st.
End Generator.

(** ** Tarjan's depth-first search ([tarjan_dfs_bicomp]) *)

(** The guarded push, written twice in the source:
<<
      if(stack_top < MAX_NODES * 10 - 1) {
        edge_stack[stack_top].u = u;
        edge_stack[stack_top].v = v;
        stack_top++;
      }
>> *)
Definition push_edge (u v : Z) (st : state) : state :=
  if stack_top st <? MAX_NODES * 10 - 1 then
    let st := set_edge_stack (upd (edge_stack st) (stack_top st) (mkEdge u v)) st in
    set_stack_top (stack_top st + 1) st
  else st.

(** [if(!in_block[x]) { in_block[x] = 1;
      block_nodes[num_blocks][block_size[num_blocks]++] = x; }]
    where [in_block] is the local array of the enclosing block. *)
Definition add_to_block (x : Z) (in_block : Z -> Z) (st : state)
    : (Z -> Z) * state :=
  if in_block x =? 0 then
    let b := num_blocks st in
    let st := set_block_nodes (upd2 (block_nodes st) b (block_size st b) x) st in
    (upd in_block x 1, set_block_size (upd (block_size st) b (block_size st b + 1)) st)
  else (in_block, st).

(** The [do { ... } while(!(e.u == u && e.v == v) && stack_top > 0)] loop
    that carves a block out of the edge stack.  Every round takes one edge
    off the stack, so [stack_top] rounds are enough: [k] is started at
    [stack_top] and never runs out while the loop condition holds. *)
Fixpoint pop_until (k : nat) (u v : Z) (in_block : Z -> Z) (st : state) : state :=
  match k with
  | O => st
  | S k' =>
    if stack_top st <=? 0 then st
    else
      let st := set_stack_top (stack_top st - 1) st in
      let e := edge_stack st (stack_top st) in
      let '(in_block, st) := add_to_block (e_u e) in_block st in
      let '(in_block, st) := add_to_block (e_v e) in_block st in
      if negb ((e_u e =? u) && (e_v e =? v)) && (0 <? stack_top st)
      then pop_until k' u v in_block st
      else st
  end.

(** The [while(stack_top > 0)] loop of the root. *)
Fixpoint pop_all (k : nat) (in_block : Z -> Z) (st : state) : state :=
  match k with
  | O => st
  | S k' =>
    if 0 <? stack_top st then
      let st := set_stack_top (stack_top st - 1) st in
      let e := edge_stack st (stack_top st) in
      let '(in_block, st) := add_to_block (e_u e) in_block st in
      let '(in_block, st) := add_to_block (e_v e) in_block st in
      pop_all k' in_block st
    else st
  end.

(** What [u] does when the call on its child [v] has returned. *)
Definition after_child (u v children : Z) (st : state) : state :=
  let st := if low st v <? low st u then set_low (upd (low st) u (low st v)) st else st in
  if ((parent_tarjan st u =? -1) && (1 <? children))
     || (negb (parent_tarjan st u =? -1) && (disc st u <=? low st v))
  then
    let st := set_is_cut (upd (is_cut st) u 1) st in
    if num_blocks st <? MAX_BLOCKS then
      let st := pop_until (Z.to_nat (stack_top st)) u v (fun _ => 0) st in
      set_num_blocks (num_blocks st + 1) st
    else st
  else st.

(** The back-edge branch. *)
Definition back_edge (u v : Z) (st : state) : state :=
  let st := push_edge u v st in
  if disc st v <? low st u then set_low (upd (low st) u (disc st v)) st else st.

(** [for(int i = 0; i < degree[u]; i++)], with the recursive call as a
    parameter.  [None] means that the recursion ran out of fuel, or that the
    loop did ([k] is started at [degree[u]], which the search never writes). *)
Fixpoint dfs_loop (rec : Z -> state -> option state) (k : nat)
    (u i children : Z) (st : state) : option (Z * state) :=
  if i <? degree st u then
    match k with
    | O => None
    | S k' =>
      let v := neighbors st u i in
      if visited st v =? 0 then
        let children := children + 1 in
        let st := set_parent_tarjan (upd (parent_tarjan st) v u) st in
        let st := push_edge u v st in
        match rec v st with
        | None => None
        | Some st => dfs_loop rec k' u (i + 1) children (after_child u v children st)
        end
      else if negb (v =? parent_tarjan st u) && (disc st v <? disc st u) then
        dfs_loop rec k' u (i + 1) children (back_edge u v st)
      else dfs_loop rec k' u (i + 1) children st
    end
  else Some (children, st).

(** "Handle remaining edges for root". *)
Definition root_block (u children : Z) (st : state) : state :=
  if (parent_tarjan st u =? -1) && (children <=? 1)
     && (0 <? stack_top st) && (num_blocks st <? MAX_BLOCKS)
  then
    let st := pop_all (Z.to_nat (stack_top st)) (fun _ => 0) st in
    set_num_blocks (num_blocks st + 1) st
  else st.

(** [visited[u] = 1; disc[u] = low[u] = ++time_dfs;] *)
Definition discover (u : Z) (st : state) : state :=
  let st := set_visited (upd (visited st) u 1) st in
  let st := set_time_dfs (time_dfs st + 1) st in
  let st := set_low (upd (low st) u (time_dfs st)) st in
  set_disc (upd (disc st) u (low st u)) st.

(** [tarjan_dfs_bicomp]; [fuel] bounds the depth of the recursion. *)
Fixpoint tarjan_dfs_bicomp (fuel : nat) (u : Z) (st : state) : option state :=
  match fuel with
  | O => None
  | S fuel' =>
    let st := discover u st in
    match dfs_loop (tarjan_dfs_bicomp fuel') (Z.to_nat (degree st u)) u 0 0 st with
    | None => None
    | Some (children, st) => Some (root_block u children st)
    end
  end.

(** ** [find_biconnected_components] *)

(** The six [memset]s and the three counters. *)
Definition reset_analysis (st : state) : state :=
  let st := set_visited (fun _ => 0) st in
  let st := set_parent_tarjan (fun _ => -1) st in
  let st := set_disc (fun _ => 0) st in
  let st := set_low (fun _ => 0) st in
  let st := set_is_cut (fun _ => 0) st in
  let st := set_block_size (fun _ => 0) st in
  let st := set_num_blocks 0 st in
  let st := set_stack_top 0 st in
  set_time_dfs 0 st.

(** [for(int i = 0; i < n_nodes; i++) if(!visited[i]) ...]; a search never
    goes deeper than the number of nodes, which is its fuel. *)
Fixpoint find_loop (k : nat) (i : Z) (st : state) : option state :=
  if i <? n_nodes st then
    match k with
    | O => None
    | S k' =>
      if visited st i =? 0 then
        let st := set_parent_tarjan (upd (parent_tarjan st) i (-1)) st in
        match tarjan_dfs_bicomp (Z.to_nat (n_nodes st)) i st with
        | None => None
        | Some st => find_loop k' (i + 1) st
        end
      else find_loop k' (i + 1) st
    end
  else Some st.

Definition find_biconnected_components (st : state) : option state :=
  let st := reset_analysis st in
  find_loop (Z.to_nat (n_nodes st)) 0 st.

(** ** Block-cut classifier *)

(** Inner loop of [identify_leaf_blocks]: counts the cut vertices among the
    [k] members of block [b] from position [i] on. *)
Fixpoint count_cut (st : state) (b : Z) (k : nat) (i cut_count : Z) : Z :=
  match k with
  | O => cut_count
  | S k' =>
    let node := block_nodes st b i in
    count_cut st b k' (i + 1) (if is_cut st node =? 0 then cut_count else cut_count + 1)
  end.

(** Outer loop, [for(int b = 0; b < num_blocks; b++)]. *)
Fixpoint leaf_loop (k : nat) (b : Z) (st : state) : state :=
  match k with
  | O => st
  | S k' =>
    let cut_count := count_cut st b (Z.to_nat (block_size st b)) 0 0 in
    let st :=
      if cut_count =? 1 then
        let st := set_is_leaf_block (upd (is_leaf_block st) b 1) st in
        let st := set_leaf_blocks (upd (leaf_blocks st) (num_leaf_blocks st) b) st in
        set_num_leaf_blocks (num_leaf_blocks st + 1) st
      else st in
    leaf_loop k' (b + 1) st
  end.

Definition identify_leaf_blocks (st : state) : state :=
  let st := set_num_leaf_blocks 0 st in
  let st := set_is_leaf_block (fun _ => 0) st in
  leaf_loop (Z.to_nat (num_blocks st)) 0 st.

(** [find_non_cut_in_block]: the loop with its early [return], then the
    fallback. *)
Fixpoint first_non_cut (st : state) (block : Z) (k : nat) (i : Z) : option Z :=
  match k with
  | O => None
  | S k' =>
    let node := block_nodes st block i in
    if is_cut st node =? 0 then Some node else first_non_cut st block k' (i + 1)
  end.

Definition find_non_cut_in_block (st : state) (block : Z) : Z :=
  match first_non_cut st block (Z.to_nat (block_size st block)) 0 with
  | Some node => node
  | None => if 0 <? block_size st block then block_nodes st block 0 else -1
  end.

(** ** Redundancy planner ([add_optimal_redundant_edges]) *)

(** One round of the pairing loop, at index [i]. *)
Definition plan_pair (i : Z) (st : state) : state :=
  let block1 := leaf_blocks st i in
  let block2 := if i + 1 <? num_leaf_blocks st then leaf_blocks st (i + 1) else leaf_blocks st 0 in
  let node1 := find_non_cut_in_block st block1 in
  let node2 := find_non_cut_in_block st block2 in
  if negb (node1 =? -1) && negb (node2 =? -1) && negb (node1 =? node2)
     && (exists_edge st node1 node2 =? 0)
  then
    if (degree st node1 <? MAX_NEIGHBORS) && (degree st node2 <? MAX_NEIGHBORS) then
      let st := link node1 node2 st in
      let st := set_redundant_edge (upd2 (redundant_edge st) node2 node1 1) st in
      let st := set_redundant_edge (upd2 (redundant_edge st) node1 node2 1) st in
      set_redundant_edges_added (redundant_edges_added st + 1) st
    else st
  else st.

(** [for(int i = 0; i < num_leaf_blocks; i += 2)]: at most
    [num_leaf_blocks] rounds. *)
Fixpoint plan_loop (k : nat) (i : Z) (st : state) : state :=
  match k with
  | O => st
  | S k' =>
    if i <? num_leaf_blocks st then plan_loop k' (i + 2) (plan_pair i st) else st
  end.

Definition add_optimal_redundant_edges (st : state) : state :=
  let st := identify_leaf_blocks st in
  let st := set_redundant_edges_added 0 st in
  plan_loop (Z.to_nat (num_leaf_blocks st)) 0 st.

(** ** Reading the results *)

(** Members of block [b], in the order they were recorded. *)
Definition block_members (st : state) (b : Z) : list Z :=
  map (fun i => block_nodes st b (Z.of_nat i)) (seq 0 (Z.to_nat (block_size st b))).

(** The list of blocks. *)
Definition blocks (st : state) : list (list Z) :=
  map (fun b => block_members st (Z.of_nat b)) (seq 0 (Z.to_nat (num_blocks st))).

(** Nodes flagged as cut vertices, among [0 .. n_nodes - 1]. *)
Definition cut_vertices (st : state) : list Z :=
  filter (fun v => negb (is_cut st v =? 0)) (map Z.of_nat (seq 0 (Z.to_nat (n_nodes st)))).

(** Leaf blocks, in the order [identify_leaf_blocks] recorded them. *)
Definition leaf_list (st : state) : list Z :=
  map (fun i => leaf_blocks st (Z.of_nat i)) (seq 0 (Z.to_nat (num_leaf_blocks st))).

(** ** Scenario graphs *)

Definition graph_of_edges (n : Z) (edges : list (Z * Z)) : state :=
  fold_left (fun st e => set_original_edges (original_edges st + 1) (link (fst e) (snd e) st))
    edges (init_arrays (boot n)).

Definition star7 : state :=
  graph_of_edges 7 [(0,1); (0,2); (0,3); (0,4); (0,5); (0,6)].

Definition path5 : state :=
  graph_of_edges 5 [(0,1); (1,2); (2,3); (3,4)].

Definition triangle : state :=
  graph_of_edges 3 [(0,1); (1,2); (2,0)].

(** The star on ten nodes, the smallest node count the process accepts on
    its command line; the generator yields it when every tree parent drawn
    is node 0 and no cross edge is accepted. *)
Definition star10 : state :=
  graph_of_edges 10 [(0,1); (0,2); (0,3); (0,4); (0,5); (0,6); (0,7); (0,8); (0,9)].


(** A run of the generator on ten nodes: the random stream is 0, 1, 2, ...,
    the edge target is [n_nodes * 1.5] and every candidate cross edge is
    accepted. *)
Definition generated10 : state :=
  snd (generate_random_topology Z.of_nat (fun n => n * 15 / 10) (fun _ _ => true)
         0 (init_arrays (boot 10))).

(** A leaf block whose representative has no spare capacity: node 0 hangs
    off node 1, which closes the cycle 1-2-...-82-1; node 82 is moreover
    linked to 3, ..., 80 and so has [MAX_NEIGHBORS] neighbours. *)
Definition fan83 : state :=
  graph_of_edges 83
    ((0, 1) :: map (fun i => (Z.of_nat i, Z.of_nat i + 1)) (seq 1 81)
     ++ (82, 1) :: map (fun k => (82, Z.of_nat k)) (seq 3 78)).
(** ** Reference definitions

    What the design document says, written independently of the code, to be
    compared with it. *)

(** A well-formed input of the analyzer and of the planner: a simple
    undirected graph on the nodes [0 .. n_nodes - 1] that respects the
    configured bounds. *)
Record simple_graph (st : state) : Prop := {
  sg_nodes : 0 <= n_nodes st <= MAX_NODES;
  sg_degree : forall u, 0 <= u < n_nodes st -> 0 <= degree st u <= MAX_NEIGHBORS;
  sg_range : forall u v, 0 <= u < n_nodes st ->
    In v (neighbor_list st u) -> 0 <= v < n_nodes st;
  sg_sym : forall u v, 0 <= u < n_nodes st ->
    In v (neighbor_list st u) -> In u (neighbor_list st v);
  sg_irrefl : forall u, 0 <= u < n_nodes st -> ~ In u (neighbor_list st u);
  sg_nodup : forall u, 0 <= u < n_nodes st -> NoDup (neighbor_list st u)
}.

(** The members of every recorded block are node identities. *)
Definition blocks_in_range (st : state) : Prop :=
  forall b x, 0 <= b < num_blocks st -> In x (block_members st b) ->
    0 <= x < n_nodes st.

(** The same, as a test. *)
Definition blocks_in_rangeb (st : state) : bool :=
  forallb (forallb (fun x => (0 <=? x) && (x <? n_nodes st))) (blocks st).

(** *** Classifier *)

(** Number of members of block [b] flagged as cut vertices. *)
Definition cut_members (st : state) (b : Z) : nat :=
  length (filter (fun x => negb (is_cut st x =? 0)) (block_members st b)).

(** "Exactly one => leaf block". *)
Definition spec_is_leaf (st : state) (b : Z) : bool :=
  Nat.eqb (cut_members st b) 1.

(** "an ordered list of leaf-block indices in block-discovery order". *)
Definition spec_leaves (st : state) : list Z :=
  filter (spec_is_leaf st) (map Z.of_nat (seq 0 (Z.to_nat (num_blocks st)))).

(** "returns a non-cut-vertex member if one exists; otherwise the first
    member". *)
Definition spec_representative (st : state) (b : Z) : Z :=
  match find (fun x => is_cut st x =? 0) (block_members st b) with
  | Some x => x
  | None => hd (-1) (block_members st b)
  end.

(** *** Planner *)

(** "[(leaf[0], leaf[1])], [(leaf[2], leaf[3])], ...; if the leaf count is
    odd, the final unpaired leaf is paired with [leaf[0]]". *)
Fixpoint spec_pairs_from (first : Z) (l : list Z) : list (Z * Z) :=
  match l with
  | [] => []
  | [x] => [(x, first)]
  | x :: y :: r => (x, y) :: spec_pairs_from first r
  end.

Definition spec_pairs (l : list Z) : list (Z * Z) :=
  spec_pairs_from (hd 0 l) l.

(** "add an edge between their representative nodes provided: the two
    representatives differ, the edge does not already exist, and both have
    spare neighbor capacity". *)
Definition spec_may_connect (st : state) (a b : Z) : bool :=
  negb (a =? b) && (exists_edge st a b =? 0)
  && (degree st a <? MAX_NEIGHBORS) && (degree st b <? MAX_NEIGHBORS).

(** The insertion: a bidirectional link, both degrees incremented, the edge
    tagged redundant in both directions and counted. *)
Definition spec_insert (a b : Z) (st : state) : state :=
  let st := link a b st in
  let st := set_redundant_edge (upd2 (redundant_edge st) b a 1) st in
  let st := set_redundant_edge (upd2 (redundant_edge st) a b 1) st in
  set_redundant_edges_added (redundant_edges_added st + 1) st.

Definition spec_connect (st : state) (p : Z * Z) : state :=
  let a := spec_representative st (fst p) in
  let b := spec_representative st (snd p) in
  if spec_may_connect st a b then spec_insert a b st else st.

(** The planner of the design document. *)
Definition spec_planner (st : state) : state :=
  fold_left spec_connect (spec_pairs (spec_leaves st)) st.

(** Sum of [f] over a list of indices. *)
Definition zsum (f : Z -> Z) (l : list Z) : Z := fold_right Z.add 0 (map f l).

(** The node identities [0 .. n - 1]. *)
Definition nodes (n : Z) : list Z := map Z.of_nat (seq 0 (Z.to_nat n)).

(** Sum of the degrees of the nodes: twice the number of links. *)
Definition total_degree (st : state) : Z := zsum (degree st) (nodes (n_nodes st)).

(** [l1] is an initial segment of [l2]. *)
Definition prefix_of (l1 l2 : list Z) : Prop := exists r, l2 = l1 ++ r.

(** The adjacency store is the same in both states. *)
Definition same_graph (st st' : state) : Prop :=
  n_nodes st' = n_nodes st /\ neighbors st' = neighbors st /\
  degree st' = degree st /\ exists_edge st' = exists_edge st.

(** The results of the analysis are the same in both states. *)
Definition same_analysis (st st' : state) : Prop :=
  is_cut st' = is_cut st /\ block_nodes st' = block_nodes st /\
  block_size st' = block_size st /\ num_blocks st' = num_blocks st.

(** The leaf-block classification is the same in both states. *)
Definition same_leaves (st st' : state) : Prop :=
  is_leaf_block st' = is_leaf_block st /\ leaf_blocks st' = leaf_blocks st /\
  num_leaf_blocks st' = num_leaf_blocks st.

(** The state the analysis of [st] ends in ([st] itself should the search
    run out of fuel, which it does not on a well-formed graph). *)
Definition analyzed (st : state) : state :=
  match find_biconnected_components st with
  | Some st' => st'
  | None => st
  end.

(** What [identify_leaf_blocks] leaves alone: everything but its three
    outputs. *)
Definition leaf_frame (st st' : state) : Prop :=
  same_graph st st' /\ same_analysis st st' /\
  redundant_edge st' = redundant_edge st /\
  original_edges st' = original_edges st /\
  redundant_edges_added st' = redundant_edges_added st.

(** [st'] has every link of [st], at the same place: no degree went down,
    no cell of a neighbour list was overwritten, no flag of the adjacency
    matrix was cleared. *)
Definition grows (st st' : state) : Prop :=
  (forall w, degree st w <= degree st' w) /\
  (forall w j, 0 <= j < degree st w -> neighbors st' w j = neighbors st w j) /\
  (forall u v, exists_edge st u v <> 0 -> exists_edge st' u v <> 0).

(** The invariant of the graph store: degrees within the capacity, links
    recorded in both directions, in the lists and in the matrix alike. *)
Record adjacency_ok (st : state) : Prop := {
  ok_bound : forall u, 0 <= degree st u <= MAX_NEIGHBORS;
  ok_length : forall u, Z.of_nat (length (neighbor_list st u)) = degree st u;
  ok_sym : forall u v, In v (neighbor_list st u) <-> In u (neighbor_list st v);
  ok_matrix : forall u v, exists_edge st u v <> 0 <-> In v (neighbor_list st u)
}.



(** Every link that [st'] has and [st] had not is tagged redundant in both
    directions. *)
Definition new_links_tagged (st st' : state) : Prop :=
  forall u v, exists_edge st u v = 0 -> exists_edge st' u v <> 0 ->
    redundant_edge st' u v = 1 /\ redundant_edge st' v u = 1.

(** [st'] is [st] with one more link, between [a] and [b]: each of the two
    is entered at the end of the other's neighbour list, their degrees go
    up by one, the link is flagged in the adjacency matrix and tagged
    redundant, in both directions, and counted once; the entries the lists
    had, the other degrees, flags and tags, the node count, the analysis
    and the classification are as in [st]. *)
Record inserted (a b : Z) (st st' : state) : Prop := {
  ins_last_a : neighbors st' a (degree st a) = b;
  ins_last_b : neighbors st' b (degree st b) = a;
  ins_degree : forall w,
    degree st' w = degree st w + (if (w =? a) || (w =? b) then 1 else 0);
  ins_lists : forall w j, 0 <= j < degree st w -> neighbors st' w j = neighbors st w j;
  ins_matrix : forall u v,
    exists_edge st' u v =
    if ((u =? a) && (v =? b)) || ((u =? b) && (v =? a)) then 1 else exists_edge st u v;
  ins_tags : forall u v,
    redundant_edge st' u v =
    if ((u =? a) && (v =? b)) || ((u =? b) && (v =? a)) then 1 else redundant_edge st u v;
  ins_count : redundant_edges_added st' = redundant_edges_added st + 1;
  ins_nodes : n_nodes st' = n_nodes st;
  ins_analysis : same_analysis st st';
  ins_leaves : same_leaves st st'
}.

(** The planner of the design document as a relation between stores, which
    says what a pair does and not how: [planned l st st'] when [st'] is
    reached from [st] by going through the pairs of leaf blocks of [l] in
    order, a pair inserting a link between the representatives of its two
    blocks when they differ, are not linked yet and both have spare
    capacity in the store the earlier pairs left, and nothing otherwise. *)
Inductive planned : list (Z * Z) -> state -> state -> Prop :=
| planned_done (s : state) : planned [] s s
| planned_link (p : Z * Z) (l : list (Z * Z)) (s s1 s' : state) :
    spec_may_connect s (spec_representative s (fst p))
                       (spec_representative s (snd p)) = true ->
    inserted (spec_representative s (fst p)) (spec_representative s (snd p)) s s1 ->
    planned l s1 s' -> planned (p :: l) s s'
| planned_skip (p : Z * Z) (l : list (Z * Z)) (s s' : state) :
    spec_may_connect s (spec_representative s (fst p))
                       (spec_representative s (snd p)) = false ->
    planned l s s' -> planned (p :: l) s s'.

(** What the analysis never writes: the configuration, the adjacency store,
    the classifier's outputs, the redundancy tags and the two statistics. *)
Definition analysis_frame (st st' : state) : Prop :=
  same_graph st st' /\ same_leaves st st' /\
  redundant_edge st' = redundant_edge st /\
  original_edges st' = original_edges st /\
  redundant_edges_added st' = redundant_edges_added st.

(** *** Runs of the pipeline *)

(** The operations on the globals; [Generate c] runs the generator with the
    random cursor at [c]. *)
Inductive operation : Type :=
| Init
| Generate (c : nat)
| Analyze
| Plan.

Section Runs.
Variable rand_seq : nat -> Z.
Variable target_edges : Z -> Z.
Variable accept : Z -> Z -> bool.

Definition apply_operation (o : operation) (st : state) : option state :=
  match o with
  | Init => Some (init_arrays st)
  | Generate c => Some (snd (generate_random_topology rand_seq target_edges accept c st))
  | Analyze => find_biconnected_components st
  | Plan => Some (add_optimal_redundant_edges st)
  end.

(** A sequence of operations, first to last. *)
Fixpoint run (ops : list operation) (st : state) : option state :=
  match ops with
  | [] => Some st
  | o :: ops' =>
    match apply_operation o st with
    | Some st' => run ops' st'
    | None => None
    end
  end.
End Runs.

(** *** Partition of the edges *)

(** The blocks whose node set holds both ends of the link [u - v]. *)
Definition blocks_of_edge (st : state) (u v : Z) : list Z :=
  filter (fun b => existsb (Z.eqb u) (block_members st b)
                   && existsb (Z.eqb v) (block_members st b))
         (nodes (num_blocks st)).

(** "every edge belongs to exactly one block". *)
Definition edges_partitioned (st : state) : Prop :=
  forall u v, In v (neighbor_list st u) -> length (blocks_of_edge st u v) = 1%nat.

(** *** The scenarios of the design document *)

(** Path [0-1-2-3-4], with the number of blocks left open: cut vertices
    [{1,2,3}]; [k] blocks, each a single edge; exactly two leaf blocks,
    [{0,1}] and [{3,4}]; the planner adds exactly one edge, between the
    representatives of those two blocks; the analysis of the result reports
    no cut vertex. *)
Definition path_scenario (k : nat) : Prop :=
  exists st, find_biconnected_components path5 = Some st /\
    cut_vertices st = [1; 2; 3] /\
    length (blocks st) = k /\
    Forall (fun b => exists u v, b = [u; v] /\ In v (neighbor_list st u)) (blocks st) /\
    map (block_members st) (spec_leaves st) = [[3; 4]; [0; 1]] /\
    let st' := add_optimal_redundant_edges st in
    redundant_edges_added st' = 1 /\
    map (spec_representative st) (spec_leaves st) = [4; 0] /\
    map (neighbor_list st') (nodes 5) = [[1; 4]; [0; 2]; [1; 3]; [2; 4]; [3; 0]] /\
    exists st2, find_biconnected_components st' = Some st2 /\ cut_vertices st2 = [].

(** *** Reasoning about the search *)

(** [w] has been discovered. *)
Definition vis (s : state) (w : Z) : Prop := visited s w <> 0.

(** Number of nodes not discovered yet: the depth left to the recursion. *)
Definition unvisited_count (s : state) : nat :=
  length (filter (fun w => visited s w =? 0) (nodes (n_nodes s))).

(** The six variables of Tarjan's algorithm proper are the same in both
    states (the edge stack and the blocks may differ). *)
Definition same_core (s s' : state) : Prop :=
  visited s' = visited s /\ disc s' = disc s /\ low s' = low s /\
  parent_tarjan s' = parent_tarjan s /\ time_dfs s' = time_dfs s /\
  is_cut s' = is_cut s.

(** The state in which the call on the child [v] of [u] starts. *)
Definition enter_child (u v : Z) (t : state) : state :=
  push_edge u v (set_parent_tarjan (upd (parent_tarjan t) v u) t).

(** [simple_graph] as a test. *)
Definition simple_graphb (st : state) : bool :=
  (0 <=? n_nodes st) && (n_nodes st <=? MAX_NODES) &&
  forallb (fun u =>
      (0 <=? degree st u) && (degree st u <=? MAX_NEIGHBORS)
      && forallb (fun v => (0 <=? v) && (v <? n_nodes st)
                           && existsb (Z.eqb u) (neighbor_list st v)
                           && negb (v =? u))
                 (neighbor_list st u)
      && (length (nodup Z.eq_dec (neighbor_list st u)) =? length (neighbor_list st u))%nat)
    (nodes (n_nodes st)).

(** The neighbours of the nodes are nodes: all the search needs to
    terminate. *)
Definition neighbors_in_range (g : state) : Prop :=
  forall u j, 0 <= u < n_nodes g -> 0 <= j < degree g u ->
    0 <= neighbors g u j < n_nodes g.


(** Precondition, postcondition and loop invariant for the termination of
    the search on the graph of [g]. *)
Definition term_pre (g : state) (u : Z) (s : state) : Prop :=
  same_graph g s /\ 0 <= u < n_nodes g /\ visited s u = 0.

Definition term_post (g : state) (u : Z) (s s' : state) : Prop :=
  same_graph g s' /\ (forall w, vis s w -> vis s' w) /\ vis s' u.

Definition term_inv (g : state) (s : state) (u i ch : Z) (t : state) : Prop :=
  same_graph g t /\ (forall w, vis (discover u s) w -> vis t w).

(** Two states that the analysis cannot tell apart: same graph, same
    variables of the search, same live part of the edge stack (below
    [stack_top]) and of the blocks (below each [block_size]).  The cells
    above may hold anything, left by an earlier run. *)
Definition sim (s1 s2 : state) : Prop :=
  same_graph s1 s2 /\ same_core s1 s2 /\
  stack_top s2 = stack_top s1 /\
  (forall j, 0 <= j < stack_top s1 -> edge_stack s2 j = edge_stack s1 j) /\
  num_blocks s2 = num_blocks s1 /\ block_size s2 = block_size s1 /\
  (forall b j, 0 <= j < block_size s1 b -> block_nodes s2 b j = block_nodes s1 b j).

(** *** Capacity bounds *)

(** Round [i] of the planner meets a pair of distinct, unlinked
    representatives of which one has no spare neighbour capacity. *)
Definition capacity_skip (st : state) (i : Z) : Prop :=
  let a := find_non_cut_in_block st (leaf_blocks st i) in
  let b := find_non_cut_in_block st
             (if i + 1 <? num_leaf_blocks st then leaf_blocks st (i + 1)
              else leaf_blocks st 0) in
  a <> -1 /\ b <> -1 /\ a <> b /\ exists_edge st a b = 0 /\
  (MAX_NEIGHBORS <= degree st a \/ MAX_NEIGHBORS <= degree st b).

(** "Must be surfaced to the caller (counter or result flag)": the
    functions return nothing, so a round that hits the bound would have to
    change some global. *)
Definition capacity_surfaced : Prop :=
  forall st i, capacity_skip st i -> plan_pair i st <> st.

(** The state of the planner when it enters its pairing loop. *)
Definition classified (st : state) : state :=
  set_redundant_edges_added 0 (identify_leaf_blocks st).

(** The stack and the blocks are the same in both states. *)
Definition same_stack_and_blocks (st st' : state) : Prop :=
  edge_stack st' = edge_stack st /\ stack_top st' = stack_top st /\
  block_nodes st' = block_nodes st /\ block_size st' = block_size st /\
  num_blocks st' = num_blocks st.

(** *** Articulation points, by reachability

    The reference notion the cut flags are compared with: [v] is an
    articulation point when two of the other nodes are joined by no path
    that avoids [v]. *)

(** [w] is a node of the graph. *)
Definition inr (g : state) (w : Z) : Prop := 0 <= w < n_nodes g.

(** [v] is in the neighbour list of the node [u]. *)
Definition adj (g : state) (u v : Z) : Prop := inr g u /\ In v (neighbor_list g u).

(** There is a path from [a] to [b] all of whose nodes satisfy [S]. *)
Inductive conn_in (g : state) (S : Z -> Prop) : Z -> Z -> Prop :=
| conn_refl : forall a, S a -> conn_in g S a a
| conn_step : forall a b c, S a -> adj g a b -> conn_in g S b c -> conn_in g S a c.

(** The nodes that remain when [v] is removed. *)
Definition avoid (g : state) (v : Z) (w : Z) : Prop := inr g w /\ w <> v.

Definition connected (g : state) : Prop :=
  forall a b, inr g a -> inr g b -> conn_in g (inr g) a b.

Definition articulation (g : state) (v : Z) : Prop :=
  exists a b, avoid g v a /\ avoid g v b /\ ~ conn_in g (avoid g v) a b.

(** *** The variables of the search, on their own *)

Record core : Type := mkCore {
  c_visited : Z -> Z;
  c_disc : Z -> Z;
  c_low : Z -> Z;
  c_parent : Z -> Z;
  c_time : Z;
  c_is_cut : Z -> Z
}.

Definition core_of (s : state) : core :=
  mkCore (visited s) (disc s) (low s) (parent_tarjan s) (time_dfs s) (is_cut s).

(** What the operations of the search do to them. *)
Definition core_discover (u : Z) (c : core) : core :=
  mkCore (upd (c_visited c) u 1) (upd (c_disc c) u (c_time c + 1))
         (upd (c_low c) u (c_time c + 1)) (c_parent c) (c_time c + 1) (c_is_cut c).

Definition core_enter (u v : Z) (c : core) : core :=
  mkCore (c_visited c) (c_disc c) (c_low c) (upd (c_parent c) v u) (c_time c) (c_is_cut c).

Definition core_cut_test (u v children : Z) (c : core) : bool :=
  ((c_parent c u =? -1) && (1 <? children))
  || (negb (c_parent c u =? -1) && (c_disc c u <=? c_low c v)).

Definition core_after_child (u v children : Z) (c : core) : core :=
  mkCore (c_visited c) (c_disc c)
         (if c_low c v <? c_low c u then upd (c_low c) u (c_low c v) else c_low c)
         (c_parent c) (c_time c)
         (if core_cut_test u v children c then upd (c_is_cut c) u 1 else c_is_cut c).

Definition core_back_edge (u v : Z) (c : core) : core :=
  mkCore (c_visited c) (c_disc c)
         (if c_disc c v <? c_low c u then upd (c_low c) u (c_disc c v) else c_low c)
         (c_parent c) (c_time c) (c_is_cut c).

(** [w] has been discovered. *)
Definition cvis (c : core) (w : Z) : Prop := c_visited c w <> 0.

(** [w] was discovered between [c] and [c']. *)
Definition fresh (c c' : core) (w : Z) : Prop := cvis c' w /\ ~ cvis c w.

(** [w] was discovered, and finished, since the call on [u] started in [c]. *)
Definition settled (c : core) (u : Z) (t : core) (w : Z) : Prop :=
  cvis t w /\ ~ cvis c w /\ w <> u.

(** Precondition of the call on [u]: [u] is an undiscovered node; the
    discovered nodes are nodes, numbered up to the clock, and joined to each
    other through discovered nodes; a root starts with nothing discovered,
    another node is called from a discovered neighbour; no undiscovered node
    is flagged. *)
Record cut_pre (g : state) (u : Z) (c : core) : Prop := {
  pre_node : inr g u;
  pre_unvisited : c_visited c u = 0;
  pre_disc : forall w, cvis c w -> inr g w /\ c_disc c w <= c_time c;
  pre_root : c_parent c u = -1 -> forall w, ~ cvis c w;
  pre_parent : c_parent c u <> -1 -> cvis c (c_parent c u) /\ adj g u (c_parent c u);
  pre_conn : forall a b, cvis c a -> cvis c b -> conn_in g (cvis c) a b;
  pre_cut : forall w, ~ cvis c w -> c_is_cut c w = 0
}.

(** Postcondition of the call on [u], from [c] to [c']. *)
Record cut_post (g : state) (u : Z) (c c' : core) : Prop := {
  post_mono : forall w, cvis c w -> cvis c' w;
  post_self : cvis c' u;
  post_range : forall w, cvis c' w -> inr g w;
  post_disc_self : c_disc c' u = c_time c + 1;
  post_time : c_time c < c_time c';
  post_disc : forall w, fresh c c' w -> c_time c < c_disc c' w <= c_time c';
  post_frame : forall w, ~ fresh c c' w ->
    c_disc c' w = c_disc c w /\ c_low c' w = c_low c w /\ c_is_cut c' w = c_is_cut c w;
  post_parent : forall w, cvis c w -> c_parent c' w = c_parent c w;
  post_closed : forall w x, fresh c c' w -> adj g w x -> cvis c' x;
  post_tree : forall w, fresh c c' w -> conn_in g (fresh c c') w u;
  post_low_le : c_low c' u <= c_disc c' u;
  post_low_witness : c_low c' u = c_disc c' u \/
    exists y x, fresh c c' y /\ adj g y x /\ cvis c x /\ c_disc c x = c_low c' u;
  post_low_bound : forall y x, fresh c c' y -> adj g y x -> cvis c x ->
    ~ (y = u /\ x = c_parent c u) -> c_low c' u <= c_disc c x;
  post_cut : forall w, fresh c c' w -> (c_is_cut c' w <> 0 <-> articulation g w)
}.

(** Invariant of the loop of the call on [u] started in [c], before the
    neighbour of index [i], with [ch] children so far, in [t]. *)
Record cut_inv (g : state) (c : core) (u i ch : Z) (t : core) : Prop := {
  inv_index : 0 <= i;
  inv_self : cvis t u;
  inv_mono : forall w, cvis c w -> cvis t w;
  inv_range : forall w, cvis t w -> inr g w;
  inv_disc_self : c_disc t u = c_time c + 1;
  inv_time : c_time c < c_time t;
  inv_disc : forall w, settled c u t w -> c_time c + 1 < c_disc t w <= c_time t;
  inv_frame : forall w, ~ settled c u t w -> w <> u ->
    c_disc t w = c_disc c w /\ c_low t w = c_low c w /\ c_is_cut t w = c_is_cut c w;
  inv_parent : forall w, cvis c w \/ w = u -> c_parent t w = c_parent c w;
  inv_scan : forall j, 0 <= j < i -> j < degree g u -> cvis t (neighbors g u j);
  inv_closed : forall w x, settled c u t w -> adj g w x -> cvis t x;
  inv_tree : forall w, settled c u t w ->
    conn_in g (fun z => settled c u t z \/ z = u) w u;
  inv_low_le : c_low t u <= c_disc t u;
  inv_low_witness : c_low t u = c_disc t u \/
    exists y x, (settled c u t y \/ y = u) /\ adj g y x /\ cvis c x /\
      c_disc c x = c_low t u;
  inv_low_bound : forall y x,
    settled c u t y \/ (y = u /\ exists j, 0 <= j < i /\ j < degree g u /\ x = neighbors g u j) ->
    adj g y x -> cvis c x -> ~ (y = u /\ x = c_parent c u) -> c_low t u <= c_disc c x;
  inv_children : 0 <= ch /\ (ch = 0 -> forall w, ~ settled c u t w) /\
    (0 < ch -> exists w, settled c u t w);
  inv_cut_sound : c_is_cut t u <> 0 -> articulation g u;
  inv_cut_complete : c_is_cut t u = 0 ->
    forall a b, cvis t a -> a <> u -> cvis t b -> b <> u -> conn_in g (avoid g u) a b;
  inv_conn : forall a b, cvis t a -> cvis t b -> conn_in g (cvis t) a b;
  inv_settled_cut : forall w, settled c u t w -> (c_is_cut t w <> 0 <-> articulation g w)
}.

(** Precondition, postcondition and loop invariant of the search, on the
    whole state. *)
Definition dfs_pre (g : state) (u : Z) (s : state) : Prop :=
  same_graph g s /\ cut_pre g u (core_of s).

Definition dfs_post (g : state) (u : Z) (s s' : state) : Prop :=
  same_graph g s' /\ cut_post g u (core_of s) (core_of s').

Definition dfs_inv (g : state) (s : state) (u i ch : Z) (t : state) : Prop :=
  same_graph g t /\ cut_inv g (core_of s) u i ch (core_of t).

(** Brute-force reachability: the nodes within [k] steps of those of [l]. *)
Fixpoint within (g : state) (k : nat) (l : list Z) : list Z :=
  match k with
  | O => l
  | S k' => within g k' (l ++ flat_map (neighbor_list g) l)
  end.

(** Every node is within [n_nodes] steps of node 0. *)
Definition connectedb (g : state) : bool :=
  forallb (fun w => existsb (Z.eqb w) (within g (Z.to_nat (n_nodes g)) [0]))
          (nodes (n_nodes g)).

(** *** The brute-force oracle

    Reachability in the graph without [v]: a list of nodes is closed under
    the neighbour relation, one round per node of the graph. *)
Definition reach_step (g : state) (v : Z) (l : list Z) : list Z :=
  l ++ filter (fun w => negb (w =? v)) (flat_map (neighbor_list g) l).

Fixpoint reach (g : state) (v : Z) (k : nat) (l : list Z) : list Z :=
  match k with
  | O => l
  | S k' => reach g v k' (reach_step g v l)
  end.

(** The number of distinct members of a list. *)
Definition card (l : list Z) : nat := length (nodup Z.eq_dec l).

(** [v] is an articulation point when, with [v] removed, some node is not
    reached from the first of the remaining nodes. *)
Definition articulationb (g : state) (v : Z) : bool :=
  let others := filter (fun w => negb (w =? v)) (nodes (n_nodes g)) in
  match others with
  | [] => false
  | a :: _ =>
    existsb (fun w => negb (existsb (Z.eqb w) (reach g v (Z.to_nat (n_nodes g)) [a])))
      others
  end.


(** ** Network metrics ([compute_network_metrics])

    The statistics kept beside the graph, in the order of their
    declaration.  The two averages are [double]s, each the quotient of two
    integers: they are kept as the pair (numerator, denominator) of their
    operands. *)
Record metrics : Type := mkMetrics {
  initial_cut_vertices : Z;
  final_cut_vertices : Z;
  avg_degree_initial : Z * Z;
  avg_degree_final : Z * Z;
  max_degree_initial : Z;
  max_degree_final : Z
}.

(** [for(int i = 0; i < n_nodes; i++) if(is_cut[i]) count++;], written in
    [compute_network_metrics] and in [run_meshification]. *)
Fixpoint count_cut_vertices (st : state) (k : nat) (i count : Z) : Z :=
  match k with
  | O => count
  | S k' =>
    count_cut_vertices st k' (i + 1) (if is_cut st i =? 0 then count else count + 1)
  end.

(** [for(...) { sum_degree += degree[i];
      if(degree[i] > max_degree_final) max_degree_final = degree[i]; }] *)
Fixpoint degree_loop (st : state) (k : nat) (i sum_degree max_degree : Z) : Z * Z :=
  match k with
  | O => (sum_degree, max_degree)
  | S k' =>
    degree_loop st k' (i + 1) (sum_degree + degree st i)
      (if max_degree <? degree st i then degree st i else max_degree)
  end.

(** Every statistic is assigned, so the result does not depend on the
    earlier values. *)
Definition compute_network_metrics (st : state) : metrics :=
  let final := count_cut_vertices st (Z.to_nat (n_nodes st)) 0 0 in
  let '(sum_degree, max_degree) := degree_loop st (Z.to_nat (n_nodes st)) 0 0 0 in
  mkMetrics 0 final (2 * original_edges st, n_nodes st) (sum_degree, n_nodes st)
    0 max_degree.

(** ** DOT export ([export_dot_graph])

    The file is the list of the lines written to it; a line is kept as the
    [fprintf] that writes it, with its arguments. *)
Inductive dot_line : Type :=
| DotHeader                  (* graph DODAG { ... and the two attribute lines *)
| DotRoot (u : Z)            (* u [color=blue,...] *)
| DotCut (u : Z)             (* u [color=red,...] *)
| DotRedundant (u v : Z)     (* u -- v [color=#00AA00,penwidth=2.0] *)
| DotEdge (u v : Z)          (* u -- v [color=black] *)
| DotFooter.                 (* } *)

(** Conversion of an [int] to the [char] a cell of [shown] holds ([char] is
    signed on the native target). *)
Definition char_of_int (v : Z) : Z := (v + 128) mod 256 - 128.

(** First loop over the nodes: the root in blue, the other cut vertices in
    red. *)
Fixpoint export_nodes (st : state) (k : nat) (u : Z) : list dot_line :=
  match k with
  | O => []
  | S k' =>
    (if u =? 0 then [DotRoot u]
     else if is_cut st u =? 0 then [] else [DotCut u])
    ++ export_nodes st k' (u + 1)
  end.

(** [for(j = 0; j < MAX_NEIGHBORS; j++)
      if(shown[u][j] == v) { already_shown = 1; break; }] *)
Fixpoint already_shown (shown : Z -> Z -> Z) (u v : Z) (k : nat) (j : Z) : bool :=
  match k with
  | O => false
  | S k' => if shown u j =? v then true else already_shown shown u v k' (j + 1)
  end.

(** [for(j = 0; j < MAX_NEIGHBORS; j++)
      if(shown[u][j] == 0) { shown[u][j] = v; break; }] *)
Fixpoint mark_shown (shown : Z -> Z -> Z) (u v : Z) (k : nat) (j : Z) : Z -> Z -> Z :=
  match k with
  | O => shown
  | S k' =>
    if shown u j =? 0 then upd2 shown u j (char_of_int v)
    else mark_shown shown u v k' (j + 1)
  end.

(** The loop over the neighbours of [u]. *)
Fixpoint export_row (st : state) (show_redundant : Z) (u : Z) (k : nat) (i : Z)
    (shown : Z -> Z -> Z) : (Z -> Z -> Z) * list dot_line :=
  match k with
  | O => (shown, [])
  | S k' =>
    let v := neighbors st u i in
    if u <? v then
      if already_shown shown u v (Z.to_nat MAX_NEIGHBORS) 0
      then export_row st show_redundant u k' (i + 1) shown
      else
        let line :=
          if negb (show_redundant =? 0) && negb (redundant_edge st u v =? 0)
          then DotRedundant u v else DotEdge u v in
        let shown := mark_shown shown u v (Z.to_nat MAX_NEIGHBORS) 0 in
        let '(shown, rest) := export_row st show_redundant u k' (i + 1) shown in
        (shown, line :: rest)
    else export_row st show_redundant u k' (i + 1) shown
  end.

(** The second loop over the nodes. *)
Fixpoint export_edges (st : state) (show_redundant : Z) (k : nat) (u : Z)
    (shown : Z -> Z -> Z) : list dot_line :=
  match k with
  | O => []
  | S k' =>
    let '(shown, row) :=
      export_row st show_redundant u (Z.to_nat (degree st u)) 0 shown in
    row ++ export_edges st show_redundant k' (u + 1) shown
  end.

(** [export_dot_graph]; [opened] tells whether [fopen] succeeded.  [None]:
    no file is written. *)
Definition export_dot_graph (st : state) (opened : bool) (show_redundant : Z)
    : option (list dot_line) :=
  if opened then
    Some (DotHeader
          :: export_nodes st (Z.to_nat (n_nodes st)) 0
          ++ export_edges st show_redundant (Z.to_nat (n_nodes st)) 0 (fun _ _ => 0)
          ++ [DotFooter])
  else None.

(** ** The pipeline ([run_meshification])

    What a run leaves behind: the globals, the statistics, the log line
    on the first analysis and the two DOT files.  The clock, the calls to
    [sfdp] and the printed report are not modelled. *)
Record outcome : Type := mkOutcome {
  out_state : state;
  out_metrics : metrics;
  log_initial : Z * Z;      (* "Initial: %d cut vertices, %d blocks" *)
  dodag_old : option (list dot_line);
  dodag_final : option (list dot_line)
}.

Section Pipeline.
Variable rand_seq : nat -> Z.
Variable target_edges : Z -> Z.
Variable accept : Z -> Z -> bool.
(** Whether the two [fopen]s succeed. *)
Variable opened_old opened_final : bool.

(** [None]: a search ran out of fuel. *)
Definition run_meshification (c : nat) (st : state) : option outcome :=
  let st := init_arrays st in
  let '(_, st) := generate_random_topology rand_seq target_edges accept c st in
  match find_biconnected_components st with
  | None => None
  | Some st =>
    let initial := count_cut_vertices st (Z.to_nat (n_nodes st)) 0 0 in
    let logged := (initial, num_blocks st) in
    let old := export_dot_graph st opened_old 0 in
    let final_state :=
      if 0 <? initial then
        find_biconnected_components (add_optimal_redundant_edges st)
      else Some st in
    match final_state with
    | None => None
    | Some st =>
      Some (mkOutcome st (compute_network_metrics st) logged old
              (export_dot_graph st opened_final 1))
    end
  end.

(** The process: the node count is taken from the command line when it is
    between 10 and [MAX_NODES], and is 50 otherwise.  [user_nodes] is the
    result of [atoi(contiki_argv[1])]. *)
Definition configure (argc user_nodes : Z) (n : Z) : Z :=
  if 1 <? argc then
    if (10 <=? user_nodes) && (user_nodes <=? MAX_NODES) then user_nodes else n
  else n.

Definition cut_vertex_mesh_process (argc user_nodes : Z) (c : nat) : option outcome :=
  run_meshification c (boot (configure argc user_nodes 50)).
End Pipeline.

(** ** Reference definitions for the rest of the program *)

(** The insertion of the generator: a link, counted. *)
Definition add_edge (u v : Z) (st : state) : state :=
  set_original_edges (original_edges st + 1) (link u v st).

(** The neighbour lists hold no node twice, and only links between two
    different nodes of the graph. *)
Definition wf_links (st : state) : Prop :=
  forall u, NoDup (neighbor_list st u) /\
    forall v, In v (neighbor_list st u) -> inr st u /\ inr st v /\ u <> v.

(** Every link is between nodes below [i]. *)
Definition links_below (i : Z) (st : state) : Prop :=
  forall u v, In v (neighbor_list st u) -> u < i /\ v < i.

(** What the generator keeps true of the store. *)
Definition generated_ok (st : state) : Prop :=
  adjacency_ok st /\ wf_links st /\ total_degree st = 2 * original_edges st.

(** The edge stack and the blocks stay inside their arrays and hold nodes
    of the graph [g] only; no block holds a node twice; the blocks not yet
    recorded are empty. *)
Record analysis_safe (g t : state) : Prop := {
  safe_stack : 0 <= stack_top t <= MAX_NODES * 10 - 1;
  safe_entries : forall j, 0 <= j < stack_top t ->
    inr g (e_u (edge_stack t j)) /\ inr g (e_v (edge_stack t j));
  safe_blocks : 0 <= num_blocks t <= MAX_BLOCKS;
  safe_sizes : forall b, 0 <= block_size t b;
  safe_fresh : forall b, num_blocks t <= b -> block_size t b = 0;
  safe_members : forall b, 0 <= b < num_blocks t ->
    NoDup (block_members t b) /\ forall x, In x (block_members t b) -> inr g x
}.

(** The same while the block [num_blocks] is being filled; [in_block] flags
    the nodes it holds. *)
Record block_open (g : state) (in_block : Z -> Z) (t : state) : Prop := {
  open_stack : 0 <= stack_top t <= MAX_NODES * 10 - 1;
  open_entries : forall j, 0 <= j < stack_top t ->
    inr g (e_u (edge_stack t j)) /\ inr g (e_v (edge_stack t j));
  open_blocks : 0 <= num_blocks t < MAX_BLOCKS;
  open_sizes : forall b, 0 <= block_size t b;
  open_fresh : forall b, num_blocks t < b -> block_size t b = 0;
  open_members : forall b, 0 <= b <= num_blocks t ->
    NoDup (block_members t b) /\ forall x, In x (block_members t b) -> inr g x;
  open_flags : forall x, in_block x <> 0 <-> In x (block_members t (num_blocks t))
}.

(** A well-formed store: the invariant of the graph store, and lists that
    hold each neighbour once, other than the node itself and in range. *)
Definition well_formed (st : state) : Prop := adjacency_ok st /\ wf_links st.

(** *** The DOT file, line by line *)

(** The line of the link [u - v]. *)
Definition edge_line (st : state) (show_redundant : Z) (u v : Z) : dot_line :=
  if negb (show_redundant =? 0) && negb (redundant_edge st u v =? 0)
  then DotRedundant u v else DotEdge u v.

(** One line for each link, written from its lower end, in the order of
    the neighbour lists. *)
Definition spec_edge_lines (st : state) (show_redundant : Z) : list dot_line :=
  flat_map (fun u => map (edge_line st show_redundant u)
                       (filter (fun v => u <? v) (neighbor_list st u)))
           (nodes (n_nodes st)).

(** The root, then the cut vertices other than the root. *)
Definition spec_node_lines (st : state) : list dot_line :=
  DotRoot 0 :: map DotCut (filter (fun u => negb (u =? 0)) (cut_vertices st)).

(** While the neighbours of [u] are written out: a cell of the row [u] of
    [shown] is free or holds one of the neighbours before position [i]. *)
Definition row_marks (st : state) (u i : Z) (shown : Z -> Z -> Z) : Prop :=
  forall j, shown u j = 0 \/
    exists i', 0 <= i' < i /\ shown u j = char_of_int (neighbors st u i').

(** *** Counting the blocks

    Postcondition and loop invariant of the search for the number of
    recorded blocks: a call that is not at a root records fewer blocks
    than it discovers nodes, a call at a root at most as many; the clock
    advances by one for each node discovered. *)
Definition count_post (g : state) (u : Z) (s s' : state) : Prop :=
  term_post g u s s' /\
  time_dfs s' + Z.of_nat (unvisited_count s')
    = time_dfs s + Z.of_nat (unvisited_count s) /\
  (forall w, vis s w \/ w = u -> parent_tarjan s' w = parent_tarjan s w) /\
  num_blocks s' + (if parent_tarjan s u =? -1 then 0 else 1)
    <= num_blocks s + (time_dfs s' - time_dfs s).

Definition count_inv (g s : state) (u i ch : Z) (t : state) : Prop :=
  term_inv g s u i ch t /\
  time_dfs t + Z.of_nat (unvisited_count t)
    = time_dfs s + Z.of_nat (unvisited_count s) /\
  (forall w, vis s w \/ w = u -> parent_tarjan t w = parent_tarjan s w) /\
  0 <= ch /\
  num_blocks t + (if parent_tarjan s u =? -1 then (if ch =? 0 then 1 else 2) else 1)
    <= num_blocks s + (time_dfs t - time_dfs s).

(** The planner would not link the representatives of the pair [p] of leaf
    blocks in the state [st]. *)
Definition blocked (st : state) (p : Z * Z) : Prop :=
  spec_may_connect st (spec_representative st (fst p))
    (spec_representative st (snd p)) = false.

(** *** The edge stack across a call

    Precondition, postcondition and loop invariant of the search for the
    edge stack: a call pushes at most [MAX_NEIGHBORS] edges for each node
    it discovers; a call that is not at a root leaves the stack it was
    given in place; a root flagged as a cut vertex has had two children,
    and the edge pushed for the first of them is still on the stack. *)
Definition stack_pre (g : state) (u : Z) (s : state) : Prop :=
  term_pre g u s /\
  0 <= stack_top s <= MAX_NEIGHBORS * time_dfs s /\
  time_dfs s + Z.of_nat (unvisited_count s) <= n_nodes g /\
  (forall w, ~ vis s w -> is_cut s w = 0).

Definition stack_post (g : state) (u : Z) (s s' : state) : Prop :=
  term_post g u s s' /\
  time_dfs s' + Z.of_nat (unvisited_count s')
    = time_dfs s + Z.of_nat (unvisited_count s) /\
  stack_top s' <= stack_top s + MAX_NEIGHBORS * (time_dfs s' - time_dfs s) /\
  (forall w, vis s w \/ w = u -> parent_tarjan s' w = parent_tarjan s w) /\
  (forall w, vis s w -> is_cut s' w = is_cut s w) /\
  (forall w, ~ vis s' w -> is_cut s' w = 0) /\
  (parent_tarjan s u <> -1 ->
     stack_top s <= stack_top s' /\
     forall j, 0 <= j < stack_top s -> edge_stack s' j = edge_stack s j) /\
  (parent_tarjan s u = -1 ->
     (is_cut s' u <> 0 -> stack_top s < stack_top s') /\
     (is_cut s' u = 0 -> stack_top s' = 0 \/ MAX_BLOCKS <= num_blocks s')).

Definition stack_inv (g s : state) (u i ch : Z) (t : state) : Prop :=
  term_inv g s u i ch t /\
  0 <= i <= degree g u /\ 0 <= ch /\
  time_dfs t + Z.of_nat (unvisited_count t)
    = time_dfs s + Z.of_nat (unvisited_count s) /\
  stack_top s <= stack_top t /\
  (forall j, 0 <= j < stack_top s -> edge_stack t j = edge_stack s j) /\
  stack_top t <= stack_top s + MAX_NEIGHBORS * (time_dfs t - time_dfs s - 1) + i /\
  (forall w, vis s w \/ w = u -> parent_tarjan t w = parent_tarjan s w) /\
  (forall w, vis s w -> is_cut t w = is_cut s w) /\
  (forall w, ~ vis t w -> is_cut t w = 0) /\
  (parent_tarjan s u = -1 ->
     (is_cut t u <> 0 -> 2 <= ch) /\ (1 <= ch -> stack_top s < stack_top t) /\
     (2 <= ch -> is_cut t u <> 0)).

(** The run of the generator in which [rand()] returns 0 every time, on ten
    nodes: every tree parent drawn is node 0 and every candidate cross edge
    is the pair (0, 0), so the graph is the star around node 0. *)
Definition generated_star10 : state :=
  snd (generate_random_topology (fun _ => 0) (fun n => n * 15 / 10) (fun _ _ => true)
         0 (init_arrays (boot 10))).
(** ** Basic facts on the memory model *)

Lemma upd_same {A : Type} (a : Z -> A) (i : Z) (x : A) : upd a i x i = x.
Proof. unfold upd. now rewrite Z.eqb_refl. Qed.

Lemma upd_other {A : Type} (a : Z -> A) (i j : Z) (x : A) :
  j <> i -> upd a i x j = a j.
Proof. intro H. unfold upd. apply Z.eqb_neq in H. now rewrite H. Qed.

Lemma upd2_same {A : Type} (a : Z -> Z -> A) (i j : Z) (x : A) :
  upd2 a i j x i j = x.
Proof. unfold upd2. now rewrite !upd_same. Qed.

Lemma upd2_other {A : Type} (a : Z -> Z -> A) (i j i' j' : Z) (x : A) :
  i' <> i \/ j' <> j -> upd2 a i j x i' j' = a i' j'.
Proof.
  intros H. unfold upd2, upd.
  destruct (Z.eqb_spec i' i) as [->|]; [|reflexivity].
  destruct (Z.eqb_spec j' j) as [->|]; [|reflexivity].
  destruct H; congruence.
Qed.

Lemma upd2_row_other {A : Type} (a : Z -> Z -> A) (i j i' : Z) (x : A) :
  i' <> i -> upd2 a i j x i' = a i'.
Proof. intro H. unfold upd2. now rewrite upd_other. Qed.

(** Case analysis on the tests of the program. *)
Ltac zify_test :=
  repeat match goal with
  | H : (_ && _)%bool = true |- _ => apply andb_true_iff in H; destruct H
  | H : (_ || _)%bool = false |- _ => apply orb_false_iff in H; destruct H
  | H : negb _ = true |- _ => apply negb_true_iff in H
  | H : negb _ = false |- _ => apply negb_false_iff in H
  | H : (_ =? _) = true |- _ => apply Z.eqb_eq in H
  | H : (_ =? _) = false |- _ => apply Z.eqb_neq in H
  | H : (_ <? _) = true |- _ => apply Z.ltb_lt in H
  | H : (_ <? _) = false |- _ => apply Z.ltb_ge in H
  | H : (_ <=? _) = true |- _ => apply Z.leb_le in H
  | H : (_ <=? _) = false |- _ => apply Z.leb_gt in H
  end.

Lemma seq_snoc (a k : nat) : seq a (S k) = seq a k ++ [(a + k)%nat].
Proof. now rewrite seq_S. Qed.

Lemma Some_inj {A : Type} (a b : A) : Some a = Some b -> a = b.
Proof. intros H. now injection H. Qed.

(** ** Inserting a link *)

Ltac break_eqb :=
  repeat match goal with
  | |- context [?a =? ?b] => destruct (Z.eqb_spec a b); subst
  end.

Lemma link_degree (u v w : Z) (st : state) :
  degree (link u v st) w =
  degree st w + (if w =? u then 1 else 0) + (if w =? v then 1 else 0).
Proof. unfold link. cbn. unfold upd. break_eqb; lia. Qed.

Lemma link_exists_edge (u v : Z) (st : state) :
  exists_edge (link u v st) = upd2 (upd2 (exists_edge st) v u 1) u v 1.
Proof. reflexivity. Qed.

Lemma link_neighbors_old (u v w j : Z) (st : state) :
  0 <= j < degree st w -> neighbors (link u v st) w j = neighbors st w j.
Proof.
  intros Hj. unfold link. cbn. unfold upd2, upd. break_eqb; reflexivity || lia.
Qed.

Lemma link_neighbors_new (u v : Z) (st : state) :
  neighbors (link u v st) u (degree st u) = v /\
  neighbors (link u v st) v (degree st v + (if v =? u then 1 else 0)) = u.
Proof.
  unfold link. cbn. unfold upd2, upd. break_eqb; split; reflexivity || lia.
Qed.

Lemma link_grows (u v : Z) (st : state) : grows st (link u v st).
Proof.
  split; [|split].
  - intros w. rewrite link_degree. destruct (w =? u), (w =? v); lia.
  - intros w j Hj. now apply link_neighbors_old.
  - intros a b H. rewrite link_exists_edge. unfold upd2, upd.
    break_eqb; assumption || lia.
Qed.

Lemma grows_refl (st : state) : grows st st.
Proof. split; [|split]; intros; auto; lia. Qed.

Lemma grows_trans (a b c : state) : grows a b -> grows b c -> grows a c.
Proof.
  intros (H1 & H2 & H3) (K1 & K2 & K3). split; [|split].
  - intros w. specialize (H1 w). specialize (K1 w). lia.
  - intros w j Hj. rewrite K2; [now apply H2|]. specialize (H1 w). lia.
  - auto.
Qed.

Lemma grows_prefix (st st' : state) (w : Z) :
  grows st st' -> prefix_of (neighbor_list st w) (neighbor_list st' w).
Proof.
  intros (H1 & H2 & _). unfold prefix_of, neighbor_list.
  specialize (H1 w).
  exists (map (fun i => neighbors st' w (Z.of_nat i))
            (seq (Z.to_nat (degree st w)) (Z.to_nat (degree st' w) - Z.to_nat (degree st w)))).
  replace (Z.to_nat (degree st' w))
    with (Z.to_nat (degree st w) + (Z.to_nat (degree st' w) - Z.to_nat (degree st w)))%nat at 1 by lia.
  rewrite seq_app, map_app. f_equal.
  apply map_ext_in. intros j Hj. apply in_seq in Hj. apply H2. lia.
Qed.

(** The neighbour lists after a link: one cell more at each end. *)
Lemma link_neighbor_list (u v w : Z) (st : state) :
  0 <= degree st u -> 0 <= degree st v ->
  neighbor_list (link u v st) w =
  neighbor_list st w ++ (if w =? u then [v] else []) ++ (if w =? v then [u] else []).
Proof.
  intros Hu Hv. unfold neighbor_list. rewrite link_degree.
  destruct (link_neighbors_new u v st) as [N1 N2].
  assert (Hold : forall k, (k <= Z.to_nat (degree st w))%nat ->
    map (fun i => neighbors (link u v st) w (Z.of_nat i)) (seq 0 k) =
    map (fun i => neighbors st w (Z.of_nat i)) (seq 0 k)).
  { intros k Hk. apply map_ext_in. intros j Hj. apply in_seq in Hj.
    apply link_neighbors_old. lia. }
  destruct (Z.eqb_spec w u) as [Hwu|Hwu]; destruct (Z.eqb_spec w v) as [Hwv|Hwv].
  - subst u. subst w. rewrite Z.eqb_refl in N2.
    replace (Z.to_nat (degree st v + 1 + 1)) with (S (S (Z.to_nat (degree st v)))) by lia.
    rewrite seq_snoc, map_app, seq_snoc, map_app, Hold by lia. cbn [map app Nat.add].
    rewrite <- app_assoc. cbn [app].
    replace (Z.of_nat (S (Z.to_nat (degree st v)))) with (degree st v + 1) by lia.
    replace (Z.of_nat (Z.to_nat (degree st v))) with (degree st v) by lia.
    now rewrite N1, N2.
  - subst w.
    replace (Z.to_nat (degree st u + 1 + 0)) with (S (Z.to_nat (degree st u))) by lia.
    rewrite seq_snoc, map_app, Hold by lia. cbn [map app Nat.add].
    replace (Z.of_nat (Z.to_nat (degree st u))) with (degree st u) by lia.
    now rewrite N1.
  - subst w. apply Z.eqb_neq in Hwu. rewrite Hwu in N2.
    replace (Z.to_nat (degree st v + 0 + 1)) with (S (Z.to_nat (degree st v))) by lia.
    rewrite seq_snoc, map_app, Hold by lia. cbn [map app Nat.add].
    replace (Z.of_nat (Z.to_nat (degree st v))) with (degree st v + 0) by lia.
    now rewrite N2.
  - replace (degree st w + 0 + 0) with (degree st w) by lia.
    rewrite Hold by lia. now rewrite app_nil_r.
Qed.

Lemma link_In (u v w x : Z) (st : state) :
  0 <= degree st u -> 0 <= degree st v ->
  In x (neighbor_list (link u v st) w) <->
  In x (neighbor_list st w) \/ (w = u /\ x = v) \/ (w = v /\ x = u).
Proof.
  intros Hu Hv. rewrite link_neighbor_list by assumption. rewrite !in_app_iff.
  destruct (Z.eqb_spec w u), (Z.eqb_spec w v); simpl; intuition congruence.
Qed.

(** A link between two distinct nodes with spare capacity keeps the store
    well formed. *)
Lemma link_adjacency_ok (u v : Z) (st : state) :
  adjacency_ok st -> u <> v ->
  degree st u < MAX_NEIGHBORS -> degree st v < MAX_NEIGHBORS ->
  adjacency_ok (link u v st).
Proof.
  intros [Hb Hl Hs Hm] Huv Hdu Hdv.
  assert (Hb' : forall w, 0 <= degree (link u v st) w <= MAX_NEIGHBORS).
  { intros w. rewrite link_degree. pose proof (Hb w).
    destruct (Z.eqb_spec w u), (Z.eqb_spec w v); subst; try congruence; lia. }
  constructor.
  - exact Hb'.
  - intros w. unfold neighbor_list. rewrite length_map, length_seq.
    specialize (Hb' w). lia.
  - intros a b. rewrite !link_In by apply Hb. rewrite (Hs a b). intuition.
  - intros a b. rewrite link_In by apply Hb. rewrite <- (Hm a b).
    rewrite link_exists_edge. unfold upd2, upd.
    break_eqb; intuition (try congruence; try lia).
Qed.

(** Sums of degrees. *)
Lemma zsum_upd_notin (f : Z -> Z) (i x : Z) (l : list Z) :
  ~ In i l -> zsum (upd f i x) l = zsum f l.
Proof.
  unfold zsum. induction l as [|a l IH]; intros H; simpl; [reflexivity|].
  rewrite IH by (intro; apply H; now right).
  rewrite upd_other; [reflexivity|]. intros ->. apply H. now left.
Qed.

Lemma zsum_ext (f g : Z -> Z) (l : list Z) :
  (forall i, In i l -> f i = g i) -> zsum f l = zsum g l.
Proof.
  unfold zsum. induction l as [|a l IH]; intros H; simpl; [reflexivity|].
  rewrite IH by (intros; apply H; now right). now rewrite H by now left.
Qed.

Lemma zsum_bump (f g : Z -> Z) (i : Z) (l : list Z) :
  NoDup l -> In i l -> g i = f i + 1 -> (forall j, j <> i -> g j = f j) ->
  zsum g l = zsum f l + 1.
Proof.
  unfold zsum. induction l as [|a l IH]; intros Hnd Hin Hi Ho; [destruct Hin|].
  inversion Hnd as [|? ? Hna Hnd']; subst. simpl.
  destruct (Z.eq_dec a i) as [->|Hne].
  - rewrite Hi. fold (zsum g l). fold (zsum f l).
    rewrite (zsum_ext g f l); [lia|]. intros j Hj. apply Ho. intros ->. contradiction.
  - rewrite Ho by assumption. rewrite IH; auto; [lia|].
    destruct Hin; [congruence|assumption].
Qed.

Lemma nodes_NoDup (n : Z) : NoDup (nodes n).
Proof.
  apply Injective_map_NoDup; [|apply seq_NoDup].
  intros a b H. lia.
Qed.

Lemma nodes_In (n i : Z) : In i (nodes n) <-> 0 <= i < n.
Proof.
  unfold nodes. rewrite in_map_iff. split.
  - intros (j & <- & Hj). apply in_seq in Hj. lia.
  - intros H. exists (Z.to_nat i). split; [lia|]. apply in_seq. lia.
Qed.

Lemma link_n_nodes (u v : Z) (st : state) : n_nodes (link u v st) = n_nodes st.
Proof. reflexivity. Qed.

Lemma total_degree_link (u v : Z) (st : state) :
  0 <= u < n_nodes st -> 0 <= v < n_nodes st -> u <> v ->
  total_degree (link u v st) = total_degree st + 2.
Proof.
  intros Hu Hv Huv. unfold total_degree. rewrite link_n_nodes.
  pose (mid := fun w => degree st w + (if w =? u then 1 else 0)).
  pose proof (nodes_NoDup (n_nodes st)) as Hl.
  rewrite (zsum_bump mid (degree (link u v st)) v).
  - rewrite (zsum_bump (degree st) mid u); auto.
    + lia.
    + now apply nodes_In.
    + unfold mid. now rewrite Z.eqb_refl.
    + intros j Hj. unfold mid. apply Z.eqb_neq in Hj. rewrite Hj. lia.
  - exact Hl.
  - now apply nodes_In.
  - rewrite link_degree. unfold mid. rewrite Z.eqb_refl.
    destruct (Z.eqb_spec v u); [congruence|lia].
  - intros j Hj. rewrite link_degree. unfold mid. apply Z.eqb_neq in Hj. rewrite Hj. lia.
Qed.

(** ** The classifier against its reference *)


Lemma count_cut_spec (st : state) (b : Z) (k : nat) (i : nat) (c : Z) :
  count_cut st b k (Z.of_nat i) c =
  c + Z.of_nat (length (filter (fun x => negb (is_cut st x =? 0))
        (map (fun j => block_nodes st b (Z.of_nat j)) (seq i k)))).
Proof.
  revert i c. induction k as [|k IH]; intros i c; simpl.
  - lia.
  - replace (Z.of_nat i + 1) with (Z.of_nat (S i)) by lia.
    rewrite IH. destruct (is_cut st (block_nodes st b (Z.of_nat i)) =? 0); simpl; lia.
Qed.

Lemma count_cut_members (st : state) (b : Z) :
  count_cut st b (Z.to_nat (block_size st b)) 0 0 = Z.of_nat (cut_members st b).
Proof. change 0 with (Z.of_nat 0) at 1. now rewrite count_cut_spec. Qed.

Lemma first_non_cut_spec (st : state) (b : Z) (k i : nat) :
  first_non_cut st b k (Z.of_nat i) =
  find (fun x => is_cut st x =? 0)
       (map (fun j => block_nodes st b (Z.of_nat j)) (seq i k)).
Proof.
  revert i. induction k as [|k IH]; intros i; simpl; [reflexivity|].
  destruct (is_cut st (block_nodes st b (Z.of_nat i)) =? 0); [reflexivity|].
  replace (Z.of_nat i + 1) with (Z.of_nat (S i)) by lia. apply IH.
Qed.

(** [find_non_cut_in_block] is the representative of the design document. *)
Lemma find_non_cut_is_representative (st : state) (b : Z) :
  find_non_cut_in_block st b = spec_representative st b.
Proof.
  unfold find_non_cut_in_block, spec_representative, block_members.
  change 0 with (Z.of_nat 0) at 1. rewrite first_non_cut_spec.
  destruct (find _ _); [reflexivity|].
  destruct (Z.ltb_spec 0 (block_size st b)) as [H|H].
  - destruct (Z.to_nat (block_size st b)) eqn:E; [lia|reflexivity].
  - replace (Z.to_nat (block_size st b)) with 0%nat by lia. reflexivity.
Qed.

(** The reference notions read the cut flags and the blocks only. *)
Lemma block_members_ext (st st' : state) (b : Z) :
  same_analysis st st' -> block_members st' b = block_members st b.
Proof. intros (_ & Hn & Hs & _). unfold block_members. now rewrite Hn, Hs. Qed.

Lemma cut_members_ext (st st' : state) (b : Z) :
  same_analysis st st' -> cut_members st' b = cut_members st b.
Proof.
  intros H. unfold cut_members. rewrite (block_members_ext _ _ _ H).
  destruct H as (Hc & _). now rewrite Hc.
Qed.

Lemma spec_is_leaf_ext (st st' : state) (b : Z) :
  same_analysis st st' -> spec_is_leaf st' b = spec_is_leaf st b.
Proof. intros H. unfold spec_is_leaf. now rewrite (cut_members_ext _ _ _ H). Qed.

Lemma spec_leaves_ext (st st' : state) :
  same_analysis st st' -> spec_leaves st' = spec_leaves st.
Proof.
  intros H. unfold spec_leaves.
  replace (num_blocks st') with (num_blocks st) by (symmetry; apply H).
  apply filter_ext. intros b. now apply spec_is_leaf_ext.
Qed.

Lemma spec_representative_ext (st st' : state) (b : Z) :
  same_analysis st st' -> spec_representative st' b = spec_representative st b.
Proof.
  intros H. unfold spec_representative. rewrite (block_members_ext _ _ _ H).
  destruct H as (Hc & _). now rewrite Hc.
Qed.

Lemma same_analysis_refl (st : state) : same_analysis st st.
Proof. now repeat split. Qed.

Lemma same_analysis_trans (a b c : state) :
  same_analysis a b -> same_analysis b c -> same_analysis a c.
Proof.
  intros (H1 & H2 & H3 & H4) (K1 & K2 & K3 & K4).
  repeat split; congruence.
Qed.

Lemma same_graph_refl (st : state) : same_graph st st.
Proof. now repeat split. Qed.

Lemma same_graph_trans (a b c : state) :
  same_graph a b -> same_graph b c -> same_graph a c.
Proof.
  intros (H1 & H2 & H3 & H4) (K1 & K2 & K3 & K4).
  repeat split; congruence.
Qed.

Lemma leaf_loop_frame (k : nat) (b : Z) (st : state) :
  leaf_frame st (leaf_loop k b st).
Proof.
  revert b st. induction k as [|k IH]; intros b st; simpl.
  - now repeat split.
  - match goal with |- leaf_frame _ (leaf_loop _ _ ?s) =>
      assert (F : leaf_frame st s) by (destruct (_ =? 1); now repeat split);
      specialize (IH (b + 1) s) end.
    destruct F as ((A1 & A2 & A3 & A4) & (B1 & B2 & B3 & B4) & C1 & C2 & C3).
    destruct IH as ((A1' & A2' & A3' & A4') & (B1' & B2' & B3' & B4') & C1' & C2' & C3').
    repeat split; congruence.
Qed.

Lemma identify_leaf_blocks_frame (st : state) :
  leaf_frame st (identify_leaf_blocks st).
Proof.
  unfold identify_leaf_blocks.
  match goal with |- leaf_frame _ (leaf_loop ?k ?b ?s) =>
    pose proof (leaf_loop_frame k b s) as H end.
  exact H.
Qed.

(** The list of leaves after [k] more rounds of the classifier. *)
Lemma leaf_loop_list (k : nat) (b : nat) (st : state) :
  0 <= num_leaf_blocks st ->
  let st' := leaf_loop k (Z.of_nat b) st in
  0 <= num_leaf_blocks st' /\
  leaf_list st' = leaf_list st ++ filter (spec_is_leaf st) (map Z.of_nat (seq b k)).
Proof.
  revert b st. induction k as [|k IH]; intros b st Hn; simpl.
  - split; [assumption|]. now rewrite app_nil_r.
  - rewrite count_cut_members.
    replace (Z.of_nat b + 1) with (Z.of_nat (S b)) by lia.
    assert (Hb : (Z.of_nat (cut_members st (Z.of_nat b)) =? 1) = spec_is_leaf st (Z.of_nat b)).
    { unfold spec_is_leaf.
      destruct (Nat.eqb_spec (cut_members st (Z.of_nat b)) 1) as [E|E].
      - now rewrite E.
      - apply Z.eqb_neq. lia. }
    rewrite Hb. destruct (spec_is_leaf st (Z.of_nat b)) eqn:E.
    + match goal with |- context [leaf_loop k _ ?s] => set (s1 := s) end.
      assert (Hn1 : 0 <= num_leaf_blocks s1) by (simpl; lia).
      destruct (IH (S b) s1 Hn1) as [H1 H2]. split; [exact H1|].
      rewrite H2.
      assert (Hl : leaf_list s1 = leaf_list st ++ [Z.of_nat b]).
      { unfold leaf_list, s1. simpl.
        replace (Z.to_nat (num_leaf_blocks st + 1)) with (S (Z.to_nat (num_leaf_blocks st))) by lia.
        rewrite seq_snoc, map_app. simpl.
        replace (Z.of_nat (Z.to_nat (num_leaf_blocks st))) with (num_leaf_blocks st) by lia.
        rewrite upd_same. f_equal.
        apply map_ext_in. intros j Hj. apply in_seq in Hj.
        rewrite upd_other by lia. reflexivity. }
      rewrite Hl, <- app_assoc. cbn [app].
      apply f_equal. apply f_equal.
      apply filter_ext. intros x. apply spec_is_leaf_ext. now repeat split.
    + destruct (IH (S b) st Hn) as [H1 H2]. split; [exact H1|exact H2].
Qed.

(** [identify_leaf_blocks] computes the leaves of the design document, in
    block-discovery order. *)
Lemma identify_leaf_blocks_spec (st : state) :
  leaf_list (identify_leaf_blocks st) = spec_leaves st /\
  0 <= num_leaf_blocks (identify_leaf_blocks st).
Proof.
  unfold identify_leaf_blocks. cbv zeta.
  match goal with |- context [leaf_loop ?k 0 ?s] =>
    pose proof (leaf_loop_list k 0 s) as H end.
  cbv zeta in H. change (Z.of_nat 0) with 0 in H.
  destruct H as [H1 H2]; [simpl; lia|].
  split; [|exact H1].
  rewrite H2. unfold spec_leaves.
  apply filter_ext. intros b. apply spec_is_leaf_ext. now repeat split.
Qed.

(** ** The planner against its reference *)

Lemma block_members_In (st : state) (b x : Z) :
  In x (block_members st b) <->
  exists i, 0 <= i < block_size st b /\ x = block_nodes st b i.
Proof.
  unfold block_members. rewrite in_map_iff. split.
  - intros (j & <- & Hj). apply in_seq in Hj. exists (Z.of_nat j). split; [lia|reflexivity].
  - intros (i & Hi & ->). exists (Z.to_nat i). split.
    + f_equal. lia.
    + apply in_seq. lia.
Qed.

Lemma spec_leaves_In (st : state) (b : Z) :
  In b (spec_leaves st) <-> 0 <= b < num_blocks st /\ spec_is_leaf st b = true.
Proof.
  unfold spec_leaves. rewrite filter_In. fold (nodes (num_blocks st)).
  now rewrite nodes_In.
Qed.

Lemma leaf_representative_in_range (st : state) (b : Z) :
  blocks_in_range st -> In b (spec_leaves st) ->
  0 <= spec_representative st b < n_nodes st.
Proof.
  intros Hr Hl. apply spec_leaves_In in Hl. destruct Hl as [Hb Hl].
  unfold spec_is_leaf, cut_members in Hl. apply Nat.eqb_eq in Hl.
  unfold spec_representative.
  destruct (find _ (block_members st b)) eqn:F.
  - apply find_some in F. apply (Hr b); [assumption|apply F].
  - destruct (block_members st b) as [|x l] eqn:E; [discriminate|].
    apply (Hr b); [assumption|]. rewrite E. now left.
Qed.

Lemma blocks_in_rangeb_true (st : state) :
  blocks_in_rangeb st = true -> blocks_in_range st.
Proof.
  unfold blocks_in_rangeb, blocks, blocks_in_range. intros H b x Hb Hx.
  rewrite forallb_forall in H.
  specialize (H (block_members st b)). rewrite forallb_forall in H.
  assert (Hin : In (block_members st b)
            (map (fun b => block_members st (Z.of_nat b)) (seq 0 (Z.to_nat (num_blocks st))))).
  { apply in_map_iff. exists (Z.to_nat b). split; [f_equal; lia|apply in_seq; lia]. }
  specialize (H Hin x Hx). zify_test. lia.
Qed.

Lemma leaf_list_nth (st : state) (i : nat) :
  (i < length (leaf_list st))%nat ->
  nth i (leaf_list st) 0 = leaf_blocks st (Z.of_nat i).
Proof.
  intros H. unfold leaf_list in *. rewrite length_map, length_seq in H.
  rewrite (nth_indep _ 0 (leaf_blocks st (Z.of_nat 0))) by (now rewrite length_map, length_seq).
  rewrite (map_nth (fun i => leaf_blocks st (Z.of_nat i))). now rewrite seq_nth.
Qed.

Lemma leaf_list_length (st : state) :
  length (leaf_list st) = Z.to_nat (num_leaf_blocks st).
Proof. unfold leaf_list. now rewrite length_map, length_seq. Qed.

Lemma skipn_nth_cons (l : list Z) (i : nat) :
  (i < length l)%nat -> skipn i l = nth i l 0 :: skipn (S i) l.
Proof.
  revert i. induction l as [|x l IH]; intros i H; simpl in H; [lia|].
  destruct i; [reflexivity|]. simpl. apply IH. lia.
Qed.

(** One round of the loop is one [spec_connect]. *)
Lemma plan_pair_spec (i : Z) (st : state) (b1 b2 : Z) :
  b1 = leaf_blocks st i ->
  b2 = (if i + 1 <? num_leaf_blocks st then leaf_blocks st (i + 1) else leaf_blocks st 0) ->
  spec_representative st b1 <> -1 -> spec_representative st b2 <> -1 ->
  plan_pair i st = spec_connect st (b1, b2).
Proof.
  intros -> -> H1 H2. unfold plan_pair, spec_connect, spec_may_connect. cbv zeta.
  cbn [fst snd]. rewrite !find_non_cut_is_representative.
  apply Z.eqb_neq in H1, H2. rewrite H1, H2. cbn [negb andb].
  set (a := spec_representative st _). set (b := spec_representative st _).
  destruct (negb (a =? b)); [|reflexivity]. cbn [andb].
  destruct (exists_edge st a b =? 0); [|reflexivity]. cbn [andb].
  destruct ((degree st a <? MAX_NEIGHBORS) && (degree st b <? MAX_NEIGHBORS))%bool; reflexivity.
Qed.

(** What a round of the planner leaves alone. *)
Lemma link_frame (u v : Z) (st : state) :
  n_nodes (link u v st) = n_nodes st /\ same_analysis st (link u v st) /\
  same_leaves st (link u v st).
Proof. now repeat split. Qed.

Lemma spec_connect_frame (st : state) (p : Z * Z) :
  n_nodes (spec_connect st p) = n_nodes st /\ same_analysis st (spec_connect st p) /\
  same_leaves st (spec_connect st p).
Proof. unfold spec_connect. cbv zeta. destruct (spec_may_connect _ _ _); now repeat split. Qed.

Lemma plan_pair_frame (i : Z) (st : state) :
  n_nodes (plan_pair i st) = n_nodes st /\ same_analysis st (plan_pair i st) /\
  same_leaves st (plan_pair i st).
Proof.
  unfold plan_pair. cbv zeta.
  destruct (_ && _ && _ && _)%bool; [|now repeat split].
  destruct (_ && _)%bool; now repeat split.
Qed.

Lemma leaf_list_ext (st st' : state) :
  same_leaves st st' -> leaf_list st' = leaf_list st.
Proof. intros (_ & H1 & H2). unfold leaf_list. now rewrite H1, H2. Qed.

Lemma plan_loop_spec (k i : nat) (st : state) :
  (forall b, In b (leaf_list st) -> spec_representative st b <> -1) ->
  (length (leaf_list st) <= k + i)%nat ->
  plan_loop k (Z.of_nat i) st =
  fold_left spec_connect
    (spec_pairs_from (leaf_blocks st 0) (skipn i (leaf_list st))) st.
Proof.
  revert i st. induction k as [|k IH]; intros i st Hrep Hk.
  - simpl. rewrite skipn_all2 by lia. reflexivity.
  - cbn [plan_loop]. pose proof (leaf_list_length st) as Hlen.
    destruct (Z.ltb_spec (Z.of_nat i) (num_leaf_blocks st)) as [Hi|Hi].
    + assert (Hi' : (i < length (leaf_list st))%nat) by lia.
      destruct (plan_pair_frame (Z.of_nat i) st) as (_ & Ha & Hl).
      assert (Hpair : plan_pair (Z.of_nat i) st =
        spec_connect st (leaf_blocks st (Z.of_nat i),
          if Z.of_nat i + 1 <? num_leaf_blocks st
          then leaf_blocks st (Z.of_nat i + 1) else leaf_blocks st 0)).
      { apply plan_pair_spec; try reflexivity.
        - apply Hrep. rewrite <- leaf_list_nth by assumption. now apply nth_In.
        - destruct (Z.ltb_spec (Z.of_nat i + 1) (num_leaf_blocks st)) as [Hj|Hj].
          + apply Hrep. replace (Z.of_nat i + 1) with (Z.of_nat (S i)) by lia.
            rewrite <- leaf_list_nth by lia. apply nth_In. lia.
          + apply Hrep. change 0 with (Z.of_nat 0).
            rewrite <- leaf_list_nth by lia. apply nth_In. lia. }
      replace (Z.of_nat i + 2) with (Z.of_nat (S (S i))) by lia.
      rewrite IH.
      * rewrite (leaf_list_ext _ _ Hl).
        replace (leaf_blocks (plan_pair (Z.of_nat i) st) 0) with (leaf_blocks st 0)
          by (destruct Hl as (_ & -> & _); reflexivity).
        rewrite (skipn_nth_cons (leaf_list st) i Hi'), leaf_list_nth by assumption.
        destruct (Z.ltb_spec (Z.of_nat i + 1) (num_leaf_blocks st)) as [Hj|Hj].
        -- rewrite (skipn_nth_cons (leaf_list st) (S i)) by lia.
           rewrite leaf_list_nth by lia.
           replace (Z.of_nat (S i)) with (Z.of_nat i + 1) by lia.
           cbn [spec_pairs_from fold_left]. now rewrite Hpair.
        -- rewrite (skipn_all2 (leaf_list st) (n := S i)) by lia.
           rewrite (skipn_all2 (leaf_list st) (n := S (S i))) by lia.
           cbn [spec_pairs_from fold_left]. now rewrite Hpair.
      * intros b Hb. rewrite (leaf_list_ext _ _ Hl) in Hb.
        rewrite (spec_representative_ext _ _ _ Ha). now apply Hrep.
      * rewrite (leaf_list_ext _ _ Hl). lia.
    + rewrite skipn_all2 by lia. reflexivity.
Qed.

(** ** Invariants of the pairing loop *)

Lemma plan_loop_invariant (P : state -> Prop) :
  (forall i st, P st -> P (plan_pair i st)) ->
  forall k i st, P st -> P (plan_loop k i st).
Proof.
  intros Hstep. induction k as [|k IH]; intros i st H; simpl; [exact H|].
  destruct (i <? num_leaf_blocks st); [|exact H].
  apply IH, Hstep, H.
Qed.

Lemma plan_pair_cases (i : Z) (st : state) :
  plan_pair i st = st \/
  exists a b, a <> b /\ exists_edge st a b = 0 /\
    degree st a < MAX_NEIGHBORS /\ degree st b < MAX_NEIGHBORS /\
    plan_pair i st = spec_insert a b st.
Proof.
  unfold plan_pair. cbv zeta.
  set (a := find_non_cut_in_block st _). set (b := find_non_cut_in_block st _).
  destruct (negb (a =? -1) && negb (b =? -1) && negb (a =? b)
            && (exists_edge st a b =? 0))%bool eqn:E1; [|now left].
  destruct ((degree st a <? MAX_NEIGHBORS) && (degree st b <? MAX_NEIGHBORS))%bool eqn:E2;
    [|now left].
  right. exists a, b. zify_test. repeat split; auto.
Qed.

Lemma spec_insert_grows (a b : Z) (st : state) : grows st (spec_insert a b st).
Proof. exact (link_grows a b st). Qed.

Lemma plan_pair_grows (i : Z) (st : state) : grows st (plan_pair i st).
Proof.
  destruct (plan_pair_cases i st) as [->|(a & b & _ & _ & _ & _ & ->)].
  - apply grows_refl.
  - apply spec_insert_grows.
Qed.

Lemma spec_insert_redundant (a b : Z) (st : state) :
  redundant_edge (spec_insert a b st) = upd2 (upd2 (redundant_edge st) b a 1) a b 1.
Proof. reflexivity. Qed.

Lemma spec_insert_exists_edge (a b : Z) (st : state) :
  exists_edge (spec_insert a b st) = upd2 (upd2 (exists_edge st) b a 1) a b 1.
Proof. reflexivity. Qed.

Lemma spec_insert_tagged (st0 st : state) (a b : Z) :
  grows st0 st -> new_links_tagged st0 st ->
  new_links_tagged st0 (spec_insert a b st).
Proof.
  intros Hg Ht u v H0 H1.
  rewrite spec_insert_redundant. rewrite spec_insert_exists_edge in H1.
  assert (Hold : exists_edge st u v <> 0 ->
            redundant_edge st u v = 1 /\ redundant_edge st v u = 1) by (apply Ht, H0).
  revert H1. unfold upd2, upd. break_eqb; intros H1; try congruence;
    try (split; reflexivity); try (destruct (Hold H1); split; congruence).
Qed.

Lemma plan_pair_tagged (st0 : state) (i : Z) (st : state) :
  grows st0 st /\ new_links_tagged st0 st ->
  grows st0 (plan_pair i st) /\ new_links_tagged st0 (plan_pair i st).
Proof.
  intros [Hg Ht]. split.
  - eapply grows_trans; [exact Hg|apply plan_pair_grows].
  - destruct (plan_pair_cases i st) as [->|(a & b & _ & _ & _ & _ & ->)]; [exact Ht|].
    now apply spec_insert_tagged.
Qed.

(** The counter goes up by at most one per round ... *)
Lemma plan_pair_added (i : Z) (st : state) :
  redundant_edges_added st <= redundant_edges_added (plan_pair i st)
    <= redundant_edges_added st + 1.
Proof.
  destruct (plan_pair_cases i st) as [->|(a & b & _ & _ & _ & _ & ->)]; [lia|].
  cbn. lia.
Qed.

(** ... so by at most [ceil(remaining / 2)] over the loop. *)
Lemma plan_loop_added (k : nat) (i : Z) (st : state) :
  redundant_edges_added st <= redundant_edges_added (plan_loop k i st) /\
  2 * redundant_edges_added (plan_loop k i st) <=
    2 * redundant_edges_added st
    + (if i <? num_leaf_blocks st then num_leaf_blocks st - i + 1 else 0).
Proof.
  revert i st. induction k as [|k IH]; intros i st; cbn [plan_loop].
  - destruct (Z.ltb_spec i (num_leaf_blocks st)); lia.
  - destruct (Z.ltb_spec i (num_leaf_blocks st)) as [Hi|Hi]; [|lia].
    specialize (IH (i + 2) (plan_pair i st)).
    pose proof (plan_pair_added i st) as Ha.
    destruct (plan_pair_frame i st) as (_ & _ & _ & _ & Hn).
    rewrite Hn in IH.
    destruct (Z.ltb_spec (i + 2) (num_leaf_blocks st)); lia.
Qed.

(** Each inserted link adds two to the sum of the degrees. *)
Lemma spec_connect_count (st : state) (p : Z * Z) :
  0 <= spec_representative st (fst p) < n_nodes st ->
  0 <= spec_representative st (snd p) < n_nodes st ->
  total_degree (spec_connect st p) - 2 * redundant_edges_added (spec_connect st p)
  = total_degree st - 2 * redundant_edges_added st.
Proof.
  intros Ha Hb. unfold spec_connect. cbv zeta.
  destruct (spec_may_connect _ _ _) eqn:E; [|reflexivity].
  unfold spec_may_connect in E. zify_test.
  match goal with |- context [spec_insert ?a ?b st] =>
    assert (Ht : total_degree (spec_insert a b st) = total_degree (link a b st)) by reflexivity;
    assert (Hc : redundant_edges_added (spec_insert a b st) = redundant_edges_added st + 1)
      by reflexivity
  end.
  rewrite Ht, Hc, total_degree_link; auto. lia.
Qed.

Lemma blocks_in_range_ext (st st' : state) :
  n_nodes st' = n_nodes st -> same_analysis st st' ->
  blocks_in_range st -> blocks_in_range st'.
Proof.
  intros Hn Ha H b x Hb Hx. rewrite Hn.
  rewrite (block_members_ext _ _ _ Ha) in Hx.
  destruct Ha as (_ & _ & _ & Hk). rewrite Hk in Hb. now apply (H b).
Qed.

Lemma spec_planner_count (pairs : list (Z * Z)) (st : state) :
  blocks_in_range st ->
  (forall p, In p pairs -> In (fst p) (spec_leaves st) /\ In (snd p) (spec_leaves st)) ->
  total_degree (fold_left spec_connect pairs st)
    - 2 * redundant_edges_added (fold_left spec_connect pairs st)
  = total_degree st - 2 * redundant_edges_added st.
Proof.
  revert st. induction pairs as [|p pairs IH]; intros st Hr Hp; [reflexivity|].
  cbn [fold_left]. destruct (spec_connect_frame st p) as (Hn & Ha & _).
  rewrite IH.
  - apply spec_connect_count; apply leaf_representative_in_range; auto;
      apply Hp; now left.
  - now apply (blocks_in_range_ext st).
  - intros q Hq. rewrite !(spec_leaves_ext _ _ Ha). apply Hp. now right.
Qed.

Lemma spec_pairs_from_In_aux (first : Z) (l : list Z) :
  (forall p, In p (spec_pairs_from first l) ->
     In (fst p) l /\ (In (snd p) l \/ snd p = first)) /\
  (forall x p, In p (spec_pairs_from first (x :: l)) ->
     In (fst p) (x :: l) /\ (In (snd p) (x :: l) \/ snd p = first)).
Proof.
  induction l as [|y r [IHa IHb]].
  - split; [intros p []|]. intros x p [<-|[]]. cbn. auto.
  - split; [exact (IHb y)|].
    intros x p [<-|H]; [cbn; auto|].
    apply IHa in H. cbn. intuition.
Qed.

Lemma spec_pairs_from_In (first : Z) (l : list Z) (p : Z * Z) :
  In p (spec_pairs_from first l) ->
  In (fst p) l /\ (In (snd p) l \/ snd p = first).
Proof. apply spec_pairs_from_In_aux. Qed.

Lemma spec_pairs_In (l : list Z) (p : Z * Z) :
  In p (spec_pairs l) -> In (fst p) l /\ In (snd p) l.
Proof.
  unfold spec_pairs. intros H. apply spec_pairs_from_In in H.
  destruct H as [H1 [H2| ->]]; auto. split; [assumption|].
  destruct l; [destruct H1|now left].
Qed.

(** The planner is the planner of the design document. *)
Lemma planner_is_spec_planner (st : state) :
  blocks_in_range st ->
  add_optimal_redundant_edges st =
  spec_planner (set_redundant_edges_added 0 (identify_leaf_blocks st)).
Proof.
  intros Hr. unfold add_optimal_redundant_edges, spec_planner. cbv zeta.
  set (st0 := set_redundant_edges_added 0 (identify_leaf_blocks st)).
  destruct (identify_leaf_blocks_frame st) as ((Hn & _) & Ha & _).
  destruct (identify_leaf_blocks_spec st) as [Hl Hpos].
  assert (Ha0 : same_analysis st st0) by exact Ha.
  assert (Hl0 : leaf_list st0 = spec_leaves st0).
  { rewrite (spec_leaves_ext _ _ Ha0). exact Hl. }
  change 0 with (Z.of_nat 0) at 1. rewrite plan_loop_spec.
  - cbn [skipn]. rewrite Hl0. unfold spec_pairs.
    destruct (spec_leaves st0) as [|x l] eqn:E; [reflexivity|].
    replace (leaf_blocks st0 0) with x; [reflexivity|].
    change 0 with (Z.of_nat 0). rewrite <- leaf_list_nth.
    + now rewrite Hl0.
    + rewrite Hl0. cbn. lia.
  - intros b Hb. rewrite Hl0 in Hb.
    assert (0 <= spec_representative st0 b < n_nodes st0); [|lia].
    apply leaf_representative_in_range; [|exact Hb].
    apply (blocks_in_range_ext st); auto.
  - rewrite leaf_list_length. lia.
Qed.

(** ** What a pair does *)

Lemma spec_insert_inserted (a b : Z) (st : state) :
  a <> b -> inserted a b st (spec_insert a b st).
Proof.
  intros Hab. destruct (link_neighbors_new a b st) as [N1 N2].
  destruct (Z.eqb_spec b a) as [E|_]; [congruence|]. rewrite Z.add_0_r in N2.
  constructor.
  - exact N1.
  - exact N2.
  - intros w. change (degree (spec_insert a b st) w) with (degree (link a b st) w).
    rewrite link_degree. destruct (Z.eqb_spec w a), (Z.eqb_spec w b); cbn; lia.
  - intros w j Hj. now apply (link_neighbors_old a b w j st).
  - intros u v. rewrite spec_insert_exists_edge. unfold upd2, upd.
    destruct (Z.eqb_spec a b), (Z.eqb_spec b a), (Z.eqb_spec u a), (Z.eqb_spec v b),
      (Z.eqb_spec u b), (Z.eqb_spec v a); cbn; congruence.
  - intros u v. rewrite spec_insert_redundant. unfold upd2, upd.
    destruct (Z.eqb_spec a b), (Z.eqb_spec b a), (Z.eqb_spec u a), (Z.eqb_spec v b),
      (Z.eqb_spec u b), (Z.eqb_spec v a); cbn; congruence.
  - reflexivity.
  - reflexivity.
  - now repeat split.
  - now repeat split.
Qed.

Lemma fold_spec_connect_planned (l : list (Z * Z)) (st : state) :
  planned l st (fold_left spec_connect l st).
Proof.
  revert st. induction l as [|p l IH]; intros st; cbn [fold_left].
  - apply planned_done.
  - unfold spec_connect at 2. cbv zeta.
    destruct (spec_may_connect st _ _) eqn:E.
    + eapply planned_link; [exact E| |apply IH].
      apply spec_insert_inserted. unfold spec_may_connect in E.
      destruct (Z.eqb_spec (spec_representative st (fst p))
                           (spec_representative st (snd p))) as [H|H];
        [discriminate|exact H].
    + apply planned_skip; [exact E|apply IH].
Qed.

(** ** What the analysis leaves alone *)

Lemma analysis_frame_refl (st : state) : analysis_frame st st.
Proof. now repeat split. Qed.

Lemma analysis_frame_trans (a b c : state) :
  analysis_frame a b -> analysis_frame b c -> analysis_frame a c.
Proof.
  intros ((A1 & A2 & A3 & A4) & (B1 & B2 & B3) & C1 & C2 & C3)
         ((A1' & A2' & A3' & A4') & (B1' & B2' & B3') & C1' & C2' & C3').
  repeat split; congruence.
Qed.

Lemma push_edge_frame (u v : Z) (st : state) : analysis_frame st (push_edge u v st).
Proof. unfold push_edge. destruct (_ <? _); now repeat split. Qed.

Lemma add_to_block_frame (x : Z) (ib : Z -> Z) (st : state) :
  analysis_frame st (snd (add_to_block x ib st)).
Proof. unfold add_to_block. destruct (_ =? _); now repeat split. Qed.

Lemma pop_step_frame (st : state) (ib : Z -> Z) :
  let st1 := set_stack_top (stack_top st - 1) st in
  let e := edge_stack st1 (stack_top st1) in
  let r1 := add_to_block (e_u e) ib st1 in
  let r2 := add_to_block (e_v e) (fst r1) (snd r1) in
  analysis_frame st (snd r2).
Proof.
  intros st1 e r1 r2.
  apply (analysis_frame_trans st st1); [now repeat split|].
  apply (analysis_frame_trans st1 (snd r1)); apply add_to_block_frame.
Qed.

Lemma pop_until_frame (k : nat) (u v : Z) (ib : Z -> Z) (st : state) :
  analysis_frame st (pop_until k u v ib st).
Proof.
  revert ib st. induction k as [|k IH]; intros ib st; cbn [pop_until].
  - apply analysis_frame_refl.
  - destruct (stack_top st <=? 0); [apply analysis_frame_refl|].
    pose proof (pop_step_frame st ib) as H. cbv zeta in H.
    destruct (add_to_block _ ib _) as [ib1 s1]. cbn [fst snd] in H.
    destruct (add_to_block _ ib1 s1) as [ib2 s2]. cbn [fst snd] in H.
    destruct (_ && _)%bool; [|exact H].
    eapply analysis_frame_trans; [exact H|apply IH].
Qed.

Lemma pop_all_frame (k : nat) (ib : Z -> Z) (st : state) :
  analysis_frame st (pop_all k ib st).
Proof.
  revert ib st. induction k as [|k IH]; intros ib st; cbn [pop_all].
  - apply analysis_frame_refl.
  - destruct (0 <? stack_top st); [|apply analysis_frame_refl].
    pose proof (pop_step_frame st ib) as H. cbv zeta in H.
    destruct (add_to_block _ ib _) as [ib1 s1]. cbn [fst snd] in H.
    destruct (add_to_block _ ib1 s1) as [ib2 s2]. cbn [fst snd] in H.
    eapply analysis_frame_trans; [exact H|apply IH].
Qed.

Lemma after_child_frame (u v children : Z) (st : state) :
  analysis_frame st (after_child u v children st).
Proof.
  unfold after_child. cbv zeta.
  set (s1 := if low st v <? low st u then _ else st).
  assert (H1 : analysis_frame st s1) by (unfold s1; destruct (_ <? _); now repeat split).
  destruct (_ || _)%bool; [|exact H1].
  set (s2 := set_is_cut _ s1).
  assert (H2 : analysis_frame st s2) by exact H1.
  destruct (num_blocks s2 <? MAX_BLOCKS); [|exact H2].
  eapply analysis_frame_trans; [exact H2|].
  match goal with |- analysis_frame _ (set_num_blocks _ ?s) =>
    change (analysis_frame s2 s) end.
  apply pop_until_frame.
Qed.

Lemma back_edge_frame (u v : Z) (st : state) : analysis_frame st (back_edge u v st).
Proof.
  unfold back_edge. cbv zeta. pose proof (push_edge_frame u v st) as H.
  destruct (_ <? _); exact H.
Qed.

Lemma root_block_frame (u children : Z) (st : state) :
  analysis_frame st (root_block u children st).
Proof.
  unfold root_block. cbv zeta. destruct (_ && _ && _ && _)%bool; [|apply analysis_frame_refl].
  match goal with |- analysis_frame _ (set_num_blocks _ ?s) =>
    change (analysis_frame st s) end.
  apply pop_all_frame.
Qed.

Lemma discover_frame (u : Z) (st : state) : analysis_frame st (discover u st).
Proof. now repeat split. Qed.

Lemma dfs_loop_frame (rec : Z -> state -> option state) :
  (forall v st st', rec v st = Some st' -> analysis_frame st st') ->
  forall k u i children st children' st',
    dfs_loop rec k u i children st = Some (children', st') -> analysis_frame st st'.
Proof.
  intros Hrec. induction k as [|k IH]; intros u i children st children' st' H;
    cbn [dfs_loop] in H.
  - destruct (i <? degree st u); [discriminate|]. injection H as _ <-. apply analysis_frame_refl.
  - destruct (i <? degree st u); [|injection H as _ <-; apply analysis_frame_refl].
    cbv zeta in H. destruct (visited st _ =? 0).
    + destruct (rec _ _) as [s1|] eqn:E; [|discriminate].
      apply Hrec in E. apply IH in H.
      eapply analysis_frame_trans; [|exact H].
      eapply analysis_frame_trans; [|apply after_child_frame].
      eapply analysis_frame_trans; [|exact E].
      eapply analysis_frame_trans; [|apply push_edge_frame]. now repeat split.
    + destruct (_ && _)%bool.
      * apply IH in H. eapply analysis_frame_trans; [apply back_edge_frame|exact H].
      * now apply IH in H.
Qed.

Lemma tarjan_dfs_bicomp_frame (fuel : nat) (u : Z) (st st' : state) :
  tarjan_dfs_bicomp fuel u st = Some st' -> analysis_frame st st'.
Proof.
  revert u st st'. induction fuel as [|fuel IH]; intros u st st' H; [discriminate|].
  cbn [tarjan_dfs_bicomp] in H. cbv zeta in H.
  destruct (dfs_loop _ _ _ _ _ _) as [[children s1]|] eqn:E; [|discriminate].
  injection H as <-. apply (dfs_loop_frame _ IH) in E.
  eapply analysis_frame_trans; [apply discover_frame|].
  eapply analysis_frame_trans; [exact E|apply root_block_frame].
Qed.

Lemma find_loop_frame (k : nat) (i : Z) (st st' : state) :
  find_loop k i st = Some st' -> analysis_frame st st'.
Proof.
  revert i st st'. induction k as [|k IH]; intros i st st' H; cbn [find_loop] in H.
  - destruct (i <? n_nodes st); [discriminate|]. injection H as <-. apply analysis_frame_refl.
  - destruct (i <? n_nodes st); [|injection H as <-; apply analysis_frame_refl].
    destruct (visited st i =? 0).
    + cbv zeta in H. destruct (tarjan_dfs_bicomp _ _ _) as [s1|] eqn:E; [|discriminate].
      apply tarjan_dfs_bicomp_frame in E. apply IH in H.
      eapply analysis_frame_trans; [|exact H].
      eapply analysis_frame_trans; [|exact E]. now repeat split.
    + now apply IH in H.
Qed.

(** The analysis reads the graph and never writes it. *)
Lemma find_biconnected_components_frame (st st' : state) :
  find_biconnected_components st = Some st' -> analysis_frame st st'.
Proof.
  unfold find_biconnected_components. cbv zeta. intros H.
  apply find_loop_frame in H.
  eapply analysis_frame_trans; [|exact H]. now repeat split.
Qed.

(** ** The invariant of the graph store *)

Lemma neighbor_list_ext (st st' : state) (u : Z) :
  same_graph st st' -> neighbor_list st' u = neighbor_list st u.
Proof. intros (_ & Hn & Hd & _). unfold neighbor_list. now rewrite Hn, Hd. Qed.

Lemma adjacency_ok_ext (st st' : state) :
  same_graph st st' -> adjacency_ok st -> adjacency_ok st'.
Proof.
  intros Hg [Hb Hl Hs Hm]. pose proof (fun u => neighbor_list_ext st st' u Hg) as Hnl.
  destruct Hg as (_ & _ & Hd & He).
  constructor; intros; rewrite ?Hnl, ?Hd, ?He; auto.
Qed.

Lemma init_arrays_ok (st : state) : adjacency_ok (init_arrays st).
Proof.
  constructor; cbn.
  - intros _. unfold MAX_NEIGHBORS. lia.
  - reflexivity.
  - intros u v. reflexivity.
  - intros u v. unfold neighbor_list. cbn. intuition.
Qed.

(** A guarded insertion of the generator. *)
Lemma counted_link_ok (u v : Z) (st : state) :
  adjacency_ok st -> u <> v ->
  degree st u < MAX_NEIGHBORS -> degree st v < MAX_NEIGHBORS ->
  adjacency_ok (set_original_edges (original_edges st + 1) (link u v st)).
Proof.
  intros H Huv Hu Hv. apply (adjacency_ok_ext (link u v st)); [now repeat split|].
  now apply link_adjacency_ok.
Qed.

Section GeneratorInvariant.
Variable rand_seq : nat -> Z.
Variable target_edges : Z -> Z.
Variable accept : Z -> Z -> bool.
Hypothesis rand_nonneg : forall k, 0 <= rand_seq k.

Lemma backbone_ok (k : nat) (i : Z) (c : nat) (st : state) :
  1 <= i -> adjacency_ok st ->
  adjacency_ok (snd (backbone rand_seq k i c st)).
Proof.
  revert i c st. induction k as [|k IH]; intros i c st Hi Hok; cbn [backbone]; [exact Hok|].
  destruct (i <? n_nodes st) eqn:E; [|exact Hok].
  cbv zeta.
  destruct (_ && _)%bool eqn:G.
  - apply IH; [lia|]. zify_test. apply counted_link_ok; auto.
    pose proof (Z.rem_bound_pos (rand_seq c) i (rand_nonneg c)). lia.
  - apply IH; [lia|exact Hok].
Qed.

Lemma cross_edges_ok (k : nat) (target attempts max_attempts : Z) (c : nat) (st : state) :
  adjacency_ok st ->
  adjacency_ok (snd (cross_edges rand_seq accept k target attempts max_attempts c st)).
Proof.
  revert attempts c st. induction k as [|k IH]; intros attempts c st Hok;
    cbn [cross_edges]; [exact Hok|].
  destruct (_ && _)%bool; [|exact Hok]. cbv zeta.
  destruct (negb _ && _ && _ && _)%bool eqn:G.
  - destruct (accept _ _).
    + apply IH. zify_test. apply counted_link_ok; auto.
    + apply IH, Hok.
  - apply IH, Hok.
Qed.

Lemma generate_random_topology_ok (c : nat) (st : state) :
  adjacency_ok st ->
  adjacency_ok (snd (generate_random_topology rand_seq target_edges accept c st)).
Proof.
  intros Hok. unfold generate_random_topology.
  pose proof (backbone_ok (Z.to_nat (n_nodes st - 1)) 1 c st (Z.le_refl 1) Hok) as H.
  destruct (backbone _ _ _ _ _) as [c1 s1]. cbn [snd] in H.
  now apply cross_edges_ok.
Qed.
End GeneratorInvariant.

Lemma plan_pair_ok (i : Z) (st : state) :
  adjacency_ok st -> adjacency_ok (plan_pair i st).
Proof.
  intros Hok.
  destruct (plan_pair_cases i st) as [->|(a & b & Hab & _ & Ha & Hb & ->)]; [exact Hok|].
  apply (adjacency_ok_ext (link a b st)); [now repeat split|].
  now apply link_adjacency_ok.
Qed.

Lemma add_optimal_redundant_edges_ok (st : state) :
  adjacency_ok st -> adjacency_ok (add_optimal_redundant_edges st).
Proof.
  intros Hok. unfold add_optimal_redundant_edges. cbv zeta.
  apply plan_loop_invariant; [apply plan_pair_ok|].
  destruct (identify_leaf_blocks_frame st) as (Hg & _).
  apply (adjacency_ok_ext (identify_leaf_blocks st)); [now repeat split|].
  now apply (adjacency_ok_ext st).
Qed.

Lemma apply_analyze (rand_seq : nat -> Z) (target_edges : Z -> Z)
    (accept : Z -> Z -> bool) (st : state) :
  apply_operation rand_seq target_edges accept Analyze st = find_biconnected_components st.
Proof. reflexivity. Qed.

Lemma apply_operation_ok (rand_seq : nat -> Z) (target_edges : Z -> Z)
    (accept : Z -> Z -> bool) (o : operation) (st st' : state) :
  (forall k, 0 <= rand_seq k) ->
  apply_operation rand_seq target_edges accept o st = Some st' ->
  adjacency_ok st -> adjacency_ok st'.
Proof.
  intros Hr Hs Hok. destruct o as [|c| |].
  - injection Hs as <-. apply init_arrays_ok.
  - injection Hs as <-. now apply generate_random_topology_ok.
  - rewrite apply_analyze in Hs.
    apply find_biconnected_components_frame in Hs. destruct Hs as (Hg & _).
    now apply (adjacency_ok_ext st).
  - injection Hs as <-. now apply add_optimal_redundant_edges_ok.
Qed.

Lemma run_ok (rand_seq : nat -> Z) (target_edges : Z -> Z) (accept : Z -> Z -> bool)
    (ops : list operation) (st st' : state) :
  (forall k, 0 <= rand_seq k) ->
  run rand_seq target_edges accept ops st = Some st' ->
  adjacency_ok st -> adjacency_ok st'.
Proof.
  intros Hr. revert st. induction ops as [|o ops IH]; intros st Hs Hok; cbn [run] in Hs.
  - now injection Hs as <-.
  - destruct (apply_operation _ _ _ o st) as [s1|] eqn:E; [|discriminate].
    apply (IH s1 Hs). exact (apply_operation_ok _ _ _ o st s1 Hr E Hok).
Qed.

(** ** Effect of the primitive operations on Tarjan's variables *)

Lemma same_core_refl (s : state) : same_core s s.
Proof. now repeat split. Qed.

Lemma same_core_trans (a b c : state) : same_core a b -> same_core b c -> same_core a c.
Proof.
  intros (A1 & A2 & A3 & A4 & A5 & A6) (B1 & B2 & B3 & B4 & B5 & B6).
  repeat split; congruence.
Qed.

Lemma push_edge_core (u v : Z) (st : state) : same_core st (push_edge u v st).
Proof. unfold push_edge. destruct (_ <? _); now repeat split. Qed.

Lemma add_to_block_core (x : Z) (ib : Z -> Z) (st : state) :
  same_core st (snd (add_to_block x ib st)).
Proof. unfold add_to_block. destruct (_ =? _); now repeat split. Qed.

Lemma pop_step_core (st : state) (ib : Z -> Z) :
  let st1 := set_stack_top (stack_top st - 1) st in
  let e := edge_stack st1 (stack_top st1) in
  let r1 := add_to_block (e_u e) ib st1 in
  let r2 := add_to_block (e_v e) (fst r1) (snd r1) in
  same_core st (snd r2).
Proof.
  intros st1 e r1 r2.
  apply (same_core_trans st st1); [now repeat split|].
  apply (same_core_trans st1 (snd r1)); apply add_to_block_core.
Qed.

Lemma pop_until_core (k : nat) (u v : Z) (ib : Z -> Z) (st : state) :
  same_core st (pop_until k u v ib st).
Proof.
  revert ib st. induction k as [|k IH]; intros ib st; cbn [pop_until].
  - apply same_core_refl.
  - destruct (stack_top st <=? 0); [apply same_core_refl|].
    pose proof (pop_step_core st ib) as H. cbv zeta in H.
    destruct (add_to_block _ ib _) as [ib1 s1]. cbn [fst snd] in H.
    destruct (add_to_block _ ib1 s1) as [ib2 s2]. cbn [fst snd] in H.
    destruct (_ && _)%bool; [|exact H].
    eapply same_core_trans; [exact H|apply IH].
Qed.

Lemma pop_all_core (k : nat) (ib : Z -> Z) (st : state) :
  same_core st (pop_all k ib st).
Proof.
  revert ib st. induction k as [|k IH]; intros ib st; cbn [pop_all].
  - apply same_core_refl.
  - destruct (0 <? stack_top st); [|apply same_core_refl].
    pose proof (pop_step_core st ib) as H. cbv zeta in H.
    destruct (add_to_block _ ib _) as [ib1 s1]. cbn [fst snd] in H.
    destruct (add_to_block _ ib1 s1) as [ib2 s2]. cbn [fst snd] in H.
    eapply same_core_trans; [exact H|apply IH].
Qed.

Lemma root_block_core (u children : Z) (st : state) :
  same_core st (root_block u children st).
Proof.
  unfold root_block. cbv zeta. destruct (_ && _ && _ && _)%bool; [|apply same_core_refl].
  match goal with |- same_core _ (set_num_blocks _ ?s) => change (same_core st s) end.
  apply pop_all_core.
Qed.

Lemma enter_child_core (u v : Z) (t : state) :
  visited (enter_child u v t) = visited t /\ disc (enter_child u v t) = disc t /\
  low (enter_child u v t) = low t /\
  parent_tarjan (enter_child u v t) = upd (parent_tarjan t) v u /\
  time_dfs (enter_child u v t) = time_dfs t /\ is_cut (enter_child u v t) = is_cut t.
Proof.
  unfold enter_child.
  destruct (push_edge_core u v (set_parent_tarjan (upd (parent_tarjan t) v u) t))
    as (A1 & A2 & A3 & A4 & A5 & A6).
  rewrite A1, A2, A3, A4, A5, A6. now repeat split.
Qed.

Lemma enter_child_frame (u v : Z) (t : state) : analysis_frame t (enter_child u v t).
Proof.
  unfold enter_child. eapply analysis_frame_trans; [|apply push_edge_frame]. now repeat split.
Qed.

Lemma after_child_core (u v children : Z) (st : state) :
  let st' := after_child u v children st in
  visited st' = visited st /\ disc st' = disc st /\
  parent_tarjan st' = parent_tarjan st /\ time_dfs st' = time_dfs st /\
  low st' = (if low st v <? low st u then upd (low st) u (low st v) else low st) /\
  is_cut st' = (if core_cut_test u v children (core_of st)
                then upd (is_cut st) u 1 else is_cut st).
Proof.
  intros st'. unfold st', after_child. cbv zeta.
  set (s1 := if low st v <? low st u then set_low (upd (low st) u (low st v)) st else st).
  assert (H1 : visited s1 = visited st /\ disc s1 = disc st /\
               parent_tarjan s1 = parent_tarjan st /\ time_dfs s1 = time_dfs st /\
               low s1 = (if low st v <? low st u then upd (low st) u (low st v) else low st) /\
               is_cut s1 = is_cut st)
    by (unfold s1; destruct (low st v <? low st u); now repeat split).
  destruct H1 as (V1 & D1 & P1 & T1 & L1 & C1).
  assert (Hc : (((parent_tarjan s1 u =? -1) && (1 <? children))
                || (negb (parent_tarjan s1 u =? -1) && (disc s1 u <=? low s1 v)))%bool
               = core_cut_test u v children (core_of st)).
  { unfold core_cut_test, core_of. cbn [c_parent c_disc c_low]. rewrite P1, D1, L1.
    destruct (Z.ltb_spec (low st v) (low st u)) as [E|E]; [|reflexivity].
    unfold upd. destruct (Z.eqb_spec v u) as [->|]; [lia|reflexivity]. }
  rewrite Hc. destruct (core_cut_test u v children (core_of st)).
  - set (s2 := set_is_cut (upd (is_cut s1) u 1) s1).
    assert (H2 : visited s2 = visited st /\ disc s2 = disc st /\
               parent_tarjan s2 = parent_tarjan st /\ time_dfs s2 = time_dfs st /\
               low s2 = (if low st v <? low st u then upd (low st) u (low st v) else low st) /\
               is_cut s2 = upd (is_cut st) u 1).
    { unfold s2. cbn. rewrite C1. now repeat split. }
    destruct (num_blocks s2 <? MAX_BLOCKS); [|exact H2].
    match goal with |- context [set_num_blocks _ ?s] =>
      destruct (pop_until_core (Z.to_nat (stack_top s2)) u v (fun _ => 0) s2)
        as (A1 & A2 & A3 & A4 & A5 & A6);
      change (visited s = visited st /\ disc s = disc st /\
              parent_tarjan s = parent_tarjan st /\ time_dfs s = time_dfs st /\
              low s = (if low st v <? low st u then upd (low st) u (low st v) else low st) /\
              is_cut s = upd (is_cut st) u 1) end.
    rewrite A1, A2, A3, A4, A5, A6. exact H2.
  - now repeat split.
Qed.

Lemma back_edge_core (u v : Z) (st : state) :
  let st' := back_edge u v st in
  visited st' = visited st /\ disc st' = disc st /\
  parent_tarjan st' = parent_tarjan st /\ time_dfs st' = time_dfs st /\
  low st' = (if disc st v <? low st u then upd (low st) u (disc st v) else low st) /\
  is_cut st' = is_cut st.
Proof.
  intros st'. unfold st', back_edge. cbv zeta.
  destruct (push_edge_core u v st) as (A1 & A2 & A3 & A4 & A5 & A6).
  rewrite A2, A3. destruct (disc st v <? low st u); cbn; rewrite ?A1, ?A2, ?A3, ?A4, ?A5, ?A6;
    now repeat split.
Qed.

Lemma discover_core (u : Z) (st : state) :
  let st' := discover u st in
  visited st' = upd (visited st) u 1 /\
  disc st' = upd (disc st) u (time_dfs st + 1) /\
  low st' = upd (low st) u (time_dfs st + 1) /\
  parent_tarjan st' = parent_tarjan st /\ time_dfs st' = time_dfs st + 1 /\
  is_cut st' = is_cut st.
Proof.
  intros st'. unfold st', discover. cbn. rewrite upd_same. now repeat split.
Qed.

(** The same, on the variables of the search taken on their own. *)
Lemma core_of_eq (s s' : state) : same_core s s' -> core_of s' = core_of s.
Proof.
  intros (A1 & A2 & A3 & A4 & A5 & A6). unfold core_of. now rewrite A1, A2, A3, A4, A5, A6.
Qed.

Lemma core_of_discover (u : Z) (s : state) :
  core_of (discover u s) = core_discover u (core_of s).
Proof.
  destruct (discover_core u s) as (A1 & A2 & A3 & A4 & A5 & A6).
  unfold core_of, core_discover. cbn [c_visited c_disc c_low c_parent c_time c_is_cut].
  now rewrite A1, A2, A3, A4, A5, A6.
Qed.

Lemma core_of_enter_child (u v : Z) (s : state) :
  core_of (enter_child u v s) = core_enter u v (core_of s).
Proof.
  destruct (enter_child_core u v s) as (A1 & A2 & A3 & A4 & A5 & A6).
  unfold core_of, core_enter. cbn [c_visited c_disc c_low c_parent c_time c_is_cut].
  now rewrite A1, A2, A3, A4, A5, A6.
Qed.

Lemma core_of_after_child (u v children : Z) (s : state) :
  core_of (after_child u v children s) = core_after_child u v children (core_of s).
Proof.
  destruct (after_child_core u v children s) as (A1 & A2 & A3 & A4 & A5 & A6).
  unfold core_of at 1, core_after_child.
  rewrite A1, A2, A3, A4, A5, A6. reflexivity.
Qed.

Lemma core_of_back_edge (u v : Z) (s : state) :
  core_of (back_edge u v s) = core_back_edge u v (core_of s).
Proof.
  destruct (back_edge_core u v s) as (A1 & A2 & A3 & A4 & A5 & A6).
  unfold core_of at 1, core_back_edge.
  rewrite A1, A2, A3, A4, A5, A6. reflexivity.
Qed.

Lemma core_of_root_block (u children : Z) (s : state) :
  core_of (root_block u children s) = core_of s.
Proof. apply core_of_eq, root_block_core. Qed.

(** ** A proof rule for the recursive search

    Total correctness of [tarjan_dfs_bicomp] from a precondition [Pre], a
    postcondition [Post] and an invariant [Linv] of the loop over the
    neighbours (which may mention the state [s] the call started in): the
    recursion is as deep as there are undiscovered nodes at most. *)

Lemma unvisited_count_ext (s s' : state) :
  n_nodes s' = n_nodes s -> visited s' = visited s ->
  unvisited_count s' = unvisited_count s.
Proof. intros H1 H2. unfold unvisited_count. now rewrite H1, H2. Qed.

Lemma filter_length_mono {A : Type} (f g : A -> bool) (l : list A) :
  (forall x, In x l -> f x = true -> g x = true) ->
  (length (filter f l) <= length (filter g l))%nat.
Proof.
  induction l as [|a l IH]; intros H; cbn [filter]; [lia|].
  assert (IH' := IH (fun x Hx => H x (or_intror Hx))).
  destruct (f a) eqn:E.
  - rewrite (H a (or_introl eq_refl) E). cbn. lia.
  - destruct (g a); cbn; lia.
Qed.

Lemma filter_length_strict {A : Type} (f g : A -> bool) (l : list A) (a : A) :
  (forall x, In x l -> f x = true -> g x = true) ->
  In a l -> f a = false -> g a = true ->
  (length (filter f l) < length (filter g l))%nat.
Proof.
  induction l as [|b l IH]; intros H Ha Hf Hg; [destruct Ha|].
  cbn [filter]. destruct Ha as [->|Ha].
  - rewrite Hf, Hg. cbn.
    pose proof (filter_length_mono f g l (fun x Hx => H x (or_intror Hx))). lia.
  - assert (IH' := IH (fun x Hx => H x (or_intror Hx)) Ha Hf Hg).
    destruct (f b) eqn:E.
    + rewrite (H b (or_introl eq_refl) E). cbn. lia.
    + destruct (g b); cbn; lia.
Qed.

Lemma unvisited_count_mono (s s' : state) :
  n_nodes s' = n_nodes s -> (forall w, vis s w -> vis s' w) ->
  (unvisited_count s' <= unvisited_count s)%nat.
Proof.
  intros Hn H. unfold unvisited_count. rewrite Hn. apply filter_length_mono.
  intros x _ Hx. apply Z.eqb_eq in Hx. apply Z.eqb_eq.
  destruct (Z.eq_dec (visited s x) 0) as [E|E]; [exact E|].
  exfalso. apply (H x E). exact Hx.
Qed.

Lemma unvisited_count_discover (u : Z) (s : state) :
  0 <= u < n_nodes s -> visited s u = 0 ->
  (unvisited_count (discover u s) < unvisited_count s)%nat.
Proof.
  intros Hu Hv. unfold unvisited_count.
  destruct (discover_core u s) as (V & _). destruct (discover_frame u s) as ((Hn & _) & _).
  rewrite Hn, V. apply (filter_length_strict _ _ _ u).
  - intros x _ Hx. unfold upd in Hx. destruct (x =? u); [discriminate|exact Hx].
  - now apply nodes_In.
  - now rewrite upd_same.
  - now apply Z.eqb_eq.
Qed.

Section DfsRule.
Variable Pre : Z -> state -> Prop.
Variable Post : Z -> state -> state -> Prop.
Variable Linv : state -> Z -> Z -> Z -> state -> Prop.

Hypothesis rule_unvisited : forall u s, Pre u s -> 0 <= u < n_nodes s /\ visited s u = 0.
Hypothesis rule_count : forall s u i ch t,
  Pre u s -> Linv s u i ch t ->
  (unvisited_count t <= unvisited_count (discover u s))%nat.
Hypothesis rule_init : forall u s, Pre u s -> Linv s u 0 0 (discover u s).
Hypothesis rule_child_pre : forall s u i ch t,
  Pre u s -> Linv s u i ch t -> 0 <= i < degree t u ->
  visited t (neighbors t u i) = 0 ->
  Pre (neighbors t u i) (enter_child u (neighbors t u i) t).
Hypothesis rule_child_post : forall s u i ch t t2,
  Pre u s -> Linv s u i ch t -> 0 <= i < degree t u ->
  visited t (neighbors t u i) = 0 ->
  Post (neighbors t u i) (enter_child u (neighbors t u i) t) t2 ->
  Linv s u (i + 1) (ch + 1) (after_child u (neighbors t u i) (ch + 1) t2).
Hypothesis rule_back : forall s u i ch t,
  Pre u s -> Linv s u i ch t -> 0 <= i < degree t u ->
  visited t (neighbors t u i) <> 0 ->
  neighbors t u i <> parent_tarjan t u -> disc t (neighbors t u i) < disc t u ->
  Linv s u (i + 1) ch (back_edge u (neighbors t u i) t).
Hypothesis rule_skip : forall s u i ch t,
  Pre u s -> Linv s u i ch t -> 0 <= i < degree t u ->
  visited t (neighbors t u i) <> 0 ->
  ~ (neighbors t u i <> parent_tarjan t u /\ disc t (neighbors t u i) < disc t u) ->
  Linv s u (i + 1) ch t.
Hypothesis rule_exit : forall s u i ch t,
  Pre u s -> Linv s u i ch t -> degree t u <= i -> Post u s (root_block u ch t).

Lemma dfs_loop_rule (fuel : nat) (s : state) (u : Z) :
  (forall v s1, Pre v s1 -> (unvisited_count s1 <= fuel)%nat ->
     exists s2, tarjan_dfs_bicomp fuel v s1 = Some s2 /\ Post v s1 s2) ->
  Pre u s -> (unvisited_count (discover u s) <= fuel)%nat ->
  forall k i ch t,
    Linv s u i ch t -> 0 <= i -> degree t u - i <= Z.of_nat k ->
    exists ch' t' i', dfs_loop (tarjan_dfs_bicomp fuel) k u i ch t = Some (ch', t') /\
      degree t' u <= i' /\ Linv s u i' ch' t'.
Proof.
  intros IH HPre Hfuel. induction k as [|k IHk]; intros i ch t HL Hi Hk.
  - cbn [dfs_loop]. destruct (Z.ltb_spec i (degree t u)) as [H|H]; [lia|].
    exists ch, t, i. auto.
  - cbn [dfs_loop]. destruct (Z.ltb_spec i (degree t u)) as [H|H];
      [|exists ch, t, i; auto].
    cbv zeta. set (v := neighbors t u i).
    destruct (Z.eqb_spec (visited t v) 0) as [Hv|Hv].
    + fold (enter_child u v t).
      assert (Hc : (unvisited_count (enter_child u v t) <= fuel)%nat).
      { destruct (enter_child_core u v t) as (V & _).
        destruct (enter_child_frame u v t) as ((Hn & _) & _).
        rewrite (unvisited_count_ext _ _ Hn V).
        pose proof (rule_count s u i ch t HPre HL). lia. }
      destruct (IH v (enter_child u v t)
                  (rule_child_pre s u i ch t HPre HL (conj Hi H) Hv) Hc) as (t2 & E & HP).
      rewrite E.
      apply tarjan_dfs_bicomp_frame in E.
      apply IHk.
      * now apply (rule_child_post s u i ch t t2).
      * lia.
      * pose proof (analysis_frame_trans _ _ _ (enter_child_frame u v t) E) as F1.
        pose proof (analysis_frame_trans _ _ _ F1 (after_child_frame u v (ch + 1) t2)) as F2.
        destruct F2 as ((_ & _ & Hd & _) & _). rewrite Hd. lia.
    + destruct (negb (v =? parent_tarjan t u) && (disc t v <? disc t u))%bool eqn:B.
      * zify_test. apply IHk.
        -- now apply (rule_back s u i ch t).
        -- lia.
        -- destruct (back_edge_frame u v t) as ((_ & _ & Hd & _) & _). rewrite Hd. lia.
      * apply IHk; [|lia|lia].
        apply (rule_skip s u i ch t); auto.
        intros [B1 B2]. apply Z.eqb_neq in B1. apply Z.ltb_lt in B2.
        fold v in B1, B2. rewrite B1, B2 in B. discriminate.
Qed.

Theorem dfs_rule (fuel : nat) (u : Z) (s : state) :
  Pre u s -> (unvisited_count s <= fuel)%nat ->
  exists s', tarjan_dfs_bicomp fuel u s = Some s' /\ Post u s s'.
Proof.
  revert u s. induction fuel as [|fuel IH]; intros u s HPre Hf.
  - destruct (rule_unvisited u s HPre) as [Hu Hv].
    pose proof (unvisited_count_discover u s Hu Hv). lia.
  - destruct (rule_unvisited u s HPre) as [Hu Hv].
    pose proof (unvisited_count_discover u s Hu Hv) as Hd.
    cbn [tarjan_dfs_bicomp]. cbv zeta.
    destruct (dfs_loop_rule fuel s u IH HPre ltac:(lia)
                (Z.to_nat (degree (discover u s) u)) 0 0 (discover u s)
                (rule_init u s HPre) (Z.le_refl 0) ltac:(lia))
      as (ch' & t' & i' & E & Hi' & HL).
    rewrite E. exists (root_block u ch' t'). split; [reflexivity|].
    now apply (rule_exit s u i' ch' t').
Qed.
End DfsRule.

(** ** Termination of the analysis *)

Lemma neighbor_list_In (st : state) (u v : Z) :
  In v (neighbor_list st u) <-> exists j, 0 <= j < degree st u /\ v = neighbors st u j.
Proof.
  unfold neighbor_list. rewrite in_map_iff. split.
  - intros (j & <- & Hj). apply in_seq in Hj. exists (Z.of_nat j). split; [lia|reflexivity].
  - intros (j & Hj & ->). exists (Z.to_nat j). split; [f_equal; lia|apply in_seq; lia].
Qed.

Lemma simple_graph_neighbors_in_range (g : state) :
  simple_graph g -> neighbors_in_range g.
Proof.
  intros Hg u j Hu Hj. apply (sg_range g Hg u); [assumption|].
  apply neighbor_list_In. now exists j.
Qed.

Lemma neighbors_in_range_ext (g s : state) :
  same_graph g s -> neighbors_in_range g -> neighbors_in_range s.
Proof. intros (Hn & Hnb & Hd & _) H u j. rewrite Hn, Hnb, Hd. apply H. Qed.

Section Termination.
Variable g : state.
Hypothesis g_range : neighbors_in_range g.


Lemma vis_discover (u : Z) (s : state) (w : Z) :
  vis (discover u s) w <-> vis s w \/ w = u.
Proof.
  unfold vis. destruct (discover_core u s) as (V & _). rewrite V. unfold upd.
  destruct (Z.eqb_spec w u) as [->|]; intuition lia.
Qed.

Lemma same_graph_frame (s s' : state) :
  analysis_frame s s' -> same_graph g s -> same_graph g s'.
Proof. intros (F & _) H. exact (same_graph_trans g s s' H F). Qed.

Lemma vis_ext (s s' : state) (w : Z) : visited s' = visited s -> vis s' w <-> vis s w.
Proof. intros H. unfold vis. now rewrite H. Qed.

Lemma tarjan_terminates (fuel : nat) (u : Z) (s : state) :
  term_pre g u s -> (unvisited_count s <= fuel)%nat ->
  exists s', tarjan_dfs_bicomp fuel u s = Some s' /\ term_post g u s s'.
Proof.
  apply (dfs_rule (term_pre g) (term_post g) (term_inv g)).
  - intros v s0 ((Hn & _) & Hv & H0). rewrite Hn. auto.
  - intros s0 v i ch t ((Hn & _) & _) ((Hn' & _) & H).
    apply unvisited_count_mono; [|exact H].
    destruct (discover_frame v s0) as ((Hd & _) & _). congruence.
  - intros v s0 (Hg & _). split; [|auto].
    exact (same_graph_frame _ _ (discover_frame v s0) Hg).
  - intros s0 v i ch t (Hg0 & Hv & H0) (Hg & H) Hi Hvis.
    split; [exact (same_graph_frame _ _ (enter_child_frame _ _ t) Hg)|].
    destruct Hg as (Hn & Hnb & Hd & _). split.
    + rewrite Hnb. apply g_range; [assumption|]. now rewrite <- Hd.
    + destruct (enter_child_core v (neighbors t v i) t) as (V & _). now rewrite V.
  - intros s0 v i ch t t2 _ (Hg & H) Hi Hvis (Hg2 & Hm & Hc).
    split; [exact (same_graph_frame _ _ (after_child_frame _ _ _ t2) Hg2)|].
    intros w Hw. destruct (after_child_core v (neighbors t v i) (ch + 1) t2) as (V & _).
    apply (vis_ext _ _ _ V). apply Hm.
    destruct (enter_child_core v (neighbors t v i) t) as (V1 & _).
    apply (vis_ext _ _ _ V1). now apply H.
  - intros s0 v i ch t _ (Hg & H) _ _ _ _.
    split; [exact (same_graph_frame _ _ (back_edge_frame _ _ t) Hg)|].
    intros w Hw. destruct (back_edge_core v (neighbors t v i) t) as (V & _).
    apply (vis_ext _ _ _ V). now apply H.
  - intros s0 v i ch t _ HL _ _ _. exact HL.
  - intros s0 v i ch t _ (Hg & H) _.
    destruct (root_block_core v ch t) as (V & _).
    split; [exact (same_graph_frame _ _ (root_block_frame _ _ t) Hg)|]. split.
    + intros w Hw. apply (vis_ext _ _ _ V). apply H. apply vis_discover. now left.
    + apply (vis_ext _ _ _ V). apply H. apply vis_discover. now right.
Qed.

Lemma unvisited_count_le (s : state) : (unvisited_count s <= Z.to_nat (n_nodes s))%nat.
Proof.
  unfold unvisited_count. etransitivity; [apply List.filter_length_le|].
  unfold nodes. now rewrite length_map, length_seq.
Qed.

Lemma find_loop_terminates (k : nat) (i : Z) (s : state) :
  same_graph g s -> 0 <= i -> n_nodes g - i <= Z.of_nat k ->
  exists s', find_loop k i s = Some s'.
Proof.
  revert i s. induction k as [|k IH]; intros i s Hg Hi Hk; cbn [find_loop];
    pose proof Hg as (Hn & _); rewrite Hn.
  - destruct (Z.ltb_spec i (n_nodes g)); [lia|]. now exists s.
  - destruct (Z.ltb_spec i (n_nodes g)) as [H|H]; [|now exists s].
    destruct (Z.eqb_spec (visited s i) 0) as [Hv|Hv]; [|apply IH; auto; lia].
    cbv zeta. set (s1 := set_parent_tarjan _ s).
    assert (Hg1 : same_graph g s1) by exact Hg.
    destruct (tarjan_terminates (Z.to_nat (n_nodes g)) i s1) as (s2 & E & (Hg2 & _)).
    + repeat split; try apply Hg; auto; lia.
    + pose proof (unvisited_count_le s1) as Hc.
      change (n_nodes s1) with (n_nodes s) in Hc. rewrite Hn in Hc. exact Hc.
    + change (n_nodes s1) with (n_nodes s). rewrite Hn, E. apply IH; auto; lia.
Qed.

Lemma find_biconnected_components_terminates :
  exists s', find_biconnected_components g = Some s'.
Proof.
  unfold find_biconnected_components. cbv zeta.
  apply find_loop_terminates; [now repeat split|lia|].
  change (n_nodes (reset_analysis g)) with (n_nodes g). lia.
Qed.
End Termination.

(** ** The analysis does not read stale cells *)

Ltac sim_split H :=
  let G := fresh "G" in let C := fresh "C" in
  destruct H as (G & C & ?HT & ?HE & ?HNB & ?HBS & ?HBN);
  destruct G as (?Gn & ?Gnb & ?Gd & ?Ge);
  destruct C as (?Cv & ?Cd & ?Cl & ?Cp & ?Ct & ?Cc).

Lemma sim_intro (s1 s2 : state) :
  same_graph s1 s2 -> same_core s1 s2 ->
  stack_top s2 = stack_top s1 ->
  (forall j, 0 <= j < stack_top s1 -> edge_stack s2 j = edge_stack s1 j) ->
  num_blocks s2 = num_blocks s1 -> block_size s2 = block_size s1 ->
  (forall b j, 0 <= j < block_size s1 b -> block_nodes s2 b j = block_nodes s1 b j) ->
  sim s1 s2.
Proof. intros. repeat split; try assumption; try apply H; try apply H0. Qed.

Lemma push_edge_sim (u v : Z) (s1 s2 : state) :
  sim s1 s2 -> sim (push_edge u v s1) (push_edge u v s2).
Proof.
  intros H. pose proof H as H'. sim_split H'. unfold push_edge. rewrite HT.
  destruct (stack_top s1 <? MAX_NODES * 10 - 1); [|exact H].
  apply sim_intro; cbn; try (repeat split; assumption); try congruence.
  intros j Hj. unfold upd. destruct (Z.eqb_spec j (stack_top s1)); [reflexivity|].
  apply HE. lia.
Qed.

Lemma add_to_block_sim (x : Z) (ib : Z -> Z) (s1 s2 : state) :
  sim s1 s2 ->
  fst (add_to_block x ib s2) = fst (add_to_block x ib s1) /\
  sim (snd (add_to_block x ib s1)) (snd (add_to_block x ib s2)).
Proof.
  intros H. pose proof H as H'. sim_split H'. unfold add_to_block. cbv zeta.
  destruct (ib x =? 0); [|split; [reflexivity|exact H]].
  cbn [fst snd]. split; [reflexivity|].
  apply sim_intro; cbn; try (repeat split; assumption); try congruence.
  intros b j. rewrite HNB, HBS. unfold upd2, upd.
  destruct (Z.eqb_spec b (num_blocks s1)) as [->|Hb].
  - intros Hj. destruct (Z.eqb_spec j (block_size s1 (num_blocks s1))); [reflexivity|].
    apply HBN. lia.
  - apply HBN.
Qed.

Lemma set_stack_top_sim (s1 s2 : state) :
  sim s1 s2 -> 0 < stack_top s1 ->
  sim (set_stack_top (stack_top s1 - 1) s1) (set_stack_top (stack_top s2 - 1) s2) /\
  edge_stack s2 (stack_top s2 - 1) = edge_stack s1 (stack_top s1 - 1).
Proof.
  intros H Hpos. pose proof H as H'. sim_split H'. rewrite HT. split.
  - apply sim_intro; cbn; try (repeat split; assumption); try congruence.
    intros j Hj. apply HE. lia.
  - apply HE. lia.
Qed.

Lemma pop_until_sim (k : nat) (u v : Z) (ib : Z -> Z) (s1 s2 : state) :
  sim s1 s2 -> sim (pop_until k u v ib s1) (pop_until k u v ib s2).
Proof.
  revert ib s1 s2. induction k as [|k IH]; intros ib s1 s2 H; cbn [pop_until]; [exact H|].
  assert (HT : stack_top s2 = stack_top s1) by apply H. rewrite HT.
  destruct (Z.leb_spec (stack_top s1) 0) as [Hs|Hs]; [exact H|]. cbv zeta.
  destruct (set_stack_top_sim s1 s2 H Hs) as [H1 E]. rewrite HT in H1, E.
  change (stack_top (set_stack_top (stack_top s1 - 1) s2)) with (stack_top s1 - 1).
  change (stack_top (set_stack_top (stack_top s1 - 1) s1)) with (stack_top s1 - 1).
  change (edge_stack (set_stack_top (stack_top s1 - 1) s2)) with (edge_stack s2).
  change (edge_stack (set_stack_top (stack_top s1 - 1) s1)) with (edge_stack s1).
  rewrite E. set (e := edge_stack s1 (stack_top s1 - 1)).
  destruct (add_to_block_sim (e_u e) ib _ _ H1) as [F1 H2].
  destruct (add_to_block (e_u e) ib (set_stack_top (stack_top s1 - 1) s1)) as [ib1 a1].
  destruct (add_to_block (e_u e) ib (set_stack_top (stack_top s1 - 1) s2)) as [ib1' a2].
  cbn [fst snd] in F1, H2. subst ib1'.
  destruct (add_to_block_sim (e_v e) ib1 _ _ H2) as [F2 H3].
  destruct (add_to_block (e_v e) ib1 a1) as [ib2 b1].
  destruct (add_to_block (e_v e) ib1 a2) as [ib2' b2].
  cbn [fst snd] in F2, H3. subst ib2'.
  assert (HT3 : stack_top b2 = stack_top b1) by apply H3. rewrite HT3.
  destruct (_ && _)%bool; [apply IH|]; exact H3.
Qed.

Lemma pop_all_sim (k : nat) (ib : Z -> Z) (s1 s2 : state) :
  sim s1 s2 -> sim (pop_all k ib s1) (pop_all k ib s2).
Proof.
  revert ib s1 s2. induction k as [|k IH]; intros ib s1 s2 H; cbn [pop_all]; [exact H|].
  assert (HT : stack_top s2 = stack_top s1) by apply H. rewrite HT.
  destruct (Z.ltb_spec 0 (stack_top s1)) as [Hs|Hs]; [|exact H]. cbv zeta.
  destruct (set_stack_top_sim s1 s2 H Hs) as [H1 E]. rewrite HT in H1, E.
  change (stack_top (set_stack_top (stack_top s1 - 1) s2)) with (stack_top s1 - 1).
  change (stack_top (set_stack_top (stack_top s1 - 1) s1)) with (stack_top s1 - 1).
  change (edge_stack (set_stack_top (stack_top s1 - 1) s2)) with (edge_stack s2).
  change (edge_stack (set_stack_top (stack_top s1 - 1) s1)) with (edge_stack s1).
  rewrite E. set (e := edge_stack s1 (stack_top s1 - 1)).
  destruct (add_to_block_sim (e_u e) ib _ _ H1) as [F1 H2].
  destruct (add_to_block (e_u e) ib (set_stack_top (stack_top s1 - 1) s1)) as [ib1 a1].
  destruct (add_to_block (e_u e) ib (set_stack_top (stack_top s1 - 1) s2)) as [ib1' a2].
  cbn [fst snd] in F1, H2. subst ib1'.
  destruct (add_to_block_sim (e_v e) ib1 _ _ H2) as [F2 H3].
  destruct (add_to_block (e_v e) ib1 a1) as [ib2 b1].
  destruct (add_to_block (e_v e) ib1 a2) as [ib2' b2].
  cbn [fst snd] in F2, H3. subst ib2'.
  now apply IH.
Qed.

(** Assignments to the variables of the search and to [num_blocks] keep
    the relation. *)
Lemma set_low_sim (f : Z -> Z) (s1 s2 : state) :
  sim s1 s2 -> sim (set_low f s1) (set_low f s2).
Proof.
  intros H. sim_split H. apply sim_intro; cbn; try (repeat split; assumption); congruence.
Qed.

Lemma set_is_cut_sim (f : Z -> Z) (s1 s2 : state) :
  sim s1 s2 -> sim (set_is_cut f s1) (set_is_cut f s2).
Proof.
  intros H. sim_split H. apply sim_intro; cbn; try (repeat split; assumption); congruence.
Qed.

Lemma set_parent_tarjan_sim (f : Z -> Z) (s1 s2 : state) :
  sim s1 s2 -> sim (set_parent_tarjan f s1) (set_parent_tarjan f s2).
Proof.
  intros H. sim_split H. apply sim_intro; cbn; try (repeat split; assumption); congruence.
Qed.

Lemma set_num_blocks_sim (x : Z) (s1 s2 : state) :
  sim s1 s2 -> sim (set_num_blocks x s1) (set_num_blocks x s2).
Proof.
  intros H. sim_split H. apply sim_intro; cbn; try (repeat split; assumption); congruence.
Qed.

Lemma discover_sim (u : Z) (s1 s2 : state) :
  sim s1 s2 -> sim (discover u s1) (discover u s2).
Proof.
  intros H. sim_split H. unfold discover.
  apply sim_intro; cbn; try assumption.
  - repeat split; assumption.
  - unfold same_core. cbn. rewrite ?Cv, ?Cd, ?Cl, ?Cp, ?Ct, ?Cc. now repeat split.
Qed.

Lemma after_child_sim (u v children : Z) (s1 s2 : state) :
  sim s1 s2 -> sim (after_child u v children s1) (after_child u v children s2).
Proof.
  intros H. pose proof H as H'. sim_split H'. unfold after_child. cbv zeta. rewrite Cl.
  set (a1 := if low s1 v <? low s1 u then set_low (upd (low s1) u (low s1 v)) s1 else s1).
  set (a2 := if low s1 v <? low s1 u then set_low (upd (low s1) u (low s1 v)) s2 else s2).
  assert (Ha : sim a1 a2).
  { unfold a1, a2. destruct (low s1 v <? low s1 u); [now apply set_low_sim|exact H]. }
  pose proof Ha as Ha'. sim_split Ha'. rewrite Cp0, Cd0, Cl0.
  destruct (_ || _)%bool; [|exact Ha].
  pose proof (set_is_cut_sim (upd (is_cut a1) u 1) a1 a2 Ha) as Hb.
  rewrite Cc0.
  set (b1 := set_is_cut (upd (is_cut a1) u 1) a1) in *.
  set (b2 := set_is_cut (upd (is_cut a1) u 1) a2) in *.
  assert (HNb : num_blocks b2 = num_blocks b1) by apply Hb.
  assert (HTb : stack_top b2 = stack_top b1) by apply Hb.
  rewrite HNb. destruct (num_blocks b1 <? MAX_BLOCKS); [|exact Hb].
  rewrite HTb.
  pose proof (pop_until_sim (Z.to_nat (stack_top b1)) u v (fun _ => 0) b1 b2 Hb) as Hc.
  assert (HNc : num_blocks (pop_until (Z.to_nat (stack_top b1)) u v (fun _ => 0) b2)
                = num_blocks (pop_until (Z.to_nat (stack_top b1)) u v (fun _ => 0) b1))
    by apply Hc.
  rewrite HNc. now apply set_num_blocks_sim.
Qed.

Lemma back_edge_sim (u v : Z) (s1 s2 : state) :
  sim s1 s2 -> sim (back_edge u v s1) (back_edge u v s2).
Proof.
  intros H. unfold back_edge. cbv zeta.
  pose proof (push_edge_sim u v s1 s2 H) as Hp. pose proof Hp as Hp'. sim_split Hp'.
  rewrite Cd, Cl. destruct (_ <? _); [now apply set_low_sim|exact Hp].
Qed.

Lemma root_block_sim (u children : Z) (s1 s2 : state) :
  sim s1 s2 -> sim (root_block u children s1) (root_block u children s2).
Proof.
  intros H. pose proof H as H'. sim_split H'. unfold root_block. cbv zeta.
  rewrite Cp, HT, HNB. destruct (_ && _ && _ && _)%bool; [|exact H].
  pose proof (pop_all_sim (Z.to_nat (stack_top s1)) (fun _ => 0) s1 s2 H) as Hc.
  assert (HNc : num_blocks (pop_all (Z.to_nat (stack_top s1)) (fun _ => 0) s2)
                = num_blocks (pop_all (Z.to_nat (stack_top s1)) (fun _ => 0) s1))
    by apply Hc.
  rewrite HNc. now apply set_num_blocks_sim.
Qed.

Lemma dfs_loop_sim (rec : Z -> state -> option state) :
  (forall v s1 s2 r1, sim s1 s2 -> rec v s1 = Some r1 ->
     exists r2, rec v s2 = Some r2 /\ sim r1 r2) ->
  forall k u i ch s1 s2 ch' r1, sim s1 s2 ->
    dfs_loop rec k u i ch s1 = Some (ch', r1) ->
    exists r2, dfs_loop rec k u i ch s2 = Some (ch', r2) /\ sim r1 r2.
Proof.
  intros Hrec. induction k as [|k IH]; intros u i ch s1 s2 ch' r1 H E;
    pose proof H as H'; sim_split H'; cbn [dfs_loop] in *; rewrite Gd.
  - destruct (i <? degree s1 u); [discriminate|].
    apply Some_inj in E. injection E as <- <-. now exists s2.
  - destruct (i <? degree s1 u);
      [|apply Some_inj in E; injection E as <- <-; now exists s2].
    cbv zeta in *. rewrite Gnb, Cv, Cp, Cd.
    set (v := neighbors s1 u i) in *.
    destruct (visited s1 v =? 0).
    + destruct (rec v (push_edge u v (set_parent_tarjan (upd (parent_tarjan s1) v u) s1)))
        as [a1|] eqn:E1; [|discriminate].
      assert (Hs : sim (push_edge u v (set_parent_tarjan (upd (parent_tarjan s1) v u) s1))
                       (push_edge u v (set_parent_tarjan (upd (parent_tarjan s1) v u) s2)))
        by (apply push_edge_sim, set_parent_tarjan_sim, H).
      destruct (Hrec _ _ _ _ Hs E1) as (a2 & E2 & Ha). rewrite E2.
      apply (IH _ _ _ _ _ _ _ (after_child_sim u v (ch + 1) a1 a2 Ha) E).
    + destruct (_ && _)%bool.
      * apply (IH _ _ _ _ _ _ _ (back_edge_sim u v s1 s2 H) E).
      * apply (IH _ _ _ _ _ _ _ H E).
Qed.

Lemma tarjan_dfs_bicomp_sim (fuel : nat) (u : Z) (s1 s2 r1 : state) :
  sim s1 s2 -> tarjan_dfs_bicomp fuel u s1 = Some r1 ->
  exists r2, tarjan_dfs_bicomp fuel u s2 = Some r2 /\ sim r1 r2.
Proof.
  revert u s1 s2 r1. induction fuel as [|fuel IH]; intros u s1 s2 r1 H E; [discriminate|].
  cbn [tarjan_dfs_bicomp] in *. cbv zeta in *.
  pose proof (discover_sim u s1 s2 H) as Hd.
  assert (Hdeg : degree (discover u s2) u = degree (discover u s1) u).
  { pose proof Hd as Hd'. sim_split Hd'. now rewrite Gd. }
  rewrite Hdeg.
  destruct (dfs_loop _ _ u 0 0 (discover u s1)) as [[ch a1]|] eqn:E1; [|discriminate].
  destruct (dfs_loop_sim _ (fun v => IH v) _ _ _ _ _ _ _ _ Hd E1) as (a2 & E2 & Ha).
  rewrite E2. apply Some_inj in E. subst r1.
  exists (root_block u ch a2). split; [reflexivity|]. now apply root_block_sim.
Qed.

Lemma find_loop_sim (k : nat) (i : Z) (s1 s2 r1 : state) :
  sim s1 s2 -> find_loop k i s1 = Some r1 ->
  exists r2, find_loop k i s2 = Some r2 /\ sim r1 r2.
Proof.
  revert i s1 s2 r1. induction k as [|k IH]; intros i s1 s2 r1 H E;
    pose proof H as H'; sim_split H'; cbn [find_loop] in *; rewrite Gn.
  - destruct (i <? n_nodes s1); [discriminate|]. apply Some_inj in E. subst r1. now exists s2.
  - destruct (i <? n_nodes s1); [|apply Some_inj in E; subst r1; now exists s2].
    rewrite Cv. destruct (visited s1 i =? 0); [|now apply (IH _ s1)].
    cbv zeta in *. rewrite Cp.
    change (n_nodes (set_parent_tarjan (upd (parent_tarjan s1) i (-1)) s2)) with (n_nodes s2).
    change (n_nodes (set_parent_tarjan (upd (parent_tarjan s1) i (-1)) s1)) with (n_nodes s1) in E.
    rewrite Gn.
    destruct (tarjan_dfs_bicomp _ i (set_parent_tarjan _ s1)) as [a1|] eqn:E1; [|discriminate].
    destruct (tarjan_dfs_bicomp_sim _ _ _ _ _
                (set_parent_tarjan_sim (upd (parent_tarjan s1) i (-1)) s1 s2 H) E1)
      as (a2 & E2 & Ha).
    rewrite E2. now apply (IH _ a1).
Qed.

Lemma reset_analysis_fields (st : state) :
  let r := reset_analysis st in
  (n_nodes r = n_nodes st /\ neighbors r = neighbors st /\
   degree r = degree st /\ exists_edge r = exists_edge st) /\
  (visited r = (fun _ => 0) /\ disc r = (fun _ => 0) /\ low r = (fun _ => 0) /\
   parent_tarjan r = (fun _ => -1) /\ time_dfs r = 0 /\ is_cut r = (fun _ => 0)) /\
  stack_top r = 0 /\ num_blocks r = 0 /\ block_size r = (fun _ => 0).
Proof. cbv zeta. repeat split; reflexivity. Qed.

Lemma find_biconnected_components_eq (st : state) :
  find_biconnected_components st
  = find_loop (Z.to_nat (n_nodes st)) 0 (reset_analysis st).
Proof. reflexivity. Qed.

(** The result of the analysis depends on the graph alone. *)
Lemma find_biconnected_components_sim (s1 s2 r1 : state) :
  same_graph s1 s2 -> find_biconnected_components s1 = Some r1 ->
  exists r2, find_biconnected_components s2 = Some r2 /\ sim r1 r2.
Proof.
  intros (Hn & Hnb & Hd & He) E. rewrite find_biconnected_components_eq in *.
  destruct (reset_analysis_fields s1)
    as ((An & Anb & Ad & Ae) & (Av & Adi & Al & Ap & At & Ac) & AT & AN & AB).
  destruct (reset_analysis_fields s2)
    as ((Bn & Bnb & Bd & Be) & (Bv & Bdi & Bl & Bp & Bt & Bc) & BT & BN & BB).
  rewrite Hn.
  apply (find_loop_sim _ _ (reset_analysis s1)); [|exact E].
  apply sim_intro.
  - repeat split; congruence.
  - repeat split; congruence.
  - congruence.
  - intros j Hj. rewrite AT in Hj. lia.
  - congruence.
  - congruence.
  - intros b j Hj. rewrite AB in Hj. lia.
Qed.

Lemma sim_blocks (s1 s2 : state) : sim s1 s2 -> blocks s2 = blocks s1.
Proof.
  intros H. sim_split H. unfold blocks. rewrite HNB. apply map_ext. intros b.
  unfold block_members. rewrite HBS. apply map_ext_in. intros j Hj.
  apply in_seq in Hj. apply HBN. lia.
Qed.

Lemma sim_cut_vertices (s1 s2 : state) : sim s1 s2 -> cut_vertices s2 = cut_vertices s1.
Proof. intros H. sim_split H. unfold cut_vertices. now rewrite Gn, Cc. Qed.

(** ** Well-formed graphs, as a test *)

Lemma existsb_eqb_In (u : Z) (l : list Z) : existsb (Z.eqb u) l = true -> In u l.
Proof.
  intros H. apply existsb_exists in H. destruct H as (x & Hx & E).
  apply Z.eqb_eq in E. now subst x.
Qed.

Lemma nodup_length_NoDup (l : list Z) :
  length (nodup Z.eq_dec l) = length l -> NoDup l.
Proof.
  induction l as [|a l IH]; intros H; [constructor|].
  cbn [nodup] in H. destruct (in_dec Z.eq_dec a l) as [Hin|Hin].
  - assert (Hle : (length (nodup Z.eq_dec l) <= length l)%nat).
    { apply NoDup_incl_length; [apply NoDup_nodup|]. intros x Hx. now apply nodup_In in Hx. }
    cbn in H. lia.
  - cbn in H. constructor; [exact Hin|]. apply IH. lia.
Qed.

Lemma simple_graphb_true (st : state) : simple_graphb st = true -> simple_graph st.
Proof.
  unfold simple_graphb. intros H.
  apply andb_true_iff in H. destruct H as [Hn Hall].
  apply andb_true_iff in Hn. destruct Hn as [Hn1 Hn2].
  apply Z.leb_le in Hn1, Hn2.
  rewrite forallb_forall in Hall.
  assert (Hu : forall u, 0 <= u < n_nodes st ->
    (0 <= degree st u <= MAX_NEIGHBORS) /\
    (forall v, In v (neighbor_list st u) ->
       0 <= v < n_nodes st /\ In u (neighbor_list st v) /\ v <> u) /\
    NoDup (neighbor_list st u)).
  { intros u Hu. specialize (Hall u (proj2 (nodes_In _ _) Hu)).
    apply andb_true_iff in Hall. destruct Hall as [Hall Hnd].
    apply andb_true_iff in Hall. destruct Hall as [Hdeg Hnb].
    apply andb_true_iff in Hdeg. destruct Hdeg as [Hd1 Hd2].
    apply Z.leb_le in Hd1, Hd2. rewrite forallb_forall in Hnb.
    split; [lia|]. split.
    - intros v Hv. specialize (Hnb v Hv).
      apply andb_true_iff in Hnb. destruct Hnb as [Hnb Hne].
      apply andb_true_iff in Hnb. destruct Hnb as [Hr Hsym].
      apply andb_true_iff in Hr. destruct Hr as [Hr1 Hr2].
      apply Z.leb_le in Hr1. apply Z.ltb_lt in Hr2.
      apply negb_true_iff, Z.eqb_neq in Hne.
      split; [lia|]. split; [now apply existsb_eqb_In|assumption].
    - apply nodup_length_NoDup. now apply Nat.eqb_eq. }
  constructor.
  - lia.
  - intros u Hin. apply (Hu u Hin).
  - intros u v Hin Hv. apply (Hu u Hin), Hv.
  - intros u v Hin Hv. apply (Hu u Hin), Hv.
  - intros u Hin Hv. destruct (Hu u Hin) as (_ & Hn & _). now apply (Hn u Hv).
  - intros u Hin. apply (Hu u Hin).
Qed.

Lemma path5_simple : simple_graph path5.
Proof. apply simple_graphb_true. vm_compute. reflexivity. Qed.

(** ** Paths *)

Lemma conn_in_mono (g : state) (S S' : Z -> Prop) (a b : Z) :
  (forall w, S w -> S' w) -> conn_in g S a b -> conn_in g S' a b.
Proof.
  intros H C. induction C as [a Ha|a b c Ha Hab _ IH].
  - apply conn_refl. auto.
  - apply (conn_step g S' a b c); auto.
Qed.

Lemma conn_in_trans (g : state) (S : Z -> Prop) (a b c : Z) :
  conn_in g S a b -> conn_in g S b c -> conn_in g S a c.
Proof.
  intros C1 C2. induction C1 as [a Ha|a b' b Ha Hab _ IH]; [exact C2|].
  apply (conn_step g S a b' c); auto.
Qed.

Lemma conn_in_left (g : state) (S : Z -> Prop) (a b : Z) : conn_in g S a b -> S a.
Proof. intros C. destruct C; assumption. Qed.

Lemma conn_in_right (g : state) (S : Z -> Prop) (a b : Z) : conn_in g S a b -> S b.
Proof. intros C. induction C; assumption. Qed.

Lemma conn_in_snoc (g : state) (S : Z -> Prop) (a b c : Z) :
  conn_in g S a b -> adj g b c -> S c -> conn_in g S a c.
Proof.
  intros C Hbc Hc. apply (conn_in_trans g S a b c C).
  apply (conn_step g S b c c); [exact (conn_in_right g S a b C)|exact Hbc|].
  now apply conn_refl.
Qed.

Lemma conn_in_edge (g : state) (S : Z -> Prop) (a b : Z) :
  S a -> S b -> adj g a b -> conn_in g S a b.
Proof. intros Ha Hb Hab. apply (conn_step g S a b b); auto. now apply conn_refl. Qed.

(** A path cannot leave a set that is closed under the steps it may take. *)
Lemma conn_in_closed (g : state) (S C : Z -> Prop) (a b : Z) :
  (forall x y, C x -> adj g x y -> S y -> C y) ->
  conn_in g S a b -> C a -> C b.
Proof.
  intros H P. induction P as [a Ha|a b c Ha Hab P IH]; intros Ca; [exact Ca|].
  apply IH. apply (H a b Ca Hab). exact (conn_in_left g S b c P).
Qed.

(** A path from outside a decidable set [V] into it has a first node in
    [V], entered from a node outside. *)
Lemma conn_in_first_hit (g : state) (S V : Z -> Prop) (a b : Z) :
  (forall w, V w \/ ~ V w) ->
  conn_in g S a b -> ~ V a -> V b ->
  exists p q, conn_in g (fun w => S w /\ ~ V w) a p /\ adj g p q /\ S q /\ V q.
Proof.
  intros Hdec P. induction P as [a Ha|a b c Ha Hab P IH]; intros Hna Hb; [contradiction|].
  destruct (Hdec b) as [Vb|Vb].
  - exists a, b. split; [now apply conn_refl|]. split; [exact Hab|].
    split; [exact (conn_in_left g S b c P)|exact Vb].
  - destruct (IH Vb Hb) as (p & q & C & Hpq & Sq & Vq).
    exists p, q. split; [|auto]. apply (conn_step g _ a b p); auto.
Qed.

Section SimpleGraph.
Variable g : state.
Hypothesis g_simple : simple_graph g.

Lemma adj_sym (a b : Z) : adj g a b -> adj g b a.
Proof.
  intros [Ha Hab]. split.
  - exact (sg_range g g_simple a b Ha Hab).
  - exact (sg_sym g g_simple a b Ha Hab).
Qed.

Lemma adj_range (a b : Z) : adj g a b -> inr g a /\ inr g b.
Proof. intros [Ha Hab]. split; [exact Ha|exact (sg_range g g_simple a b Ha Hab)]. Qed.

Lemma adj_irrefl (a : Z) : ~ adj g a a.
Proof. intros [Ha Haa]. exact (sg_irrefl g g_simple a Ha Haa). Qed.

Lemma adj_neighbors (u j : Z) :
  inr g u -> 0 <= j < degree g u -> adj g u (neighbors g u j).
Proof. intros Hu Hj. split; [exact Hu|]. apply neighbor_list_In. now exists j. Qed.

Lemma adj_index (u x : Z) :
  adj g u x -> exists j, 0 <= j < degree g u /\ x = neighbors g u j.
Proof. intros [_ H]. now apply neighbor_list_In. Qed.

Lemma conn_in_sym (S : Z -> Prop) (a b : Z) : conn_in g S a b -> conn_in g S b a.
Proof.
  intros P. induction P as [a Ha|a b c Ha Hab P IH]; [now apply conn_refl|].
  apply (conn_in_snoc g S c b a IH); [now apply adj_sym|exact Ha].
Qed.
End SimpleGraph.

(** ** Verification conditions of the search for cut vertices *)

Lemma cvis_dec (c : core) (w : Z) : cvis c w \/ ~ cvis c w.
Proof. unfold cvis. destruct (Z.eq_dec (c_visited c w) 0); [right|left]; lia. Qed.

Lemma cvis_discover (u : Z) (c : core) (w : Z) :
  cvis (core_discover u c) w <-> cvis c w \/ w = u.
Proof.
  unfold cvis, core_discover. cbn [c_visited]. unfold upd.
  destruct (Z.eqb_spec w u); intuition lia.
Qed.

Section CutVertices.
Variable g : state.
Hypothesis g_simple : simple_graph g.
Hypothesis g_connected : connected g.

(** A discovered node is the current one, a settled one, or an old one. *)
Lemma cvis_cases (c : core) (u : Z) (t : core) (w : Z) :
  cvis t w -> w = u \/ settled c u t w \/ cvis c w.
Proof.
  intros H. destruct (Z.eq_dec w u) as [E|E]; [now left|].
  destruct (cvis_dec c w) as [Hc|Hc]; [now right; right|].
  right. left. now repeat split.
Qed.

(** Entering the loop. *)
Lemma vc_init (u : Z) (c : core) :
  cut_pre g u c -> cut_inv g c u 0 0 (core_discover u c).
Proof.
  intros [Pn Pu Pd Pr Pp Pc Pk].
  assert (Hnu : ~ cvis c u) by (unfold cvis; lia).
  assert (Hns : forall w, ~ settled c u (core_discover u c) w).
  { intros w (H1 & H2 & H3). apply cvis_discover in H1. tauto. }
  constructor.
  - lia.
  - apply cvis_discover. now right.
  - intros w H. apply cvis_discover. now left.
  - intros w H. apply cvis_discover in H. destruct H as [H| ->]; [apply Pd, H|exact Pn].
  - cbn. now rewrite upd_same.
  - cbn. lia.
  - intros w H. now apply Hns in H.
  - intros w _ Hw. cbn. now rewrite !upd_other by assumption.
  - intros w _. reflexivity.
  - intros j Hj. lia.
  - intros w x H. now apply Hns in H.
  - intros w H. now apply Hns in H.
  - cbn. rewrite !upd_same. lia.
  - left. cbn. now rewrite !upd_same.
  - intros y x [H|(_ & j & Hj & _)]; [now apply Hns in H|lia].
  - split; [lia|]. split; [intros _; exact Hns|lia].
  - cbn. intros H. exfalso. apply H. now apply Pk.
  - intros _ a b Ha Hau Hb Hbu.
    apply cvis_discover in Ha, Hb. destruct Ha as [Ha|Ha]; [|contradiction].
    destruct Hb as [Hb|Hb]; [|contradiction].
    apply (conn_in_mono g (cvis c)); [|now apply Pc].
    intros w Hw. split; [apply Pd, Hw|]. intros ->. contradiction.
  - assert (Hup : forall b, cvis c b -> conn_in g (cvis (core_discover u c)) u b).
    { intros b Hb. destruct (Z.eq_dec (c_parent c u) (-1)) as [E|E];
        [exfalso; exact (Pr E b Hb)|].
      destruct (Pp E) as [Hp Ha].
      apply (conn_step g _ u (c_parent c u) b); [apply cvis_discover; now right|exact Ha|].
      apply (conn_in_mono g (cvis c)); [|now apply Pc].
      intros w Hw. apply cvis_discover. now left. }
    intros a b Ha Hb. apply cvis_discover in Ha, Hb.
    destruct Ha as [Ha| ->], Hb as [Hb| ->].
    + apply (conn_in_mono g (cvis c)); [|now apply Pc].
      intros w Hw. apply cvis_discover. now left.
    + apply (conn_in_sym g g_simple). now apply Hup.
    + now apply Hup.
    + apply conn_refl. apply cvis_discover. now right.
  - intros w H. now apply Hns in H.
Qed.

(** Calling a child. *)
Lemma vc_child_pre (c : core) (u i ch : Z) (t : core) :
  cut_pre g u c -> cut_inv g c u i ch t -> 0 <= i < degree g u ->
  c_visited t (neighbors g u i) = 0 ->
  cut_pre g (neighbors g u i) (core_enter u (neighbors g u i) t).
Proof.
  intros HP HI Hi Hv. set (v := neighbors g u i) in *.
  assert (Huv : adj g u v) by (apply (adj_neighbors g); [apply HP|exact Hi]).
  constructor.
  - apply (adj_range g g_simple u v Huv).
  - exact Hv.
  - intros w Hw. change (cvis t w) in Hw. split; [now apply (inv_range g c u i ch t HI)|].
    cbn [core_enter c_disc c_time].
    pose proof (inv_time g c u i ch t HI) as Ht.
    destruct (cvis_cases c u t w Hw) as [->|[Hs|Hc]].
    + rewrite (inv_disc_self g c u i ch t HI). lia.
    + apply (inv_disc g c u i ch t HI w Hs).
    + assert (Hns : ~ settled c u t w) by (intros (_ & H & _); contradiction).
      assert (Hwu : w <> u).
      { intros ->. pose proof (pre_unvisited g u c HP). unfold cvis in Hc. lia. }
      destruct (inv_frame g c u i ch t HI w Hns Hwu) as (-> & _).
      pose proof (proj2 (pre_disc g u c HP w Hc)). lia.
  - cbn [core_enter c_parent]. rewrite upd_same. intros E.
    pose proof (pre_node g u c HP) as Hu. unfold inr in Hu. lia.
  - cbn [core_enter c_parent]. rewrite upd_same. intros _. split.
    + exact (inv_self g c u i ch t HI).
    + now apply (adj_sym g g_simple).
  - exact (inv_conn g c u i ch t HI).
  - intros w Hw. change (~ cvis t w) in Hw. cbn [core_enter c_is_cut].
    assert (Hns : ~ settled c u t w) by (intros (H & _); contradiction).
    assert (Hwu : w <> u) by (intros ->; apply Hw, (inv_self g c u i ch t HI)).
    destruct (inv_frame g c u i ch t HI w Hns Hwu) as (_ & _ & ->).
    apply (pre_cut g u c HP). intros H. apply Hw. now apply (inv_mono g c u i ch t HI).
Qed.

(** A round of the loop that discovers nothing: the neighbour of index [i]
    was discovered already, and at most [low[u]] changes. *)
Lemma cut_inv_advance (c : core) (u i ch : Z) (t t' : core) :
  cut_pre g u c -> cut_inv g c u i ch t -> 0 <= i < degree g u ->
  c_visited t' = c_visited t -> c_disc t' = c_disc t -> c_parent t' = c_parent t ->
  c_time t' = c_time t -> c_is_cut t' = c_is_cut t ->
  (forall w, w <> u -> c_low t' w = c_low t w) ->
  c_low t' u <= c_low t u ->
  (c_low t' u = c_low t u \/
   exists x, adj g u x /\ cvis c x /\ c_disc c x = c_low t' u) ->
  cvis t (neighbors g u i) ->
  (cvis c (neighbors g u i) -> neighbors g u i <> c_parent c u ->
   c_low t' u <= c_disc c (neighbors g u i)) ->
  cut_inv g c u (i + 1) ch t'.
Proof.
  intros HP HI Hi EV ED EP ET EC EL Hle Hwit Hvis Hbound.
  assert (Hcv : forall w, cvis t' w <-> cvis t w) by (intros w; unfold cvis; now rewrite EV).
  assert (Hs : forall w, settled c u t' w <-> settled c u t w)
    by (intros w; unfold settled; now rewrite Hcv).
  destruct HI as [I1 I2 I3 I4 I5 I6 I7 I8 I9 I10 I11 I12 I13 I14 I15 I16 I17 I18 I19 I20].
  constructor.
  - lia.
  - now apply Hcv.
  - intros w H. apply Hcv. now apply I3.
  - intros w H. apply I4. now apply Hcv.
  - now rewrite ED.
  - now rewrite ET.
  - intros w H. rewrite ED, ET. apply I7. now apply Hs.
  - intros w H Hw. rewrite ED, EC, (EL w Hw). apply I8; [|exact Hw].
    intros H'. apply H. now apply Hs.
  - intros w H. rewrite EP. now apply I9.
  - intros j Hj Hd. apply Hcv. destruct (Z.eq_dec j i) as [->|]; [exact Hvis|].
    apply I10; lia.
  - intros w x H Ha. apply Hcv. apply (I11 w x); [now apply Hs|exact Ha].
  - intros w H. apply (conn_in_mono g (fun z => settled c u t z \/ z = u)).
    + intros z [Hz|Hz]; [left; now apply Hs|now right].
    + apply I12. now apply Hs.
  - rewrite ED. lia.
  - destruct Hwit as [E|(x & Hx1 & Hx2 & Hx3)].
    + rewrite E, ED. destruct I14 as [E'|(y & x & Hy & H1 & H2 & H3)]; [now left|].
      right. exists y, x. split; [|auto].
      destruct Hy as [Hy|Hy]; [left; now apply Hs|now right].
    + right. exists u, x. split; [now right|auto].
  - intros y x Hy Ha Hx Hn.
    destruct Hy as [Hy|(-> & j & Hj & Hd & ->)].
    + apply Hs in Hy. pose proof (I15 y x (or_introl Hy) Ha Hx Hn). lia.
    + destruct (Z.eq_dec j i) as [->|Hji].
      * apply Hbound; [exact Hx|]. intros E. apply Hn. split; [reflexivity|exact E].
      * assert (Hlt : 0 <= j < i) by lia.
        pose proof (I15 u (neighbors g u j)
                      (or_intror (conj eq_refl (ex_intro _ j (conj Hlt (conj Hd eq_refl)))))
                      Ha Hx Hn). lia.
  - destruct I16 as (K1 & K2 & K3). split; [exact K1|]. split.
    + intros E w H. apply (K2 E w). now apply Hs.
    + intros E. destruct (K3 E) as (w & H). exists w. now apply Hs.
  - rewrite EC. exact I17.
  - rewrite EC. intros E a b Ha Hau Hb Hbu. apply I18; auto; now apply Hcv.
  - intros a b Ha Hb. apply (conn_in_mono g (cvis t)); [intros w; apply Hcv|].
    apply I19; now apply Hcv.
  - intros w H. rewrite EC. apply I20. now apply Hs.
Qed.

(** A back edge. *)
Lemma vc_back (c : core) (u i ch : Z) (t : core) :
  cut_pre g u c -> cut_inv g c u i ch t -> 0 <= i < degree g u ->
  c_visited t (neighbors g u i) <> 0 ->
  neighbors g u i <> c_parent t u ->
  c_disc t (neighbors g u i) < c_disc t u ->
  cut_inv g c u (i + 1) ch (core_back_edge u (neighbors g u i) t).
Proof.
  intros HP HI Hi Hv Hp Hd. set (v := neighbors g u i) in *.
  assert (Huv : adj g u v) by (apply (adj_neighbors g); [apply HP|exact Hi]).
  assert (Hvu : v <> u) by (intros E; rewrite E in Hd; lia).
  assert (Hold : cvis c v /\ c_disc t v = c_disc c v).
  { destruct (cvis_cases c u t v Hv) as [E|[Hs|Hc]]; [contradiction| |].
    - pose proof (inv_disc g c u i ch t HI v Hs).
      rewrite (inv_disc_self g c u i ch t HI) in Hd. lia.
    - split; [exact Hc|].
      apply (inv_frame g c u i ch t HI v); [|exact Hvu]. intros (_ & H & _). contradiction. }
  destruct Hold as [Hcv Hdv].
  apply (cut_inv_advance c u i ch t); auto; unfold core_back_edge;
    cbn [c_low c_visited c_disc c_parent c_time c_is_cut].
  - intros w Hw. destruct (_ <? _); [now rewrite upd_other|reflexivity].
  - destruct (Z.ltb_spec (c_disc t v) (c_low t u)); [rewrite upd_same|]; lia.
  - destruct (Z.ltb_spec (c_disc t v) (c_low t u)); [|now left].
    right. exists v. rewrite upd_same. auto.
  - intros _ _. fold v. rewrite <- Hdv.
    destruct (Z.ltb_spec (c_disc t v) (c_low t u)); [rewrite upd_same|]; lia.
Qed.

(** A neighbour that is skipped. *)
Lemma vc_skip (c : core) (u i ch : Z) (t : core) :
  cut_pre g u c -> cut_inv g c u i ch t -> 0 <= i < degree g u ->
  c_visited t (neighbors g u i) <> 0 ->
  ~ (neighbors g u i <> c_parent t u /\ c_disc t (neighbors g u i) < c_disc t u) ->
  cut_inv g c u (i + 1) ch t.
Proof.
  intros HP HI Hi Hv Hn. set (v := neighbors g u i) in *.
  apply (cut_inv_advance c u i ch t); auto; try lia.
  intros Hc Hvp. exfalso. apply Hn. split.
  - rewrite (inv_parent g c u i ch t HI u (or_intror eq_refl)). exact Hvp.
  - assert (Hvu : v <> u).
    { intros E. pose proof (pre_unvisited g u c HP). unfold cvis in Hc. fold v in Hc.
      rewrite E in Hc. lia. }
    assert (Hns : ~ settled c u t v) by (intros (_ & H & _); contradiction).
    destruct (inv_frame g c u i ch t HI v Hns Hvu) as (-> & _).
    rewrite (inv_disc_self g c u i ch t HI).
    pose proof (proj2 (pre_disc g u c HP v Hc)). lia.
Qed.

(** Every other node is joined, avoiding [u], to a discovered node other
    than [u], once all the neighbours of [u] are discovered. *)
Lemma reach_discovered (c : core) (u i ch : Z) (t : core) (a : Z) :
  cut_pre g u c -> cut_inv g c u i ch t -> degree g u <= i ->
  avoid g u a -> exists z, cvis t z /\ z <> u /\ conn_in g (avoid g u) a z.
Proof.
  intros HP HI Hi [Ha Hau].
  destruct (cvis_dec t a) as [Hv|Hv].
  - exists a. repeat split; auto. apply conn_refl. now split.
  - pose proof (g_connected a u Ha (pre_node g u c HP)) as P.
    destruct (conn_in_first_hit g (inr g) (cvis t) a u (cvis_dec t) P Hv
                (inv_self g c u i ch t HI)) as (p & q & C & Hpq & Hq & Vq).
    assert (Hp : ~ cvis t p) by apply (conn_in_right g _ a p C).
    assert (Hqu : q <> u).
    { intros ->. apply Hp. apply (adj_sym g g_simple) in Hpq.
      destruct (adj_index g u p Hpq) as (j & Hj & ->).
      apply (inv_scan g c u i ch t HI); lia. }
    exists q. repeat split; auto.
    apply (conn_in_snoc g _ a p q); [|exact Hpq|now split].
    apply (conn_in_mono g (fun w => inr g w /\ ~ cvis t w)); [|exact C].
    intros w [Hw Hnw]. split; [exact Hw|]. intros ->.
    apply Hnw, (inv_self g c u i ch t HI).
Qed.

(** Leaving the loop. *)
Lemma vc_exit (c : core) (u i ch : Z) (t : core) :
  cut_pre g u c -> cut_inv g c u i ch t -> degree g u <= i -> cut_post g u c t.
Proof.
  intros HP HI Hi.
  assert (Hnu : ~ cvis c u) by (pose proof (pre_unvisited g u c HP); unfold cvis; lia).
  assert (Hf : forall w, fresh c t w <-> settled c u t w \/ w = u).
  { intros w. unfold fresh, settled. split.
    - intros [H1 H2]. destruct (Z.eq_dec w u); [now right|left; auto].
    - intros [(H1 & H2 & _)| ->]; [auto|]. split; [apply (inv_self g c u i ch t HI)|exact Hnu]. }
  constructor.
  - exact (inv_mono g c u i ch t HI).
  - exact (inv_self g c u i ch t HI).
  - exact (inv_range g c u i ch t HI).
  - exact (inv_disc_self g c u i ch t HI).
  - exact (inv_time g c u i ch t HI).
  - intros w Hw. apply Hf in Hw. destruct Hw as [Hw| ->].
    + pose proof (inv_disc g c u i ch t HI w Hw). lia.
    + rewrite (inv_disc_self g c u i ch t HI). pose proof (inv_time g c u i ch t HI). lia.
  - intros w Hw. apply (inv_frame g c u i ch t HI).
    + intros H. apply Hw, Hf. now left.
    + intros H. apply Hw, Hf. now right.
  - intros w Hw. apply (inv_parent g c u i ch t HI). now left.
  - intros w x Hw Ha. apply Hf in Hw. destruct Hw as [Hw| ->].
    + exact (inv_closed g c u i ch t HI w x Hw Ha).
    + destruct (adj_index g u x Ha) as (j & Hj & ->).
      apply (inv_scan g c u i ch t HI); lia.
  - intros w Hw. apply Hf in Hw. destruct Hw as [Hw| ->].
    + apply (conn_in_mono g (fun z => settled c u t z \/ z = u)); [intros z; apply Hf|].
      exact (inv_tree g c u i ch t HI w Hw).
    + apply conn_refl, Hf. now right.
  - exact (inv_low_le g c u i ch t HI).
  - destruct (inv_low_witness g c u i ch t HI) as [E|(y & x & Hy & H1 & H2 & H3)];
      [now left|].
    right. exists y, x. split; [now apply Hf|auto].
  - intros y x Hy Ha Hx Hn. apply (inv_low_bound g c u i ch t HI y x); auto.
    apply Hf in Hy. destruct Hy as [Hy| ->]; [now left|]. right. split; [reflexivity|].
    destruct (adj_index g u x Ha) as (j & Hj & ->). exists j. repeat split; lia.
  - intros w Hw. apply Hf in Hw. destruct Hw as [Hw| ->].
    + exact (inv_settled_cut g c u i ch t HI w Hw).
    + split; [exact (inv_cut_sound g c u i ch t HI)|].
      intros (a & b & Ha & Hb & Hn) E. apply Hn.
      destruct (reach_discovered c u i ch t a HP HI Hi Ha) as (za & Va & Hza & Ca).
      destruct (reach_discovered c u i ch t b HP HI Hi Hb) as (zb & Vb & Hzb & Cb).
      apply (conn_in_trans g _ a za b Ca).
      apply (conn_in_trans g _ za zb b); [|now apply (conn_in_sym g g_simple)].
      apply (inv_cut_complete g c u i ch t HI E); auto.
Qed.

(** A child has returned. *)
Lemma vc_child_post (c : core) (u i ch : Z) (t t2 : core) :
  cut_pre g u c -> cut_inv g c u i ch t -> 0 <= i < degree g u ->
  c_visited t (neighbors g u i) = 0 ->
  cut_post g (neighbors g u i) (core_enter u (neighbors g u i) t) t2 ->
  cut_inv g c u (i + 1) (ch + 1) (core_after_child u (neighbors g u i) (ch + 1) t2).
Proof.
  intros HP HI Hi Hv HQ. set (v := neighbors g u i) in *.
  set (t1 := core_enter u v t) in *.
  set (t3 := core_after_child u v (ch + 1) t2).
  assert (Hnu : ~ cvis c u) by (pose proof (pre_unvisited g u c HP); unfold cvis; lia).
  assert (Hnv : ~ cvis t v) by (unfold cvis; lia).
  assert (Htu : cvis t u) by exact (inv_self g c u i ch t HI).
  assert (Hvu : v <> u) by (intros E; apply Hnv; now rewrite E).
  assert (Huv : adj g u v) by (apply (adj_neighbors g); [apply HP|exact Hi]).
  assert (Hvu' : adj g v u) by now apply (adj_sym g g_simple).
  destruct HI as [I1 I2 I3 I4 I5 I6 I7 I8 I9 I10 I11 I12 I13 I14 I15 I16 I17 I18 I19 I20].
  destruct HQ as [Q1 Q2 Q3 Q4 Q5 Q6 Q7 Q8 Q9 Q10 Q11 Q12 Q13 Q14].
  (* the state the child started in differs from [t] by the parent of [v] *)
  change (c_time t1) with (c_time t) in *.
  assert (Hf : forall w, fresh t1 t2 w <-> cvis t2 w /\ ~ cvis t w) by (intros w; reflexivity).
  assert (Hmono : forall w, cvis t w -> cvis t2 w) by (intros w; apply Q1).
  assert (Hfv : fresh t1 t2 v) by (apply Hf; split; [exact Q2|exact Hnv]).
  assert (Hold : forall w, cvis t w ->
            c_disc t2 w = c_disc t w /\ c_low t2 w = c_low t w /\ c_is_cut t2 w = c_is_cut t w).
  { intros w Hw. apply (Q7 w). intros [_ H]. contradiction. }
  assert (Hpar : forall w, cvis t w -> c_parent t2 w = c_parent t w).
  { intros w Hw. rewrite (Q8 w Hw). unfold t1, core_enter. cbn [c_parent].
    apply upd_other. intros ->. contradiction. }
  destruct (Hold u Htu) as (Du & Lu & Cu).
  assert (Pu : c_parent t2 u = c_parent c u).
  { rewrite (Hpar u Htu). apply I9. now right. }
  (* the state after the update *)
  assert (E3v : forall w, cvis t3 w <-> cvis t2 w) by (intros w; reflexivity).
  assert (Hs3 : forall w, settled c u t3 w <-> settled c u t w \/ fresh t1 t2 w).
  { intros w. unfold settled. rewrite E3v, Hf. split.
    - intros (H1 & H2 & H3). destruct (cvis_dec t w); [left|right]; auto.
    - intros [(H1 & H2 & H3)|(H1 & H2)]; [auto|].
      repeat split; auto. intros ->. contradiction. }
  assert (Hl3 : c_low t3 u <= c_low t u /\ c_low t3 u <= c_low t2 v /\
                (c_low t3 u = c_low t u \/
                 (c_low t3 u = c_low t2 v /\ c_low t2 v < c_low t u))).
  { unfold t3, core_after_child. cbn [c_low]. rewrite Lu.
    destruct (Z.ltb_spec (c_low t2 v) (c_low t u)); [rewrite upd_same|rewrite Lu]; lia. }
  assert (Hl3o : forall w, w <> u -> c_low t3 w = c_low t2 w).
  { intros w Hw. unfold t3, core_after_child. cbn [c_low].
    destruct (_ <? _); [now rewrite upd_other|reflexivity]. }
  assert (Hc3o : forall w, w <> u -> c_is_cut t3 w = c_is_cut t2 w).
  { intros w Hw. unfold t3, core_after_child. cbn [c_is_cut].
    destruct (core_cut_test _ _ _ _); [now rewrite upd_other|reflexivity]. }
  assert (Htest : core_cut_test u v (ch + 1) t2 =
            (((c_parent c u =? -1) && (1 <? ch + 1))
             || (negb (c_parent c u =? -1) && (c_time c + 1 <=? c_low t2 v)))%bool).
  { unfold core_cut_test. now rewrite Pu, Du, I5. }
  assert (Hc3 : c_is_cut t3 u = if core_cut_test u v (ch + 1) t2 then 1 else c_is_cut t u).
  { unfold t3, core_after_child. cbn [c_is_cut].
    destruct (core_cut_test _ _ _ _); [now rewrite upd_same|exact Cu]. }
  rewrite Htest in Hc3. clear Htest.
  set (test := (((c_parent c u =? -1) && (1 <? ch + 1))
             || (negb (c_parent c u =? -1) && (c_time c + 1 <=? c_low t2 v)))%bool) in Hc3.
  (* old nodes seen from the child *)
  assert (Hclass : forall x, cvis t x -> c_disc t x < c_time c + 1 -> cvis c x /\ x <> u).
  { intros x Hx Hd. destruct (cvis_cases c u t x Hx) as [->|[Hs|Hc]].
    - rewrite I5 in Hd. lia.
    - pose proof (I7 x Hs). lia.
    - split; [exact Hc|]. intros ->. contradiction. }
  assert (Hframe_c : forall x, cvis c x -> c_disc t x = c_disc c x /\ x <> u).
  { intros x Hx. assert (Hxu : x <> u) by (intros ->; contradiction).
    split; [|exact Hxu]. apply (I8 x); [|exact Hxu]. intros (_ & H & _). contradiction. }
  (* the low-link of the child, when it is below [disc[u]] *)
  assert (Hwit : c_low t2 v < c_time c + 1 ->
            exists y x, fresh t1 t2 y /\ adj g y x /\ cvis c x /\ x <> u /\
              c_disc c x = c_low t2 v).
  { intros Hlt. destruct Q12 as [E|(y & x & Hy & Ha & Hx & Hd)].
    - pose proof (Q6 v Hfv). lia.
    - change (cvis t1 x) with (cvis t x) in Hx. change (c_disc t1 x) with (c_disc t x) in Hd.
      destruct (Hclass x Hx ltac:(lia)) as [Hcx Hxu].
      exists y, x. split; [exact Hy|]. split; [exact Ha|]. split; [exact Hcx|].
      split; [exact Hxu|]. destruct (Hframe_c x Hcx) as [E _]. now rewrite <- E. }
  (* edges leaving the subtree of the child, when its low-link is not below *)
  assert (Hsep : c_time c + 1 <= c_low t2 v ->
            forall x y, fresh t1 t2 x -> adj g x y -> avoid g u y -> fresh t1 t2 y).
  { intros Hge x y Hx Ha [_ Hyu]. apply Hf. split; [exact (Q9 x y Hx Ha)|].
    intros Hy.
    assert (Hb : c_low t2 v <= c_disc t1 y).
    { apply (Q13 x y Hx Ha Hy). intros [_ E]. unfold t1, core_enter in E.
      cbn [c_parent] in E. rewrite upd_same in E. contradiction. }
    change (c_disc t1 y) with (c_disc t y) in Hb.
    destruct (cvis_cases c u t y Hy) as [E|[Hs|Hc]]; [contradiction| |].
    - apply (proj2 (proj1 (Hf x) Hx)).
      apply (I11 y x Hs). now apply (adj_sym g g_simple).
    - destruct (Hframe_c y Hc) as [E _]. rewrite E in Hb.
      pose proof (proj2 (pre_disc g u c HP y Hc)). lia. }
  assert (Hfresh_avoid : forall w, fresh t1 t2 w -> avoid g u w).
  { intros w Hw. split; [apply Q3, Hw|]. intros ->. apply (proj2 (proj1 (Hf u) Hw)), Htu. }
  constructor.
  - lia.
  - apply E3v. now apply Hmono.
  - intros w Hw. apply E3v, Hmono. now apply I3.
  - intros w Hw. apply Q3. now apply E3v.
  - change (c_disc t3 u) with (c_disc t2 u). now rewrite Du.
  - change (c_time t3) with (c_time t2). lia.
  - intros w Hw. change (c_disc t3 w) with (c_disc t2 w). change (c_time t3) with (c_time t2).
    apply Hs3 in Hw. destruct Hw as [Hw|Hw].
    + destruct (Hold w (proj1 Hw)) as (-> & _). pose proof (I7 w Hw). lia.
    + pose proof (Q6 w Hw). lia.
  - intros w Hw Hwu. change (c_disc t3 w) with (c_disc t2 w).
    rewrite (Hl3o w Hwu), (Hc3o w Hwu).
    assert (Hns : ~ settled c u t w) by (intros H; apply Hw, Hs3; now left).
    assert (Hnf : ~ fresh t1 t2 w) by (intros H; apply Hw, Hs3; now right).
    destruct (Q7 w Hnf) as (-> & -> & ->).
    exact (I8 w Hns Hwu).
  - intros w Hw. change (c_parent t3 w) with (c_parent t2 w).
    assert (Htw : cvis t w) by (destruct Hw as [Hw| ->]; [now apply I3|exact Htu]).
    rewrite (Hpar w Htw). now apply I9.
  - intros j Hj Hd. apply E3v. destruct (Z.eq_dec j i) as [->|Hji]; [exact Q2|].
    apply Hmono, I10; lia.
  - intros w x Hw Ha. apply E3v. apply Hs3 in Hw. destruct Hw as [Hw|Hw].
    + apply Hmono. exact (I11 w x Hw Ha).
    + exact (Q9 w x Hw Ha).
  - intros w Hw. apply Hs3 in Hw. destruct Hw as [Hw|Hw].
    + apply (conn_in_mono g (fun z => settled c u t z \/ z = u)); [|exact (I12 w Hw)].
      intros z [Hz| ->]; [left; apply Hs3; now left|now right].
    + apply (conn_in_snoc g _ w v u); [|exact Hvu'|now right].
      apply (conn_in_mono g (fresh t1 t2)); [|exact (Q10 w Hw)].
      intros z Hz. left. apply Hs3. now right.
  - change (c_disc t3 u) with (c_disc t2 u). rewrite Du. lia.
  - change (c_disc t3 u) with (c_disc t2 u). rewrite Du.
    destruct Hl3 as (_ & _ & [E|[E Hlt]]).
    + rewrite E. destruct I14 as [E'|(y & x & Hy & H1 & H2 & H3)]; [now left|].
      right. exists y, x. split; [|auto].
      destruct Hy as [Hy| ->]; [left; apply Hs3; now left|now right].
    + right. rewrite E.
      destruct (Hwit ltac:(rewrite I5 in I13; lia)) as (y & x & Hy & Ha & Hx & _ & Hd).
      exists y, x. split; [left; apply Hs3; now right|auto].
  - intros y x Hy Ha Hx Hn. destruct Hl3 as (L1 & L2 & _).
    destruct Hy as [Hy|(-> & j & Hj & Hd & ->)].
    + apply Hs3 in Hy. destruct Hy as [Hy|Hy].
      * pose proof (I15 y x (or_introl Hy) Ha Hx Hn). lia.
      * destruct (Hframe_c x Hx) as [E Hxu].
        assert (Hb : c_low t2 v <= c_disc t1 x).
        { apply (Q13 y x Hy Ha); [now apply I3|].
          intros [_ E']. unfold t1, core_enter in E'. cbn [c_parent] in E'.
          rewrite upd_same in E'. contradiction. }
        change (c_disc t1 x) with (c_disc t x) in Hb. lia.
    + destruct (Z.eq_dec j i) as [->|Hji].
      * exfalso. apply Hnv. now apply I3.
      * assert (Hlt : 0 <= j < i) by lia.
        pose proof (I15 u (neighbors g u j)
                      (or_intror (conj eq_refl (ex_intro _ j (conj Hlt (conj Hd eq_refl)))))
                      Ha Hx Hn). lia.
  - destruct I16 as (K1 & K2 & K3). split; [lia|]. split; [intros E; lia|].
    intros _. exists v. apply Hs3. now right.
  - rewrite Hc3. destruct test eqn:T; [intros _|exact I17].
    unfold test in T. apply orb_true_iff in T. destruct T as [T|T];
      apply andb_true_iff in T; destruct T as [T1 T2].
    + (* the root has a second child *)
      apply Z.eqb_eq in T1. apply Z.ltb_lt in T2.
      destruct I16 as (_ & _ & K3). destruct (K3 ltac:(lia)) as (w0 & Hw0).
      exists w0, v. split; [|split].
      * split; [apply I4, Hw0|apply Hw0].
      * split; [apply (adj_range g g_simple u v Huv)|exact Hvu].
      * intros P. apply Hnv.
        assert (Hcl : forall x y, settled c u t x -> adj g x y -> avoid g u y ->
                        settled c u t y).
        { intros x y Hx Ha [_ Hyu]. split; [exact (I11 x y Hx Ha)|].
          split; [exact (pre_root g u c HP T1 y)|exact Hyu]. }
        apply (conn_in_closed g (avoid g u) (settled c u t) w0 v Hcl P Hw0).
    + (* the subtree of the child is cut off from the parent of [u] *)
      apply negb_true_iff, Z.eqb_neq in T1. apply Z.leb_le in T2.
      destruct (pre_parent g u c HP T1) as [Hp Hap].
      exists v, (c_parent c u). split; [|split].
      * split; [apply (adj_range g g_simple u v Huv)|exact Hvu].
      * split; [apply (pre_disc g u c HP), Hp|]. intros E. apply Hnu. now rewrite <- E.
      * intros P.
        pose proof (conn_in_closed g (avoid g u) (fresh t1 t2) v (c_parent c u)
                      (Hsep T2) P Hfv) as Hfp.
        apply (proj2 (proj1 (Hf _) Hfp)). now apply I3.
  - rewrite Hc3. destruct test eqn:T; [intros E; lia|].
    intros E a b Ha Hau Hb Hbu. apply E3v in Ha, Hb.
    unfold test in T. apply orb_false_iff in T. destruct T as [T1 T2].
    assert (Hhub : forall a, cvis t2 a -> a <> u -> conn_in g (avoid g u) a v).
    { intros a0 Ha0 Ha0u. destruct (cvis_dec t a0) as [Hta|Hta].
      - (* an old node: there is one, so [u] is not the root *)
        destruct (Z.eqb_spec (c_parent c u) (-1)) as [Er|Er].
        + exfalso. cbn [andb negb] in T1. apply Z.ltb_ge in T1.
          destruct I16 as (K1 & K2 & _). assert (Hch : ch = 0) by lia.
          destruct (cvis_cases c u t a0 Hta) as [H|[H|H]]; [contradiction| |].
          * exact (K2 Hch a0 H).
          * exact (pre_root g u c HP Er a0 H).
        + cbn [andb negb] in T2. apply Z.leb_gt in T2.
          destruct (Hwit T2) as (y & x & Hy & Hyx & Hx & Hxu & _).
          apply (conn_in_trans g _ a0 x v).
          * apply I18; auto.
          * apply (conn_step g _ x y v).
            -- split; [apply (pre_disc g u c HP), Hx|exact Hxu].
            -- now apply (adj_sym g g_simple).
            -- apply (conn_in_mono g (fresh t1 t2)); [exact Hfresh_avoid|exact (Q10 y Hy)].
      - apply (conn_in_mono g (fresh t1 t2)); [exact Hfresh_avoid|].
        apply Q10, Hf. now split. }
    apply (conn_in_trans g _ a v b); [now apply Hhub|].
    apply (conn_in_sym g g_simple). now apply Hhub.
  - assert (Hhub : forall a, cvis t2 a -> conn_in g (cvis t2) a u).
    { intros a Ha. destruct (cvis_dec t a) as [Hta|Hta].
      - apply (conn_in_mono g (cvis t)); [exact Hmono|]. now apply I19.
      - apply (conn_in_snoc g _ a v u); [|exact Hvu'|now apply Hmono].
        apply (conn_in_mono g (fresh t1 t2)); [intros w Hw; apply Hw|].
        apply Q10, Hf. now split. }
    intros a b Ha Hb. apply E3v in Ha, Hb.
    apply (conn_in_mono g (cvis t2)); [intros w Hw; now apply E3v|].
    apply (conn_in_trans g _ a u b); [now apply Hhub|].
    apply (conn_in_sym g g_simple). now apply Hhub.
  - intros w Hw. pose proof Hw as (_ & _ & Hwu). rewrite (Hc3o w Hwu).
    apply Hs3 in Hw. destruct Hw as [Hw|Hw].
    + destruct (Hold w (proj1 Hw)) as (_ & _ & ->). exact (I20 w Hw).
    + exact (Q14 w Hw).
Qed.

End CutVertices.

(** ** Correctness of the cut flags *)

Section Analysis.
Variable g : state.
Hypothesis g_simple : simple_graph g.
Hypothesis g_connected : connected g.

Lemma vis_cvis (s : state) (w : Z) : vis s w <-> cvis (core_of s) w.
Proof. reflexivity. Qed.

Lemma tarjan_dfs_bicomp_correct (fuel : nat) (u : Z) (s : state) :
  dfs_pre g u s -> (unvisited_count s <= fuel)%nat ->
  exists s', tarjan_dfs_bicomp fuel u s = Some s' /\ dfs_post g u s s'.
Proof.
  apply (dfs_rule (dfs_pre g) (dfs_post g) (dfs_inv g)).
  - intros v s0 ((Hn & _) & HP). rewrite Hn. split.
    + exact (pre_node g v _ HP).
    + exact (pre_unvisited g v _ HP).
  - intros s0 v i ch t ((Hn & _) & HP) ((Hn' & _) & HI).
    apply unvisited_count_mono.
    + destruct (discover_frame v s0) as ((Hd & _) & _). congruence.
    + intros w Hw. apply vis_discover in Hw. apply vis_cvis.
      destruct Hw as [Hw| ->].
      * apply (inv_mono g _ v i ch _ HI). now apply vis_cvis.
      * exact (inv_self g _ v i ch _ HI).
  - intros v s0 (Hg & HP). split.
    + exact (same_graph_frame g _ _ (discover_frame v s0) Hg).
    + rewrite core_of_discover. now apply (vc_init g g_simple).
  - intros s0 v i ch t (Hg0 & HP) (Hg & HI) Hi Hvis.
    pose proof Hg as (_ & Hnb & Hd & _). rewrite Hnb in *. rewrite Hd in Hi. split.
    + exact (same_graph_frame g _ _ (enter_child_frame _ _ t) Hg).
    + rewrite core_of_enter_child. now apply (vc_child_pre g g_simple (core_of s0) v i ch (core_of t)).
  - intros s0 v i ch t t2 (Hg0 & HP) (Hg & HI) Hi Hvis (Hg2 & HQ).
    pose proof Hg as (_ & Hnb & Hd & _). rewrite Hnb in *. rewrite Hd in Hi. split.
    + exact (same_graph_frame g _ _ (after_child_frame _ _ _ t2) Hg2).
    + rewrite core_of_after_child. rewrite core_of_enter_child in HQ.
      now apply (vc_child_post g g_simple (core_of s0) v i ch (core_of t)).
  - intros s0 v i ch t (Hg0 & HP) (Hg & HI) Hi Hvis Hpar Hdisc.
    pose proof Hg as (_ & Hnb & Hd & _). rewrite Hnb in *. rewrite Hd in Hi. split.
    + exact (same_graph_frame g _ _ (back_edge_frame _ _ t) Hg).
    + rewrite core_of_back_edge. now apply (vc_back g (core_of s0) v i ch (core_of t)).
  - intros s0 v i ch t (Hg0 & HP) (Hg & HI) Hi Hvis Hn.
    pose proof Hg as (_ & Hnb & Hd & _). rewrite Hnb in *. rewrite Hd in Hi.
    split; [exact Hg|]. now apply (vc_skip g (core_of s0) v i ch (core_of t)).
  - intros s0 v i ch t (Hg0 & HP) (Hg & HI) Hi.
    pose proof Hg as (_ & _ & Hd & _). rewrite Hd in Hi. split.
    + exact (same_graph_frame g _ _ (root_block_frame _ _ t) Hg).
    + rewrite core_of_root_block. now apply (vc_exit g g_simple g_connected (core_of s0) v i ch (core_of t)).
Qed.

(** A search started with nothing discovered discovers every node. *)
Lemma all_discovered (u : Z) (c c' : core) :
  inr g u -> cut_post g u c c' -> (forall w, ~ cvis c w) ->
  forall w, inr g w -> cvis c' w.
Proof.
  intros Hu HQ H0 w Hw. destruct (cvis_dec c' w) as [H|H]; [exact H|]. exfalso.
  destruct (conn_in_first_hit g (inr g) (cvis c') w u (cvis_dec c')
              (g_connected w u Hw Hu) H (post_self g u c c' HQ))
    as (p & q & C & Hpq & Hq & Vq).
  apply (conn_in_right g _ w p C).
  apply (post_closed g u c c' HQ q p); [split; [exact Vq|apply H0]|].
  now apply (adj_sym g g_simple).
Qed.

Lemma find_loop_eq (k : nat) (i : Z) (s : state) :
  find_loop (S k) i s =
  if i <? n_nodes s then
    if visited s i =? 0 then
      match tarjan_dfs_bicomp (Z.to_nat (n_nodes s)) i
              (set_parent_tarjan (upd (parent_tarjan s) i (-1)) s) with
      | Some s' => find_loop k (i + 1) s'
      | None => None
      end
    else find_loop k (i + 1) s
  else Some s.
Proof. reflexivity. Qed.

Lemma find_loop_done (k : nat) (i : Z) (s : state) :
  0 <= i -> (forall j, 0 <= j < n_nodes s -> visited s j <> 0) ->
  n_nodes s - i <= Z.of_nat k -> find_loop k i s = Some s.
Proof.
  revert i. induction k as [|k IH]; intros i Hi Hall Hk.
  - cbn [find_loop]. destruct (Z.ltb_spec i (n_nodes s)); [lia|reflexivity].
  - rewrite find_loop_eq. destruct (Z.ltb_spec i (n_nodes s)) as [H|H]; [|reflexivity].
    destruct (Z.eqb_spec (visited s i) 0) as [E|E]; [exfalso; apply (Hall i); lia|].
    apply IH; [lia|exact Hall|lia].
Qed.

Lemma find_loop_first (k : nat) (s : state) :
  0 < n_nodes s -> visited s 0 = 0 ->
  find_loop (S k) 0 s =
  match tarjan_dfs_bicomp (Z.to_nat (n_nodes s)) 0
          (set_parent_tarjan (upd (parent_tarjan s) 0 (-1)) s) with
  | Some s' => find_loop k 1 s'
  | None => None
  end.
Proof.
  intros Hn Hv. rewrite find_loop_eq.
  destruct (Z.ltb_spec 0 (n_nodes s)) as [_|H]; [|lia].
  rewrite Hv. reflexivity.
Qed.

Lemma find_loop_empty (k : nat) (s : state) :
  n_nodes s <= 0 -> find_loop k 0 s = Some s.
Proof.
  intros Hn. destruct k as [|k]; [cbn [find_loop]|rewrite find_loop_eq];
    destruct (Z.ltb_spec 0 (n_nodes s)); try lia; reflexivity.
Qed.

Lemma core_of_first (s : state) :
  visited s = (fun _ => 0) -> disc s = (fun _ => 0) -> low s = (fun _ => 0) ->
  parent_tarjan s = (fun _ => -1) -> time_dfs s = 0 -> is_cut s = (fun _ => 0) ->
  core_of (set_parent_tarjan (upd (parent_tarjan s) 0 (-1)) s)
  = mkCore (fun _ => 0) (fun _ => 0) (fun _ => 0) (upd (fun _ => -1) 0 (-1)) 0 (fun _ => 0).
Proof.
  intros Av Adi Al Ap At Ac.
  change (core_of (set_parent_tarjan (upd (parent_tarjan s) 0 (-1)) s))
    with (mkCore (visited s) (disc s) (low s) (upd (parent_tarjan s) 0 (-1))
                 (time_dfs s) (is_cut s)).
  now rewrite Av, Adi, Al, Ap, At, Ac.
Qed.

Lemma first_search_pre (s1 : state) :
  same_graph g s1 -> 0 < n_nodes g ->
  core_of s1 = mkCore (fun _ => 0) (fun _ => 0) (fun _ => 0)
                 (upd (fun _ => -1) 0 (-1)) 0 (fun _ => 0) ->
  dfs_pre g 0 s1 /\ forall w, ~ cvis (core_of s1) w.
Proof.
  intros Hg1 Hpos Hc1.
  assert (H0 : forall w, ~ cvis (core_of s1) w).
  { intros w. rewrite Hc1. unfold cvis. cbn [c_visited]. lia. }
  split; [|exact H0]. split; [exact Hg1|]. constructor.
  - unfold inr. lia.
  - rewrite Hc1. reflexivity.
  - intros w Hw. now apply H0 in Hw.
  - intros _. exact H0.
  - rewrite Hc1. cbn [c_parent]. rewrite upd_same. intros H. contradiction.
  - intros a b Ha. now apply H0 in Ha.
  - intros w _. rewrite Hc1. reflexivity.
Qed.

Lemma find_loop_cut (s0 : state) :
  same_graph g s0 ->
  visited s0 = (fun _ => 0) -> disc s0 = (fun _ => 0) -> low s0 = (fun _ => 0) ->
  parent_tarjan s0 = (fun _ => -1) -> time_dfs s0 = 0 -> is_cut s0 = (fun _ => 0) ->
  exists st', find_loop (Z.to_nat (n_nodes g)) 0 s0 = Some st' /\
    forall v, inr g v -> (is_cut st' v <> 0 <-> articulation g v).
Proof.
  intros Hg0 Av Adi Al Ap At Ac. pose proof Hg0 as (An & _).
  pose proof (sg_nodes g g_simple) as Hn.
  destruct (Z.to_nat (n_nodes g)) as [|k] eqn:Ek.
  - exists s0. split; [apply find_loop_empty; lia|].
    intros v Hv. unfold inr in Hv. lia.
  - rewrite find_loop_first; [|lia|now rewrite Av].
    remember (set_parent_tarjan (upd (parent_tarjan s0) 0 (-1)) s0) as s1 eqn:Es1.
    assert (Hc1 : core_of s1 = mkCore (fun _ => 0) (fun _ => 0) (fun _ => 0)
                                 (upd (fun _ => -1) 0 (-1)) 0 (fun _ => 0))
      by (rewrite Es1; now apply core_of_first).
    assert (Hg1 : same_graph g s1) by (rewrite Es1; exact Hg0).
    clear Es1.
    destruct (first_search_pre s1 Hg1 ltac:(lia) Hc1) as [HP H0].
    destruct (tarjan_dfs_bicomp_correct (Z.to_nat (n_nodes g)) 0 s1 HP) as (s2 & E & Hg2 & HQ).
    { pose proof (unvisited_count_le s1) as Hc.
      destruct Hg1 as (Hn1 & _). now rewrite Hn1 in Hc. }
    rewrite An, E.
    assert (Hall : forall w, inr g w -> cvis (core_of s2) w)
      by (apply (all_discovered 0 (core_of s1)); auto; unfold inr; lia).
    exists s2. split.
    + destruct Hg2 as (Hn2 & _). apply find_loop_done; [lia| |].
      * intros j Hj. rewrite Hn2 in Hj. exact (Hall j Hj).
      * rewrite Hn2. lia.
    + intros v Hv. apply (post_cut g 0 _ _ HQ v). split; [now apply Hall|apply H0].
Qed.

Theorem find_biconnected_components_cut :
  exists st', find_biconnected_components g = Some st' /\
    forall v, inr g v -> (is_cut st' v <> 0 <-> articulation g v).
Proof.
  rewrite find_biconnected_components_eq.
  destruct (reset_analysis_fields g) as (Hg & (Av & Adi & Al & Ap & At & Ac) & _).
  now apply find_loop_cut.
Qed.
End Analysis.

(** ** Connected graphs, as a test *)

Lemma within_sound (g : state) (k : nat) (l : list Z) :
  simple_graph g ->
  (forall x, In x l -> conn_in g (inr g) 0 x) ->
  forall x, In x (within g k l) -> conn_in g (inr g) 0 x.
Proof.
  intros Hg. revert l. induction k as [|k IH]; intros l Hl x Hx; cbn [within] in Hx.
  - now apply Hl.
  - apply (IH _) in Hx; [exact Hx|]. intros y Hy. apply in_app_iff in Hy.
    destruct Hy as [Hy|Hy]; [now apply Hl|].
    apply in_flat_map in Hy. destruct Hy as (z & Hz & Hzy).
    pose proof (Hl z Hz) as C.
    assert (Ha : adj g z y) by (split; [exact (conn_in_right g _ 0 z C)|exact Hzy]).
    apply (conn_in_snoc g _ 0 z y C Ha). apply (adj_range g Hg z y Ha).
Qed.

Lemma connectedb_true (g : state) :
  simple_graph g -> connectedb g = true -> connected g.
Proof.
  intros Hg H. unfold connectedb in H. rewrite forallb_forall in H.
  assert (Hz : forall x, inr g x -> conn_in g (inr g) 0 x).
  { intros x Hx. apply (within_sound g (Z.to_nat (n_nodes g)) [0] Hg).
    - intros y [<-|[]]. apply conn_refl. unfold inr in *. lia.
    - apply existsb_eqb_In. apply H. now apply nodes_In. }
  intros a b Ha Hb. apply (conn_in_trans g _ a 0 b); [|now apply Hz].
  apply (conn_in_sym g Hg). now apply Hz.
Qed.

Lemma path5_connected : connected path5.
Proof. apply connectedb_true; [exact path5_simple|]. vm_compute. reflexivity. Qed.

(** ** The brute-force oracle decides articulation points *)

Lemma card_incl (a b : list Z) : incl a b -> (card a <= card b)%nat.
Proof.
  intros H. unfold card. apply NoDup_incl_length; [apply NoDup_nodup|].
  intros x Hx. apply nodup_In. apply H. now apply nodup_In in Hx.
Qed.

Lemma card_strict (a b : list Z) (x : Z) :
  incl a b -> In x b -> ~ In x a -> (S (card a) <= card b)%nat.
Proof.
  intros H Hb Ha. unfold card.
  change (S (length (nodup Z.eq_dec a))) with (length (x :: nodup Z.eq_dec a)).
  apply NoDup_incl_length.
  - constructor; [|apply NoDup_nodup]. intros Hx. apply Ha. now apply nodup_In in Hx.
  - intros y [<-|Hy]; apply nodup_In; [exact Hb|].
    apply H. now apply nodup_In in Hy.
Qed.

Lemma incl_or_witness (a b : list Z) : incl a b \/ exists x, In x a /\ ~ In x b.
Proof.
  induction a as [|y a IH].
  - left. intros x [].
  - destruct IH as [IH|(x & Hx & Hn)]; [|right; exists x; split; [now right|exact Hn]].
    destruct (in_dec Z.eq_dec y b) as [Hy|Hy].
    + left. intros x [<-|Hx]; auto.
    + right. exists y. split; [now left|exact Hy].
Qed.

Section Oracle.
Variable g : state.
Hypothesis g_simple : simple_graph g.
Variable v : Z.

Lemma reach_step_In (l : list Z) (y : Z) :
  In y (reach_step g v l) <->
  In y l \/ (y <> v /\ exists x, In x l /\ In y (neighbor_list g x)).
Proof.
  unfold reach_step. rewrite in_app_iff, filter_In, in_flat_map.
  split; (intros [H|[H1 H2]]; [now left|right]).
  - split; [now apply negb_true_iff, Z.eqb_neq in H2|exact H1].
  - split; [exact H2|now apply negb_true_iff, Z.eqb_neq].
Qed.

Lemma reach_step_mono (a b : list Z) :
  incl a b -> incl (reach_step g v a) (reach_step g v b).
Proof.
  intros Hab x Hx. apply reach_step_In in Hx. apply reach_step_In.
  destruct Hx as [Hx|(Hxv & z & Hz & Hzx)]; [left; auto|].
  right. split; [exact Hxv|]. exists z. auto.
Qed.

Lemma reach_succ (k : nat) (l : list Z) :
  reach g v (S k) l = reach_step g v (reach g v k l).
Proof.
  revert l. induction k as [|k IH]; intros l; [reflexivity|].
  change (reach g v (S (S k)) l) with (reach g v (S k) (reach_step g v l)).
  now rewrite IH.
Qed.

Lemma reach_incl (k : nat) (l : list Z) : incl l (reach g v k l).
Proof.
  induction k as [|k IH]; [apply incl_refl|].
  rewrite reach_succ. intros x Hx. apply reach_step_In. left. now apply IH.
Qed.

(** Soundness: what is reached is joined to a start node by a path that
    avoids [v]. *)
Lemma reach_sound (k : nat) (l : list Z) :
  (forall x, In x l -> avoid g v x) ->
  forall y, In y (reach g v k l) -> exists x, In x l /\ conn_in g (avoid g v) x y.
Proof.
  intros Hl. induction k as [|k IH]; intros y Hy.
  - exists y. split; [exact Hy|]. apply conn_refl. now apply Hl.
  - rewrite reach_succ in Hy. apply reach_step_In in Hy.
    destruct Hy as [Hy|(Hyv & z & Hz & Hzy)]; [now apply IH|].
    destruct (IH z Hz) as (x & Hx & C). exists x. split; [exact Hx|].
    assert (Hz' : avoid g v z) by exact (conn_in_right g _ x z C).
    assert (Ha : adj g z y) by (split; [apply Hz'|exact Hzy]).
    apply (conn_in_snoc g _ x z y C Ha).
    split; [apply (adj_range g g_simple z y Ha)|exact Hyv].
Qed.

(** Each round either adds a node or leaves the list closed. *)
Lemma reach_progress (k : nat) (l : list Z) :
  incl (reach_step g v (reach g v k l)) (reach g v k l) \/
  (k + card l <= card (reach g v k l))%nat.
Proof.
  induction k as [|k IH]; [right; apply Nat.le_refl|].
  rewrite reach_succ.
  destruct IH as [IH|IH]; [left; now apply reach_step_mono|].
  destruct (incl_or_witness (reach_step g v (reach_step g v (reach g v k l)))
              (reach_step g v (reach g v k l))) as [H|(x & Hx & Hn)]; [now left|].
  destruct (incl_or_witness (reach_step g v (reach g v k l)) (reach g v k l))
    as [H|(y & Hy & Hny)].
  - exfalso. apply Hn. exact (reach_step_mono _ _ H x Hx).
  - right. apply Nat.le_trans with (S (card (reach g v k l))); [cbn; lia|].
    apply (card_strict _ _ y); [|exact Hy|exact Hny].
    intros z Hz. apply reach_step_In. now left.
Qed.

Lemma reach_card (k : nat) (a : Z) :
  avoid g v a -> (card (reach g v k [a]) <= Z.to_nat (n_nodes g))%nat.
Proof.
  intros Ha. apply Nat.le_trans with (card (nodes (n_nodes g))).
  - apply card_incl. intros y Hy.
    destruct (reach_sound k [a]) with (y := y) as (x & _ & C); [|exact Hy|].
    + intros x [<-|[]]. exact Ha.
    + apply nodes_In. apply (conn_in_right g _ x y C).
  - unfold card. rewrite nodup_fixed_point by apply nodes_NoDup.
    unfold nodes. rewrite length_map, length_seq. apply Nat.le_refl.
Qed.

(** Completeness: after one round per node, every node joined to the start
    by a path that avoids [v] has been reached. *)
Lemma reach_complete (a b : Z) :
  conn_in g (avoid g v) a b -> In b (reach g v (Z.to_nat (n_nodes g)) [a]).
Proof.
  intros C. assert (Ha : avoid g v a) by exact (conn_in_left g _ a b C).
  destruct (reach_progress (Z.to_nat (n_nodes g)) [a]) as [Hc|Hc].
  - apply (conn_in_closed g (avoid g v)
             (fun x => In x (reach g v (Z.to_nat (n_nodes g)) [a])) a b); [|exact C|].
    + intros x y Hx Hxy Hy. apply Hc. apply reach_step_In. right.
      split; [apply Hy|]. exists x. split; [exact Hx|apply Hxy].
    + apply reach_incl. now left.
  - pose proof (reach_card (Z.to_nat (n_nodes g)) a Ha) as Hle.
    change (card [a]) with 1%nat in Hc. lia.
Qed.

(** The oracle decides the articulation points. *)
Lemma articulationb_spec : articulationb g v = true <-> articulation g v.
Proof.
  unfold articulationb.
  assert (Ho : forall w, In w (filter (fun w => negb (w =? v)) (nodes (n_nodes g))) <->
                 avoid g v w).
  { intros w. rewrite filter_In, nodes_In, negb_true_iff, Z.eqb_neq. reflexivity. }
  destruct (filter (fun w => negb (w =? v)) (nodes (n_nodes g))) as [|a r] eqn:E.
  - split; [discriminate|]. intros (x & _ & Hx & _). now apply Ho in Hx.
  - assert (Ha : avoid g v a) by (apply Ho; now left).
    assert (Hm : forall w l, existsb (Z.eqb w) l = true <-> In w l).
    { intros w l. rewrite existsb_exists. split.
      - intros (x & Hx & Hwx). apply Z.eqb_eq in Hwx. now subst.
      - intros Hw. exists w. split; [exact Hw|apply Z.eqb_refl]. }
    rewrite existsb_exists. split.
    + intros (w & Hw & Hn). apply negb_true_iff in Hn.
      exists a, w. split; [exact Ha|]. split; [now apply Ho|].
      intros C. apply reach_complete in C. apply Hm in C. congruence.
    + intros (x & y & Hx & Hy & Hn).
      assert (Hr : forall w, In w (reach g v (Z.to_nat (n_nodes g)) [a]) ->
                     conn_in g (avoid g v) a w).
      { intros w Hw. destruct (reach_sound (Z.to_nat (n_nodes g)) [a]) with (y := w)
          as (z & [<-|[]] & C); [|exact Hw|exact C].
        intros z [<-|[]]. exact Ha. }
      destruct (existsb (Z.eqb x) (reach g v (Z.to_nat (n_nodes g)) [a])) eqn:Ex;
        [|exists x; split; [now apply Ho|now rewrite Ex]].
      destruct (existsb (Z.eqb y) (reach g v (Z.to_nat (n_nodes g)) [a])) eqn:Ey;
        [|exists y; split; [now apply Ho|now rewrite Ey]].
      exfalso. apply Hn. apply Hm in Ex, Ey.
      apply (conn_in_trans g _ x a y); [|now apply Hr].
      apply (conn_in_sym g g_simple). now apply Hr.
Qed.
End Oracle.

(** The oracle on the scenarios: the inner nodes of the path, the hub of
    the star, no node of the triangle. *)
Example articulationb_path5 :
  filter (articulationb path5) (nodes (n_nodes path5)) = [1; 2; 3].
Proof. vm_compute. reflexivity. Qed.

Example articulationb_star7 :
  filter (articulationb star7) (nodes (n_nodes star7)) = [0].
Proof. vm_compute. reflexivity. Qed.

Example articulationb_triangle :
  filter (articulationb triangle) (nodes (n_nodes triangle)) = [].
Proof. vm_compute. reflexivity. Qed.

(** ** The topology generator *)

Lemma add_edge_same_graph (u v : Z) (st : state) :
  same_graph (link u v st) (add_edge u v st).
Proof. now repeat split. Qed.

Lemma add_edge_n_nodes (u v : Z) (st : state) : n_nodes (add_edge u v st) = n_nodes st.
Proof. reflexivity. Qed.

Lemma add_edge_original_edges (u v : Z) (st : state) :
  original_edges (add_edge u v st) = original_edges st + 1.
Proof. reflexivity. Qed.

Lemma add_edge_neighbor_list (u v w : Z) (st : state) :
  neighbor_list (add_edge u v st) w = neighbor_list (link u v st) w.
Proof. reflexivity. Qed.

Lemma add_edge_In (u v w x : Z) (st : state) :
  adjacency_ok st ->
  In x (neighbor_list (add_edge u v st) w) <->
  In x (neighbor_list st w) \/ (w = u /\ x = v) \/ (w = v /\ x = u).
Proof.
  intros Hok. rewrite add_edge_neighbor_list.
  apply link_In; apply (ok_bound st Hok).
Qed.

Lemma add_edge_grows (u v : Z) (st : state) : grows st (add_edge u v st).
Proof. exact (link_grows u v st). Qed.

Lemma add_edge_total_degree (u v : Z) (st : state) :
  0 <= u < n_nodes st -> 0 <= v < n_nodes st -> u <> v ->
  total_degree (add_edge u v st) = total_degree st + 2.
Proof. intros Hu Hv Huv. exact (total_degree_link u v st Hu Hv Huv). Qed.

Lemma add_edge_adjacency_ok (u v : Z) (st : state) :
  adjacency_ok st -> u <> v ->
  degree st u < MAX_NEIGHBORS -> degree st v < MAX_NEIGHBORS ->
  adjacency_ok (add_edge u v st).
Proof. exact (counted_link_ok u v st). Qed.

Lemma NoDup_snoc (l : list Z) (x : Z) : NoDup l -> ~ In x l -> NoDup (l ++ [x]).
Proof.
  intros Hl Hx. apply NoDup_app; [exact Hl|repeat constructor; intros []|].
  intros y Hy [<-|[]]. contradiction.
Qed.

(** A link between two different, unlinked nodes keeps the lists well
    formed. *)
Lemma add_edge_wf_links (u v : Z) (st : state) :
  adjacency_ok st -> wf_links st -> inr st u -> inr st v -> u <> v ->
  exists_edge st u v = 0 -> wf_links (add_edge u v st).
Proof.
  intros Hok Hwf Hu Hv Huv He w.
  assert (Hnv : ~ In v (neighbor_list st u)).
  { intros H. apply (ok_matrix st Hok) in H. contradiction. }
  assert (Hnu : ~ In u (neighbor_list st v)).
  { intros H. apply (ok_sym st Hok) in H. contradiction. }
  destruct (Hwf w) as [Hnd Hin]. split.
  - rewrite add_edge_neighbor_list, link_neighbor_list by apply (ok_bound st Hok).
    destruct (Z.eqb_spec w u) as [Ewu|Hwu]; destruct (Z.eqb_spec w v) as [Ewv|Hwv];
      cbn [app]; rewrite ?app_nil_r.
    + congruence.
    + subst w. now apply NoDup_snoc.
    + subst w. now apply NoDup_snoc.
    + exact Hnd.
  - intros x Hx. apply (add_edge_In u v w x st Hok) in Hx. unfold inr in *.
    rewrite add_edge_n_nodes.
    destruct Hx as [Hx|[[-> ->]|[-> ->]]]; [now apply Hin|auto|auto].
Qed.

Lemma wf_links_simple_graph (st : state) :
  0 <= n_nodes st <= MAX_NODES -> adjacency_ok st -> wf_links st -> simple_graph st.
Proof.
  intros Hn Hok Hwf. constructor.
  - exact Hn.
  - intros u _. apply (ok_bound st Hok).
  - intros u v _ Hv. apply (proj2 (Hwf u) v Hv).
  - intros u v _ Hv. now apply (ok_sym st Hok).
  - intros u _ Hu. destruct (Hwf u) as [_ H]. destruct (H u Hu) as (_ & _ & Hne). now apply Hne.
  - intros u _. apply (Hwf u).
Qed.

Section GeneratorRule.
Variable rand_seq : nat -> Z.
Variable target_edges : Z -> Z.
Variable accept : Z -> Z -> bool.
Hypothesis rand_nonneg : forall k, 0 <= rand_seq k.
Variable N : Z.
Hypothesis N_pos : 1 <= N.

(** What holds before round [i] of the backbone loop holds, with [i] at
    [n_nodes], when the loop is left. *)
Lemma backbone_rule (P : Z -> state -> Prop) :
  (forall i st c, P i st -> n_nodes st = N -> 1 <= i < N ->
     0 <= Z.rem (rand_seq c) i < i ->
     P (i + 1)
       (if (degree st i <? MAX_NEIGHBORS)
           && (degree st (Z.rem (rand_seq c) i) <? MAX_NEIGHBORS)
        then add_edge i (Z.rem (rand_seq c) i) st else st)) ->
  forall k i c st, n_nodes st = N -> 1 <= i -> N - i <= Z.of_nat k -> P i st ->
    P (Z.max i N) (snd (backbone rand_seq k i c st)) /\
    n_nodes (snd (backbone rand_seq k i c st)) = N.
Proof.
  intros Hstep. induction k as [|k IH]; intros i c st Hn Hi Hk HP; cbn [backbone].
  - cbn [snd]. rewrite Z.max_l by lia. auto.
  - rewrite Hn. destruct (Z.ltb_spec i N) as [H|H];
      [|cbn [snd]; rewrite Z.max_l by lia; auto].
    cbv zeta.
    pose proof (Z.rem_bound_pos (rand_seq c) i (rand_nonneg c) ltac:(lia)) as Hp.
    specialize (Hstep i st c HP Hn (conj Hi H) Hp). unfold add_edge in Hstep.
    replace (Z.max i N) with (Z.max (i + 1) N) by lia.
    apply IH; [|lia|lia|exact Hstep].
    destruct (_ && _)%bool; [exact Hn|exact Hn].
Qed.

(** What the insertion of a cross edge keeps true holds when the second
    loop is left. *)
Lemma cross_edges_rule (target : Z) (Q : state -> Prop) :
  (forall st c, Q st -> n_nodes st = N -> original_edges st < target ->
     let u := Z.rem (rand_seq c) N in
     let v := Z.rem (rand_seq (S c)) N in
     0 <= u < N -> 0 <= v < N -> u <> v -> exists_edge st u v = 0 ->
     degree st u < MAX_NEIGHBORS -> degree st v < MAX_NEIGHBORS ->
     Q (add_edge u v st)) ->
  forall k attempts max_attempts c st, n_nodes st = N -> Q st ->
    Q (snd (cross_edges rand_seq accept k target attempts max_attempts c st)).
Proof.
  intros Hstep. induction k as [|k IH]; intros attempts max_attempts c st Hn HQ;
    cbn [cross_edges]; [exact HQ|].
  destruct (_ && _)%bool eqn:L; [|exact HQ]. cbv zeta. rewrite Hn.
  apply andb_true_iff in L. destruct L as [L _]. apply Z.ltb_lt in L.
  pose proof (Z.rem_bound_pos (rand_seq c) N (rand_nonneg c) ltac:(lia)) as Hu.
  pose proof (Z.rem_bound_pos (rand_seq (S c)) N (rand_nonneg (S c)) ltac:(lia)) as Hv.
  destruct (negb _ && _ && _ && _)%bool eqn:G; [|now apply IH].
  destruct (accept _ _); [|now apply IH].
  zify_test. apply IH; [exact Hn|].
  exact (Hstep st c HQ Hn L Hu Hv ltac:(assumption) ltac:(assumption)
           ltac:(assumption) ltac:(assumption)).
Qed.

Lemma generate_rule (P : Z -> state -> Prop) (Q : state -> Prop) :
  (forall i st c, P i st -> n_nodes st = N -> 1 <= i < N ->
     0 <= Z.rem (rand_seq c) i < i ->
     P (i + 1)
       (if (degree st i <? MAX_NEIGHBORS)
           && (degree st (Z.rem (rand_seq c) i) <? MAX_NEIGHBORS)
        then add_edge i (Z.rem (rand_seq c) i) st else st)) ->
  (forall st, n_nodes st = N -> P N st -> Q st) ->
  (forall st c, Q st -> n_nodes st = N -> original_edges st < target_edges N ->
     let u := Z.rem (rand_seq c) N in
     let v := Z.rem (rand_seq (S c)) N in
     0 <= u < N -> 0 <= v < N -> u <> v -> exists_edge st u v = 0 ->
     degree st u < MAX_NEIGHBORS -> degree st v < MAX_NEIGHBORS ->
     Q (add_edge u v st)) ->
  forall c st, n_nodes st = N -> P 1 st ->
    Q (snd (generate_random_topology rand_seq target_edges accept c st)).
Proof.
  intros HP HPQ HQ c st Hn H1. unfold generate_random_topology.
  destruct (backbone_rule P HP (Z.to_nat (n_nodes st - 1)) 1 c st Hn
              (Z.le_refl 1) ltac:(lia) H1) as [H2 Hn2].
  destruct (backbone _ _ _ _ _) as [c1 s1]. cbn [snd] in H2, Hn2.
  rewrite Z.max_r in H2 by lia. rewrite Hn2.
  apply (cross_edges_rule (target_edges N) Q HQ); [exact Hn2|].
  now apply HPQ.
Qed.
End GeneratorRule.

(** ** What the generator builds *)

Lemma zsum_zero (l : list Z) : zsum (fun _ => 0) l = 0.
Proof. unfold zsum. induction l as [|a l IH]; cbn; [reflexivity|exact IH]. Qed.

Lemma init_arrays_fields (st : state) :
  n_nodes (init_arrays st) = n_nodes st /\
  degree (init_arrays st) = (fun _ => 0) /\
  exists_edge (init_arrays st) = (fun _ _ => 0) /\
  redundant_edge (init_arrays st) = (fun _ _ => 0) /\
  original_edges (init_arrays st) = 0 /\
  redundant_edges_added (init_arrays st) = 0.
Proof. repeat split; reflexivity. Qed.

Lemma init_arrays_neighbor_list (st : state) (u : Z) :
  neighbor_list (init_arrays st) u = [].
Proof. reflexivity. Qed.

Lemma init_arrays_generated_ok (st : state) :
  generated_ok (init_arrays st) /\ links_below 1 (init_arrays st).
Proof.
  split; [split; [apply init_arrays_ok|split]|].
  - intros u. rewrite init_arrays_neighbor_list. split; [constructor|intros v []].
  - destruct (init_arrays_fields st) as (Hn & Hd & _ & _ & Ho & _).
    unfold total_degree. rewrite Hd, Ho, zsum_zero. reflexivity.
  - intros u v. rewrite init_arrays_neighbor_list. intros [].
Qed.

(** A path of a graph is a path of every graph that has its links. *)
Lemma conn_in_grows (st st' : state) (a b : Z) :
  grows st st' -> n_nodes st' = n_nodes st ->
  conn_in st (inr st) a b -> conn_in st' (inr st') a b.
Proof.
  intros Hg Hn C.
  assert (Hin : forall w, inr st w -> inr st' w) by (unfold inr; intros; lia).
  induction C as [a Ha|a b c Ha Hab _ IH].
  - apply conn_refl. auto.
  - apply (conn_step st' _ a b c); [auto| |exact IH].
    destruct Hab as [Ha' Hb]. split; [auto|].
    destruct (grows_prefix st st' a Hg) as (r & ->). apply in_or_app. now left.
Qed.

Section GeneratorProperties.
Variable rand_seq : nat -> Z.
Variable target_edges : Z -> Z.
Variable accept : Z -> Z -> bool.
Hypothesis rand_nonneg : forall k, 0 <= rand_seq k.

(** An insertion between two different, unlinked nodes with spare capacity
    keeps the store well formed and counted. *)
Lemma add_edge_generated_ok (u v : Z) (st : state) :
  generated_ok st -> inr st u -> inr st v -> u <> v -> exists_edge st u v = 0 ->
  degree st u < MAX_NEIGHBORS -> degree st v < MAX_NEIGHBORS ->
  generated_ok (add_edge u v st).
Proof.
  intros (Hok & Hwf & Ht) Hu Hv Huv He Hdu Hdv. split; [|split].
  - now apply add_edge_adjacency_ok.
  - now apply add_edge_wf_links.
  - rewrite add_edge_total_degree, add_edge_original_edges by assumption. lia.
Qed.

Lemma generate_generated_ok (c : nat) (st : state) :
  1 <= n_nodes st ->
  generated_ok (snd (generate_random_topology rand_seq target_edges accept c
                       (init_arrays st))).
Proof.
  intros Hn.
  apply (generate_rule rand_seq target_edges accept rand_nonneg (n_nodes st) Hn
           (fun i s => generated_ok s /\ links_below i s) generated_ok).
  - intros i s c0 [Hg Hb] Hns Hi Hp.
    destruct (_ && _)%bool eqn:G; [|split; [exact Hg|]].
    + zify_test.
      assert (He : exists_edge s i (Z.rem (rand_seq c0) i) = 0).
      { destruct (Z.eq_dec (exists_edge s i (Z.rem (rand_seq c0) i)) 0) as [E|E];
          [exact E|].
        destruct Hg as (Hok & _). apply (ok_matrix s Hok) in E.
        destruct (Hb _ _ E). lia. }
      split.
      * apply add_edge_generated_ok; unfold inr; auto; lia.
      * intros u v Huv. destruct Hg as (Hok & _).
        apply (add_edge_In _ _ u v s Hok) in Huv.
        destruct Huv as [Huv|[[-> ->]|[-> ->]]]; [destruct (Hb _ _ Huv)|..]; lia.
    + intros u v Huv. destruct (Hb _ _ Huv). lia.
  - intros s _ [Hg _]. exact Hg.
  - intros s c0 Hg Hns _ u v Hu Hv Huv He Hdu Hdv.
    apply add_edge_generated_ok; unfold inr; auto; lia.
  - reflexivity.
  - apply init_arrays_generated_ok.
Qed.

Lemma generate_n_nodes (c : nat) (st : state) :
  1 <= n_nodes st ->
  n_nodes (snd (generate_random_topology rand_seq target_edges accept c st)) = n_nodes st.
Proof.
  intros Hn.
  apply (generate_rule rand_seq target_edges accept rand_nonneg (n_nodes st) Hn
           (fun _ s => n_nodes s = n_nodes st) (fun s => n_nodes s = n_nodes st)).
  - intros i s c0 H _ _ _. now destruct (_ && _)%bool.
  - auto.
  - intros s c0 H _ _ u v _ _ _ _ _ _. exact H.
  - reflexivity.
  - reflexivity.
Qed.

Lemma generate_simple_graph (c : nat) (st : state) :
  1 <= n_nodes st <= MAX_NODES ->
  simple_graph (snd (generate_random_topology rand_seq target_edges accept c
                       (init_arrays st))).
Proof.
  intros Hn. destruct (generate_generated_ok c st (proj1 Hn)) as (Hok & Hwf & _).
  apply wf_links_simple_graph; [|exact Hok|exact Hwf].
  rewrite generate_n_nodes by (cbn; lia). cbn. lia.
Qed.

Lemma generate_edge_bound (c : nat) (st : state) :
  1 <= n_nodes st ->
  original_edges (snd (generate_random_topology rand_seq target_edges accept c
                         (init_arrays st)))
  <= Z.max (n_nodes st - 1) (target_edges (n_nodes st)).
Proof.
  intros Hn.
  apply (generate_rule rand_seq target_edges accept rand_nonneg (n_nodes st) Hn
           (fun i s => original_edges s <= i - 1)
           (fun s => original_edges s <= Z.max (n_nodes st - 1) (target_edges (n_nodes st)))).
  - intros i s c0 H _ _ _. destruct (_ && _)%bool; [rewrite add_edge_original_edges|]; lia.
  - intros s _ H. lia.
  - intros s c0 H _ Ht u v _ _ _ _ _ _. rewrite add_edge_original_edges. lia.
  - reflexivity.
  - cbn. lia.
Qed.

(** With at most [MAX_NEIGHBORS + 1] nodes no insertion of the backbone is
    refused, and the backbone spans the graph. *)
Lemma generate_spanning (c : nat) (st : state) :
  1 <= n_nodes st <= MAX_NEIGHBORS + 1 ->
  let g := snd (generate_random_topology rand_seq target_edges accept c
                  (init_arrays st)) in
  n_nodes st - 1 <= original_edges g /\
  forall a, 0 <= a < n_nodes st -> conn_in g (inr g) 0 a.
Proof.
  intros Hn.
  apply (generate_rule rand_seq target_edges accept rand_nonneg (n_nodes st) (proj1 Hn)
           (fun i s => adjacency_ok s /\ (forall w, degree s w <= i - 1) /\
                       i - 1 <= original_edges s /\
                       forall a, 0 <= a < i -> conn_in s (inr s) 0 a)
           (fun s => adjacency_ok s /\ n_nodes st - 1 <= original_edges s /\
                     forall a, 0 <= a < n_nodes st -> conn_in s (inr s) 0 a)).
  - intros i s c0 (Hok & Hd & Ho & Hc) Hns Hi Hp.
    destruct (_ && _)%bool eqn:G.
    + zify_test. set (p := Z.rem (rand_seq c0) i) in *.
      split; [apply add_edge_adjacency_ok; auto; lia|]. split; [|split].
      * intros w. change (degree (add_edge i p s) w) with (degree (link i p s) w).
        rewrite link_degree. specialize (Hd w).
        destruct (Z.eqb_spec w i), (Z.eqb_spec w p); lia.
      * rewrite add_edge_original_edges. lia.
      * intros a Ha.
        assert (Hgr : forall x, conn_in s (inr s) 0 x ->
                        conn_in (add_edge i p s) (inr (add_edge i p s)) 0 x).
        { intros x. apply conn_in_grows; [apply add_edge_grows|reflexivity]. }
        destruct (Z.eq_dec a i) as [->|Hai]; [|apply Hgr, Hc; lia].
        apply (conn_in_snoc _ _ 0 p i); [apply Hgr, Hc; lia| |].
        -- split; [unfold inr; rewrite add_edge_n_nodes; lia|].
           apply (add_edge_In i p p i s Hok). auto.
        -- unfold inr. rewrite add_edge_n_nodes. lia.
    + exfalso. pose proof (Hd i). pose proof (Hd (Z.rem (rand_seq c0) i)).
      unfold MAX_NEIGHBORS in *.
      apply andb_false_iff in G. destruct G as [G|G]; apply Z.ltb_ge in G; lia.
  - intros s _ (Hok & _ & Ho & Hc). auto.
  - intros s c0 (Hok & Ho & Hc) Hns _ u v Hu Hv Huv He Hdu Hdv.
    split; [now apply add_edge_adjacency_ok|]. split.
    + rewrite add_edge_original_edges. lia.
    + intros a Ha. apply (conn_in_grows s); [apply add_edge_grows|reflexivity|auto].
  - reflexivity.
  - split; [apply init_arrays_ok|]. split; [intros w; cbn; lia|]. split; [cbn; lia|].
    intros a Ha. assert (a = 0) as -> by lia. apply conn_refl. unfold inr. cbn. lia.
Qed.

Lemma generate_connected (c : nat) (st : state) :
  1 <= n_nodes st <= MAX_NEIGHBORS + 1 ->
  connected (snd (generate_random_topology rand_seq target_edges accept c
                    (init_arrays st))).
Proof.
  intros Hn.
  assert (Hs := generate_simple_graph c st
                  ltac:(unfold MAX_NEIGHBORS, MAX_NODES in *; lia)).
  destruct (generate_spanning c st Hn) as [_ Hc].
  assert (Hnn := generate_n_nodes c (init_arrays st) ltac:(cbn; lia)).
  intros a b Ha Hb. unfold inr in Ha, Hb. rewrite Hnn in Ha, Hb.
  apply (conn_in_trans _ _ a 0 b); [|now apply Hc].
  apply (conn_in_sym _ Hs). now apply Hc.
Qed.
End GeneratorProperties.

(** When every number drawn is 0, node 0 is the parent of every node until
    it is full: the nodes from [MAX_NEIGHBORS + 1] on get no link. *)
Lemma generate_isolated (target_edges : Z -> Z) (accept : Z -> Z -> bool)
    (c : nat) (st : state) (w : Z) :
  1 <= n_nodes st -> MAX_NEIGHBORS + 1 <= w ->
  degree (snd (generate_random_topology (fun _ => 0) target_edges accept c
                 (init_arrays st))) w = 0.
Proof.
  intros Hn Hw.
  apply (generate_rule (fun _ => 0) target_edges accept (fun _ => Z.le_refl 0)
           (n_nodes st) Hn
           (fun i s => degree s 0 = Z.min (i - 1) MAX_NEIGHBORS /\
                       forall x, MAX_NEIGHBORS + 1 <= x \/ i <= x -> degree s x = 0)
           (fun s => degree s w = 0)).
  - intros i s c0 [H0 Hx] _ Hi _. rewrite Z.rem_0_l by lia.
    unfold MAX_NEIGHBORS in *.
    destruct (_ && _)%bool eqn:G.
    + zify_test. split.
      * change (degree (add_edge i 0 s) 0) with (degree (link i 0 s) 0).
        rewrite link_degree. destruct (Z.eqb_spec 0 i); [lia|]. cbn [Z.eqb]. lia.
      * intros x Hx'. change (degree (add_edge i 0 s) x) with (degree (link i 0 s) x).
        rewrite link_degree. rewrite Hx by lia.
        destruct (Z.eqb_spec x i), (Z.eqb_spec x 0); lia.
    + split; [|intros x Hx'; apply Hx; lia].
      rewrite (Hx i) in G by lia. cbn in G. apply Z.ltb_ge in G. lia.
  - intros s _ [_ Hx]. apply Hx. now left.
  - intros s c0 H _ _ u v _ _ Huv. exfalso. apply Huv.
    unfold u, v. reflexivity.
  - reflexivity.
  - split; [reflexivity|]. intros x _. reflexivity.
Qed.

(** ** The analysis stays inside its arrays *)

Lemma analysis_safe_ext (g t t' : state) :
  same_stack_and_blocks t t' -> analysis_safe g t -> analysis_safe g t'.
Proof.
  intros (He & Ht & Hbn & Hbs & Hnb) [H1 H2 H3 H4 H5 H6].
  assert (Hm : forall b, block_members t' b = block_members t b)
    by (intros b; unfold block_members; now rewrite Hbn, Hbs).
  constructor; intros; rewrite ?Hm, ?He, ?Ht, ?Hbs, ?Hnb in *; auto.
Qed.

Lemma push_edge_fields (u v : Z) (t : state) :
  block_nodes (push_edge u v t) = block_nodes t /\
  block_size (push_edge u v t) = block_size t /\
  num_blocks (push_edge u v t) = num_blocks t /\
  (stack_top t < MAX_NODES * 10 - 1 ->
     stack_top (push_edge u v t) = stack_top t + 1 /\
     edge_stack (push_edge u v t) = upd (edge_stack t) (stack_top t) (mkEdge u v)) /\
  (MAX_NODES * 10 - 1 <= stack_top t -> push_edge u v t = t).
Proof.
  unfold push_edge. destruct (Z.ltb_spec (stack_top t) (MAX_NODES * 10 - 1)) as [H|H].
  - repeat split; try reflexivity. lia.
  - repeat split; try reflexivity; lia.
Qed.

Lemma push_edge_safe (g t : state) (u v : Z) :
  analysis_safe g t -> inr g u -> inr g v -> analysis_safe g (push_edge u v t).
Proof.
  intros Hs Hu Hv. destruct (push_edge_fields u v t) as (Hbn & Hbs & Hnb & Hpush & Hfull).
  destruct (Z.lt_ge_cases (stack_top t) (MAX_NODES * 10 - 1)) as [H|H];
    [|now rewrite Hfull].
  destruct (Hpush H) as [Ht He]. destruct Hs as [H1 H2 H3 H4 H5 H6].
  assert (Hm : forall b, block_members (push_edge u v t) b = block_members t b)
    by (intros b; unfold block_members; now rewrite Hbn, Hbs).
  constructor; intros; rewrite ?Hm, ?Hbs, ?Hnb in *; auto.
  - lia.
  - rewrite He. unfold upd. rewrite Ht in *.
    destruct (Z.eqb_spec j (stack_top t)); [cbn; auto|apply H2; lia].
Qed.

(** Recording a node in the open block. *)
Lemma add_to_block_fields (x : Z) (ib : Z -> Z) (t : state) :
  let r := add_to_block x ib t in
  edge_stack (snd r) = edge_stack t /\ stack_top (snd r) = stack_top t /\
  num_blocks (snd r) = num_blocks t /\
  (ib x <> 0 -> r = (ib, t)) /\
  (ib x = 0 ->
     fst r = upd ib x 1 /\
     block_nodes (snd r) = upd2 (block_nodes t) (num_blocks t)
                             (block_size t (num_blocks t)) x /\
     block_size (snd r) = upd (block_size t) (num_blocks t)
                            (block_size t (num_blocks t) + 1)).
Proof.
  unfold add_to_block. destruct (Z.eqb_spec (ib x) 0) as [H|H]; cbn [fst snd];
    repeat split; intros; try contradiction; try reflexivity.
Qed.

Lemma block_members_snoc (t t' : state) (b x : Z) :
  0 <= block_size t b ->
  block_nodes t' = upd2 (block_nodes t) b (block_size t b) x ->
  block_size t' = upd (block_size t) b (block_size t b + 1) ->
  block_members t' b = block_members t b ++ [x] /\
  forall b', b' <> b -> block_members t' b' = block_members t b'.
Proof.
  intros Hs Hbn Hbs. unfold block_members. rewrite Hbn, Hbs. split.
  - rewrite upd_same. replace (Z.to_nat (block_size t b + 1))
      with (S (Z.to_nat (block_size t b))) by lia.
    rewrite seq_snoc, map_app. cbn [map]. f_equal.
    + apply map_ext_in. intros i Hi. apply in_seq in Hi.
      apply upd2_other. right. lia.
    + rewrite Nat.add_0_l, Z2Nat.id by lia. now rewrite upd2_same.
  - intros b' Hb'. rewrite upd_other by exact Hb'.
    apply map_ext. intros i. now rewrite upd2_row_other.
Qed.

Lemma add_to_block_open (g : state) (x : Z) (ib : Z -> Z) (t : state) :
  block_open g ib t -> inr g x ->
  block_open g (fst (add_to_block x ib t)) (snd (add_to_block x ib t)).
Proof.
  intros Ho Hx.
  destruct (add_to_block_fields x ib t) as (He & Ht & Hnb & Hold & Hnew).
  destruct (Z.eq_dec (ib x) 0) as [E|E]; [|now rewrite (Hold E)].
  destruct (Hnew E) as (Hib & Hbn & Hbs). clear Hold Hnew.
  destruct Ho as [H1 H2 H3 H4 H5 H6 H7].
  destruct (block_members_snoc t _ (num_blocks t) x (H4 _) Hbn Hbs) as [Hm Hm'].
  assert (Hnx : ~ In x (block_members t (num_blocks t))).
  { intros H. apply H7 in H. contradiction. }
  constructor; rewrite ?He, ?Ht, ?Hnb, ?Hib.
  - exact H1.
  - exact H2.
  - exact H3.
  - intros b. rewrite Hbs. unfold upd. specialize (H4 b).
    destruct (Z.eqb_spec b (num_blocks t)); [subst b|]; lia.
  - intros b Hb. rewrite Hbs, upd_other by lia. now apply H5.
  - intros b Hb. destruct (Z.eq_dec b (num_blocks t)) as [->|Hne].
    + rewrite Hm. destruct (H6 (num_blocks t) ltac:(lia)) as [Hnd Hr]. split.
      * now apply NoDup_snoc.
      * intros y Hy. apply in_app_or in Hy. destruct Hy as [Hy|[<-|[]]]; auto.
    + rewrite Hm' by exact Hne. apply H6. lia.
  - intros y. rewrite Hm, in_app_iff. unfold upd.
    destruct (Z.eqb_spec y x) as [->|Hyx].
    + split; [intros _; right; now left|intros _; lia].
    + rewrite H7. split; [auto|]. intros [H|[H|[]]]; [exact H|congruence].
Qed.

(** One round of either popping loop. *)
Lemma pop_step_open (g : state) (ib : Z -> Z) (t : state) :
  block_open g ib t -> 0 < stack_top t ->
  let st1 := set_stack_top (stack_top t - 1) t in
  let e := edge_stack st1 (stack_top st1) in
  let r1 := add_to_block (e_u e) ib st1 in
  let r2 := add_to_block (e_v e) (fst r1) (snd r1) in
  block_open g (fst r2) (snd r2) /\ stack_top (snd r2) = stack_top t - 1.
Proof.
  intros Ho Hpos st1 e r1 r2.
  assert (Ho1 : block_open g ib st1).
  { destruct Ho as [H1 H2 H3 H4 H5 H6 H7]. constructor; auto.
    - change (stack_top st1) with (stack_top t - 1). lia.
    - intros j Hj. change (stack_top st1) with (stack_top t - 1) in Hj.
      apply (H2 j). lia. }
  assert (He : inr g (e_u e) /\ inr g (e_v e)).
  { apply (open_entries g ib t Ho). change (stack_top st1) with (stack_top t - 1). lia. }
  pose proof (add_to_block_open g (e_u e) ib st1 Ho1 (proj1 He)) as Ho2. fold r1 in Ho2.
  pose proof (add_to_block_open g (e_v e) (fst r1) (snd r1) Ho2 (proj2 He)) as Ho3.
  fold r2 in Ho3. split; [exact Ho3|].
  destruct (add_to_block_fields (e_v e) (fst r1) (snd r1)) as (_ & Ht2 & _).
  destruct (add_to_block_fields (e_u e) ib st1) as (_ & Ht1 & _).
  fold r1 in Ht1, Ht2. fold r2 in Ht2. rewrite Ht2, Ht1. reflexivity.
Qed.

Lemma pop_until_open (g : state) (k : nat) (u v : Z) (ib : Z -> Z) (t : state) :
  block_open g ib t -> exists ib', block_open g ib' (pop_until k u v ib t).
Proof.
  revert ib t. induction k as [|k IH]; intros ib t Ho; cbn [pop_until].
  - now exists ib.
  - destruct (Z.leb_spec (stack_top t) 0) as [H|H]; [now exists ib|].
    pose proof (pop_step_open g ib t Ho H) as Hs. cbv zeta in Hs.
    destruct (add_to_block _ ib _) as [ib1 s1]. cbn [fst snd] in Hs.
    destruct (add_to_block _ ib1 s1) as [ib2 s2]. cbn [fst snd] in Hs.
    destruct Hs as [Hs _].
    destruct (_ && _)%bool; [apply IH, Hs|now exists ib2].
Qed.

Lemma pop_all_open (g : state) (k : nat) (ib : Z -> Z) (t : state) :
  block_open g ib t -> exists ib', block_open g ib' (pop_all k ib t).
Proof.
  revert ib t. induction k as [|k IH]; intros ib t Ho; cbn [pop_all].
  - now exists ib.
  - destruct (Z.ltb_spec 0 (stack_top t)) as [H|H]; [|now exists ib].
    pose proof (pop_step_open g ib t Ho H) as Hs. cbv zeta in Hs.
    destruct (add_to_block _ ib _) as [ib1 s1]. cbn [fst snd] in Hs.
    destruct (add_to_block _ ib1 s1) as [ib2 s2]. cbn [fst snd] in Hs.
    destruct Hs as [Hs _]. apply IH, Hs.
Qed.

Lemma block_open_start (g t : state) :
  analysis_safe g t -> num_blocks t < MAX_BLOCKS -> block_open g (fun _ => 0) t.
Proof.
  intros [H1 H2 H3 H4 H5 H6] Hn.
  assert (He : block_members t (num_blocks t) = []).
  { unfold block_members. rewrite H5 by lia. reflexivity. }
  constructor; auto.
  - lia.
  - intros b Hb. apply H5. lia.
  - intros b Hb. destruct (Z.eq_dec b (num_blocks t)) as [->|Hne]; [|apply H6; lia].
    rewrite He. split; [constructor|intros x []].
  - intros x. rewrite He. split; [intros H; now elim H|intros []].
Qed.

Lemma block_open_close (g : state) (ib : Z -> Z) (t : state) :
  block_open g ib t -> analysis_safe g (set_num_blocks (num_blocks t + 1) t).
Proof.
  intros [H1 H2 H3 H4 H5 H6 H7].
  assert (Hm : forall b, block_members (set_num_blocks (num_blocks t + 1) t) b
                         = block_members t b) by reflexivity.
  constructor.
  - exact H1.
  - exact H2.
  - change (0 <= num_blocks t + 1 <= MAX_BLOCKS). lia.
  - exact H4.
  - intros b Hb. change (num_blocks t + 1 <= b) in Hb. apply H5. lia.
  - intros b Hb. change (0 <= b < num_blocks t + 1) in Hb. rewrite Hm. apply H6. lia.
Qed.

Lemma after_child_safe (g : state) (u v children : Z) (t : state) :
  analysis_safe g t -> analysis_safe g (after_child u v children t).
Proof.
  intros Hs. unfold after_child. cbv zeta.
  set (s1 := if low t v <? low t u then _ else t).
  assert (H1 : analysis_safe g s1).
  { apply (analysis_safe_ext g t); [|exact Hs].
    unfold s1. destruct (_ <? _); now repeat split. }
  destruct (_ || _)%bool; [|exact H1].
  set (s2 := set_is_cut _ s1).
  assert (H2 : analysis_safe g s2).
  { apply (analysis_safe_ext g s1); [now repeat split|exact H1]. }
  destruct (Z.ltb_spec (num_blocks s2) MAX_BLOCKS) as [Hb|Hb]; [|exact H2].
  destruct (pop_until_open g (Z.to_nat (stack_top s2)) u v (fun _ => 0) s2
              (block_open_start g s2 H2 Hb)) as [ib' Ho].
  exact (block_open_close g ib' _ Ho).
Qed.

Lemma root_block_safe (g : state) (u children : Z) (t : state) :
  analysis_safe g t -> analysis_safe g (root_block u children t).
Proof.
  intros Hs. unfold root_block. cbv zeta.
  destruct (_ && _ && _ && _)%bool eqn:G; [|exact Hs].
  apply andb_true_iff in G. destruct G as [_ G]. apply Z.ltb_lt in G.
  destruct (pop_all_open g (Z.to_nat (stack_top t)) (fun _ => 0) t
              (block_open_start g t Hs G)) as [ib' Ho].
  exact (block_open_close g ib' _ Ho).
Qed.

Lemma back_edge_safe (g : state) (u v : Z) (t : state) :
  analysis_safe g t -> inr g u -> inr g v -> analysis_safe g (back_edge u v t).
Proof.
  intros Hs Hu Hv. unfold back_edge. cbv zeta.
  pose proof (push_edge_safe g t u v Hs Hu Hv) as H.
  destruct (_ <? _); [|exact H].
  apply (analysis_safe_ext g (push_edge u v t)); [now repeat split|exact H].
Qed.

Lemma discover_safe (g : state) (u : Z) (t : state) :
  analysis_safe g t -> analysis_safe g (discover u t).
Proof. apply analysis_safe_ext. now repeat split. Qed.

Section Safety.
Variable g : state.
Hypothesis g_range : neighbors_in_range g.

Lemma dfs_loop_safe (rec : Z -> state -> option state) :
  (forall v st st', rec v st = Some st' -> inr g v ->
     same_graph g st -> analysis_safe g st -> analysis_safe g st') ->
  (forall v st st', rec v st = Some st' -> analysis_frame st st') ->
  forall k u i children st children' st',
    dfs_loop rec k u i children st = Some (children', st') ->
    inr g u -> 0 <= i -> same_graph g st -> analysis_safe g st ->
    analysis_safe g st'.
Proof.
  intros Hrec Hfr. induction k as [|k IH]; intros u i children st children' st' H Hu Hi Hg Hs;
    cbn [dfs_loop] in H.
  - destruct (i <? degree st u); [discriminate|]. now injection H as _ <-.
  - destruct (Z.ltb_spec i (degree st u)) as [Hd|Hd]; [|now injection H as _ <-].
    cbv zeta in H.
    assert (Hv : inr g (neighbors st u i)).
    { destruct Hg as (Hn & Hnb & Hdg & _). rewrite Hnb. apply g_range; [exact Hu|].
      rewrite <- Hdg. lia. }
    destruct (visited st _ =? 0).
    + destruct (rec _ _) as [s1|] eqn:E; [|discriminate].
      assert (Hg0 : same_graph g (enter_child u (neighbors st u i) st)).
      { exact (same_graph_frame g _ _ (enter_child_frame u _ st) Hg). }
      assert (Hs0 : analysis_safe g (enter_child u (neighbors st u i) st)).
      { unfold enter_child. apply push_edge_safe; [|exact Hu|exact Hv].
        apply (analysis_safe_ext g st); [now repeat split|exact Hs]. }
      pose proof (Hfr _ _ _ E) as F1.
      apply (IH _ _ _ _ _ _ H Hu ltac:(lia)).
      * apply (same_graph_frame g s1); [apply after_child_frame|].
        exact (same_graph_frame g _ _ F1 Hg0).
      * apply after_child_safe. exact (Hrec _ _ _ E Hv Hg0 Hs0).
    + destruct (_ && _)%bool.
      * apply (IH _ _ _ _ _ _ H Hu ltac:(lia)).
        -- exact (same_graph_frame g _ _ (back_edge_frame u _ st) Hg).
        -- now apply back_edge_safe.
      * exact (IH _ _ _ _ _ _ H Hu ltac:(lia) Hg Hs).
Qed.

Lemma tarjan_dfs_bicomp_safe (fuel : nat) (u : Z) (st st' : state) :
  tarjan_dfs_bicomp fuel u st = Some st' -> inr g u ->
  same_graph g st -> analysis_safe g st -> analysis_safe g st'.
Proof.
  revert u st st'. induction fuel as [|fuel IH]; intros u st st' H Hu Hg Hs; [discriminate|].
  cbn [tarjan_dfs_bicomp] in H. cbv zeta in H.
  destruct (dfs_loop _ _ _ _ _ _) as [[children s1]|] eqn:E; [|discriminate].
  injection H as <-. apply root_block_safe.
  apply (dfs_loop_safe _ IH (tarjan_dfs_bicomp_frame fuel) _ _ _ _ _ _ _ E Hu (Z.le_refl 0)).
  - exact (same_graph_frame g _ _ (discover_frame u st) Hg).
  - now apply discover_safe.
Qed.

Lemma find_loop_safe (k : nat) (i : Z) (st st' : state) :
  find_loop k i st = Some st' -> 0 <= i ->
  same_graph g st -> analysis_safe g st -> analysis_safe g st'.
Proof.
  revert i st st'. induction k as [|k IH]; intros i st st' H Hi Hg Hs; cbn [find_loop] in H.
  - destruct (i <? n_nodes st); [discriminate|]. now injection H as <-.
  - destruct (Z.ltb_spec i (n_nodes st)) as [Hn|Hn]; [|now injection H as <-].
    destruct (visited st i =? 0); [|exact (IH _ _ _ H ltac:(lia) Hg Hs)].
    cbv zeta in H. destruct (tarjan_dfs_bicomp _ _ _) as [s1|] eqn:E; [|discriminate].
    assert (Hg1 : same_graph g (set_parent_tarjan (upd (parent_tarjan st) i (-1)) st))
      by exact Hg.
    apply (IH _ _ _ H ltac:(lia)).
    + exact (same_graph_frame g _ _ (tarjan_dfs_bicomp_frame _ _ _ _ E) Hg1).
    + apply (tarjan_dfs_bicomp_safe _ _ _ _ E); [|exact Hg1|].
      * destruct Hg as (Hgn & _). unfold inr. lia.
      * apply (analysis_safe_ext g st); [now repeat split|exact Hs].
Qed.

Lemma reset_analysis_safe : analysis_safe g (reset_analysis g).
Proof.
  destruct (reset_analysis_fields g) as (_ & _ & Ht & Hnb & Hbs).
  constructor; rewrite ?Ht, ?Hnb, ?Hbs; unfold MAX_NODES, MAX_BLOCKS; lia.
Qed.

Lemma find_biconnected_components_safe (st' : state) :
  find_biconnected_components g = Some st' -> analysis_safe g st'.
Proof.
  rewrite find_biconnected_components_eq. intros H.
  apply (find_loop_safe _ _ _ _ H (Z.le_refl 0)); [|apply reset_analysis_safe].
  destruct (reset_analysis_fields g) as (Hg & _). exact Hg.
Qed.
End Safety.

(** A block has at most as many members as the graph has nodes. *)
Lemma analysis_safe_block_size (g t : state) (b : Z) :
  analysis_safe g t -> 0 <= n_nodes g -> 0 <= b < num_blocks t ->
  block_size t b <= n_nodes g.
Proof.
  intros Hs Hn Hb. destruct (safe_members g t Hs b Hb) as [Hnd Hr].
  pose proof (safe_sizes g t Hs b) as H0.
  assert (Hl : (length (block_members t b) <= length (nodes (n_nodes g)))%nat).
  { apply NoDup_incl_length; [exact Hnd|]. intros x Hx. apply nodes_In. now apply Hr. }
  unfold block_members, nodes in Hl. rewrite !length_map, !length_seq in Hl. lia.
Qed.

(** ** The planner keeps the graph well formed *)

Lemma same_graph_sym (a b : state) : same_graph a b -> same_graph b a.
Proof. intros (H1 & H2 & H3 & H4). now repeat split. Qed.

Lemma wf_links_ext (s s' : state) : same_graph s s' -> wf_links s -> wf_links s'.
Proof.
  intros Hg Hw u. rewrite (neighbor_list_ext s s' u Hg).
  destruct Hg as (Hn & _). unfold inr. rewrite Hn. apply Hw.
Qed.

Lemma well_formed_ext (s s' : state) : same_graph s s' -> well_formed s -> well_formed s'.
Proof.
  intros Hg [Hok Hwf]. split; [now apply (adjacency_ok_ext s)|now apply (wf_links_ext s)].
Qed.

Lemma well_formed_simple_graph (st : state) :
  well_formed st -> 0 <= n_nodes st <= MAX_NODES -> simple_graph st.
Proof. intros [Hok Hwf] Hn. now apply wf_links_simple_graph. Qed.

Lemma link_well_formed (a b : Z) (s : state) :
  well_formed s -> inr s a -> inr s b -> a <> b -> exists_edge s a b = 0 ->
  degree s a < MAX_NEIGHBORS -> degree s b < MAX_NEIGHBORS ->
  well_formed (link a b s).
Proof.
  intros [Hok Hwf] Ha Hb Hab He Hda Hdb. split; [now apply link_adjacency_ok|].
  apply (wf_links_ext (add_edge a b s)).
  - apply same_graph_sym, add_edge_same_graph.
  - now apply add_edge_wf_links.
Qed.

Lemma spec_insert_same_graph (a b : Z) (s : state) :
  same_graph (link a b s) (spec_insert a b s).
Proof. now repeat split. Qed.

Section PlannerInvariant.
Variable P : state -> Prop.
Hypothesis P_ext : forall s s', same_graph s s' -> P s -> P s'.
Hypothesis P_link : forall s a b,
  P s -> inr s a -> inr s b -> a <> b -> exists_edge s a b = 0 ->
  degree s a < MAX_NEIGHBORS -> degree s b < MAX_NEIGHBORS -> P (link a b s).

Lemma spec_connect_invariant (st : state) (p : Z * Z) :
  inr st (spec_representative st (fst p)) ->
  inr st (spec_representative st (snd p)) ->
  P st -> P (spec_connect st p).
Proof.
  intros Ha Hb HP. unfold spec_connect. cbv zeta.
  destruct (spec_may_connect _ _ _) eqn:E; [|exact HP].
  unfold spec_may_connect in E. zify_test.
  apply (P_ext _ _ (spec_insert_same_graph _ _ st)). now apply P_link.
Qed.

Lemma spec_planner_invariant (pairs : list (Z * Z)) (st : state) :
  blocks_in_range st ->
  (forall p, In p pairs -> In (fst p) (spec_leaves st) /\ In (snd p) (spec_leaves st)) ->
  P st -> P (fold_left spec_connect pairs st).
Proof.
  revert st. induction pairs as [|p pairs IH]; intros st Hr Hp HP; [exact HP|].
  cbn [fold_left]. destruct (spec_connect_frame st p) as (Hn & Ha & _).
  apply IH.
  - now apply (blocks_in_range_ext st).
  - intros q Hq. rewrite !(spec_leaves_ext _ _ Ha). apply Hp. now right.
  - apply spec_connect_invariant; [| |exact HP];
      apply leaf_representative_in_range; auto; apply Hp; now left.
Qed.

(** What holds of the graph and is kept by the insertion of a link between
    two different, unlinked nodes with spare capacity is kept by the
    planner. *)
Lemma planner_invariant (st : state) :
  blocks_in_range st -> P st -> P (add_optimal_redundant_edges st).
Proof.
  intros Hr HP. rewrite planner_is_spec_planner by exact Hr. unfold spec_planner.
  destruct (identify_leaf_blocks_frame st) as (Hg & Ha & _).
  set (st0 := set_redundant_edges_added 0 (identify_leaf_blocks st)).
  assert (Hg0 : same_graph st st0) by exact Hg.
  assert (Ha0 : same_analysis st st0) by exact Ha.
  apply spec_planner_invariant.
  - apply (blocks_in_range_ext st); [apply Hg0|exact Ha0|exact Hr].
  - intros p Hp. now apply spec_pairs_In.
  - exact (P_ext st st0 Hg0 HP).
Qed.
End PlannerInvariant.

Lemma planner_well_formed (st : state) :
  blocks_in_range st -> well_formed st ->
  well_formed (add_optimal_redundant_edges st).
Proof.
  apply (planner_invariant well_formed).
  - exact well_formed_ext.
  - intros s a b. apply link_well_formed.
Qed.

Lemma planner_n_nodes (st : state) :
  n_nodes (add_optimal_redundant_edges st) = n_nodes st.
Proof.
  unfold add_optimal_redundant_edges. cbv zeta.
  destruct (identify_leaf_blocks_frame st) as ((Hn & _) & _).
  set (st0 := set_redundant_edges_added 0 (identify_leaf_blocks st)).
  assert (H0 : n_nodes st0 = n_nodes st) by exact Hn.
  rewrite <- H0.
  apply (plan_loop_invariant (fun s => n_nodes s = n_nodes st0)); [|reflexivity].
  intros i s Hs. destruct (plan_pair_frame i s) as (K & _). congruence.
Qed.

Lemma planner_grows (st : state) : grows st (add_optimal_redundant_edges st).
Proof.
  unfold add_optimal_redundant_edges. cbv zeta.
  destruct (identify_leaf_blocks_frame st) as ((Hn & Hnb & Hd & He) & _).
  set (st0 := set_redundant_edges_added 0 (identify_leaf_blocks st)).
  assert (Hd0 : degree st0 = degree st) by exact Hd.
  assert (Hn0 : neighbors st0 = neighbors st) by exact Hnb.
  assert (He0 : exists_edge st0 = exists_edge st) by exact He.
  apply (plan_loop_invariant (fun s => grows st s)).
  - intros i s Hs. eapply grows_trans; [exact Hs|apply plan_pair_grows].
  - split; [|split]; intros; rewrite ?Hd0, ?Hn0, ?He0; auto; lia.
Qed.

(** The planner only adds links, so it keeps every path. *)
Lemma planner_connected (st : state) :
  connected st -> connected (add_optimal_redundant_edges st).
Proof.
  intros Hc a b Ha Hb. unfold inr in Ha, Hb. rewrite planner_n_nodes in Ha, Hb.
  apply (conn_in_grows st); [apply planner_grows|apply planner_n_nodes|].
  now apply Hc.
Qed.

(** The analysis hands node identities to the planner. *)
Lemma analysis_safe_blocks_in_range (g t : state) :
  analysis_safe g t -> n_nodes t = n_nodes g -> blocks_in_range t.
Proof.
  intros Hs Hn b x Hb Hx. rewrite Hn.
  exact (proj2 (safe_members g t Hs b Hb) x Hx).
Qed.

Lemma find_biconnected_components_blocks_in_range (g st' : state) :
  neighbors_in_range g -> find_biconnected_components g = Some st' ->
  blocks_in_range st'.
Proof.
  intros Hr H. apply (analysis_safe_blocks_in_range g).
  - now apply find_biconnected_components_safe.
  - apply find_biconnected_components_frame in H. apply H.
Qed.

(** ** The statistics *)

Lemma count_cut_vertices_spec (st : state) (k i : nat) (count : Z) :
  count_cut_vertices st k (Z.of_nat i) count =
  count + Z.of_nat (length (filter (fun v => negb (is_cut st v =? 0))
                              (map Z.of_nat (seq i k)))).
Proof.
  revert i count. induction k as [|k IH]; intros i count; cbn [count_cut_vertices].
  - cbn. lia.
  - replace (Z.of_nat i + 1) with (Z.of_nat (S i)) by lia. rewrite IH.
    cbn [seq map filter]. destruct (is_cut st (Z.of_nat i) =? 0); cbn [negb length]; lia.
Qed.

Lemma count_cut_vertices_length (st : state) :
  count_cut_vertices st (Z.to_nat (n_nodes st)) 0 0
  = Z.of_nat (length (cut_vertices st)).
Proof.
  change 0 with (Z.of_nat 0) at 1. rewrite count_cut_vertices_spec. reflexivity.
Qed.

Lemma degree_loop_spec (st : state) (k i : nat) (s m : Z) :
  let r := degree_loop st k (Z.of_nat i) s m in
  fst r = s + zsum (degree st) (map Z.of_nat (seq i k)) /\
  m <= snd r /\
  (forall j, In j (map Z.of_nat (seq i k)) -> degree st j <= snd r) /\
  (snd r = m \/ exists j, In j (map Z.of_nat (seq i k)) /\ snd r = degree st j).
Proof.
  revert i s m. induction k as [|k IH]; intros i s m; cbn [degree_loop].
  - cbn. repeat split; lia.
  - replace (Z.of_nat i + 1) with (Z.of_nat (S i)) by lia.
    specialize (IH (S i) (s + degree st (Z.of_nat i))
                  (if m <? degree st (Z.of_nat i) then degree st (Z.of_nat i) else m)).
    cbv zeta in IH. destruct IH as (H1 & H2 & H3 & H4).
    cbn [seq map]. split; [|split; [|split]].
    + rewrite H1. unfold zsum. cbn [map fold_right]. lia.
    + destruct (Z.ltb_spec m (degree st (Z.of_nat i))); lia.
    + intros j [<-|Hj]; [|now apply H3].
      destruct (Z.ltb_spec m (degree st (Z.of_nat i))); lia.
    + destruct H4 as [H4|(j & Hj & H4)].
      * destruct (Z.ltb_spec m (degree st (Z.of_nat i))); [|now left].
        right. exists (Z.of_nat i). split; [now left|exact H4].
      * right. exists j. split; [now right|exact H4].
Qed.

Lemma compute_network_metrics_spec (st : state) :
  let m := compute_network_metrics st in
  initial_cut_vertices m = 0 /\
  final_cut_vertices m = Z.of_nat (length (cut_vertices st)) /\
  avg_degree_initial m = (2 * original_edges st, n_nodes st) /\
  avg_degree_final m = (total_degree st, n_nodes st) /\
  (forall u, inr st u -> degree st u <= max_degree_final m) /\
  (max_degree_final m = 0 \/ exists u, inr st u /\ degree st u = max_degree_final m).
Proof.
  unfold compute_network_metrics. cbv zeta.
  pose proof (degree_loop_spec st (Z.to_nat (n_nodes st)) 0 0 0) as H.
  cbv zeta in H. change (Z.of_nat 0) with 0 in H.
  destruct (degree_loop st (Z.to_nat (n_nodes st)) 0 0 0) as [s m].
  cbn [fst snd] in H. destruct H as (H1 & H2 & H3 & H4).
  cbn [initial_cut_vertices final_cut_vertices avg_degree_initial avg_degree_final
       max_degree_final].
  fold (nodes (n_nodes st)) in H1, H3, H4.
  split; [reflexivity|]. split; [apply count_cut_vertices_length|].
  split; [reflexivity|]. split; [|split].
  - rewrite H1. reflexivity.
  - intros u Hu. apply H3. now apply nodes_In.
  - destruct H4 as [H4|(j & Hj & H4)]; [now left|].
    right. exists j. split; [now apply nodes_In in Hj|now symmetry].
Qed.

(** ** The DOT export *)

(** A [char] cell tells the node identities below 256 apart. *)
Lemma char_of_int_eq (x v : Z) :
  0 <= x < 256 -> 0 < v < 256 -> char_of_int x = v -> x = v.
Proof. unfold char_of_int. intros Hx Hv. Z.div_mod_to_equations. lia. Qed.

Lemma filter_all {A : Type} (f : A -> bool) (l : list A) :
  (forall x, In x l -> f x = true) -> filter f l = l.
Proof.
  induction l as [|a l IH]; intros H; cbn [filter]; [reflexivity|].
  rewrite (H a (or_introl eq_refl)). f_equal. apply IH. intros x Hx. apply H. now right.
Qed.

Lemma export_nodes_from (st : state) (k i : nat) :
  (1 <= i)%nat ->
  export_nodes st k (Z.of_nat i) =
  map DotCut (filter (fun v => negb (is_cut st v =? 0)) (map Z.of_nat (seq i k))).
Proof.
  revert i. induction k as [|k IH]; intros i Hi; cbn [export_nodes]; [reflexivity|].
  replace (Z.of_nat i + 1) with (Z.of_nat (S i)) by lia. rewrite IH by lia.
  cbn [seq map filter]. destruct (Z.eqb_spec (Z.of_nat i) 0) as [E|E]; [lia|].
  destruct (is_cut st (Z.of_nat i) =? 0); reflexivity.
Qed.

Lemma export_nodes_spec (st : state) :
  1 <= n_nodes st ->
  export_nodes st (Z.to_nat (n_nodes st)) 0 = spec_node_lines st.
Proof.
  intros Hn. unfold spec_node_lines, cut_vertices.
  destruct (Z.to_nat (n_nodes st)) as [|k] eqn:E; [lia|].
  cbn [export_nodes seq map filter]. cbn [Z.eqb app Z.of_nat].
  change (0 + 1) with (Z.of_nat 1). rewrite export_nodes_from by lia.
  f_equal. f_equal.
  assert (H : forall l, (forall x, In x l -> x <> 0) ->
            filter (fun u => negb (u =? 0)) l = l).
  { intros l Hl. apply filter_all. intros x Hx. apply negb_true_iff, Z.eqb_neq. auto. }
  assert (Hpos : forall x, In x (filter (fun v => negb (is_cut st v =? 0))
                                   (map Z.of_nat (seq 1 k))) -> x <> 0).
  { intros x Hx. apply filter_In in Hx. destruct Hx as [Hx _].
    apply in_map_iff in Hx. destruct Hx as (j & <- & Hj). apply in_seq in Hj. lia. }
  destruct (is_cut st 0 =? 0); cbn [negb filter Z.eqb]; now rewrite H.
Qed.

Lemma already_shown_true (shown : Z -> Z -> Z) (u v : Z) (k : nat) (j : Z) :
  already_shown shown u v k j = true -> exists j', shown u j' = v.
Proof.
  revert j. induction k as [|k IH]; intros j; cbn [already_shown]; [discriminate|].
  destruct (Z.eqb_spec (shown u j) v) as [E|E]; [now exists j|apply IH].
Qed.

Lemma mark_shown_cases (shown : Z -> Z -> Z) (u v : Z) (k : nat) (j : Z) :
  mark_shown shown u v k j = shown \/
  exists j', mark_shown shown u v k j = upd2 shown u j' (char_of_int v).
Proof.
  revert j. induction k as [|k IH]; intros j; cbn [mark_shown]; [now left|].
  destruct (shown u j =? 0); [right; now exists j|apply IH].
Qed.

Lemma neighbors_nth (st : state) (u i : Z) :
  0 <= i < degree st u ->
  nth (Z.to_nat i) (neighbor_list st u) 0 = neighbors st u i.
Proof.
  intros Hi. unfold neighbor_list.
  rewrite (nth_indep _ 0 (neighbors st u (Z.of_nat 0)))
    by (rewrite length_map, length_seq; lia).
  rewrite (map_nth (fun i => neighbors st u (Z.of_nat i))), seq_nth by lia.
  f_equal. lia.
Qed.

Lemma neighbors_inj (st : state) (u i i' : Z) :
  NoDup (neighbor_list st u) -> 0 <= i < degree st u -> 0 <= i' < degree st u ->
  neighbors st u i = neighbors st u i' -> i = i'.
Proof.
  intros Hnd Hi Hi' E.
  rewrite <- (neighbors_nth st u i Hi), <- (neighbors_nth st u i' Hi') in E.
  apply (proj1 (NoDup_nth _ 0) Hnd) in E.
  - lia.
  - unfold neighbor_list. rewrite length_map, length_seq. lia.
  - unfold neighbor_list. rewrite length_map, length_seq. lia.
Qed.

Section DotExport.
Variable st : state.
Hypothesis st_simple : simple_graph st.
Hypothesis st_small : n_nodes st <= 256.
Variable show_redundant : Z.

Lemma export_row_spec (u : Z) (k i : nat) (shown : Z -> Z -> Z) :
  inr st u -> Z.of_nat i + Z.of_nat k <= degree st u ->
  row_marks st u (Z.of_nat i) shown ->
  let r := export_row st show_redundant u k (Z.of_nat i) shown in
  snd r = map (edge_line st show_redundant u)
            (filter (fun v => u <? v)
               (map (fun i => neighbors st u (Z.of_nat i)) (seq i k))) /\
  forall u', u' <> u -> fst r u' = shown u'.
Proof.
  intros Hu. revert i shown. induction k as [|k IH]; intros i shown Hk Hm;
    cbn [export_row]; [cbn; auto|].
  cbv zeta. cbn [seq map filter].
  replace (Z.of_nat i + 1) with (Z.of_nat (S i)) by lia.
  assert (Hw : forall s, row_marks st u (Z.of_nat i) s -> row_marks st u (Z.of_nat (S i)) s).
  { intros s Hs j. destruct (Hs j) as [H|(i' & Hi' & H)]; [now left|].
    right. exists i'. split; [lia|exact H]. }
  assert (Hv : inr st (neighbors st u (Z.of_nat i))).
  { apply (simple_graph_neighbors_in_range st st_simple); [exact Hu|lia]. }
  destruct (Z.ltb_spec u (neighbors st u (Z.of_nat i))) as [Huv|Huv];
    [|apply IH; [lia|now apply Hw]].
  destruct (already_shown _ _ _ _ _) eqn:A.
  - exfalso. apply already_shown_true in A. destruct A as (j' & A).
    unfold inr in Hu, Hv.
    destruct (Hm j') as [H0|(i' & Hi' & H)]; [lia|].
    rewrite H in A. apply char_of_int_eq in A; [|  |lia].
    + apply (neighbors_inj st u) in A; [lia| |lia|lia].
      apply (sg_nodup st st_simple u Hu).
    + assert (inr st (neighbors st u i')); [|unfold inr in *; lia].
      apply (simple_graph_neighbors_in_range st st_simple); [exact Hu|lia].
  - set (s1 := mark_shown shown u _ _ 0).
    assert (Hm1 : row_marks st u (Z.of_nat (S i)) s1 /\
                  forall u', u' <> u -> s1 u' = shown u').
    { destruct (mark_shown_cases shown u (neighbors st u (Z.of_nat i))
                  (Z.to_nat MAX_NEIGHBORS) 0) as [E|(j' & E)]; fold s1 in E; rewrite E.
      - split; [now apply Hw|reflexivity].
      - split.
        + intros j. unfold upd2, upd. rewrite Z.eqb_refl.
          destruct (Z.eqb_spec j j'); [|now apply Hw].
          right. exists (Z.of_nat i). split; [lia|reflexivity].
        + intros u' Hu'. now rewrite upd2_row_other. }
    destruct Hm1 as [Hm1 Hf1].
    specialize (IH (S i) s1 ltac:(lia) Hm1). cbv zeta in IH.
    destruct (export_row st show_redundant u k (Z.of_nat (S i)) s1) as [s2 rest].
    cbn [fst snd] in IH |- *. destruct IH as [IH1 IH2]. split.
    + cbn [map]. now rewrite IH1.
    + intros u' Hu'. rewrite IH2 by exact Hu'. now apply Hf1.
Qed.

Lemma export_edges_spec (k u : nat) (shown : Z -> Z -> Z) :
  Z.of_nat u + Z.of_nat k <= n_nodes st ->
  (forall u' j, Z.of_nat u <= u' -> shown u' j = 0) ->
  export_edges st show_redundant k (Z.of_nat u) shown =
  flat_map (fun u => map (edge_line st show_redundant u)
                       (filter (fun v => u <? v) (neighbor_list st u)))
           (map Z.of_nat (seq u k)).
Proof.
  revert u shown. induction k as [|k IH]; intros u shown Hk Hz;
    cbn [export_edges]; [reflexivity|].
  assert (Hu : inr st (Z.of_nat u)) by (unfold inr; lia).
  pose proof (sg_degree st st_simple _ Hu) as Hd.
  pose proof (export_row_spec (Z.of_nat u) (Z.to_nat (degree st (Z.of_nat u))) 0 shown
                Hu ltac:(lia)) as Hr.
  change (Z.of_nat 0) with 0 in Hr.
  specialize (Hr ltac:(intros j; left; apply Hz; lia)). cbv zeta in Hr.
  destruct (export_row _ _ _ _ 0 shown) as [s1 row]. cbn [fst snd] in Hr.
  destruct Hr as [Hr1 Hr2]. cbn [seq map flat_map].
  replace (Z.of_nat u + 1) with (Z.of_nat (S u)) by lia.
  rewrite IH; [|lia|].
  - f_equal. exact Hr1.
  - intros u' j Hu'. rewrite Hr2 by lia. apply Hz. lia.
Qed.

Lemma export_dot_graph_spec :
  1 <= n_nodes st ->
  export_dot_graph st true show_redundant =
  Some (DotHeader :: spec_node_lines st ++ spec_edge_lines st show_redundant
          ++ [DotFooter]).
Proof.
  intros Hn. unfold export_dot_graph.
  rewrite export_nodes_spec by exact Hn.
  change 0 with (Z.of_nat 0) at 1. rewrite export_edges_spec; [reflexivity|lia|auto].
Qed.
End DotExport.

(** ** The outputs of the classifier *)

Lemma leaf_list_In (st : state) (b : Z) :
  In b (leaf_list st) <-> exists i, 0 <= i < num_leaf_blocks st /\ b = leaf_blocks st i.
Proof.
  unfold leaf_list. rewrite in_map_iff. split.
  - intros (j & <- & Hj). apply in_seq in Hj. exists (Z.of_nat j). split; [lia|reflexivity].
  - intros (i & Hi & ->). exists (Z.to_nat i). split; [f_equal; lia|apply in_seq; lia].
Qed.

(** The leaf blocks are listed in increasing order, and flagged. *)
Lemma leaf_loop_sorted (k : nat) (b : Z) (st : state) :
  0 <= num_leaf_blocks st ->
  (forall i, 0 <= i < num_leaf_blocks st -> leaf_blocks st i < b) ->
  (forall i j, 0 <= i < j -> j < num_leaf_blocks st ->
     leaf_blocks st i < leaf_blocks st j) ->
  (forall b', is_leaf_block st b' <> 0 <->
     exists i, 0 <= i < num_leaf_blocks st /\ b' = leaf_blocks st i) ->
  let st' := leaf_loop k b st in
  (forall i j, 0 <= i < j -> j < num_leaf_blocks st' ->
     leaf_blocks st' i < leaf_blocks st' j) /\
  (forall b', is_leaf_block st' b' <> 0 <->
     exists i, 0 <= i < num_leaf_blocks st' /\ b' = leaf_blocks st' i).
Proof.
  revert b st. induction k as [|k IH]; intros b st Hn Hb Hs Hf; cbn [leaf_loop].
  - cbv zeta. auto.
  - cbv zeta. destruct (_ =? 1); [|apply IH; auto; intros i Hi; specialize (Hb i Hi); lia].
    apply IH; cbn.
    + lia.
    + intros i Hi. unfold upd. destruct (Z.eqb_spec i (num_leaf_blocks st)); [lia|].
      specialize (Hb i ltac:(lia)). lia.
    + intros i j Hij Hj. unfold upd.
      destruct (Z.eqb_spec i (num_leaf_blocks st)); [lia|].
      destruct (Z.eqb_spec j (num_leaf_blocks st)); [apply Hb; lia|apply Hs; lia].
    + intros b'. unfold upd. destruct (Z.eqb_spec b' b) as [->|Hne].
      * split; [|lia]. intros _. exists (num_leaf_blocks st).
        rewrite Z.eqb_refl. split; [lia|reflexivity].
      * rewrite Hf. split; intros (i & Hi & E).
        -- exists i. destruct (Z.eqb_spec i (num_leaf_blocks st)); [lia|]. split; [lia|exact E].
        -- destruct (Z.eqb_spec i (num_leaf_blocks st)); [congruence|].
           exists i. split; [lia|exact E].
Qed.

Lemma identify_leaf_blocks_sorted (st : state) :
  let st' := identify_leaf_blocks st in
  (forall i j, 0 <= i < j -> j < num_leaf_blocks st' ->
     leaf_blocks st' i < leaf_blocks st' j) /\
  (forall b, is_leaf_block st' b <> 0 <-> In b (leaf_list st')).
Proof.
  cbv zeta.
  assert (H : forall st', st' = identify_leaf_blocks st ->
    (forall i j, 0 <= i < j -> j < num_leaf_blocks st' ->
       leaf_blocks st' i < leaf_blocks st' j) /\
    (forall b', is_leaf_block st' b' <> 0 <->
       exists i, 0 <= i < num_leaf_blocks st' /\ b' = leaf_blocks st' i)).
  { intros st' ->. unfold identify_leaf_blocks. cbv zeta.
    apply leaf_loop_sorted; cbn; try lia.
    intros b'. split; [intros H; now elim H|intros (i & Hi & _); lia]. }
  destruct (H _ eq_refl) as [H1 H2]. split; [exact H1|].
  intros b. rewrite H2. symmetry. apply leaf_list_In.
Qed.

Lemma filter_length_nodes (f : Z -> bool) (n : Z) :
  Z.of_nat (length (filter f (nodes n))) <= Z.max 0 n.
Proof.
  pose proof (List.filter_length_le f (nodes n)) as H.
  unfold nodes in H at 2. rewrite length_map, length_seq in H. lia.
Qed.

Lemma identify_leaf_blocks_count (st : state) :
  0 <= num_leaf_blocks (identify_leaf_blocks st) <= Z.max 0 (num_blocks st).
Proof.
  destruct (identify_leaf_blocks_spec st) as [Hl Hpos]. split; [exact Hpos|].
  pose proof (leaf_list_length (identify_leaf_blocks st)) as H.
  rewrite Hl in H. unfold spec_leaves in H. fold (nodes (num_blocks st)) in H.
  pose proof (filter_length_nodes (spec_is_leaf st) (num_blocks st)). lia.
Qed.

(** ** The representative of a block *)

Lemma find_non_cut_in_block_cases (st : state) (b : Z) :
  (block_size st b <= 0 -> find_non_cut_in_block st b = -1) /\
  (0 < block_size st b -> In (find_non_cut_in_block st b) (block_members st b)) /\
  (is_cut st (find_non_cut_in_block st b) <> 0 ->
     forall x, In x (block_members st b) -> is_cut st x <> 0).
Proof.
  rewrite find_non_cut_is_representative. unfold spec_representative.
  destruct (find _ (block_members st b)) as [x|] eqn:F.
  - apply find_some in F. destruct F as [Hx Hc]. apply Z.eqb_eq in Hc.
    split; [|split; [auto|intros H; contradiction]].
    intros Hs. exfalso. unfold block_members in Hx.
    replace (Z.to_nat (block_size st b)) with 0%nat in Hx by lia. destruct Hx.
  - split; [|split].
    + intros Hs. unfold block_members.
      replace (Z.to_nat (block_size st b)) with 0%nat by lia. reflexivity.
    + intros Hs. unfold block_members.
      destruct (Z.to_nat (block_size st b)) as [|k] eqn:E; [lia|]. cbn. now left.
    + intros _ x Hx. pose proof (find_none _ _ F x Hx) as H. cbv beta in H.
      now apply Z.eqb_neq.
Qed.

(** ** The pipeline *)

Lemma conn_in_ext (g g' : state) (S S' : Z -> Prop) (a b : Z) :
  same_graph g g' -> (forall w, S w -> S' w) ->
  conn_in g S a b -> conn_in g' S' a b.
Proof.
  intros Hg HS C. induction C as [a Ha|a b c Ha Hab _ IH].
  - apply conn_refl. auto.
  - apply (conn_step g' S' a b c); [auto| |exact IH].
    destruct Hab as [Hr Hin]. split.
    + destruct Hg as (Hn & _). unfold inr in *. now rewrite Hn.
    + now rewrite (neighbor_list_ext g g' a Hg).
Qed.

Lemma connected_ext (g g' : state) : same_graph g g' -> connected g -> connected g'.
Proof.
  intros Hg Hc a b Ha Hb. pose proof Hg as (Hn & _). unfold inr in Ha, Hb.
  rewrite Hn in Ha, Hb.
  apply (conn_in_ext g g' (inr g)); [exact Hg| |now apply Hc].
  intros w Hw. unfold inr in *. now rewrite Hn.
Qed.

Lemma articulation_ext (g g' : state) (v : Z) :
  same_graph g g' -> articulation g v <-> articulation g' v.
Proof.
  intros Hg. pose proof Hg as (Hn & _).
  assert (Ha : forall w, avoid g v w <-> avoid g' v w)
    by (intros w; unfold avoid, inr; now rewrite Hn).
  split; intros (a & b & H1 & H2 & H3); exists a, b;
    (split; [now apply Ha|split; [now apply Ha|]]); intros C; apply H3.
  - apply (conn_in_ext g' g (avoid g' v)); [now apply same_graph_sym|apply Ha|exact C].
  - apply (conn_in_ext g g' (avoid g v)); [exact Hg|apply Ha|exact C].
Qed.

Lemma simple_graph_ext (g g' : state) : same_graph g g' -> simple_graph g -> simple_graph g'.
Proof.
  intros Hg [H1 H2 H3 H4 H5 H6].
  pose proof (fun u => neighbor_list_ext g g' u Hg) as Hnl.
  destruct Hg as (Hn & _ & Hd & _).
  constructor; intros; rewrite ?Hnl, ?Hn, ?Hd in *; auto.
  now apply (H3 u).
Qed.

(** The planner counts its insertions and leaves the other counter alone. *)
Lemma planner_total_degree (st : state) :
  blocks_in_range st ->
  total_degree (add_optimal_redundant_edges st)
  = total_degree st + 2 * redundant_edges_added (add_optimal_redundant_edges st).
Proof.
  intros Hr. rewrite planner_is_spec_planner by exact Hr. unfold spec_planner.
  destruct (identify_leaf_blocks_frame st) as ((Hn & Hnb & Hd & He) & Ha & _).
  set (st0 := set_redundant_edges_added 0 (identify_leaf_blocks st)).
  assert (Hr0 : blocks_in_range st0) by (apply (blocks_in_range_ext st); auto).
  pose proof (spec_planner_count (spec_pairs (spec_leaves st0)) st0 Hr0) as Hc.
  change (redundant_edges_added st0) with 0 in Hc.
  assert (Ht : total_degree st0 = total_degree st).
  { unfold total_degree.
    change (n_nodes st0) with (n_nodes (identify_leaf_blocks st)).
    change (degree st0) with (degree (identify_leaf_blocks st)).
    now rewrite Hn, Hd. }
  rewrite Ht in Hc.
  specialize (Hc ltac:(intros p Hp; now apply spec_pairs_In)). lia.
Qed.

Lemma planner_original_edges (st : state) :
  original_edges (add_optimal_redundant_edges st) = original_edges st.
Proof.
  unfold add_optimal_redundant_edges. cbv zeta.
  destruct (identify_leaf_blocks_frame st) as (_ & _ & _ & Ho & _).
  set (st0 := set_redundant_edges_added 0 (identify_leaf_blocks st)).
  assert (H0 : original_edges st0 = original_edges st) by exact Ho.
  rewrite <- H0.
  apply (plan_loop_invariant (fun s => original_edges s = original_edges st0));
    [|reflexivity].
  intros i s Hs.
  destruct (plan_pair_cases i s) as [->|(a & b & _ & _ & _ & _ & ->)]; exact Hs.
Qed.

(** With no link tagged redundant the export does not depend on
    [show_redundant]. *)
Lemma export_row_untagged (st : state) (show : Z) (u : Z) (k : nat) (i : Z)
    (shown : Z -> Z -> Z) :
  redundant_edge st = (fun _ _ => 0) ->
  export_row st show u k i shown = export_row st 0 u k i shown.
Proof.
  intros Hr. revert i shown. induction k as [|k IH]; intros i shown;
    cbn [export_row]; [reflexivity|].
  cbv zeta. rewrite Hr. cbn [Z.eqb negb andb]. rewrite andb_false_r.
  destruct (_ <? _); [|apply IH]. destruct (already_shown _ _ _ _ _); [apply IH|].
  now rewrite IH.
Qed.

Lemma export_edges_untagged (st : state) (show : Z) (k : nat) (u : Z)
    (shown : Z -> Z -> Z) :
  redundant_edge st = (fun _ _ => 0) ->
  export_edges st show k u shown = export_edges st 0 k u shown.
Proof.
  intros Hr. revert u shown. induction k as [|k IH]; intros u shown;
    cbn [export_edges]; [reflexivity|].
  rewrite (export_row_untagged st show) by exact Hr.
  destruct (export_row _ _ _ _ _ _) as [s1 row]. now rewrite IH.
Qed.

Lemma export_dot_graph_untagged (st : state) (opened : bool) (show : Z) :
  redundant_edge st = (fun _ _ => 0) ->
  export_dot_graph st opened show = export_dot_graph st opened 0.
Proof.
  intros Hr. unfold export_dot_graph. destruct opened; [|reflexivity].
  now rewrite (export_edges_untagged st show).
Qed.

Lemma analysis_safe_graph (g g' t : state) :
  n_nodes g' = n_nodes g -> analysis_safe g t -> analysis_safe g' t.
Proof.
  intros Hn [H1 H2 H3 H4 H5 H6].
  assert (Hi : forall x, inr g x -> inr g' x) by (unfold inr; intros; lia).
  constructor; auto.
  - intros j Hj. destruct (H2 j Hj). auto.
  - intros b Hb. destruct (H6 b Hb) as [Hnd Hr]. split; [exact Hnd|]. intros x Hx. auto.
Qed.

Section PipelineProperties.
Variable rand_seq : nat -> Z.
Variable target_edges : Z -> Z.
Variable accept : Z -> Z -> bool.
Variable opened_old opened_final : bool.
Hypothesis rand_nonneg : forall k, 0 <= rand_seq k.

(** The generator does not tag. *)
Lemma generate_untagged (c : nat) (st : state) :
  1 <= n_nodes st ->
  let g := snd (generate_random_topology rand_seq target_edges accept c
                  (init_arrays st)) in
  redundant_edge g = (fun _ _ => 0) /\ redundant_edges_added g = 0.
Proof.
  intros Hn.
  apply (generate_rule rand_seq target_edges accept rand_nonneg (n_nodes st) Hn
           (fun _ s => redundant_edge s = (fun _ _ => 0) /\ redundant_edges_added s = 0)
           (fun s => redundant_edge s = (fun _ _ => 0) /\ redundant_edges_added s = 0)).
  - intros i s c0 H _ _ _. now destruct (_ && _)%bool.
  - auto.
  - intros s c0 H _ _ u v _ _ _ _ _ _. exact H.
  - reflexivity.
  - split; reflexivity.
Qed.

Lemma run_meshification_eq (c : nat) (st : state) :
  run_meshification rand_seq target_edges accept opened_old opened_final c st =
  match find_biconnected_components
          (snd (generate_random_topology rand_seq target_edges accept c
                  (init_arrays st))) with
  | None => None
  | Some a =>
    match (if 0 <? count_cut_vertices a (Z.to_nat (n_nodes a)) 0 0
           then find_biconnected_components (add_optimal_redundant_edges a)
           else Some a) with
    | None => None
    | Some f =>
      Some (mkOutcome f (compute_network_metrics f)
              (count_cut_vertices a (Z.to_nat (n_nodes a)) 0 0, num_blocks a)
              (export_dot_graph a opened_old 0)
              (export_dot_graph f opened_final 1))
    end
  end.
Proof.
  unfold run_meshification. cbv zeta.
  destruct (generate_random_topology _ _ _ _ _) as [c1 g]. reflexivity.
Qed.

(** The stages of a run: the generated graph [g], its analysis [a], the
    final state [f]. *)
Lemma run_meshification_stages (c : nat) (st : state) :
  1 <= n_nodes st <= MAX_NODES ->
  let g := snd (generate_random_topology rand_seq target_edges accept c
                  (init_arrays st)) in
  exists a f,
    find_biconnected_components g = Some a /\
    (if 0 <? Z.of_nat (length (cut_vertices a))
     then find_biconnected_components (add_optimal_redundant_edges a) = Some f
     else f = a) /\
    run_meshification rand_seq target_edges accept opened_old opened_final c st =
      Some (mkOutcome f (compute_network_metrics f)
              (Z.of_nat (length (cut_vertices a)), num_blocks a)
              (export_dot_graph a opened_old 0)
              (export_dot_graph f opened_final 1)) /\
    n_nodes g = n_nodes st /\ generated_ok g /\
    redundant_edge g = (fun _ _ => 0) /\ redundant_edges_added g = 0 /\
    well_formed f /\ n_nodes f = n_nodes st /\ analysis_safe f f.
Proof.
  intros Hn g.
  assert (Hgn : n_nodes g = n_nodes st).
  { unfold g. rewrite generate_n_nodes by (exact rand_nonneg || (cbn; lia)). reflexivity. }
  pose proof (generate_generated_ok rand_seq target_edges accept rand_nonneg c st
                (proj1 Hn)) as Hgok. fold g in Hgok.
  destruct (generate_untagged c st (proj1 Hn)) as [Hred Hadd]. fold g in Hred, Hadd.
  assert (Hwf : well_formed g) by (split; apply Hgok).
  assert (Hsg : simple_graph g) by (apply well_formed_simple_graph; [exact Hwf|lia]).
  destruct (find_biconnected_components_terminates g
              (simple_graph_neighbors_in_range g Hsg)) as [a Ea].
  pose proof (find_biconnected_components_frame g a Ea) as (Fa & _).
  assert (Hwa : well_formed a) by exact (well_formed_ext g a Fa Hwf).
  assert (Han : n_nodes a = n_nodes st) by (destruct Fa as (H & _); congruence).
  rewrite run_meshification_eq. fold g. rewrite Ea, count_cut_vertices_length.
  destruct (0 <? Z.of_nat (length (cut_vertices a))) eqn:B.
  - set (p := add_optimal_redundant_edges a).
    assert (Hra : blocks_in_range a).
    { apply (find_biconnected_components_blocks_in_range g);
        [now apply simple_graph_neighbors_in_range|exact Ea]. }
    assert (Hwp : well_formed p) by now apply planner_well_formed.
    assert (Hpn : n_nodes p = n_nodes st) by (unfold p; now rewrite planner_n_nodes).
    assert (Hsp : simple_graph p) by (apply well_formed_simple_graph; [exact Hwp|lia]).
    destruct (find_biconnected_components_terminates p
                (simple_graph_neighbors_in_range p Hsp)) as [f Ef].
    pose proof (find_biconnected_components_frame p f Ef) as (Ff & _).
    exists a, f. rewrite B, Ef.
    split; [reflexivity|]. split; [exact Ef|]. split; [reflexivity|].
    split; [exact Hgn|]. split; [exact Hgok|]. split; [exact Hred|].
    split; [exact Hadd|]. split; [exact (well_formed_ext p f Ff Hwp)|].
    split; [destruct Ff as (H & _); congruence|].
    apply (analysis_safe_graph p); [apply Ff|].
    exact (find_biconnected_components_safe p
             (simple_graph_neighbors_in_range p Hsp) f Ef).
  - exists a, a. rewrite B.
    split; [reflexivity|]. split; [reflexivity|]. split; [reflexivity|].
    split; [exact Hgn|]. split; [exact Hgok|]. split; [exact Hred|].
    split; [exact Hadd|]. split; [exact Hwa|]. split; [exact Han|].
    apply (analysis_safe_graph g); [apply Fa|].
    exact (find_biconnected_components_safe g
             (simple_graph_neighbors_in_range g Hsg) a Ea).
Qed.
End PipelineProperties.

Lemma total_degree_ext (s s' : state) :
  same_graph s s' -> total_degree s' = total_degree s.
Proof. intros (Hn & _ & Hd & _). unfold total_degree. now rewrite Hn, Hd. Qed.

(** The analysis of a connected simple graph, read on its result. *)
Lemma analysis_exact (h r : state) :
  simple_graph h -> connected h -> find_biconnected_components h = Some r ->
  simple_graph r /\ connected r /\
  forall v, inr r v -> (is_cut r v <> 0 <-> articulationb r v = true).
Proof.
  intros Hs Hc E.
  destruct (find_biconnected_components_cut h Hs Hc) as (r' & E' & H).
  rewrite E in E'. apply Some_inj in E'. subst r'.
  pose proof (find_biconnected_components_frame h r E) as (F & _).
  assert (Hsr : simple_graph r) by exact (simple_graph_ext h r F Hs).
  split; [exact Hsr|]. split; [exact (connected_ext h r F Hc)|].
  intros v Hv. rewrite (articulationb_spec r Hsr v), <- (articulation_ext h r v F).
  apply H. destruct F as (Hn & _). unfold inr in *. lia.
Qed.

Lemma cut_vertices_oracle (r : state) :
  (forall v, inr r v -> (is_cut r v <> 0 <-> articulationb r v = true)) ->
  cut_vertices r = filter (articulationb r) (nodes (n_nodes r)).
Proof.
  intros H. unfold cut_vertices. fold (nodes (n_nodes r)).
  apply filter_ext_in. intros v Hv. apply nodes_In in Hv. specialize (H v Hv).
  destruct (Z.eqb_spec (is_cut r v) 0) as [E|E]; destruct (articulationb r v);
    cbn [negb]; try reflexivity.
  - exfalso. apply (proj2 H eq_refl). exact E.
  - exfalso. pose proof (proj1 H E). discriminate.
Qed.

Lemma configure_range (argc user_nodes : Z) :
  10 <= configure argc user_nodes 50 <= MAX_NODES /\
  (configure argc user_nodes 50 = user_nodes \/ configure argc user_nodes 50 = 50).
Proof.
  unfold configure, MAX_NODES. destruct (1 <? argc); [|lia].
  destruct (_ && _)%bool eqn:E; [|lia]. zify_test. lia.
Qed.

(** Links added to a graph join more nodes, whatever nodes are left out. *)
Lemma conn_in_grows_avoid (st st' : state) (v a b : Z) :
  grows st st' -> n_nodes st' = n_nodes st ->
  conn_in st (avoid st v) a b -> conn_in st' (avoid st' v) a b.
Proof.
  intros Hg Hn C.
  assert (Hin : forall w, avoid st v w -> avoid st' v w)
    by (unfold avoid, inr; intros w Hw; now rewrite Hn).
  induction C as [a Ha|a b c Ha Hab _ IH].
  - apply conn_refl. auto.
  - apply (conn_step st' _ a b c); [auto| |exact IH].
    destruct Hab as [Ha' Hb]. split; [unfold inr in *; now rewrite Hn|].
    destruct (grows_prefix st st' a Hg) as (r & ->). apply in_or_app. now left.
Qed.

Lemma articulation_grows (st st' : state) (v : Z) :
  grows st st' -> n_nodes st' = n_nodes st ->
  articulation st' v -> articulation st v.
Proof.
  intros Hg Hn (a & b & Ha & Hb & Hc).
  assert (Hin : forall w, avoid st' v w -> avoid st v w)
    by (unfold avoid, inr; intros w Hw; now rewrite <- Hn).
  exists a, b. split; [auto|]. split; [auto|].
  intros C. apply Hc. now apply (conn_in_grows_avoid st st').
Qed.

Lemma analysis_exact_articulation (h r : state) :
  simple_graph h -> connected h -> find_biconnected_components h = Some r ->
  forall v, inr r v -> (is_cut r v <> 0 <-> articulation r v).
Proof.
  intros Hs Hc E v Hv.
  destruct (analysis_exact h r Hs Hc E) as (Hsr & _ & H).
  rewrite <- (articulationb_spec r Hsr v). now apply H.
Qed.

Lemma planner_articulation (st : state) (v : Z) :
  articulation (add_optimal_redundant_edges st) v -> articulation st v.
Proof.
  apply articulation_grows; [apply planner_grows|apply planner_n_nodes].
Qed.

(** ** The number of blocks *)

Lemma add_to_block_num_blocks (x : Z) (ib : Z -> Z) (t : state) :
  num_blocks (snd (add_to_block x ib t)) = num_blocks t.
Proof. apply add_to_block_fields. Qed.

Lemma pop_until_num_blocks (k : nat) (u v : Z) (ib : Z -> Z) (t : state) :
  num_blocks (pop_until k u v ib t) = num_blocks t.
Proof.
  revert ib t. induction k as [|k IH]; intros ib t; cbn [pop_until]; [reflexivity|].
  destruct (stack_top t <=? 0); [reflexivity|].
  set (t1 := set_stack_top (stack_top t - 1) t).
  pose proof (add_to_block_num_blocks (e_u (edge_stack t1 (stack_top t1))) ib t1) as H1.
  destruct (add_to_block _ ib t1) as [ib1 s1]. cbn [snd] in H1.
  pose proof (add_to_block_num_blocks (e_v (edge_stack t1 (stack_top t1))) ib1 s1) as H2.
  destruct (add_to_block _ ib1 s1) as [ib2 s2]. cbn [snd] in H2.
  assert (H : num_blocks s2 = num_blocks t) by (rewrite H2, H1; reflexivity).
  destruct (_ && _)%bool; [now rewrite IH|exact H].
Qed.

Lemma pop_all_num_blocks (k : nat) (ib : Z -> Z) (t : state) :
  num_blocks (pop_all k ib t) = num_blocks t.
Proof.
  revert ib t. induction k as [|k IH]; intros ib t; cbn [pop_all]; [reflexivity|].
  destruct (0 <? stack_top t); [|reflexivity].
  set (t1 := set_stack_top (stack_top t - 1) t).
  pose proof (add_to_block_num_blocks (e_u (edge_stack t1 (stack_top t1))) ib t1) as H1.
  destruct (add_to_block _ ib t1) as [ib1 s1]. cbn [snd] in H1.
  pose proof (add_to_block_num_blocks (e_v (edge_stack t1 (stack_top t1))) ib1 s1) as H2.
  destruct (add_to_block _ ib1 s1) as [ib2 s2]. cbn [snd] in H2.
  rewrite IH, H2, H1. reflexivity.
Qed.

(** A child closes a block at a root only from the second child on. *)
Lemma after_child_num_blocks (u v children : Z) (t : state) :
  num_blocks (after_child u v children t) = num_blocks t \/
  (num_blocks (after_child u v children t) = num_blocks t + 1 /\
   (parent_tarjan t u = -1 -> 1 < children)).
Proof.
  unfold after_child. cbv zeta.
  set (s1 := if low t v <? low t u then _ else t).
  assert (H1 : num_blocks s1 = num_blocks t /\ parent_tarjan s1 = parent_tarjan t)
    by (unfold s1; destruct (_ <? _); split; reflexivity).
  destruct H1 as [H1 H1p].
  destruct (_ || _)%bool eqn:C; [|now left].
  set (s2 := set_is_cut _ s1).
  assert (H2 : num_blocks s2 = num_blocks t) by exact H1.
  destruct (num_blocks s2 <? MAX_BLOCKS); [|now left].
  right. split.
  - match goal with |- num_blocks (set_num_blocks ?x ?s) = _ =>
      change (num_blocks (set_num_blocks x s)) with x end.
    rewrite pop_until_num_blocks. lia.
  - intros Hp. rewrite H1p, Hp in C. cbn in C. rewrite orb_false_r in C.
    now apply Z.ltb_lt in C.
Qed.

(** Only a root with at most one child closes a block when it is left. *)
Lemma root_block_num_blocks (u children : Z) (t : state) :
  num_blocks (root_block u children t) = num_blocks t \/
  (num_blocks (root_block u children t) = num_blocks t + 1 /\
   parent_tarjan t u = -1 /\ children <= 1).
Proof.
  unfold root_block. cbv zeta. destruct (_ && _ && _ && _)%bool eqn:C; [|now left].
  right. zify_test. split; [|split; assumption].
  match goal with |- num_blocks (set_num_blocks ?x ?s) = _ =>
    change (num_blocks (set_num_blocks x s)) with x end.
  rewrite pop_all_num_blocks. reflexivity.
Qed.

Lemma enter_child_num_blocks (u v : Z) (t : state) :
  num_blocks (enter_child u v t) = num_blocks t.
Proof.
  unfold enter_child.
  destruct (push_edge_fields u v (set_parent_tarjan (upd (parent_tarjan t) v u) t))
    as (_ & _ & H & _). exact H.
Qed.

Lemma back_edge_num_blocks (u v : Z) (t : state) :
  num_blocks (back_edge u v t) = num_blocks t.
Proof.
  unfold back_edge. cbv zeta. destruct (push_edge_fields u v t) as (_ & _ & H & _).
  destruct (_ <? _); exact H.
Qed.

Lemma filter_length_flip {A : Type} (f h : A -> bool) (l : list A) (a : A) :
  NoDup l -> In a l -> f a = true -> h a = false ->
  (forall x, x <> a -> h x = f x) ->
  S (length (filter h l)) = length (filter f l).
Proof.
  intros Hnd Ha Hf Hh Hne. induction l as [|b l IH]; [destruct Ha|].
  inversion Hnd as [|? ? Hb Hl]; subst. cbn [filter]. destruct Ha as [->|Ha].
  - rewrite Hf, Hh. cbn [length]. f_equal. f_equal.
    apply filter_ext_in. intros x Hx. apply Hne. intros ->. contradiction.
  - rewrite (Hne b) by (intros ->; contradiction).
    destruct (f b); cbn [length]; rewrite <- (IH Hl Ha); reflexivity.
Qed.

Lemma unvisited_count_discover_eq (u : Z) (s : state) :
  0 <= u < n_nodes s -> visited s u = 0 ->
  S (unvisited_count (discover u s)) = unvisited_count s.
Proof.
  intros Hu Hv. unfold unvisited_count.
  destruct (discover_core u s) as (V & _). destruct (discover_frame u s) as ((Hn & _) & _).
  rewrite Hn, V. apply (filter_length_flip _ _ _ u).
  - apply nodes_NoDup.
  - now apply nodes_In.
  - now apply Z.eqb_eq.
  - now rewrite upd_same.
  - intros x Hx. now rewrite upd_other.
Qed.

Lemma unvisited_count_zero (s : state) :
  (forall w, 0 <= w < n_nodes s -> vis s w) -> unvisited_count s = 0%nat.
Proof.
  intros H. unfold unvisited_count.
  rewrite (filter_ext_in _ (fun _ => false)); [induction (nodes (n_nodes s)); auto|].
  intros w Hw. apply nodes_In in Hw. apply Z.eqb_neq. now apply H.
Qed.

Section Counting.
Variable g : state.
Hypothesis g_range : neighbors_in_range g.

Lemma tarjan_counts (fuel : nat) (u : Z) (s : state) :
  term_pre g u s -> (unvisited_count s <= fuel)%nat ->
  exists s', tarjan_dfs_bicomp fuel u s = Some s' /\ count_post g u s s'.
Proof.
  apply (dfs_rule (term_pre g) (count_post g) (count_inv g)).
  - intros v s0 ((Hn & _) & Hv & H0). rewrite Hn. auto.
  - intros s0 v i ch t ((Hn & _) & _) (((Hn' & _) & H) & _).
    apply unvisited_count_mono; [|exact H].
    destruct (discover_frame v s0) as ((Hd & _) & _). congruence.
  - (* entry *)
    intros v s0 (Hg & Hv & H0).
    destruct (discover_core v s0) as (_ & _ & _ & Hp & Ht & _).
    split; [split; [exact (same_graph_frame _ _ _ (discover_frame v s0) Hg)|auto]|].
    split; [|split; [|split]].
    + destruct Hg as (Hn & _).
      pose proof (unvisited_count_discover_eq v s0 ltac:(lia) H0). lia.
    + intros w _. now rewrite Hp.
    + lia.
    + rewrite Ht. change (num_blocks (discover v s0)) with (num_blocks s0).
      destruct (_ =? -1); cbn; lia.
  - (* the call on a child starts *)
    intros s0 v i ch t (Hg0 & Hv & H0) ((Hg & H) & _) Hi Hvis.
    split; [exact (same_graph_frame _ _ _ (enter_child_frame _ _ t) Hg)|].
    destruct Hg as (Hn & Hnb & Hd & _). split.
    + rewrite Hnb. apply g_range; [assumption|]. now rewrite <- Hd.
    + destruct (enter_child_core v (neighbors t v i) t) as (V & _). now rewrite V.
  - (* the call on a child has returned *)
    intros s0 v i ch t t2 (Hg0 & Hv & H0) ((Hg & H) & Hq & Hp & Hch & Hb) Hi Hvis
      ((Hg2 & Hm & Hc) & Hq2 & Hp2 & Hb2).
    set (x := neighbors t v i) in *.
    destruct (enter_child_core v x t) as (V1 & _ & _ & P1 & T1 & _).
    destruct (after_child_core v x (ch + 1) t2) as (V3 & _ & P3 & T3 & _).
    assert (Hvv : vis t v) by (apply H, vis_discover; now right).
    assert (Hxv : x <> v) by (intros E; apply Hvv; now rewrite <- E).
    assert (Hpv : parent_tarjan t2 v = parent_tarjan s0 v).
    { rewrite Hp2 by (left; now apply (vis_ext _ _ _ V1)).
      rewrite P1, upd_other by auto. apply Hp. now right. }
    split; [|split; [|split; [|split]]].
    + split; [exact (same_graph_frame _ _ _ (after_child_frame _ _ _ t2) Hg2)|].
      intros w Hw. apply (vis_ext _ _ _ V3). apply Hm.
      apply (vis_ext _ _ _ V1). now apply H.
    + rewrite T3, (unvisited_count_ext t2 _ ltac:(apply (after_child_frame v x (ch + 1) t2)) V3).
      rewrite T1, (unvisited_count_ext t _ ltac:(apply (enter_child_frame v x t)) V1) in Hq2.
      lia.
    + intros w Hw. rewrite P3.
      assert (Hwt : vis t w).
      { apply H, vis_discover. destruct Hw; auto. }
      rewrite Hp2 by (left; now apply (vis_ext _ _ _ V1)).
      rewrite P1, upd_other; [now apply Hp|].
      intros E. apply Hwt. now rewrite E.
    + lia.
    + rewrite T3. rewrite P1, upd_same, T1, enter_child_num_blocks in Hb2.
      destruct (Z.eqb_spec v (-1)) as [E|_]; [lia|].
      destruct (after_child_num_blocks v x (ch + 1) t2) as [A|(A & A')]; rewrite A.
      * destruct (parent_tarjan s0 v =? -1); [destruct (Z.eqb_spec ch 0),
          (Z.eqb_spec (ch + 1) 0)|]; lia.
      * rewrite Hpv in A'.
        destruct (Z.eqb_spec (parent_tarjan s0 v) (-1)) as [E|E]; [|lia].
        specialize (A' E).
        destruct (Z.eqb_spec ch 0), (Z.eqb_spec (ch + 1) 0); lia.
  - (* a back edge *)
    intros s0 v i ch t _ ((Hg & H) & Hq & Hp & Hch & Hb) _ _ _ _.
    destruct (back_edge_core v (neighbors t v i) t) as (V & _ & P & T & _).
    split; [split|split; [|split; [|split]]].
    + exact (same_graph_frame _ _ _ (back_edge_frame _ _ t) Hg).
    + intros w Hw. apply (vis_ext _ _ _ V). now apply H.
    + rewrite T, (unvisited_count_ext t _ ltac:(apply (back_edge_frame v (neighbors t v i) t)) V). exact Hq.
    + intros w Hw. rewrite P. now apply Hp.
    + exact Hch.
    + rewrite T, back_edge_num_blocks. exact Hb.
  - intros s0 v i ch t _ HL _ _ _. exact HL.
  - (* exit *)
    intros s0 v i ch t _ ((Hg & H) & Hq & Hp & Hch & Hb) _.
    destruct (root_block_core v ch t) as (V & _ & _ & P & T & _).
    split; [split; [|split]|split; [|split]].
    + exact (same_graph_frame _ _ _ (root_block_frame _ _ t) Hg).
    + intros w Hw. apply (vis_ext _ _ _ V). apply H. apply vis_discover. now left.
    + apply (vis_ext _ _ _ V). apply H. apply vis_discover. now right.
    + rewrite T, (unvisited_count_ext t _ ltac:(apply (root_block_frame v ch t)) V). exact Hq.
    + intros w Hw. rewrite P. now apply Hp.
    + rewrite T. destruct (root_block_num_blocks v ch t) as [A|(A & A1 & A2)]; rewrite A.
      * destruct (parent_tarjan s0 v =? -1); [destruct (ch =? 0)|]; lia.
      * rewrite (Hp v (or_intror eq_refl)) in A1. rewrite A1. cbn.
        rewrite A1 in Hb. cbn in Hb. destruct (ch =? 0); lia.
Qed.

Lemma find_loop_counts (k : nat) (i : Z) (s : state) :
  same_graph g s -> 0 <= i -> n_nodes g - i <= Z.of_nat k ->
  (forall w, 0 <= w < i -> vis s w) ->
  num_blocks s <= time_dfs s ->
  time_dfs s + Z.of_nat (unvisited_count s) = n_nodes g ->
  exists s', find_loop k i s = Some s' /\
    (forall w, 0 <= w < n_nodes g -> vis s' w) /\
    num_blocks s' <= time_dfs s' /\ time_dfs s' = n_nodes g.
Proof.
  revert i s. induction k as [|k IH]; intros i s Hg Hi Hk Hv Hb Hq; cbn [find_loop];
    pose proof Hg as (Hn & _); rewrite Hn.
  - destruct (Z.ltb_spec i (n_nodes g)); [lia|]. exists s.
    split; [reflexivity|]. split; [intros w Hw; apply Hv; lia|].
    rewrite unvisited_count_zero in Hq by (intros w Hw; apply Hv; lia). lia.
  - destruct (Z.ltb_spec i (n_nodes g)) as [H|H].
    2:{ exists s. split; [reflexivity|]. split; [intros w Hw; apply Hv; lia|].
        rewrite unvisited_count_zero in Hq by (intros w Hw; apply Hv; lia). lia. }
    destruct (Z.eqb_spec (visited s i) 0) as [Hvi|Hvi].
    + cbv zeta. set (s1 := set_parent_tarjan _ s).
      assert (Hg1 : same_graph g s1) by exact Hg.
      destruct (tarjan_counts (Z.to_nat (n_nodes g)) i s1) as (s2 & E & (Hg2 & Hm & Hvi2) & Hq2 & _ & Hb2).
      * repeat split; try apply Hg; auto; lia.
      * pose proof (unvisited_count_le s1) as Hc.
        change (n_nodes s1) with (n_nodes s) in Hc. rewrite Hn in Hc. exact Hc.
      * change (n_nodes s1) with (n_nodes s). rewrite Hn, E.
        change (parent_tarjan s1 i) with (upd (parent_tarjan s) i (-1) i) in Hb2.
        rewrite upd_same in Hb2. cbn in Hb2.
        change (num_blocks s1) with (num_blocks s) in Hb2.
        change (time_dfs s1) with (time_dfs s) in Hb2, Hq2.
        change (unvisited_count s1) with (unvisited_count s) in Hq2.
        apply IH; auto; try lia.
        intros w Hw. destruct (Z.eq_dec w i) as [->|Hne]; [exact Hvi2|].
        apply Hm. apply Hv. lia.
    + apply IH; auto; try lia.
      intros w Hw. destruct (Z.eq_dec w i) as [->|Hne]; [exact Hvi|]. apply Hv. lia.
Qed.

Lemma find_biconnected_components_counts :
  0 <= n_nodes g ->
  exists s', find_biconnected_components g = Some s' /\
    (forall w, 0 <= w < n_nodes g -> vis s' w) /\
    num_blocks s' <= time_dfs s' /\ time_dfs s' = n_nodes g.
Proof.
  intros Hn. rewrite find_biconnected_components_eq.
  destruct (reset_analysis_fields g) as (Hg & (Av & _ & _ & _ & At & _) & _ & Hnb & _).
  apply find_loop_counts.
  - exact Hg.
  - lia.
  - lia.
  - intros w Hw. lia.
  - rewrite Hnb, At. lia.
  - rewrite At. unfold unvisited_count. destruct Hg as (Hgn & _). rewrite Hgn, Av.
    rewrite filter_all by reflexivity. unfold nodes. rewrite length_map, length_seq. lia.
Qed.
End Counting.

(** ** A graph without links *)

Lemma discover_fields (u : Z) (s : state) :
  degree (discover u s) = degree s /\ stack_top (discover u s) = stack_top s /\
  num_blocks (discover u s) = num_blocks s /\ is_cut (discover u s) = is_cut s /\
  n_nodes (discover u s) = n_nodes s.
Proof. repeat split; reflexivity. Qed.

(** The search from a node without neighbours discovers it and returns. *)
Lemma tarjan_dfs_bicomp_isolated (fuel : nat) (u : Z) (s : state) :
  degree s u = 0 -> stack_top s = 0 ->
  tarjan_dfs_bicomp (S fuel) u s = Some (discover u s).
Proof.
  intros Hd Ht. cbn [tarjan_dfs_bicomp]. cbv zeta.
  destruct (discover_fields u s) as (Dd & Dt & _).
  rewrite Dd, Hd. cbn [Z.to_nat dfs_loop]. rewrite Dd, Hd. cbn [Z.ltb Z.compare].
  unfold root_block. rewrite Dt, Ht. cbn [Z.ltb Z.compare].
  now rewrite andb_false_r.
Qed.

Lemma find_loop_edgeless (k : nat) (i : Z) (s : state) :
  (forall w, degree s w = 0) -> stack_top s = 0 ->
  0 <= i -> n_nodes s - i <= Z.of_nat k ->
  exists s', find_loop k i s = Some s' /\
    num_blocks s' = num_blocks s /\ is_cut s' = is_cut s.
Proof.
  revert i s. induction k as [|k IH]; intros i s Hd Ht Hi Hk; cbn [find_loop].
  - destruct (Z.ltb_spec i (n_nodes s)); [lia|]. now exists s.
  - destruct (Z.ltb_spec i (n_nodes s)) as [H|H]; [|now exists s].
    destruct (visited s i =? 0); [|apply IH; auto; lia].
    cbv zeta. set (s1 := set_parent_tarjan _ s).
    destruct (Z.to_nat (n_nodes s1)) as [|fuel] eqn:E;
      [change (n_nodes s1) with (n_nodes s) in E; lia|].
    rewrite (tarjan_dfs_bicomp_isolated fuel i s1) by (apply Hd || exact Ht).
    destruct (discover_fields i s1) as (Dd & Dt & Dn & Dc & Dnn).
    destruct (IH (i + 1) (discover i s1)) as (s' & Es & Hn & Hc).
    + intros w. rewrite Dd. apply Hd.
    + rewrite Dt. exact Ht.
    + lia.
    + rewrite Dnn. change (n_nodes s1) with (n_nodes s). lia.
    + exists s'. split; [exact Es|]. rewrite Hn, Hc, Dn, Dc. split; reflexivity.
Qed.

Lemma find_biconnected_components_edgeless (st : state) :
  (forall w, degree st w = 0) ->
  exists s', find_biconnected_components st = Some s' /\
    num_blocks s' = 0 /\ is_cut s' = (fun _ => 0).
Proof.
  intros Hd. rewrite find_biconnected_components_eq.
  destruct (reset_analysis_fields st) as ((Hn & _ & Hdg & _) & (_ & _ & _ & _ & _ & Hc)
                                           & Ht & Hnb & _).
  destruct (find_loop_edgeless (Z.to_nat (n_nodes st)) 0 (reset_analysis st))
    as (s' & E & H1 & H2).
  - intros w. rewrite Hdg. apply Hd.
  - exact Ht.
  - lia.
  - rewrite Hn. lia.
  - exists s'. split; [exact E|]. rewrite H1, H2, Hnb, Hc. split; reflexivity.
Qed.

(** ** The planner run again *)

Lemma blocked_grows (s s' : state) (p : Z * Z) :
  same_analysis s s' -> grows s s' -> blocked s p -> blocked s' p.
Proof.
  intros Ha (Hd & _ & He) H. unfold blocked in *.
  rewrite !(spec_representative_ext s s' _ Ha).
  set (a := spec_representative s (fst p)) in *.
  set (b := spec_representative s (snd p)) in *.
  unfold spec_may_connect in *. specialize (He a b).
  pose proof (Hd a). pose proof (Hd b).
  destruct (Z.eqb_spec a b); [reflexivity|]. cbn [negb andb] in *.
  destruct (Z.eqb_spec (exists_edge s a b) 0) as [E|E].
  - destruct (Z.eqb_spec (exists_edge s' a b) 0); [|reflexivity]. cbn [andb] in *.
    destruct (Z.ltb_spec (degree s a) MAX_NEIGHBORS).
    + cbn [andb] in H. apply Z.ltb_ge in H.
      destruct (Z.ltb_spec (degree s' a) MAX_NEIGHBORS); [|reflexivity].
      cbn [andb]. apply Z.ltb_ge. lia.
    + destruct (Z.ltb_spec (degree s' a) MAX_NEIGHBORS); [lia|reflexivity].
  - specialize (He E). destruct (Z.eqb_spec (exists_edge s' a b) 0); [contradiction|].
    reflexivity.
Qed.

Lemma spec_connect_grows (s : state) (p : Z * Z) : grows s (spec_connect s p).
Proof.
  unfold spec_connect. cbv zeta.
  destruct (spec_may_connect _ _ _); [apply spec_insert_grows|apply grows_refl].
Qed.

(** Once the planner has dealt with a pair, it would not link it. *)
Lemma spec_connect_blocks (s : state) (p : Z * Z) : blocked (spec_connect s p) p.
Proof.
  destruct (spec_connect_frame s p) as (_ & Ha & _).
  unfold blocked. rewrite !(spec_representative_ext s _ _ Ha).
  unfold spec_connect. cbv zeta.
  destruct (spec_may_connect s _ _) eqn:E; [|exact E].
  unfold spec_may_connect. rewrite spec_insert_exists_edge, upd2_same.
  cbn [Z.eqb]. now rewrite andb_false_r.
Qed.

Lemma fold_spec_connect_frame (l : list (Z * Z)) (s : state) :
  same_analysis s (fold_left spec_connect l s) /\ grows s (fold_left spec_connect l s).
Proof.
  revert s. induction l as [|p l IH]; intros s; cbn [fold_left].
  - split; [apply same_analysis_refl|apply grows_refl].
  - destruct (IH (spec_connect s p)) as [H1 H2].
    destruct (spec_connect_frame s p) as (_ & Ha & _). split.
    + exact (same_analysis_trans _ _ _ Ha H1).
    + exact (grows_trans _ _ _ (spec_connect_grows s p) H2).
Qed.

Lemma fold_spec_connect_blocks (l : list (Z * Z)) (s : state) (p : Z * Z) :
  In p l -> blocked (fold_left spec_connect l s) p.
Proof.
  revert s. induction l as [|q l IH]; intros s Hp; [destruct Hp|].
  cbn [fold_left]. destruct Hp as [->|Hp]; [|now apply IH].
  destruct (fold_spec_connect_frame l (spec_connect s p)) as [H1 H2].
  apply (blocked_grows (spec_connect s p)); [exact H1|exact H2|].
  apply spec_connect_blocks.
Qed.

Lemma fold_spec_connect_blocked (l : list (Z * Z)) (s : state) :
  (forall p, In p l -> blocked s p) -> fold_left spec_connect l s = s.
Proof.
  induction l as [|q l IH]; intros H; [reflexivity|].
  cbn [fold_left].
  assert (E : spec_connect s q = s).
  { unfold spec_connect. cbv zeta. pose proof (H q (or_introl eq_refl)) as Hq.
    unfold blocked in Hq. now rewrite Hq. }
  rewrite E. apply IH. intros p Hp. apply H. now right.
Qed.

(** Run a second time on its own result, the planner classifies the same
    leaf blocks, finds every pair dealt with, and only resets its counter. *)
Lemma planner_twice (st : state) :
  blocks_in_range st ->
  let st1 := add_optimal_redundant_edges st in
  add_optimal_redundant_edges st1
  = set_redundant_edges_added 0 (identify_leaf_blocks st1).
Proof.
  intros Hr st1.
  assert (E1 : st1 = spec_planner (set_redundant_edges_added 0 (identify_leaf_blocks st)))
    by (unfold st1; now apply planner_is_spec_planner).
  destruct (identify_leaf_blocks_frame st) as (Hg0 & Ha0 & _).
  set (st0 := set_redundant_edges_added 0 (identify_leaf_blocks st)) in *.
  assert (Ha00 : same_analysis st st0) by exact Ha0.
  unfold spec_planner in E1.
  destruct (fold_spec_connect_frame (spec_pairs (spec_leaves st0)) st0) as [Ha1 _].
  rewrite <- E1 in Ha1.
  assert (Hr1 : blocks_in_range st1).
  { apply (blocks_in_range_ext st); [unfold st1; apply planner_n_nodes| |exact Hr].
    exact (same_analysis_trans _ _ _ Ha00 Ha1). }
  rewrite planner_is_spec_planner by exact Hr1. unfold spec_planner.
  destruct (identify_leaf_blocks_frame st1) as ((Gn & Gnb & Gd & Ge) & Ga & _).
  set (st10 := set_redundant_edges_added 0 (identify_leaf_blocks st1)) in *.
  assert (Ha10 : same_analysis st1 st10) by exact Ga.
  assert (Hl : spec_leaves st10 = spec_leaves st0).
  { rewrite (spec_leaves_ext _ _ Ha10). now rewrite (spec_leaves_ext _ _ Ha1). }
  rewrite Hl. apply fold_spec_connect_blocked. intros p Hp.
  apply (blocked_grows st1); [exact Ha10| |].
  - assert (Hd : degree st10 = degree st1) by exact Gd.
    assert (Hn : neighbors st10 = neighbors st1) by exact Gnb.
    assert (He : exists_edge st10 = exists_edge st1) by exact Ge.
    split; [|split]; intros; rewrite ?Hd, ?Hn, ?He; auto; lia.
  - rewrite E1. now apply fold_spec_connect_blocks.
Qed.

(** ** The edge stack *)

Lemma add_to_block_stack (x : Z) (ib : Z -> Z) (t : state) :
  edge_stack (snd (add_to_block x ib t)) = edge_stack t /\
  stack_top (snd (add_to_block x ib t)) = stack_top t.
Proof. destruct (add_to_block_fields x ib t) as (H1 & H2 & _). now split. Qed.

(** One round of a popping loop takes the top entry off and writes no
    entry. *)
Lemma pop_step_stack (st : state) (ib : Z -> Z) :
  let st1 := set_stack_top (stack_top st - 1) st in
  let e := edge_stack st1 (stack_top st1) in
  let r1 := add_to_block (e_u e) ib st1 in
  let r2 := add_to_block (e_v e) (fst r1) (snd r1) in
  edge_stack (snd r2) = edge_stack st /\ stack_top (snd r2) = stack_top st - 1 /\
  e = edge_stack st (stack_top st - 1).
Proof.
  intros st1 e r1 r2.
  destruct (add_to_block_stack (e_v e) (fst r1) (snd r1)) as [A1 A2].
  destruct (add_to_block_stack (e_u e) ib st1) as [B1 B2].
  fold r1 in B1, B2, A1, A2. fold r2 in A1, A2.
  rewrite A1, A2, B1, B2. repeat split.
Qed.

(** The loop that carves a block stops at the edge it looks for. *)
Lemma pop_until_stack (k : nat) (u v : Z) (ib : Z -> Z) (st : state) (j0 : Z) :
  0 <= j0 < stack_top st -> edge_stack st j0 = mkEdge u v ->
  edge_stack (pop_until k u v ib st) = edge_stack st /\
  j0 <= stack_top (pop_until k u v ib st) <= stack_top st.
Proof.
  revert ib st. induction k as [|k IH]; intros ib st Hj He; cbn [pop_until].
  - split; [reflexivity|lia].
  - destruct (Z.leb_spec (stack_top st) 0) as [H|H]; [lia|].
    pose proof (pop_step_stack st ib) as Hs. cbv zeta in Hs.
    destruct (add_to_block _ ib _) as [ib1 s1]. cbn [fst snd] in Hs.
    destruct (add_to_block _ ib1 s1) as [ib2 s2]. cbn [fst snd] in Hs.
    destruct Hs as (S1 & S2 & S3).
    match goal with |- context [negb ((e_u ?x =? u) && (e_v ?x =? v))] =>
      set (e := x) in * end.
    destruct (negb ((e_u e =? u) && (e_v e =? v)) && (0 <? stack_top s2))%bool eqn:C.
    + apply andb_true_iff in C. destruct C as [C1 C2].
      apply Z.ltb_lt in C2. apply negb_true_iff in C1.
      assert (Hne : j0 <> stack_top st - 1).
      { intros ->. rewrite <- S3 in He. rewrite He in C1. cbn in C1.
        now rewrite !Z.eqb_refl in C1. }
      destruct (IH ib2 s2) as [I1 I2].
      * rewrite S2. lia.
      * now rewrite S1.
      * rewrite I1, S1. split; [reflexivity|]. lia.
    + rewrite S1, S2. split; [reflexivity|]. lia.
Qed.

Lemma pop_all_stack (k : nat) (ib : Z -> Z) (st : state) :
  edge_stack (pop_all k ib st) = edge_stack st /\
  stack_top (pop_all k ib st) <= stack_top st.
Proof.
  revert ib st. induction k as [|k IH]; intros ib st; cbn [pop_all].
  - split; [reflexivity|lia].
  - destruct (Z.ltb_spec 0 (stack_top st)) as [H|H]; [|split; [reflexivity|lia]].
    pose proof (pop_step_stack st ib) as Hs. cbv zeta in Hs.
    destruct (add_to_block _ ib _) as [ib1 s1]. cbn [fst snd] in Hs.
    destruct (add_to_block _ ib1 s1) as [ib2 s2]. cbn [fst snd] in Hs.
    destruct Hs as (S1 & S2 & _). destruct (IH ib2 s2) as [I1 I2].
    rewrite I1, S1. split; [reflexivity|]. lia.
Qed.

(** After the call on the child [v]: the stack is cut back to the edge
    [u - v] at most, and only when [u] is flagged. *)
Lemma after_child_stack (u v children : Z) (t : state) (j0 : Z) :
  0 <= j0 < stack_top t -> edge_stack t j0 = mkEdge u v ->
  let r := after_child u v children t in
  edge_stack r = edge_stack t /\ j0 <= stack_top r <= stack_top t /\
  (forall w, w <> u -> is_cut r w = is_cut t w) /\
  (stack_top r = stack_top t /\ is_cut r u = is_cut t u \/
   (parent_tarjan t u = -1 -> 1 < children)).
Proof.
  intros Hj He. unfold after_child. cbv zeta.
  set (s1 := if low t v <? low t u then _ else t).
  assert (H1 : edge_stack s1 = edge_stack t /\ stack_top s1 = stack_top t /\
               is_cut s1 = is_cut t /\ parent_tarjan s1 = parent_tarjan t)
    by (unfold s1; destruct (_ <? _); repeat split; reflexivity).
  destruct H1 as (E1 & T1 & C1 & P1).
  destruct (_ || _)%bool eqn:C.
  2:{ rewrite E1, T1, C1. split; [reflexivity|]. split; [lia|]. split; [reflexivity|].
      left. split; reflexivity. }
  assert (Hc : parent_tarjan t u = -1 -> 1 < children).
  { intros Hp. rewrite P1, Hp in C. cbn in C. rewrite orb_false_r in C.
    now apply Z.ltb_lt in C. }
  set (s2 := set_is_cut (upd (is_cut s1) u 1) s1).
  assert (H2 : edge_stack s2 = edge_stack t /\ stack_top s2 = stack_top t /\
               is_cut s2 = upd (is_cut t) u 1).
  { split; [exact E1|]. split; [exact T1|]. unfold s2. cbn. now rewrite C1. }
  destruct H2 as (E2 & T2 & C2).
  destruct (num_blocks s2 <? MAX_BLOCKS).
  - destruct (pop_until_stack (Z.to_nat (stack_top s2)) u v (fun _ => 0) s2 j0)
      as [P1' P2'].
    + rewrite T2. exact Hj.
    + rewrite E2. exact He.
    + set (s3 := pop_until _ u v _ s2) in *.
      assert (C3 : is_cut s3 = is_cut s2) by apply (pop_until_core _ u v _ s2).
      change (edge_stack (set_num_blocks (num_blocks s3 + 1) s3)) with (edge_stack s3).
      change (stack_top (set_num_blocks (num_blocks s3 + 1) s3)) with (stack_top s3).
      change (is_cut (set_num_blocks (num_blocks s3 + 1) s3)) with (is_cut s3).
      rewrite P1', E2, C3, C2. rewrite T2 in P2'.
      split; [reflexivity|]. split; [exact P2'|].
      split; [intros w Hw; now rewrite upd_other|]. now right.
  - rewrite E2, T2, C2. split; [reflexivity|]. split; [lia|].
    split; [intros w Hw; now rewrite upd_other|]. now right.
Qed.

Lemma after_child_flag (u v children : Z) (t : state) :
  is_cut (after_child u v children t) u <> 0 ->
  is_cut t u <> 0 \/ (parent_tarjan t u = -1 -> 1 < children).
Proof.
  destruct (after_child_core u v children t) as (_ & _ & _ & _ & _ & Hc).
  rewrite Hc. unfold core_cut_test.
  change (c_parent (core_of t) u) with (parent_tarjan t u).
  destruct (_ || _)%bool eqn:C; [|now left].
  intros _. right. intros Hp. rewrite Hp in C. cbn in C. rewrite orb_false_r in C.
  now apply Z.ltb_lt in C.
Qed.

Lemma root_block_stack (u children : Z) (t : state) :
  let r := root_block u children t in
  is_cut r = is_cut t /\
  (r = t \/ (parent_tarjan t u = -1 /\ children <= 1 /\ stack_top r <= stack_top t)).
Proof.
  cbv zeta. split; [apply (root_block_core u children t)|].
  unfold root_block. cbv zeta. destruct (_ && _ && _ && _)%bool eqn:C; [|now left].
  right. zify_test. split; [assumption|]. split; [assumption|].
  match goal with |- stack_top (set_num_blocks ?x ?s) <= _ =>
    change (stack_top (set_num_blocks x s)) with (stack_top s) end.
  apply pop_all_stack.
Qed.

Lemma pop_all_empties (k : nat) (ib : Z -> Z) (st : state) :
  0 <= stack_top st <= Z.of_nat k -> stack_top (pop_all k ib st) = 0.
Proof.
  revert ib st. induction k as [|k IH]; intros ib st Hk; cbn [pop_all]; [lia|].
  destruct (Z.ltb_spec 0 (stack_top st)) as [H|H]; [|lia].
  pose proof (pop_step_stack st ib) as Hs. cbv zeta in Hs.
  destruct (add_to_block _ ib _) as [ib1 s1]. cbn [fst snd] in Hs.
  destruct (add_to_block _ ib1 s1) as [ib2 s2]. cbn [fst snd] in Hs.
  destruct Hs as (_ & S2 & _). apply IH. lia.
Qed.

(** A root with one child at most empties the stack into a block, unless
    the table of blocks is full. *)
Lemma root_block_empties (u children : Z) (t : state) :
  parent_tarjan t u = -1 -> children <= 1 -> 0 <= stack_top t ->
  stack_top (root_block u children t) = 0 \/
  MAX_BLOCKS <= num_blocks (root_block u children t).
Proof.
  intros Hp Hc Hs. unfold root_block. cbv zeta.
  destruct (_ && _ && _ && _)%bool eqn:C.
  - left.
    match goal with |- stack_top (set_num_blocks ?x ?s) = _ =>
      change (stack_top (set_num_blocks x s)) with (stack_top s) end.
    apply pop_all_empties. lia.
  - rewrite Hp in C. cbn in C.
    destruct (Z.leb_spec children 1) as [_|]; [|lia]. cbn in C.
    destruct (Z.ltb_spec 0 (stack_top t)) as [H|H]; [|left; lia]. cbn in C.
    apply Z.ltb_ge in C. now right.
Qed.

(** A root is flagged when its second child returns. *)
Lemma after_child_mark (u v children : Z) (t : state) :
  parent_tarjan t u = -1 -> 1 < children ->
  is_cut (after_child u v children t) u <> 0.
Proof.
  intros Hp Hc. destruct (after_child_core u v children t) as (_ & _ & _ & _ & _ & H).
  rewrite H. unfold core_cut_test.
  change (c_parent (core_of t) u) with (parent_tarjan t u). rewrite Hp.
  destruct (Z.ltb_spec 1 children) as [_|]; [|lia]. cbn. rewrite upd_same. lia.
Qed.

Lemma discover_stack (u : Z) (s : state) :
  stack_top (discover u s) = stack_top s /\ edge_stack (discover u s) = edge_stack s.
Proof. split; reflexivity. Qed.

Lemma enter_child_stack (u v : Z) (t : state) :
  stack_top t < MAX_NODES * 10 - 1 ->
  stack_top (enter_child u v t) = stack_top t + 1 /\
  edge_stack (enter_child u v t) = upd (edge_stack t) (stack_top t) (mkEdge u v).
Proof.
  intros H. unfold enter_child.
  destruct (push_edge_fields u v (set_parent_tarjan (upd (parent_tarjan t) v u) t))
    as (_ & _ & _ & Hp & _).
  exact (Hp H).
Qed.

Lemma back_edge_stack (u v : Z) (t : state) :
  stack_top t < MAX_NODES * 10 - 1 ->
  stack_top (back_edge u v t) = stack_top t + 1 /\
  edge_stack (back_edge u v t) = upd (edge_stack t) (stack_top t) (mkEdge u v).
Proof.
  intros H. unfold back_edge. cbv zeta.
  destruct (push_edge_fields u v t) as (_ & _ & _ & Hp & _).
  destruct (_ <? _); exact (Hp H).
Qed.

(** ** The edge stack during the search

    On a graph small enough for the stack never to fill, the calls on the
    nodes below a root leave the stack as they found it or higher, and a
    root that is flagged returns with the edge to its first child still on
    the stack. *)
Section EdgeStack.
Variable g : state.
Hypothesis g_simple : simple_graph g.
Hypothesis g_small : MAX_NEIGHBORS * n_nodes g <= MAX_NODES * 10 - 1.

Lemma stack_inv_room (s : state) (u i ch : Z) (t : state) :
  stack_pre g u s -> stack_inv g s u i ch t -> i < degree t u ->
  0 <= stack_top t /\ stack_top t + 1 <= MAX_NEIGHBORS * time_dfs t /\
  stack_top t < MAX_NODES * 10 - 1.
Proof.
  intros ((Hg0 & Hu & H0) & Hs & Hq0 & _)
    (((Hn & _ & Hd & _) & _) & Hi & _ & Hq & L1 & _ & L3 & _) Hlt.
  pose proof (sg_degree g g_simple u Hu) as Hdeg. rewrite Hd in Hlt.
  unfold MAX_NEIGHBORS, MAX_NODES in *. lia.
Qed.

Lemma tarjan_stack (fuel : nat) (u : Z) (s : state) :
  stack_pre g u s -> (unvisited_count s <= fuel)%nat ->
  exists s', tarjan_dfs_bicomp fuel u s = Some s' /\ stack_post g u s s'.
Proof.
  apply (dfs_rule (stack_pre g) (stack_post g) (stack_inv g)).
  - intros v s0 (((Hn & _) & Hv & H0) & _). rewrite Hn. auto.
  - intros s0 v i ch t (((Hn & _) & _) & _) (((Hn' & _) & H) & _).
    apply unvisited_count_mono; [|exact H].
    destruct (discover_frame v s0) as ((Hd & _) & _). congruence.
  - (* entry *)
    intros v s0 ((Hg & Hv & H0) & Hs & Hq & Hc).
    destruct (discover_core v s0) as (_ & _ & _ & Hp & Ht & Hic).
    destruct (discover_stack v s0) as (St & Se).
    assert (Hnv : ~ vis s0 v) by (intros E; now apply E).
    split; [split; [exact (same_graph_frame _ _ _ (discover_frame v s0) Hg)|auto]|].
    split; [pose proof (sg_degree g g_simple v Hv); lia|].
    split; [lia|].
    split.
    { destruct Hg as (Hn & _).
      pose proof (unvisited_count_discover_eq v s0 ltac:(lia) H0). lia. }
    rewrite St, Se, Ht, Hp, Hic. unfold MAX_NEIGHBORS.
    split; [lia|]. split; [reflexivity|]. split; [lia|]. split; [reflexivity|].
    split; [reflexivity|]. split.
    { intros w Hw. apply Hc. intros E. apply Hw. apply vis_discover. now left. }
    intros _. rewrite (Hc v Hnv). split; [congruence|]. split; lia.
  - (* the call on a child starts *)
    intros s0 v i ch t HP HL Hi Hvis.
    destruct (stack_inv_room s0 v i ch t HP HL ltac:(lia)) as (R0 & R1 & R2).
    destruct HP as ((Hg0 & Hv & H0) & Hs & Hq0 & Hc0).
    destruct HL as ((Hg & H) & _ & _ & Hq & L1 & L2 & L3 & Lp & Lc & Lz & Lr).
    set (x := neighbors t v i) in *.
    destruct (enter_child_core v x t) as (V & _ & _ & _ & T & C).
    destruct (enter_child_stack v x t R2) as (St & _).
    split; [split; [exact (same_graph_frame _ _ _ (enter_child_frame _ _ t) Hg)|]|].
    + destruct Hg as (Hn & Hnb & Hd & _). split.
      * unfold x. rewrite Hnb.
        apply (simple_graph_neighbors_in_range g g_simple); [assumption|].
        now rewrite <- Hd.
      * now rewrite V.
    + rewrite St, T, (unvisited_count_ext t _ ltac:(apply (enter_child_frame v x t)) V).
      split; [lia|]. split; [lia|].
      intros w Hw. rewrite C. apply Lz. intros E. apply Hw. now apply (vis_ext _ _ _ V).
  - (* the call on a child has returned *)
    intros s0 v i ch t t2 HP HL Hi Hvis
      ((Hg2 & Hm & Hc) & Hq2 & Q3 & Qp & Qc & Qz & Qn & _).
    destruct (stack_inv_room s0 v i ch t HP HL ltac:(lia)) as (R0 & R1 & R2).
    destruct HP as ((Hg0 & Hv & H0) & Hs & Hq0 & Hc0).
    destruct HL as ((Hg & H) & Hi' & Hch & Hq & L1 & L2 & L3 & Lp & Lc & Lz & Lr).
    set (x := neighbors t v i) in *.
    destruct (enter_child_core v x t) as (V1 & _ & _ & P1 & T1 & C1).
    destruct (enter_child_stack v x t R2) as (St & Se).
    destruct (after_child_core v x (ch + 1) t2) as (V3 & _ & P3 & T3 & _).
    assert (Hvv : vis t v) by (apply H, vis_discover; now right).
    assert (Hxv : x <> v) by (intros E; apply Hvv; now rewrite <- E).
    assert (Hnv : ~ vis s0 v) by (intros E; now apply E).
    assert (Hpx : parent_tarjan (enter_child v x t) x <> -1)
      by (rewrite P1, upd_same; lia).
    destruct (Qn Hpx) as (N1 & N2).
    assert (Hpv : parent_tarjan t2 v = parent_tarjan s0 v).
    { rewrite Qp by (left; now apply (vis_ext _ _ _ V1)).
      rewrite P1, upd_other by auto. apply Lp. now right. }
    assert (Hv2 : vis t2 v) by (apply Hm; now apply (vis_ext _ _ _ V1)).
    assert (Hcv : is_cut t2 v = is_cut t v).
    { rewrite Qc by (now apply (vis_ext _ _ _ V1)). now rewrite C1. }
    destruct (after_child_stack v x (ch + 1) t2 (stack_top t)) as (A1 & A2 & A3 & A4).
    { lia. }
    { rewrite N2 by lia. rewrite Se. apply upd_same. }
    rewrite T1, (unvisited_count_ext t _ ltac:(apply (enter_child_frame v x t)) V1) in Hq2.
    rewrite T1 in Q3.
    split; [split|].
    { exact (same_graph_frame _ _ _ (after_child_frame _ _ _ t2) Hg2). }
    { intros w Hw. apply (vis_ext _ _ _ V3). apply Hm.
      apply (vis_ext _ _ _ V1). now apply H. }
    destruct Hg as (_ & _ & Hd & _). rewrite Hd in Hi.
    rewrite T3, (unvisited_count_ext t2 _ ltac:(apply (after_child_frame v x (ch + 1) t2)) V3).
    split; [lia|]. split; [lia|]. split; [lia|]. split; [lia|].
    split.
    { intros j Hj. rewrite A1, N2 by lia. rewrite Se, upd_other by lia. now apply L2. }
    split; [unfold MAX_NEIGHBORS in *; lia|].
    split.
    { intros w Hw. rewrite P3.
      assert (Hwt : vis t w) by (apply H, vis_discover; destruct Hw; auto).
      rewrite Qp by (left; now apply (vis_ext _ _ _ V1)).
      rewrite P1, upd_other; [now apply Lp|].
      intros E. apply Hwt. now rewrite E. }
    split.
    { intros w Hw.
      assert (Hwv : w <> v) by (intros E; apply Hnv; now rewrite <- E).
      assert (Hwt : vis t w) by (apply H, vis_discover; now left).
      rewrite A3 by exact Hwv. rewrite Qc by (now apply (vis_ext _ _ _ V1)).
      rewrite C1. now apply Lc. }
    split.
    { intros w Hw.
      assert (Hw2 : ~ vis t2 w) by (intros E; apply Hw; now apply (vis_ext _ _ _ V3)).
      assert (Hwv : w <> v) by (intros E; apply Hw2; now rewrite E).
      rewrite A3 by exact Hwv. now apply Qz. }
    intros Hr. destruct (Lr Hr) as (Lr1 & Lr2 & Lr3). rewrite Hpv in A4.
    assert (Hmark : 2 <= ch + 1 -> is_cut (after_child v x (ch + 1) t2) v <> 0).
    { intros E. apply after_child_mark; [now rewrite Hpv|lia]. }
    destruct A4 as [(A4 & A5)|A4].
    + split; [|split; [lia|exact Hmark]].
      rewrite A5, Hcv. intros E. specialize (Lr1 E). lia.
    + specialize (A4 Hr). split; [lia|]. split; [|exact Hmark]. intros _.
      assert (1 <= ch) by lia. specialize (Lr2 ltac:(lia)). lia.
  - (* a back edge *)
    intros s0 v i ch t HP HL Hi _ _ _.
    destruct (stack_inv_room s0 v i ch t HP HL ltac:(lia)) as (R0 & R1 & R2).
    destruct HP as ((Hg0 & Hv & H0) & Hs & Hq0 & Hc0).
    destruct HL as ((Hg & H) & Hi' & Hch & Hq & L1 & L2 & L3 & Lp & Lc & Lz & Lr).
    set (x := neighbors t v i) in *.
    destruct (back_edge_core v x t) as (V & _ & P & T & _ & C).
    destruct (back_edge_stack v x t R2) as (St & Se).
    split; [split|].
    { exact (same_graph_frame _ _ _ (back_edge_frame _ _ t) Hg). }
    { intros w Hw. apply (vis_ext _ _ _ V). now apply H. }
    destruct Hg as (_ & _ & Hd & _). rewrite Hd in Hi.
    rewrite T, (unvisited_count_ext t _ ltac:(apply (back_edge_frame v x t)) V).
    rewrite St, Se, P, C.
    split; [lia|]. split; [lia|]. split; [lia|]. split; [lia|].
    split; [intros j Hj; rewrite upd_other by lia; now apply L2|].
    split; [lia|]. split; [exact Lp|]. split; [exact Lc|].
    split; [intros w Hw; apply Lz; intros E; apply Hw; now apply (vis_ext _ _ _ V)|].
    intros Hr. destruct (Lr Hr) as (Lr1 & Lr2 & Lr3). split; [exact Lr1|].
    split; [|exact Lr3]. intros E. specialize (Lr2 E). lia.
  - (* a neighbour that is passed over *)
    intros s0 v i ch t HP HL Hi _ _.
    destruct HL as ((Hg & H) & Hi' & Hch & Hq & L1 & L2 & L3 & Lp & Lc & Lz & Lr).
    pose proof Hg as (_ & _ & Hd & _). rewrite Hd in Hi.
    split; [split; assumption|].
    split; [lia|]. split; [lia|]. split; [lia|]. split; [lia|].
    split; [exact L2|]. split; [lia|]. auto.
  - (* exit *)
    intros s0 v i ch t HP HL Hi.
    destruct HP as ((Hg0 & Hv & H0) & Hs & Hq0 & Hc0).
    destruct HL as ((Hg & H) & Hi' & Hch & Hq & L1 & L2 & L3 & Lp & Lc & Lz & Lr).
    destruct (root_block_core v ch t) as (V & _ & _ & P & T & C).
    destruct (root_block_stack v ch t) as (_ & B).
    pose proof (sg_degree g g_simple v Hv) as Hdeg.
    assert (Hpv : parent_tarjan t v = parent_tarjan s0 v) by (apply Lp; now right).
    split; [split; [|split]|].
    { exact (same_graph_frame _ _ _ (root_block_frame _ _ t) Hg). }
    { intros w Hw. apply (vis_ext _ _ _ V). apply H. apply vis_discover. now left. }
    { apply (vis_ext _ _ _ V). apply H. apply vis_discover. now right. }
    rewrite T, (unvisited_count_ext t _ ltac:(apply (root_block_frame v ch t)) V).
    rewrite P, C.
    split; [exact Hq|].
    split.
    { destruct B as [B|(_ & _ & B)]; [rewrite B|]; unfold MAX_NEIGHBORS in *; lia. }
    split; [exact Lp|]. split; [exact Lc|].
    split; [intros w Hw; apply Lz; intros E; apply Hw; now apply (vis_ext _ _ _ V)|].
    split.
    + intros Hr. destruct B as [B|(B & _)]; [|congruence]. rewrite B. auto.
    + intros Hr. destruct (Lr Hr) as (Lr1 & Lr2 & Lr3). split.
      * intros Hcut. specialize (Lr1 Hcut).
        destruct B as [B|(_ & B & _)]; [|lia]. rewrite B. apply Lr2. lia.
      * intros Hcut. apply root_block_empties; [congruence| |lia].
        destruct (Z.le_gt_cases ch 1) as [E|E]; [exact E|].
        exfalso. apply Lr3; [lia|exact Hcut].
Qed.
End EdgeStack.

(** ** The stack after the analysis of a connected graph *)
Section RootStack.
Variable g : state.
Hypothesis g_simple : simple_graph g.
Hypothesis g_connected : connected g.
Hypothesis g_small : MAX_NEIGHBORS * n_nodes g <= MAX_NODES * 10 - 1.

Lemma find_loop_root_stack (s0 : state) :
  same_graph g s0 ->
  visited s0 = (fun _ => 0) -> disc s0 = (fun _ => 0) -> low s0 = (fun _ => 0) ->
  parent_tarjan s0 = (fun _ => -1) -> time_dfs s0 = 0 -> is_cut s0 = (fun _ => 0) ->
  stack_top s0 = 0 -> 0 < n_nodes g ->
  exists st', find_loop (Z.to_nat (n_nodes g)) 0 s0 = Some st' /\
    (is_cut st' 0 <> 0 <-> articulation g 0) /\
    (is_cut st' 0 <> 0 -> 0 < stack_top st') /\
    (is_cut st' 0 = 0 -> stack_top st' = 0 \/ MAX_BLOCKS <= num_blocks st').
Proof.
  intros Hg0 Av Adi Al Ap At Ac As Hn. pose proof Hg0 as (An & _).
  destruct (Z.to_nat (n_nodes g)) as [|k] eqn:Ek; [lia|].
  rewrite find_loop_first; [|lia|now rewrite Av].
  remember (set_parent_tarjan (upd (parent_tarjan s0) 0 (-1)) s0) as s1 eqn:Es1.
  assert (Hc1 : core_of s1 = mkCore (fun _ => 0) (fun _ => 0) (fun _ => 0)
                               (upd (fun _ => -1) 0 (-1)) 0 (fun _ => 0))
    by (rewrite Es1; now apply core_of_first).
  assert (Hg1 : same_graph g s1) by (rewrite Es1; exact Hg0).
  assert (F1 : visited s1 = (fun _ => 0) /\ time_dfs s1 = 0 /\
               is_cut s1 = (fun _ => 0) /\ stack_top s1 = 0 /\
               parent_tarjan s1 0 = -1).
  { rewrite Es1.
    change (visited s0 = (fun _ => 0) /\ time_dfs s0 = 0 /\ is_cut s0 = (fun _ => 0) /\
            stack_top s0 = 0 /\ upd (parent_tarjan s0) 0 (-1) 0 = -1).
    rewrite upd_same. auto. }
  clear Es1. destruct F1 as (V1 & T1 & C1 & S1 & P1).
  assert (Hfuel : (unvisited_count s1 <= Z.to_nat (n_nodes g))%nat).
  { pose proof (unvisited_count_le s1) as Hc.
    destruct Hg1 as (Hn1 & _). now rewrite Hn1 in Hc. }
  destruct (first_search_pre g s1 Hg1 ltac:(lia) Hc1) as [HP H0].
  destruct (tarjan_dfs_bicomp_correct g g_simple g_connected
              (Z.to_nat (n_nodes g)) 0 s1 HP Hfuel) as (s2 & E & Hg2 & HQ).
  destruct (tarjan_stack g g_simple g_small (Z.to_nat (n_nodes g)) 0 s1) as (s2' & E' & HS).
  { split; [split; [exact Hg1|split; [lia|now rewrite V1]]|].
    rewrite S1, T1. split; [lia|]. split; [lia|]. intros w _. now rewrite C1. }
  { exact Hfuel. }
  rewrite E in E'. apply Some_inj in E'. subst s2'.
  destruct HS as (_ & _ & _ & _ & _ & _ & _ & HR).
  rewrite An, E.
  assert (Hall : forall w, inr g w -> cvis (core_of s2) w)
    by (apply (all_discovered g g_simple g_connected 0 (core_of s1)); auto; unfold inr; lia).
  destruct (HR P1) as (HR1 & HR2).
  exists s2. split; [|split; [|split]].
  - destruct Hg2 as (Hn2 & _). apply find_loop_done; [lia| |].
    + intros j Hj. rewrite Hn2 in Hj. exact (Hall j Hj).
    + rewrite Hn2. lia.
  - apply (post_cut g 0 _ _ HQ 0). split; [apply Hall; unfold inr; lia|apply H0].
  - intros Hcut. rewrite <- S1. now apply HR1.
  - exact HR2.
Qed.

Lemma find_biconnected_components_root_stack :
  exists st', find_biconnected_components g = Some st' /\
    (articulation g 0 -> 0 < stack_top st') /\
    (n_nodes g < MAX_BLOCKS -> ~ articulation g 0 -> stack_top st' = 0).
Proof.
  destruct (find_biconnected_components_counts g
              (simple_graph_neighbors_in_range g g_simple)
              (proj1 (sg_nodes g g_simple))) as (st' & E & _ & Hb & Ht).
  exists st'. split; [exact E|]. revert E.
  rewrite find_biconnected_components_eq.
  destruct (reset_analysis_fields g) as (Hg & (Av & Adi & Al & Ap & At & Ac) & As & _).
  destruct (Z.eq_dec (n_nodes g) 0) as [Hz|Hz].
  - rewrite find_loop_empty by (destruct Hg as (Hn & _); lia).
    intros E. apply Some_inj in E. subst st'.
    split; [|intros _ _; exact As].
    intros (a & _ & (Ha & _) & _). unfold inr in Ha. lia.
  - pose proof (sg_nodes g g_simple) as Hn.
    destruct (find_loop_root_stack (reset_analysis g) Hg Av Adi Al Ap At Ac As ltac:(lia))
      as (s2 & E2 & H1 & H2 & H3).
    rewrite E2. intros E. apply Some_inj in E. subst s2.
    split; [intros Ha; apply H2; now apply H1|].
    intros Hsmall Hna.
    destruct (Z.eq_dec (is_cut st' 0) 0) as [Hc|Hc]; [|now apply H1 in Hc].
    destruct (H3 Hc) as [H|H]; [exact H|lia].
Qed.
End RootStack.

(** ** Properties of the planner *)

Lemma analyzed_path5_blocks : blocks_in_range (analyzed path5).
Proof. apply blocks_in_rangeb_true. vm_compute. reflexivity. Qed.

(** C6.  For every list of leaf blocks in discovery order the planner pairs
    them as (leaf[0], leaf[1]), (leaf[2], leaf[3]), ..., the last unpaired
    leaf with leaf[0] when the count is odd; for each pair it links the
    representatives of the two blocks (a non-cut member if there is one,
    otherwise the first member) exactly when they differ, are not linked
    yet and both have spare neighbour capacity, tested on the graph as the
    earlier pairs left it; every link it inserts is tagged redundant in
    both directions.  A pair that links [a] and [b] enters each at the end
    of the other's neighbour list, raises both degrees by one, flags and
    tags the link in both directions and counts it; a pair that does not
    leaves the store as it is ([planned]).  The members of the blocks are
    assumed to be node identities. *)
Theorem planner_pairs_leaves_in_order (st : state) :
  blocks_in_range st ->
  let st0 := set_redundant_edges_added 0 (identify_leaf_blocks st) in
  leaf_list st0 = spec_leaves st /\
  (forall b, find_non_cut_in_block st b = spec_representative st b) /\
  add_optimal_redundant_edges st
    = fold_left spec_connect (spec_pairs (spec_leaves st)) st0 /\
  new_links_tagged st (add_optimal_redundant_edges st) /\
  planned (spec_pairs (spec_leaves st)) st0 (add_optimal_redundant_edges st).
Proof.
  intros Hr st0.
  destruct (identify_leaf_blocks_frame st) as (Hg & Ha & Hred & _).
  assert (E : add_optimal_redundant_edges st
              = fold_left spec_connect (spec_pairs (spec_leaves st)) st0).
  { rewrite planner_is_spec_planner by assumption. unfold spec_planner.
    fold st0. now rewrite (spec_leaves_ext st st0). }
  split; [|split; [|split; [|split]]].
  - apply identify_leaf_blocks_spec.
  - intros b. apply find_non_cut_is_representative.
  - exact E.
  - unfold add_optimal_redundant_edges. cbv zeta. fold st0.
    assert (H0 : grows st st0 /\ new_links_tagged st st0).
    { destruct Hg as (_ & Hn & Hd & He). split.
      - split; [|split].
        + intros w. change (degree st0 w) with (degree (identify_leaf_blocks st) w).
          rewrite Hd. lia.
        + intros w j _. change (neighbors st0 w j) with (neighbors (identify_leaf_blocks st) w j).
          now rewrite Hn.
        + intros u v. change (exists_edge st0 u v) with (exists_edge (identify_leaf_blocks st) u v).
          now rewrite He.
      - intros u v H1 H2. exfalso. apply H2.
        change (exists_edge st0 u v) with (exists_edge (identify_leaf_blocks st) u v).
        now rewrite He. }
    apply (plan_loop_invariant (fun s => grows st s /\ new_links_tagged st s)); [|exact H0].
    intros i s. apply plan_pair_tagged.
  - rewrite E. apply fold_spec_connect_planned.
Qed.

(** On the path 0-1-2-3-4 the one pair is made of the blocks [3; 4] and
    [0; 1], and the planner enters 0 at the end of the neighbour list of 4
    and 4 at the end of that of 0. *)
Lemma planner_pairs_leaves_in_order_witness :
  blocks_in_range (analyzed path5) /\
  (leaf_list (set_redundant_edges_added 0 (identify_leaf_blocks (analyzed path5)))
     = spec_leaves (analyzed path5) /\
   (forall b, find_non_cut_in_block (analyzed path5) b
              = spec_representative (analyzed path5) b) /\
   add_optimal_redundant_edges (analyzed path5)
     = fold_left spec_connect (spec_pairs (spec_leaves (analyzed path5)))
         (set_redundant_edges_added 0 (identify_leaf_blocks (analyzed path5))) /\
   new_links_tagged (analyzed path5) (add_optimal_redundant_edges (analyzed path5)) /\
   planned (spec_pairs (spec_leaves (analyzed path5)))
     (set_redundant_edges_added 0 (identify_leaf_blocks (analyzed path5)))
     (add_optimal_redundant_edges (analyzed path5))) /\
  spec_pairs (spec_leaves (analyzed path5)) = [(0, 3)] /\
  map (spec_representative (analyzed path5)) [0; 3] = [4; 0] /\
  map (neighbor_list (analyzed path5)) [4; 0] = [[3]; [1]] /\
  map (neighbor_list (add_optimal_redundant_edges (analyzed path5))) [4; 0]
    = [[3; 0]; [1; 4]].
Proof.
  split; [exact analyzed_path5_blocks|].
  split; [exact (planner_pairs_leaves_in_order (analyzed path5) analyzed_path5_blocks)|].
  vm_compute. repeat split.
Defined.

(** C9.  On a graph whose analysis yields no leaf block the planner adds no
    edge and leaves the graph as it was. *)
Theorem planner_idle_without_leaf_blocks (st : state) :
  num_leaf_blocks (identify_leaf_blocks st) = 0 ->
  let st' := add_optimal_redundant_edges st in
  redundant_edges_added st' = 0 /\ same_graph st st' /\
  redundant_edge st' = redundant_edge st /\
  (forall u, neighbor_list st' u = neighbor_list st u).
Proof.
  intros H st'.
  assert (E : st' = set_redundant_edges_added 0 (identify_leaf_blocks st)).
  { unfold st', add_optimal_redundant_edges. cbv zeta.
    change (num_leaf_blocks (set_redundant_edges_added 0 (identify_leaf_blocks st)))
      with (num_leaf_blocks (identify_leaf_blocks st)).
    rewrite H. reflexivity. }
  destruct (identify_leaf_blocks_frame st) as ((Hn & Hnb & Hd & He) & _ & Hred & _).
  rewrite E. split; [reflexivity|]. split; [|split].
  - repeat split; assumption.
  - exact Hred.
  - intros u. unfold neighbor_list.
    change (degree (set_redundant_edges_added 0 (identify_leaf_blocks st)))
      with (degree (identify_leaf_blocks st)).
    change (neighbors (set_redundant_edges_added 0 (identify_leaf_blocks st)))
      with (neighbors (identify_leaf_blocks st)).
    now rewrite Hd, Hnb.
Qed.

Lemma planner_idle_without_leaf_blocks_witness :
  num_leaf_blocks (identify_leaf_blocks (analyzed triangle)) = 0 /\
  redundant_edges_added (add_optimal_redundant_edges (analyzed triangle)) = 0.
Proof.
  assert (H : num_leaf_blocks (identify_leaf_blocks (analyzed triangle)) = 0)
    by (vm_compute; reflexivity).
  split.
  - exact H.
  - exact (proj1 (planner_idle_without_leaf_blocks (analyzed triangle) H)).
Defined.

(** C10.  The planner only adds links: no flag of the adjacency matrix is
    cleared, every neighbour list is extended at its end, no degree goes
    down; the cut flags, the blocks and the leaf classification it computed
    on entry are untouched; the counter is at most
    [(num_leaf_blocks + 1) / 2] and, the members of the blocks being node
    identities, the sum of the degrees grew by exactly two per counted
    link. *)
Theorem planner_only_adds (st : state) :
  let st' := add_optimal_redundant_edges st in
  grows st st' /\
  (forall u, prefix_of (neighbor_list st u) (neighbor_list st' u)) /\
  same_analysis st st' /\
  same_leaves (identify_leaf_blocks st) st' /\
  0 <= redundant_edges_added st' <= (num_leaf_blocks st' + 1) / 2 /\
  (blocks_in_range st ->
   total_degree st' = total_degree st + 2 * redundant_edges_added st').
Proof.
  intros st'. set (st0 := set_redundant_edges_added 0 (identify_leaf_blocks st)).
  assert (E : st' = plan_loop (Z.to_nat (num_leaf_blocks st0)) 0 st0) by reflexivity.
  destruct (identify_leaf_blocks_frame st) as ((Hn & Hnb & Hd & He) & Ha & Hred & _).
  destruct (identify_leaf_blocks_spec st) as [Hl Hpos].
  assert (Hg0 : grows st st0).
  { split; [|split].
    - intros w. change (degree st0 w) with (degree (identify_leaf_blocks st) w).
      rewrite Hd. lia.
    - intros w j _. change (neighbors st0 w j) with (neighbors (identify_leaf_blocks st) w j).
      now rewrite Hnb.
    - intros u v. change (exists_edge st0 u v) with (exists_edge (identify_leaf_blocks st) u v).
      now rewrite He. }
  assert (Hg : grows st st').
  { rewrite E. apply (plan_loop_invariant (fun s => grows st s)); [|exact Hg0].
    intros i s Hs. eapply grows_trans; [exact Hs|apply plan_pair_grows]. }
  assert (Hf : n_nodes st' = n_nodes st0 /\ same_analysis st0 st' /\ same_leaves st0 st').
  { rewrite E.
    apply (plan_loop_invariant
             (fun s => n_nodes s = n_nodes st0 /\ same_analysis st0 s /\ same_leaves st0 s)).
    - intros i s (H1 & H2 & (L1 & L2 & L3)).
      destruct (plan_pair_frame i s) as (K1 & K2 & (M1 & M2 & M3)).
      split; [congruence|]. split; [now apply (same_analysis_trans st0 s)|].
      repeat split; congruence.
    - split; [reflexivity|]. split; [apply same_analysis_refl|now repeat split]. }
  destruct Hf as (Hn' & Ha' & Hl').
  split; [exact Hg|]. split; [intros u; now apply grows_prefix|].
  split; [exact (same_analysis_trans st st0 st' Ha Ha')|].
  split; [exact Hl'|]. split.
  - destruct (plan_loop_added (Z.to_nat (num_leaf_blocks st0)) 0 st0) as [B1 B2].
    rewrite <- E in B1, B2. destruct Hl' as (_ & _ & Hk). rewrite Hk.
    change (redundant_edges_added st0) with 0 in B1, B2.
    change (num_leaf_blocks st0) with (num_leaf_blocks (identify_leaf_blocks st)) in *.
    split; [exact B1|]. apply Z.div_le_lower_bound; [lia|].
    destruct (Z.ltb_spec 0 (num_leaf_blocks (identify_leaf_blocks st))); lia.
  - intros Hr. unfold st'. rewrite planner_is_spec_planner by assumption.
    fold st0. unfold spec_planner.
    assert (Hr0 : blocks_in_range st0) by (apply (blocks_in_range_ext st); auto).
    pose proof (spec_planner_count (spec_pairs (spec_leaves st0)) st0 Hr0) as Hc.
    change (redundant_edges_added st0) with 0 in Hc.
    assert (Ht : total_degree st0 = total_degree st).
    { unfold total_degree.
      change (n_nodes st0) with (n_nodes (identify_leaf_blocks st)).
      change (degree st0) with (degree (identify_leaf_blocks st)).
      now rewrite Hn, Hd. }
    rewrite Ht in Hc.
    assert (Hp : forall p, In p (spec_pairs (spec_leaves st0)) ->
              In (fst p) (spec_leaves st0) /\ In (snd p) (spec_leaves st0))
      by (intros p Hp; now apply spec_pairs_In).
    specialize (Hc Hp). lia.
Qed.

Lemma planner_only_adds_witness :
  blocks_in_range (analyzed path5) /\
  total_degree (add_optimal_redundant_edges (analyzed path5))
    = total_degree (analyzed path5)
      + 2 * redundant_edges_added (add_optimal_redundant_edges (analyzed path5)).
Proof.
  split.
  - exact analyzed_path5_blocks.
  - exact (proj2 (proj2 (proj2 (proj2 (proj2 (planner_only_adds (analyzed path5))))))
             analyzed_path5_blocks).
Defined.

(** ** The degree bound *)

(** C7.  After any sequence of topology generations, analyses and planner
    runs (and re-initialisations), started from the initialised store, every
    degree is at most [MAX_NEIGHBORS], [u] is in the neighbour list of [v]
    iff [v] is in that of [u], and the degree of a node is the length of its
    neighbour list.  [rand()] never returns a negative number. *)
Theorem store_invariant (rand_seq : nat -> Z) (target_edges : Z -> Z)
    (accept : Z -> Z -> bool) (n : Z) (ops : list operation) (st : state) :
  (forall k, 0 <= rand_seq k) ->
  run rand_seq target_edges accept ops (init_arrays (boot n)) = Some st ->
  (forall u, degree st u <= MAX_NEIGHBORS) /\
  (forall u v, In u (neighbor_list st v) <-> In v (neighbor_list st u)) /\
  (forall u, degree st u = Z.of_nat (length (neighbor_list st u))).
Proof.
  intros Hr Hs.
  assert (Hok : adjacency_ok st).
  { apply (run_ok _ _ _ _ _ _ Hr Hs). apply init_arrays_ok. }
  destruct Hok as [Hb Hl Hsym _]. split; [|split].
  - intros u. apply Hb.
  - intros u v. apply Hsym.
  - intros u. symmetry. apply Hl.
Qed.

Lemma store_invariant_witness :
  (forall k : nat, 0 <= Z.of_nat k) /\
  run Z.of_nat (fun n => n * 15 / 10) (fun _ _ => true) [Generate 0; Plan]
    (init_arrays (boot 10)) = Some (add_optimal_redundant_edges generated10) /\
  (forall u, degree (add_optimal_redundant_edges generated10) u <= MAX_NEIGHBORS).
Proof.
  assert (H : run Z.of_nat (fun n => n * 15 / 10) (fun _ _ => true) [Generate 0; Plan]
                (init_arrays (boot 10)) = Some (add_optimal_redundant_edges generated10))
    by (vm_compute; reflexivity).
  split; [exact Nat2Z.is_nonneg|]. split; [exact H|].
  exact (proj1 (store_invariant Z.of_nat (fun n => n * 15 / 10) (fun _ _ => true) 10
                  [Generate 0; Plan] (add_optimal_redundant_edges generated10)
                  Nat2Z.is_nonneg H)).
Defined.

(** ** Scenarios *)

Lemma analyzed_star7 : find_biconnected_components star7 = Some (analyzed star7).
Proof. vm_compute. reflexivity. Qed.

Lemma analyzed_star10 : find_biconnected_components star10 = Some (analyzed star10).
Proof. vm_compute. reflexivity. Qed.

Lemma analyzed_path5 : find_biconnected_components path5 = Some (analyzed path5).
Proof. vm_compute. reflexivity. Qed.

(** C1 (the code departs from it).  On the star with centre 0 and leaves
    1..9 the analysis terminates and the link 0 - 1, which is in the graph,
    belongs to no block: the edge of the root's first child stays on the
    edge stack. *)
Theorem star10_edge_in_no_block :
  find_biconnected_components star10 = Some (analyzed star10) /\
  In 1 (neighbor_list (analyzed star10) 0) /\
  blocks (analyzed star10)
    = [[0; 2]; [0; 3]; [0; 4]; [0; 5]; [0; 6]; [0; 7]; [0; 8]; [0; 9]] /\
  blocks_of_edge (analyzed star10) 0 1 = [] /\
  stack_top (analyzed star10) = 1 /\
  ~ edges_partitioned (analyzed star10).
Proof.
  split; [exact analyzed_star10|].
  assert (H1 : In 1 (neighbor_list (analyzed star10) 0)) by (vm_compute; auto).
  assert (H2 : blocks_of_edge (analyzed star10) 0 1 = []) by (vm_compute; reflexivity).
  split; [exact H1|]. split; [vm_compute; reflexivity|]. split; [exact H2|].
  split; [vm_compute; reflexivity|].
  intros H. specialize (H 0 1 H1). rewrite H2 in H. discriminate.
Qed.

(** C3 (the code departs from it).  On the star with centre 0 and leaves
    1..6 the analysis reports the cut vertex 0 alone but five blocks only:
    the bridge 0 - 1 is in none.  The planner then adds three edges, 2 - 3,
    4 - 5 and 6 - 2: leaf 2 gains two neighbours, leaf 1 none, and the
    degree of the centre is unchanged. *)
Theorem star7_scenario :
  find_biconnected_components star7 = Some (analyzed star7) /\
  cut_vertices (analyzed star7) = [0] /\
  blocks (analyzed star7) = [[0; 2]; [0; 3]; [0; 4]; [0; 5]; [0; 6]] /\
  spec_leaves (analyzed star7) = [0; 1; 2; 3; 4] /\
  let st' := add_optimal_redundant_edges (analyzed star7) in
  leaf_list st' = [0; 1; 2; 3; 4] /\
  redundant_edges_added st' = 3 /\
  map (neighbor_list (analyzed star7)) (nodes 7)
    = [[1; 2; 3; 4; 5; 6]; [0]; [0]; [0]; [0]; [0]; [0]] /\
  map (neighbor_list st') (nodes 7)
    = [[1; 2; 3; 4; 5; 6]; [0]; [0; 3; 6]; [0; 2]; [0; 5]; [0; 4]; [0; 2]].
Proof.
  split; [exact analyzed_star7|]. vm_compute. repeat split.
Qed.

(** C4, as stated: refuted.  The path 0-1-2-3-4 has four edges and the
    analysis returns four blocks, not three. *)
Lemma path5_not_three_blocks : ~ path_scenario 3.
Proof.
  intros (st & H & _ & Hlen & _).
  rewrite analyzed_path5 in H. apply Some_inj in H. subst st.
  vm_compute in Hlen. discriminate.
Qed.

(** C4, amended.  On the path 0-1-2-3-4 the analysis reports the cut
    vertices 1, 2, 3 and four blocks, each a single edge, of which exactly
    two, {3,4} and {0,1}, are leaf blocks; the planner adds exactly one edge,
    between the representatives 4 and 0 of those two blocks, and the analysis
    of the result reports no cut vertex. *)
Theorem path5_scenario : path_scenario 4.
Proof.
  exists (analyzed path5). split; [exact analyzed_path5|].
  split; [vm_compute; reflexivity|]. split; [vm_compute; reflexivity|].
  split.
  { replace (blocks (analyzed path5)) with [[3; 4]; [2; 3]; [1; 2]; [0; 1]]
      by (vm_compute; reflexivity).
    repeat constructor.
    - exists 3, 4. split; [reflexivity|]. vm_compute. auto.
    - exists 2, 3. split; [reflexivity|]. vm_compute. auto.
    - exists 1, 2. split; [reflexivity|]. vm_compute. auto.
    - exists 0, 1. split; [reflexivity|]. vm_compute. auto. }
  split; [vm_compute; reflexivity|]. cbv zeta.
  split; [vm_compute; reflexivity|]. split; [vm_compute; reflexivity|].
  split; [vm_compute; reflexivity|].
  exists (analyzed (add_optimal_redundant_edges (analyzed path5))).
  split; vm_compute; reflexivity.
Qed.

(** ** Determinism *)

(** C8.  On every well-formed graph the analysis terminates, and running it
    again on its own result yields the same cut flags and the same list of
    blocks; more generally the cut vertices and the blocks it reports are the
    same from every state that holds the same graph, whatever an earlier run
    left in the other globals. *)
Theorem analysis_deterministic (st : state) :
  simple_graph st ->
  exists st1 st2,
    find_biconnected_components st = Some st1 /\
    find_biconnected_components st1 = Some st2 /\
    is_cut st2 = is_cut st1 /\
    cut_vertices st2 = cut_vertices st1 /\
    blocks st2 = blocks st1 /\
    forall st', same_graph st st' ->
      exists r, find_biconnected_components st' = Some r /\
        is_cut r = is_cut st1 /\ cut_vertices r = cut_vertices st1 /\
        blocks r = blocks st1.
Proof.
  intros Hg.
  destruct (find_biconnected_components_terminates st
              (simple_graph_neighbors_in_range st Hg)) as (st1 & E1).
  assert (Hany : forall st', same_graph st st' ->
            exists r, find_biconnected_components st' = Some r /\
              is_cut r = is_cut st1 /\ cut_vertices r = cut_vertices st1 /\
              blocks r = blocks st1).
  { intros st' Hst'.
    destruct (find_biconnected_components_sim st st' st1 Hst' E1) as (r & Er & Hs).
    exists r. split; [exact Er|]. split; [apply Hs|].
    split; [now apply sim_cut_vertices|now apply sim_blocks]. }
  destruct (find_biconnected_components_frame st st1 E1) as (Hf & _).
  destruct (Hany st1 Hf) as (st2 & E2 & H2).
  exists st1, st2. repeat split; try assumption; apply H2.
Qed.

Lemma analysis_deterministic_witness :
  simple_graph path5 /\
  exists st1 st2,
    find_biconnected_components path5 = Some st1 /\
    find_biconnected_components st1 = Some st2 /\
    blocks st2 = blocks st1.
Proof.
  split; [exact path5_simple|].
  destruct (analysis_deterministic path5 path5_simple)
    as (st1 & st2 & E1 & E2 & _ & _ & Hb & _).
  exists st1, st2. auto.
Defined.

(** ** Capacity bounds *)

Lemma push_edge_full (u v : Z) (st : state) :
  MAX_NODES * 10 - 1 <= stack_top st -> push_edge u v st = st.
Proof.
  intros H. unfold push_edge.
  destruct (Z.ltb_spec (stack_top st) (MAX_NODES * 10 - 1)); [lia|reflexivity].
Qed.

Lemma root_block_full (u children : Z) (st : state) :
  MAX_BLOCKS <= num_blocks st -> root_block u children st = st.
Proof.
  intros H. unfold root_block.
  destruct (Z.ltb_spec (num_blocks st) MAX_BLOCKS) as [H1|H1]; [lia|].
  now rewrite andb_false_r.
Qed.

Lemma after_child_full (u v children : Z) (st : state) :
  MAX_BLOCKS <= num_blocks st ->
  same_stack_and_blocks st (after_child u v children st).
Proof.
  intros H. unfold after_child. cbv zeta.
  set (s1 := if low st v <? low st u then set_low (upd (low st) u (low st v)) st else st).
  assert (H1 : same_stack_and_blocks st s1)
    by (unfold s1; destruct (_ <? _); now repeat split).
  destruct (_ || _)%bool; [|exact H1].
  set (s2 := set_is_cut (upd (is_cut s1) u 1) s1).
  assert (H2 : same_stack_and_blocks st s2) by exact H1.
  assert (Hn : num_blocks s2 = num_blocks st) by apply H2.
  rewrite Hn. destruct (Z.ltb_spec (num_blocks st) MAX_BLOCKS); [lia|exact H2].
Qed.

Lemma plan_pair_full (i : Z) (st : state) :
  capacity_skip st i -> plan_pair i st = st.
Proof.
  unfold capacity_skip, plan_pair. cbv zeta.
  set (a := find_non_cut_in_block st _). set (b := find_non_cut_in_block st _).
  intros (_ & _ & _ & _ & Hd).
  destruct (negb (a =? -1) && negb (b =? -1) && negb (a =? b)
            && (exists_edge st a b =? 0))%bool; [|reflexivity].
  destruct (Z.ltb_spec (degree st a) MAX_NEIGHBORS) as [Ha|Ha]; [|reflexivity].
  destruct (Z.ltb_spec (degree st b) MAX_NEIGHBORS) as [Hb|Hb]; [|reflexivity].
  lia.
Qed.

Lemma fan83_capacity_skip : capacity_skip (classified (analyzed fan83)) 0.
Proof.
  unfold capacity_skip. cbv zeta.
  assert (Ha : find_non_cut_in_block (classified (analyzed fan83))
                 (leaf_blocks (classified (analyzed fan83)) 0) = 82)
    by (vm_compute; reflexivity).
  assert (Hb : find_non_cut_in_block (classified (analyzed fan83))
                 (if 0 + 1 <? num_leaf_blocks (classified (analyzed fan83))
                  then leaf_blocks (classified (analyzed fan83)) (0 + 1)
                  else leaf_blocks (classified (analyzed fan83)) 0) = 0)
    by (vm_compute; reflexivity).
  rewrite Ha, Hb.
  assert (He : exists_edge (classified (analyzed fan83)) 82 0 = 0) by (vm_compute; reflexivity).
  assert (Hd : degree (classified (analyzed fan83)) 82 = 80) by (vm_compute; reflexivity).
  rewrite He, Hd. unfold MAX_NEIGHBORS. repeat split; try lia.
Qed.

(** C5, as stated: refuted.  On [fan83] the analysis finds the leaf blocks
    {1..82} and {0,1}, whose representatives 82 and 0 are distinct and not
    linked; node 82 has [MAX_NEIGHBORS] neighbours, the planner skips the
    pair and no global records it. *)
Lemma capacity_skip_is_silent : ~ capacity_surfaced.
Proof.
  intros H. apply (H (classified (analyzed fan83)) 0 fan83_capacity_skip).
  apply plan_pair_full, fan83_capacity_skip.
Qed.

(** C5, amended.  A capacity bound that is reached is absorbed silently:
    a push on a full edge stack changes no global; a block found when
    [num_blocks] is at [MAX_BLOCKS] is not recorded, the stack and the
    blocks staying as they are; a pair of representatives of which one has
    [MAX_NEIGHBORS] neighbours is skipped by the planner, no global
    changing. *)
Theorem capacity_bounds_are_silent (st : state) (u v children i : Z) :
  (MAX_NODES * 10 - 1 <= stack_top st -> push_edge u v st = st) /\
  (MAX_BLOCKS <= num_blocks st ->
     root_block u children st = st /\
     same_stack_and_blocks st (after_child u v children st)) /\
  (capacity_skip st i -> plan_pair i st = st).
Proof.
  split; [apply push_edge_full|]. split; [|apply plan_pair_full].
  intros H. split; [now apply root_block_full|now apply after_child_full].
Qed.

Lemma capacity_bounds_are_silent_witness :
  (MAX_NODES * 10 - 1 <= stack_top (set_stack_top 9999 (boot 10)) /\
   push_edge 0 1 (set_stack_top 9999 (boot 10)) = set_stack_top 9999 (boot 10)) /\
  (MAX_BLOCKS <= num_blocks (set_num_blocks 1250 (boot 10)) /\
   root_block 0 1 (set_num_blocks 1250 (boot 10)) = set_num_blocks 1250 (boot 10)) /\
  (capacity_skip (classified (analyzed fan83)) 0 /\
   plan_pair 0 (classified (analyzed fan83)) = classified (analyzed fan83)).
Proof.
  assert (H1 : MAX_NODES * 10 - 1 <= stack_top (set_stack_top 9999 (boot 10)))
    by (vm_compute; discriminate).
  assert (H2 : MAX_BLOCKS <= num_blocks (set_num_blocks 1250 (boot 10)))
    by (vm_compute; discriminate).
  split; [|split].
  - split; [exact H1|].
    exact (proj1 (capacity_bounds_are_silent (set_stack_top 9999 (boot 10)) 0 1 1 0) H1).
  - split; [exact H2|].
    exact (proj1 (proj1 (proj2 (capacity_bounds_are_silent
                                  (set_num_blocks 1250 (boot 10)) 0 1 1 0)) H2)).
  - split; [exact fan83_capacity_skip|].
    exact (proj2 (proj2 (capacity_bounds_are_silent (classified (analyzed fan83)) 0 1 1 0))
             fan83_capacity_skip).
Defined.

(** ** Cut vertices *)

(** C2.  On every connected simple graph within the bounds the analysis
    terminates and flags exactly the articulation points: [is_cut[v]] is
    set iff two of the nodes other than [v] are joined by no path that
    avoids [v], which is also what the brute-force reachability oracle
    answers for [v]. *)
Theorem cut_flags_are_articulation_points (st : state) :
  simple_graph st -> connected st ->
  exists st', find_biconnected_components st = Some st' /\
    forall v, 0 <= v < n_nodes st ->
      (is_cut st' v <> 0 <-> articulation st v) /\
      (is_cut st' v <> 0 <-> articulationb st v = true).
Proof.
  intros Hs Hc.
  destruct (find_biconnected_components_cut st Hs Hc) as (st' & E & H).
  exists st'. split; [exact E|]. intros v Hv.
  split; [now apply H|].
  rewrite (articulationb_spec st Hs v). now apply H.
Qed.

Lemma cut_flags_are_articulation_points_witness :
  simple_graph path5 /\ connected path5 /\
  exists st', find_biconnected_components path5 = Some st' /\
    forall v, 0 <= v < n_nodes path5 ->
      (is_cut st' v <> 0 <-> articulation path5 v) /\
      (is_cut st' v <> 0 <-> articulationb path5 v = true).
Proof.
  split; [exact path5_simple|]. split; [exact path5_connected|].
  exact (cut_flags_are_articulation_points path5 path5_simple path5_connected).
Defined.

(** * The rest of the program *)

(** ** The generated topology *)

Lemma generated10_well_formed : well_formed generated10.
Proof.
  destruct (generate_generated_ok Z.of_nat (fun n => n * 15 / 10) (fun _ _ => true)
              Nat2Z.is_nonneg 0 (boot 10) ltac:(cbn; lia)) as (Hok & Hwf & _).
  split; assumption.
Qed.

Lemma generated10_simple : simple_graph generated10.
Proof.
  apply well_formed_simple_graph; [exact generated10_well_formed|].
  split; vm_compute; discriminate.
Qed.

Lemma generated10_connected : connected generated10.
Proof.
  exact (generate_connected Z.of_nat (fun n => n * 15 / 10) (fun _ _ => true)
           Nat2Z.is_nonneg 0 (boot 10) ltac:(cbn; unfold MAX_NEIGHBORS; lia)).
Qed.

Lemma generated_star10_well_formed : well_formed generated_star10.
Proof.
  destruct (generate_generated_ok (fun _ => 0) (fun n => n * 15 / 10) (fun _ _ => true)
              (fun _ => Z.le_refl 0) 0 (boot 10) ltac:(cbn; lia)) as (Hok & Hwf & _).
  split; assumption.
Qed.

Lemma generated_star10_simple : simple_graph generated_star10.
Proof.
  apply well_formed_simple_graph; [exact generated_star10_well_formed|].
  split; vm_compute; discriminate.
Qed.

Lemma generated_star10_connected : connected generated_star10.
Proof.
  exact (generate_connected (fun _ => 0) (fun n => n * 15 / 10) (fun _ _ => true)
           (fun _ => Z.le_refl 0) 0 (boot 10) ltac:(cbn; unfold MAX_NEIGHBORS; lia)).
Qed.

(** X1.  Whatever numbers [rand()] returns, the generator started on the
    initialised store with 1 to [MAX_NODES] nodes builds a simple graph:
    the node count is unchanged, every neighbour is a node, no node is its
    own neighbour or listed twice, the lists are symmetric, the degrees are
    within [MAX_NEIGHBORS], and [exists_edge] flags exactly the links of
    the lists. *)
Theorem generator_builds_simple_graph (rand_seq : nat -> Z) (target_edges : Z -> Z)
    (accept : Z -> Z -> bool) (c : nat) (st : state) :
  (forall k, 0 <= rand_seq k) -> 1 <= n_nodes st <= MAX_NODES ->
  let g := snd (generate_random_topology rand_seq target_edges accept c
                  (init_arrays st)) in
  n_nodes g = n_nodes st /\ simple_graph g /\
  (forall u v, exists_edge g u v <> 0 <-> In v (neighbor_list g u)).
Proof.
  intros Hr Hn g. split; [|split].
  - unfold g. rewrite generate_n_nodes by (exact Hr || (cbn; lia)). reflexivity.
  - now apply generate_simple_graph.
  - destruct (generate_generated_ok rand_seq target_edges accept Hr c st (proj1 Hn))
      as (Hok & _). apply (ok_matrix _ Hok).
Qed.

Lemma generator_builds_simple_graph_witness :
  (forall k : nat, 0 <= Z.of_nat k) /\ 1 <= n_nodes (boot 10) <= MAX_NODES /\
  simple_graph generated10.
Proof.
  assert (Hn : 1 <= n_nodes (boot 10) <= MAX_NODES) by (split; vm_compute; discriminate).
  split; [exact Nat2Z.is_nonneg|]. split; [exact Hn|].
  exact (proj1 (proj2 (generator_builds_simple_graph Z.of_nat (fun n => n * 15 / 10)
                         (fun _ _ => true) 0 (boot 10) Nat2Z.is_nonneg Hn))).
Defined.

(** X2.  The generator counts its links: when it returns, the degrees sum
    to twice [original_edges], no link is tagged or counted as redundant,
    and [original_edges] is at most the larger of [n_nodes - 1] (the
    backbone) and the edge target. *)
Theorem generator_counts_its_links (rand_seq : nat -> Z) (target_edges : Z -> Z)
    (accept : Z -> Z -> bool) (c : nat) (st : state) :
  (forall k, 0 <= rand_seq k) -> 1 <= n_nodes st ->
  let g := snd (generate_random_topology rand_seq target_edges accept c
                  (init_arrays st)) in
  total_degree g = 2 * original_edges g /\
  original_edges g <= Z.max (n_nodes st - 1) (target_edges (n_nodes st)) /\
  redundant_edges_added g = 0 /\ redundant_edge g = (fun _ _ => 0).
Proof.
  intros Hr Hn g.
  destruct (generate_generated_ok rand_seq target_edges accept Hr c st Hn) as (_ & _ & Ht).
  destruct (generate_untagged rand_seq target_edges accept Hr c st Hn) as [Hred Hadd].
  split; [exact Ht|]. split; [now apply generate_edge_bound|]. split; assumption.
Qed.

Lemma generator_counts_its_links_witness :
  (forall k : nat, 0 <= Z.of_nat k) /\ 1 <= n_nodes (boot 10) /\
  total_degree generated10 = 2 * original_edges generated10.
Proof.
  assert (Hn : 1 <= n_nodes (boot 10)) by (vm_compute; discriminate).
  split; [exact Nat2Z.is_nonneg|]. split; [exact Hn|].
  exact (proj1 (generator_counts_its_links Z.of_nat (fun n => n * 15 / 10)
                  (fun _ _ => true) 0 (boot 10) Nat2Z.is_nonneg Hn)).
Defined.

(** X3.  With at most [MAX_NEIGHBORS + 1] nodes no insertion of the tree
    backbone is refused: the generated graph is connected and has at least
    [n_nodes - 1] links. *)
Theorem generator_spans_small_networks (rand_seq : nat -> Z) (target_edges : Z -> Z)
    (accept : Z -> Z -> bool) (c : nat) (st : state) :
  (forall k, 0 <= rand_seq k) -> 1 <= n_nodes st <= MAX_NEIGHBORS + 1 ->
  let g := snd (generate_random_topology rand_seq target_edges accept c
                  (init_arrays st)) in
  connected g /\ n_nodes st - 1 <= original_edges g.
Proof.
  intros Hr Hn g. split.
  - now apply generate_connected.
  - now apply (generate_spanning rand_seq target_edges accept Hr c st Hn).
Qed.

Lemma generator_spans_small_networks_witness :
  (forall k : nat, 0 <= Z.of_nat k) /\ 1 <= n_nodes (boot 10) <= MAX_NEIGHBORS + 1 /\
  connected generated10.
Proof.
  assert (Hn : 1 <= n_nodes (boot 10) <= MAX_NEIGHBORS + 1)
    by (split; vm_compute; discriminate).
  split; [exact Nat2Z.is_nonneg|]. split; [exact Hn|].
  exact (proj1 (generator_spans_small_networks Z.of_nat (fun n => n * 15 / 10)
                  (fun _ _ => true) 0 (boot 10) Nat2Z.is_nonneg Hn)).
Defined.

(** X4.  With more than [MAX_NEIGHBORS + 1] nodes the backbone need not
    span the graph: when [rand()] returns 0 every time, node 0 is drawn as
    the parent of every node, the insertions are refused once it has
    [MAX_NEIGHBORS] neighbours, and the nodes from [MAX_NEIGHBORS + 1] on
    are left without any link.  The generated graph is not connected. *)
Theorem generator_can_isolate_nodes (target_edges : Z -> Z) (accept : Z -> Z -> bool)
    (c : nat) (st : state) :
  MAX_NEIGHBORS + 1 < n_nodes st ->
  let g := snd (generate_random_topology (fun _ => 0) target_edges accept c
                  (init_arrays st)) in
  (forall w, MAX_NEIGHBORS + 1 <= w -> neighbor_list g w = []) /\ ~ connected g.
Proof.
  intros Hn g. unfold MAX_NEIGHBORS in Hn.
  assert (Hiso : forall w, MAX_NEIGHBORS + 1 <= w -> neighbor_list g w = []).
  { intros w Hw. unfold neighbor_list, g.
    rewrite generate_isolated by (exact Hw || lia). reflexivity. }
  split; [exact Hiso|]. intros Hc.
  assert (Hgn : n_nodes g = n_nodes st).
  { unfold g. rewrite generate_n_nodes by ((intros k; lia) || (cbn; lia)). reflexivity. }
  assert (C : conn_in g (inr g) 81 0) by (apply Hc; unfold inr; lia).
  inversion C as [|x y z Hx Hab Hyz]; subst.
  destruct Hab as [_ Hin]. rewrite Hiso in Hin by (unfold MAX_NEIGHBORS; lia).
  destruct Hin.
Qed.

Lemma generator_can_isolate_nodes_witness :
  MAX_NEIGHBORS + 1 < n_nodes (boot 82) /\
  ~ connected (snd (generate_random_topology (fun _ => 0) (fun n => n * 15 / 10)
                      (fun _ _ => true) 0 (init_arrays (boot 82)))).
Proof.
  assert (Hn : MAX_NEIGHBORS + 1 < n_nodes (boot 82)) by (vm_compute; reflexivity).
  split; [exact Hn|].
  exact (proj2 (generator_can_isolate_nodes (fun n => n * 15 / 10) (fun _ _ => true)
                  0 (boot 82) Hn)).
Defined.

(** ** The analysis *)

Lemma path5_in_range : neighbors_in_range path5.
Proof. exact (simple_graph_neighbors_in_range path5 path5_simple). Qed.

Lemma path5_analysis : find_biconnected_components path5 = Some (analyzed path5).
Proof. vm_compute. reflexivity. Qed.

(** X5.  On every graph whose neighbours are nodes, connected or not, the
    analysis terminates (the recursion is never deeper than [n_nodes]),
    discovers every node, and leaves the clock [time_dfs] at [n_nodes]:
    each node is discovered exactly once. *)
Theorem analysis_discovers_every_node (g : state) :
  neighbors_in_range g -> 0 <= n_nodes g ->
  exists s', find_biconnected_components g = Some s' /\
    (forall w, 0 <= w < n_nodes g -> visited s' w <> 0) /\
    time_dfs s' = n_nodes g.
Proof.
  intros Hr Hn.
  destruct (find_biconnected_components_counts g Hr Hn) as (s' & E & Hv & _ & Ht).
  exists s'. split; [exact E|]. split; [exact Hv|exact Ht].
Qed.

Lemma analysis_discovers_every_node_witness :
  neighbors_in_range path5 /\ 0 <= n_nodes path5 /\
  exists s', find_biconnected_components path5 = Some s' /\
    (forall w, 0 <= w < n_nodes path5 -> visited s' w <> 0) /\
    time_dfs s' = n_nodes path5.
Proof.
  assert (Hn : 0 <= n_nodes path5) by (vm_compute; discriminate).
  split; [exact path5_in_range|]. split; [exact Hn|].
  exact (analysis_discovers_every_node path5 path5_in_range Hn).
Defined.

(** X6.  The analysis records at most one block per node: [num_blocks]
    ends at [n_nodes] at most, so for a node count within [MAX_NODES] the
    bound [MAX_BLOCKS] on the number of blocks is never reached. *)
Theorem analysis_records_at_most_one_block_per_node (g : state) :
  neighbors_in_range g -> 0 <= n_nodes g <= MAX_NODES ->
  exists s', find_biconnected_components g = Some s' /\
    num_blocks s' <= n_nodes g /\ num_blocks s' < MAX_BLOCKS.
Proof.
  intros Hr Hn.
  destruct (find_biconnected_components_counts g Hr (proj1 Hn)) as (s' & E & _ & Hb & Ht).
  exists s'. split; [exact E|]. unfold MAX_NODES, MAX_BLOCKS in *. lia.
Qed.

Lemma analysis_records_at_most_one_block_per_node_witness :
  neighbors_in_range path5 /\ 0 <= n_nodes path5 <= MAX_NODES /\
  exists s', find_biconnected_components path5 = Some s' /\
    num_blocks s' <= n_nodes path5 /\ num_blocks s' < MAX_BLOCKS.
Proof.
  assert (Hn : 0 <= n_nodes path5 <= MAX_NODES) by (split; vm_compute; discriminate).
  split; [exact path5_in_range|]. split; [exact Hn|].
  exact (analysis_records_at_most_one_block_per_node path5 path5_in_range Hn).
Defined.

(** X7.  The analysis writes its own variables only: the node count, the
    neighbour lists, the degrees, the adjacency matrix, the redundancy
    tags, the two edge counters and the outputs of the classifier are the
    same after it as before. *)
Theorem analysis_writes_only_its_results (st st' : state) :
  find_biconnected_components st = Some st' ->
  same_graph st st' /\ same_leaves st st' /\
  redundant_edge st' = redundant_edge st /\
  original_edges st' = original_edges st /\
  redundant_edges_added st' = redundant_edges_added st.
Proof. intros H. exact (find_biconnected_components_frame st st' H). Qed.

Lemma analysis_writes_only_its_results_witness :
  find_biconnected_components path5 = Some (analyzed path5) /\
  same_graph path5 (analyzed path5).
Proof.
  split; [exact path5_analysis|].
  exact (proj1 (analysis_writes_only_its_results path5 (analyzed path5) path5_analysis)).
Defined.

(** X8.  The analysis stays inside its arrays: when it returns, the edge
    stack holds between 0 and [MAX_NODES * 10 - 1] entries, there are
    between 0 and [MAX_BLOCKS] blocks, and every recorded block lists nodes
    of the graph, none twice, so at most [n_nodes] of them. *)
Theorem analysis_stays_within_its_arrays (g s' : state) :
  neighbors_in_range g -> 0 <= n_nodes g ->
  find_biconnected_components g = Some s' ->
  0 <= stack_top s' <= MAX_NODES * 10 - 1 /\
  0 <= num_blocks s' <= MAX_BLOCKS /\
  forall b, 0 <= b < num_blocks s' ->
    0 <= block_size s' b <= n_nodes g /\
    NoDup (block_members s' b) /\
    forall x, In x (block_members s' b) -> 0 <= x < n_nodes g.
Proof.
  intros Hr Hn H. pose proof (find_biconnected_components_safe g Hr s' H) as Hs.
  split; [apply (safe_stack g s' Hs)|]. split; [apply (safe_blocks g s' Hs)|].
  intros b Hb. split; [|exact (safe_members g s' Hs b Hb)].
  split; [apply (safe_sizes g s' Hs)|now apply (analysis_safe_block_size g s')].
Qed.

Lemma analysis_stays_within_its_arrays_witness :
  neighbors_in_range path5 /\ 0 <= n_nodes path5 /\
  find_biconnected_components path5 = Some (analyzed path5) /\
  0 <= num_blocks (analyzed path5) <= MAX_BLOCKS.
Proof.
  assert (Hn : 0 <= n_nodes path5) by (vm_compute; discriminate).
  split; [exact path5_in_range|]. split; [exact Hn|]. split; [exact path5_analysis|].
  exact (proj1 (proj2 (analysis_stays_within_its_arrays path5 (analyzed path5)
                         path5_in_range Hn path5_analysis))).
Defined.

(** X9.  On a graph without any link the analysis terminates and reports
    no cut vertex and no block, whatever the node count. *)
Theorem analysis_of_a_graph_without_links (st : state) :
  (forall w, degree st w = 0) ->
  exists s', find_biconnected_components st = Some s' /\
    cut_vertices s' = [] /\ blocks s' = [].
Proof.
  intros Hd.
  destruct (find_biconnected_components_edgeless st Hd) as (s' & E & Hb & Hc).
  exists s'. split; [exact E|]. split.
  - unfold cut_vertices. rewrite Hc. cbn [Z.eqb negb].
    induction (map Z.of_nat _) as [|a l IH]; [reflexivity|exact IH].
  - unfold blocks. rewrite Hb. reflexivity.
Qed.

Lemma analysis_of_a_graph_without_links_witness :
  (forall w, degree (init_arrays (boot 10)) w = 0) /\
  exists s', find_biconnected_components (init_arrays (boot 10)) = Some s' /\
    cut_vertices s' = [] /\ blocks s' = [].
Proof.
  assert (Hd : forall w, degree (init_arrays (boot 10)) w = 0) by (intros w; reflexivity).
  split; [exact Hd|].
  exact (analysis_of_a_graph_without_links (init_arrays (boot 10)) Hd).
Defined.

(** ** The classifier *)

(** X10.  The classifier lists the leaf blocks in increasing order of their
    index: [num_leaf_blocks] is between 0 and [num_blocks], the entries of
    [leaf_blocks] below it are block indices in strictly increasing order,
    a block is listed iff it has exactly one member flagged as a cut
    vertex, and [is_leaf_block] flags exactly the listed blocks. *)
Theorem classifier_lists_leaf_blocks_in_order (st : state) :
  let st' := identify_leaf_blocks st in
  0 <= num_leaf_blocks st' <= Z.max 0 (num_blocks st) /\
  (forall i, 0 <= i < num_leaf_blocks st' -> 0 <= leaf_blocks st' i < num_blocks st) /\
  (forall i j, 0 <= i < j -> j < num_leaf_blocks st' ->
     leaf_blocks st' i < leaf_blocks st' j) /\
  (forall b, In b (leaf_list st') <->
     0 <= b < num_blocks st /\ cut_members st b = 1%nat) /\
  (forall b, is_leaf_block st' b <> 0 <-> In b (leaf_list st')).
Proof.
  intros st'. destruct (identify_leaf_blocks_spec st) as [Hl _].
  destruct (identify_leaf_blocks_sorted st) as [Hs Hf].
  assert (Hin : forall b, In b (leaf_list st') <->
                  0 <= b < num_blocks st /\ cut_members st b = 1%nat).
  { intros b. unfold st'. rewrite Hl, spec_leaves_In. unfold spec_is_leaf.
    now rewrite Nat.eqb_eq. }
  split; [apply identify_leaf_blocks_count|]. split; [|split; [exact Hs|split; [exact Hin|exact Hf]]].
  intros i Hi. apply Hin. apply leaf_list_In. now exists i.
Qed.

(** X11.  [find_non_cut_in_block] returns -1 for an empty block and a
    member of the block otherwise; the member it returns is flagged as a
    cut vertex only when every member of the block is. *)
Theorem representative_is_a_member (st : state) (b : Z) :
  (block_size st b <= 0 -> find_non_cut_in_block st b = -1) /\
  (0 < block_size st b -> In (find_non_cut_in_block st b) (block_members st b)) /\
  (is_cut st (find_non_cut_in_block st b) <> 0 ->
     forall x, In x (block_members st b) -> is_cut st x <> 0).
Proof.
  destruct (find_non_cut_in_block_cases st b) as (H1 & H2 & H3).
  split; [exact H1|]. split; [exact H2|exact H3].
Qed.

(** ** The planner on a well-formed graph *)

Lemma generated10_analysis :
  find_biconnected_components generated10 = Some (analyzed generated10).
Proof. vm_compute. reflexivity. Qed.

Lemma analyzed_generated10_well_formed : well_formed (analyzed generated10).
Proof.
  apply (well_formed_ext generated10); [|exact generated10_well_formed].
  exact (proj1 (find_biconnected_components_frame _ _ generated10_analysis)).
Qed.

Lemma analyzed_generated10_blocks : blocks_in_range (analyzed generated10).
Proof.
  apply (find_biconnected_components_blocks_in_range generated10);
    [|exact generated10_analysis].
  exact (simple_graph_neighbors_in_range _ generated10_simple).
Qed.

Lemma generated_star10_analysis :
  find_biconnected_components generated_star10 = Some (analyzed generated_star10).
Proof. vm_compute. reflexivity. Qed.

Lemma analyzed_generated_star10_well_formed : well_formed (analyzed generated_star10).
Proof.
  apply (well_formed_ext generated_star10); [|exact generated_star10_well_formed].
  exact (proj1 (find_biconnected_components_frame _ _ generated_star10_analysis)).
Qed.

Lemma analyzed_generated_star10_blocks : blocks_in_range (analyzed generated_star10).
Proof.
  apply (find_biconnected_components_blocks_in_range generated_star10);
    [|exact generated_star10_analysis].
  exact (simple_graph_neighbors_in_range _ generated_star10_simple).
Qed.

Lemma analyzed_generated_star10_connected : connected (analyzed generated_star10).
Proof.
  apply (connected_ext generated_star10); [|exact generated_star10_connected].
  exact (proj1 (find_biconnected_components_frame _ _ generated_star10_analysis)).
Qed.

(** X12.  The planner keeps the graph well formed: run on a well-formed
    store whose blocks list nodes of the graph, it leaves the node count as
    it is and a simple graph (no link from a node to itself, none listed
    twice, symmetric lists, degrees within [MAX_NEIGHBORS]) whose adjacency
    matrix flags exactly the links of the lists. *)
Theorem planner_keeps_graph_well_formed (st : state) :
  well_formed st -> blocks_in_range st -> 0 <= n_nodes st <= MAX_NODES ->
  let st' := add_optimal_redundant_edges st in
  n_nodes st' = n_nodes st /\ well_formed st' /\ simple_graph st'.
Proof.
  intros Hw Hr Hn st'.
  assert (Hn' : n_nodes st' = n_nodes st) by apply planner_n_nodes.
  assert (Hw' : well_formed st') by now apply planner_well_formed.
  split; [exact Hn'|]. split; [exact Hw'|].
  apply well_formed_simple_graph; [exact Hw'|lia].
Qed.

(** The star the generator builds when [rand()] returns 0 every time: the
    planner adds four links to it. *)
Lemma planner_keeps_graph_well_formed_witness :
  well_formed (analyzed generated_star10) /\
  blocks_in_range (analyzed generated_star10) /\
  0 <= n_nodes (analyzed generated_star10) <= MAX_NODES /\
  (n_nodes (add_optimal_redundant_edges (analyzed generated_star10))
     = n_nodes (analyzed generated_star10) /\
   well_formed (add_optimal_redundant_edges (analyzed generated_star10)) /\
   simple_graph (add_optimal_redundant_edges (analyzed generated_star10))) /\
  redundant_edges_added (add_optimal_redundant_edges (analyzed generated_star10)) = 4 /\
  map (neighbor_list (add_optimal_redundant_edges (analyzed generated_star10)))
      [0; 1; 2; 3; 4; 5; 6; 7; 8; 9]
    = [[1; 2; 3; 4; 5; 6; 7; 8; 9]; [0]; [0; 3]; [0; 2]; [0; 5]; [0; 4];
       [0; 7]; [0; 6]; [0; 9]; [0; 8]].
Proof.
  assert (Hn : 0 <= n_nodes (analyzed generated_star10) <= MAX_NODES)
    by (split; vm_compute; discriminate).
  split; [exact analyzed_generated_star10_well_formed|].
  split; [exact analyzed_generated_star10_blocks|]. split; [exact Hn|].
  split; [exact (planner_keeps_graph_well_formed (analyzed generated_star10)
                   analyzed_generated_star10_well_formed
                   analyzed_generated_star10_blocks Hn)|].
  vm_compute. split; reflexivity.
Defined.

(** X13.  The planner keeps a connected graph connected: it only adds
    links, so every path of the graph it is given is a path of the graph it
    leaves. *)
Theorem planner_keeps_graph_connected (st : state) :
  connected st -> connected (add_optimal_redundant_edges st).
Proof.
  intros Hc a b Ha Hb. unfold inr in Ha, Hb. rewrite planner_n_nodes in Ha, Hb.
  apply (conn_in_grows st); [apply planner_grows|apply planner_n_nodes|].
  now apply Hc.
Qed.

(** On the analysed star of the generator, to which the planner adds four
    links. *)
Lemma planner_keeps_graph_connected_witness :
  connected (analyzed generated_star10) /\
  connected (add_optimal_redundant_edges (analyzed generated_star10)) /\
  redundant_edges_added (add_optimal_redundant_edges (analyzed generated_star10)) = 4.
Proof.
  split; [exact analyzed_generated_star10_connected|].
  split; [|vm_compute; reflexivity].
  exact (planner_keeps_graph_connected (analyzed generated_star10)
           analyzed_generated_star10_connected).
Defined.

(** X14.  Analysis, planner, analysis: on a well-formed connected graph the
    first analysis terminates, the planner run on its result leaves a graph
    on which the second analysis terminates, and the cut flags of the
    second analysis are exactly the articulation points of the graph with
    the added links, as the brute-force reachability oracle finds them. *)
Theorem reanalysis_after_planner_is_exact (st : state) :
  well_formed st -> connected st -> 0 <= n_nodes st <= MAX_NODES ->
  exists a f,
    find_biconnected_components st = Some a /\
    find_biconnected_components (add_optimal_redundant_edges a) = Some f /\
    forall v, 0 <= v < n_nodes st ->
      (is_cut f v <> 0 <-> articulationb (add_optimal_redundant_edges a) v = true).
Proof.
  intros Hw Hc Hn.
  assert (Hs : simple_graph st) by now apply well_formed_simple_graph.
  destruct (find_biconnected_components_terminates st
              (simple_graph_neighbors_in_range st Hs)) as [a Ea].
  pose proof (find_biconnected_components_frame st a Ea) as (Fa & _).
  assert (Han : n_nodes a = n_nodes st) by apply Fa.
  assert (Hra : blocks_in_range a).
  { apply (find_biconnected_components_blocks_in_range st); [|exact Ea].
    now apply simple_graph_neighbors_in_range. }
  set (p := add_optimal_redundant_edges a).
  assert (Hpn : n_nodes p = n_nodes st) by (unfold p; now rewrite planner_n_nodes).
  assert (Hwp : well_formed p).
  { apply planner_well_formed; [exact Hra|]. exact (well_formed_ext st a Fa Hw). }
  assert (Hsp : simple_graph p) by (apply well_formed_simple_graph; [exact Hwp|lia]).
  assert (Hcp : connected p).
  { unfold p. apply planner_connected. exact (connected_ext st a Fa Hc). }
  destruct (find_biconnected_components_cut p Hsp Hcp) as (f & Ef & Hf).
  exists a, f. split; [exact Ea|]. split; [exact Ef|].
  intros v Hv. fold p. rewrite (articulationb_spec p Hsp v). apply Hf. unfold inr. lia.
Qed.

(** On the star of the generator: the first analysis flags node 0, the
    planner adds four links, and node 0, from which node 1 still hangs, is
    the one node the second analysis flags. *)
Lemma reanalysis_after_planner_is_exact_witness :
  well_formed generated_star10 /\ connected generated_star10 /\
  0 <= n_nodes generated_star10 <= MAX_NODES /\
  (exists a f,
    find_biconnected_components generated_star10 = Some a /\
    find_biconnected_components (add_optimal_redundant_edges a) = Some f /\
    forall v, 0 <= v < n_nodes generated_star10 ->
      (is_cut f v <> 0 <-> articulationb (add_optimal_redundant_edges a) v = true)) /\
  cut_vertices (analyzed generated_star10) = [0] /\
  redundant_edges_added (add_optimal_redundant_edges (analyzed generated_star10)) = 4 /\
  cut_vertices (analyzed (add_optimal_redundant_edges (analyzed generated_star10))) = [0].
Proof.
  assert (Hn : 0 <= n_nodes generated_star10 <= MAX_NODES)
    by (split; vm_compute; discriminate).
  split; [exact generated_star10_well_formed|]. split; [exact generated_star10_connected|].
  split; [exact Hn|].
  split; [exact (reanalysis_after_planner_is_exact generated_star10
                   generated_star10_well_formed generated_star10_connected Hn)|].
  vm_compute. repeat split.
Defined.

(** ** The statistics and the DOT files *)

(** X15.  [compute_network_metrics] resets the initial cut-vertex count
    and the initial maximum degree to 0 and computes the other statistics
    from the state it is called in:
    the final count is the number of nodes flagged as cut vertices, the
    final average degree is the sum of the degrees over [n_nodes], the
    initial one is twice [original_edges] over [n_nodes], and
    [max_degree_final] bounds every degree and is 0 or the degree of some
    node. *)
Theorem metrics_describe_the_final_state (st : state) :
  let m := compute_network_metrics st in
  initial_cut_vertices m = 0 /\ max_degree_initial m = 0 /\
  final_cut_vertices m = Z.of_nat (length (cut_vertices st)) /\
  avg_degree_initial m = (2 * original_edges st, n_nodes st) /\
  avg_degree_final m = (total_degree st, n_nodes st) /\
  (forall u, 0 <= u < n_nodes st -> degree st u <= max_degree_final m) /\
  (max_degree_final m = 0 \/
   exists u, 0 <= u < n_nodes st /\ degree st u = max_degree_final m).
Proof.
  intros m. destruct (compute_network_metrics_spec st) as (H1 & H2 & H3 & H4 & H5 & H6).
  assert (H0 : max_degree_initial m = 0).
  { unfold m, compute_network_metrics. cbv zeta.
    destruct (degree_loop _ _ _ _ _) as [s d]. reflexivity. }
  split; [exact H1|]. split; [exact H0|]. split; [exact H2|]. split; [exact H3|]. split; [exact H4|].
  split; [exact H5|exact H6].
Qed.

(** X16.  With at most 256 nodes the DOT file of a simple graph holds the
    header, the line of the root (node 0, in blue even when it is a cut
    vertex), one red line for each other cut vertex in increasing order,
    then exactly one line for each link, written from its lower end in the
    order of the neighbour lists (green when [show_redundant] is set and
    the link is tagged, black otherwise), and the footer.  (A cell of
    [shown] is a [char]: beyond 256 nodes two neighbours can be taken for
    one another.) *)
Theorem export_writes_each_link_once (st : state) (show_redundant : Z) :
  simple_graph st -> 1 <= n_nodes st <= 256 ->
  export_dot_graph st true show_redundant =
  Some (DotHeader :: spec_node_lines st ++ spec_edge_lines st show_redundant
          ++ [DotFooter]).
Proof.
  intros Hs Hn. apply export_dot_graph_spec; [exact Hs|lia|lia].
Qed.

Lemma export_writes_each_link_once_witness :
  simple_graph path5 /\ 1 <= n_nodes path5 <= 256 /\
  export_dot_graph path5 true 1 =
  Some (DotHeader :: spec_node_lines path5 ++ spec_edge_lines path5 1 ++ [DotFooter]).
Proof.
  assert (Hn : 1 <= n_nodes path5 <= 256) by (split; vm_compute; discriminate).
  split; [exact path5_simple|]. split; [exact Hn|].
  exact (export_writes_each_link_once path5 1 path5_simple Hn).
Defined.

(** ** A run of the process *)

(** X17.  Whatever the command line and the numbers drawn, the process
    terminates: the node count is the argument when it is between 10 and
    [MAX_NODES] and 50 otherwise, both analyses return, and the run ends
    on a simple graph with every degree within [MAX_NEIGHBORS], the edge
    stack and the blocks within their arrays. *)
Theorem process_terminates_within_bounds (rand_seq : nat -> Z) (target_edges : Z -> Z)
    (accept : Z -> Z -> bool) (opened_old opened_final : bool)
    (argc user_nodes : Z) (c : nat) :
  (forall k, 0 <= rand_seq k) ->
  exists o,
    cut_vertex_mesh_process rand_seq target_edges accept opened_old opened_final
      argc user_nodes c = Some o /\
    n_nodes (out_state o) = configure argc user_nodes 50 /\
    10 <= n_nodes (out_state o) <= MAX_NODES /\
    (n_nodes (out_state o) = user_nodes \/ n_nodes (out_state o) = 50) /\
    simple_graph (out_state o) /\
    (forall u, 0 <= degree (out_state o) u <= MAX_NEIGHBORS) /\
    analysis_safe (out_state o) (out_state o).
Proof.
  intros Hr. destruct (configure_range argc user_nodes) as [Hn Hc].
  unfold cut_vertex_mesh_process.
  destruct (run_meshification_stages rand_seq target_edges accept opened_old
              opened_final Hr c (boot (configure argc user_nodes 50)) ltac:(cbn; lia))
    as (a & f & _ & _ & E & _ & _ & _ & _ & Hw & Hfn & Hs).
  change (n_nodes (boot (configure argc user_nodes 50)))
    with (configure argc user_nodes 50) in Hfn.
  eexists. split; [exact E|]. cbn [out_state].
  split; [exact Hfn|]. rewrite Hfn. split; [exact Hn|]. split; [exact Hc|].
  split; [apply well_formed_simple_graph; [exact Hw|lia]|].
  split; [apply (ok_bound f (proj1 Hw))|exact Hs].
Qed.

Lemma process_terminates_within_bounds_witness :
  (forall k : nat, 0 <= Z.of_nat k) /\
  exists o,
    cut_vertex_mesh_process Z.of_nat (fun n => n * 15 / 10) (fun _ _ => true)
      true true 2 12 0 = Some o /\
    n_nodes (out_state o) = configure 2 12 50.
Proof.
  split; [exact Nat2Z.is_nonneg|].
  destruct (process_terminates_within_bounds Z.of_nat (fun n => n * 15 / 10)
              (fun _ _ => true) true true 2 12 0 Nat2Z.is_nonneg) as (o & E & Hn & _).
  exists o. split; [exact E|exact Hn].
Defined.

(** X18.  A run logs the number of cut vertices of the generated graph,
    runs the planner and the second analysis exactly when that number is
    positive, and computes its statistics last: the final count is the
    number of nodes flagged in the state the run ends in, and the initial
    count of the report is 0 whatever was logged, since
    [compute_network_metrics] resets it. *)
Theorem run_resets_the_initial_count (rand_seq : nat -> Z) (target_edges : Z -> Z)
    (accept : Z -> Z -> bool) (opened_old opened_final : bool) (c : nat) (st : state) :
  (forall k, 0 <= rand_seq k) -> 1 <= n_nodes st <= MAX_NODES ->
  let g := snd (generate_random_topology rand_seq target_edges accept c
                  (init_arrays st)) in
  exists a o,
    find_biconnected_components g = Some a /\
    run_meshification rand_seq target_edges accept opened_old opened_final c st
      = Some o /\
    log_initial o = (Z.of_nat (length (cut_vertices a)), num_blocks a) /\
    (0 < fst (log_initial o) ->
       find_biconnected_components (add_optimal_redundant_edges a)
         = Some (out_state o)) /\
    (fst (log_initial o) = 0 -> out_state o = a) /\
    initial_cut_vertices (out_metrics o) = 0 /\
    final_cut_vertices (out_metrics o) = Z.of_nat (length (cut_vertices (out_state o))).
Proof.
  intros Hr Hn g.
  destruct (run_meshification_stages rand_seq target_edges accept opened_old
              opened_final Hr c st Hn) as (a & f & Ea & Hif & E & _).
  exists a. eexists. split; [exact Ea|]. split; [exact E|].
  cbn [log_initial out_state out_metrics fst].
  destruct (compute_network_metrics_spec f) as (M1 & M2 & _).
  split; [reflexivity|].
  destruct (Z.ltb_spec 0 (Z.of_nat (length (cut_vertices a)))) as [B|B].
  - split; [intros _; exact Hif|]. split; [intros H0; lia|]. split; [exact M1|exact M2].
  - split; [intros H0; lia|]. split; [intros _; exact Hif|]. split; [exact M1|exact M2].
Qed.

Lemma run_resets_the_initial_count_witness :
  (forall k : nat, 0 <= Z.of_nat k) /\ 1 <= n_nodes (boot 10) <= MAX_NODES /\
  exists a o,
    find_biconnected_components generated10 = Some a /\
    run_meshification Z.of_nat (fun n => n * 15 / 10) (fun _ _ => true) true true
      0 (boot 10) = Some o /\
    initial_cut_vertices (out_metrics o) = 0.
Proof.
  assert (Hn : 1 <= n_nodes (boot 10) <= MAX_NODES) by (split; vm_compute; discriminate).
  split; [exact Nat2Z.is_nonneg|]. split; [exact Hn|].
  destruct (run_resets_the_initial_count Z.of_nat (fun n => n * 15 / 10)
              (fun _ _ => true) true true 0 (boot 10) Nat2Z.is_nonneg Hn)
    as (a & o & Ea & E & _ & _ & _ & H0 & _).
  exists a, o. split; [exact Ea|]. split; [exact E|exact H0].
Defined.

(** X19.  A run accounts for every link: in the state it ends in the
    degrees sum to twice [original_edges + redundant_edges_added], so the
    numerator of the final average degree exceeds that of the initial one
    by exactly two per redundant edge counted. *)
Theorem run_accounts_for_every_link (rand_seq : nat -> Z) (target_edges : Z -> Z)
    (accept : Z -> Z -> bool) (opened_old opened_final : bool) (c : nat) (st : state) :
  (forall k, 0 <= rand_seq k) -> 1 <= n_nodes st <= MAX_NODES ->
  exists o,
    run_meshification rand_seq target_edges accept opened_old opened_final c st
      = Some o /\
    total_degree (out_state o)
      = 2 * (original_edges (out_state o) + redundant_edges_added (out_state o)) /\
    avg_degree_initial (out_metrics o)
      = (2 * original_edges (out_state o), n_nodes st) /\
    avg_degree_final (out_metrics o)
      = (2 * (original_edges (out_state o) + redundant_edges_added (out_state o)),
         n_nodes st).
Proof.
  intros Hr Hn.
  destruct (run_meshification_stages rand_seq target_edges accept opened_old
              opened_final Hr c st Hn)
    as (a & f & Ea & Hif & E & Hgn & Hgok & Hred & Hadd & Hw & Hfn & _).
  set (g := snd (generate_random_topology rand_seq target_edges accept c
                   (init_arrays st))) in *.
  destruct Hgok as (Hok & Hwf & Ht).
  assert (Hsg : simple_graph g) by (apply wf_links_simple_graph; auto; lia).
  pose proof (find_biconnected_components_frame g a Ea) as (Fa & _ & _ & Fo & Fr).
  assert (Hta : total_degree a = 2 * (original_edges a + redundant_edges_added a)).
  { rewrite (total_degree_ext g a Fa), Fo, Fr, Hadd. lia. }
  assert (Htf : total_degree f = 2 * (original_edges f + redundant_edges_added f)).
  { destruct (0 <? Z.of_nat (length (cut_vertices a))); [|now subst f].
    pose proof (find_biconnected_components_frame _ f Hif) as (Ff & _ & _ & Go & Gr).
    rewrite (total_degree_ext _ f Ff), Go, Gr, planner_original_edges.
    rewrite planner_total_degree.
    - rewrite Hta, Fr, Hadd. lia.
    - apply (find_biconnected_components_blocks_in_range g); [|exact Ea].
      now apply simple_graph_neighbors_in_range. }
  eexists. split; [exact E|]. cbn [out_state out_metrics].
  destruct (compute_network_metrics_spec f) as (_ & _ & M3 & M4 & _).
  split; [exact Htf|]. rewrite M3, M4, Htf, Hfn. split; reflexivity.
Qed.

Lemma run_accounts_for_every_link_witness :
  (forall k : nat, 0 <= Z.of_nat k) /\ 1 <= n_nodes (boot 10) <= MAX_NODES /\
  exists o,
    run_meshification Z.of_nat (fun n => n * 15 / 10) (fun _ _ => true) true true
      0 (boot 10) = Some o /\
    total_degree (out_state o)
      = 2 * (original_edges (out_state o) + redundant_edges_added (out_state o)).
Proof.
  assert (Hn : 1 <= n_nodes (boot 10) <= MAX_NODES) by (split; vm_compute; discriminate).
  split; [exact Nat2Z.is_nonneg|]. split; [exact Hn|].
  destruct (run_accounts_for_every_link Z.of_nat (fun n => n * 15 / 10)
              (fun _ _ => true) true true 0 (boot 10) Nat2Z.is_nonneg Hn)
    as (o & E & Ht & _).
  exists o. split; [exact E|exact Ht].
Defined.

(** X20.  When the first analysis flags no node the run changes nothing
    more: the planner is not run, no redundant edge is counted or tagged,
    the final count of cut vertices is 0 and, both files being opened
    alike, the final DOT file is the same as the first one. *)
Theorem run_without_cut_vertices_adds_nothing (rand_seq : nat -> Z)
    (target_edges : Z -> Z) (accept : Z -> Z -> bool) (opened : bool) (c : nat)
    (st : state) :
  (forall k, 0 <= rand_seq k) -> 1 <= n_nodes st <= MAX_NODES ->
  exists o,
    run_meshification rand_seq target_edges accept opened opened c st = Some o /\
    (fst (log_initial o) = 0 ->
     find_biconnected_components
       (snd (generate_random_topology rand_seq target_edges accept c (init_arrays st)))
       = Some (out_state o) /\
     redundant_edges_added (out_state o) = 0 /\
     redundant_edge (out_state o) = (fun _ _ => 0) /\
     final_cut_vertices (out_metrics o) = 0 /\
     dodag_final o = dodag_old o).
Proof.
  intros Hr Hn.
  destruct (run_meshification_stages rand_seq target_edges accept opened opened
              Hr c st Hn)
    as (a & f & Ea & Hif & E & Hgn & Hgok & Hred & Hadd & Hw & Hfn & _).
  eexists. split; [exact E|]. cbn [log_initial out_state out_metrics fst dodag_final dodag_old].
  intros H0. rewrite H0 in Hif. cbn in Hif. subst f.
  pose proof (find_biconnected_components_frame _ a Ea) as (Fa & _ & Fred & _ & Fr).
  destruct (compute_network_metrics_spec a) as (_ & M2 & _).
  split; [exact Ea|]. split; [now rewrite Fr|]. split; [now rewrite Fred|].
  split; [now rewrite M2|].
  apply export_dot_graph_untagged. now rewrite Fred.
Qed.

Lemma run_without_cut_vertices_adds_nothing_witness :
  (forall k : nat, 0 <= Z.of_nat k) /\ 1 <= n_nodes (boot 10) <= MAX_NODES /\
  exists o,
    run_meshification Z.of_nat (fun n => n * 15 / 10) (fun _ _ => true) true true
      0 (boot 10) = Some o /\
    (fst (log_initial o) = 0 -> dodag_final o = dodag_old o).
Proof.
  assert (Hn : 1 <= n_nodes (boot 10) <= MAX_NODES) by (split; vm_compute; discriminate).
  split; [exact Nat2Z.is_nonneg|]. split; [exact Hn|].
  destruct (run_without_cut_vertices_adds_nothing Z.of_nat (fun n => n * 15 / 10)
              (fun _ _ => true) true 0 (boot 10) Nat2Z.is_nonneg Hn) as (o & E & H).
  exists o. split; [exact E|]. intros H0. apply (H H0).
Defined.

(** X21.  On a network of at most [MAX_NEIGHBORS + 1] nodes the run is
    exact end to end: the generated graph is connected, it stays connected,
    and in the state the run ends in (after the planner and the second
    analysis when they ran) the nodes flagged as cut vertices are exactly
    the articulation points of the final graph, as the brute-force
    reachability oracle finds them; the final count of the report is their
    number. *)
Theorem small_network_run_is_exact (rand_seq : nat -> Z) (target_edges : Z -> Z)
    (accept : Z -> Z -> bool) (opened_old opened_final : bool) (c : nat) (st : state) :
  (forall k, 0 <= rand_seq k) -> 1 <= n_nodes st <= MAX_NEIGHBORS + 1 ->
  exists o,
    run_meshification rand_seq target_edges accept opened_old opened_final c st
      = Some o /\
    connected (out_state o) /\
    (forall v, 0 <= v < n_nodes st ->
       (is_cut (out_state o) v <> 0 <-> articulationb (out_state o) v = true)) /\
    final_cut_vertices (out_metrics o)
      = Z.of_nat (length (filter (articulationb (out_state o)) (nodes (n_nodes st)))).
Proof.
  intros Hr Hn.
  assert (Hn' : 1 <= n_nodes st <= MAX_NODES) by (unfold MAX_NEIGHBORS, MAX_NODES in *; lia).
  destruct (run_meshification_stages rand_seq target_edges accept opened_old
              opened_final Hr c st Hn')
    as (a & f & Ea & Hif & E & Hgn & Hgok & Hred & Hadd & Hw & Hfn & _).
  set (g := snd (generate_random_topology rand_seq target_edges accept c
                   (init_arrays st))) in *.
  assert (Hsg : simple_graph g) by (apply wf_links_simple_graph; try apply Hgok; lia).
  assert (Hcg : connected g) by now apply generate_connected.
  destruct (analysis_exact g a Hsg Hcg Ea) as (Hsa & Hca & Ha).
  assert (Hf : connected f /\
               forall v, inr f v -> (is_cut f v <> 0 <-> articulationb f v = true)).
  { destruct (0 <? Z.of_nat (length (cut_vertices a))); [|subst f; auto].
    set (p := add_optimal_redundant_edges a) in *.
    pose proof (find_biconnected_components_frame g a Ea) as (Fa & _).
    assert (Hwp : well_formed p).
    { apply planner_well_formed.
      - apply (find_biconnected_components_blocks_in_range g); [|exact Ea].
        now apply simple_graph_neighbors_in_range.
      - apply (well_formed_ext g a Fa). split; apply Hgok. }
    assert (Hsp : simple_graph p).
    { apply well_formed_simple_graph; [exact Hwp|].
      unfold p. rewrite planner_n_nodes. apply Hsa. }
    assert (Hcp : connected p) by (unfold p; now apply planner_connected).
    destruct (analysis_exact p f Hsp Hcp Hif) as (_ & Hcf & Hf). auto. }
  destruct Hf as [Hcf Hf].
  eexists. split; [exact E|]. cbn [out_state out_metrics].
  split; [exact Hcf|]. split.
  - intros v Hv. apply Hf. unfold inr. lia.
  - destruct (compute_network_metrics_spec f) as (_ & M2 & _).
    rewrite M2, (cut_vertices_oracle f Hf), Hfn. reflexivity.
Qed.

Lemma small_network_run_is_exact_witness :
  (forall k : nat, 0 <= Z.of_nat k) /\ 1 <= n_nodes (boot 10) <= MAX_NEIGHBORS + 1 /\
  exists o,
    run_meshification Z.of_nat (fun n => n * 15 / 10) (fun _ _ => true) true true
      0 (boot 10) = Some o /\
    connected (out_state o).
Proof.
  assert (Hn : 1 <= n_nodes (boot 10) <= MAX_NEIGHBORS + 1)
    by (split; vm_compute; discriminate).
  split; [exact Nat2Z.is_nonneg|]. split; [exact Hn|].
  destruct (small_network_run_is_exact Z.of_nat (fun n => n * 15 / 10)
              (fun _ _ => true) true true 0 (boot 10) Nat2Z.is_nonneg Hn)
    as (o & E & Hc & _).
  exists o. split; [exact E|exact Hc].
Defined.

(** ** Added links and articulation points *)

Lemma star7_planned_simple :
  simple_graph (add_optimal_redundant_edges (analyzed star7)).
Proof. apply simple_graphb_true. vm_compute. reflexivity. Qed.

Lemma star7_planned_hub :
  articulation (add_optimal_redundant_edges (analyzed star7)) 0.
Proof.
  apply (articulationb_spec _ star7_planned_simple). vm_compute. reflexivity.
Qed.

(** X22.  The planner never creates an articulation point: a node whose
    removal disconnects the graph the planner leaves already disconnected
    the graph it was given. *)
Theorem planner_creates_no_articulation_point (st : state) (v : Z) :
  articulation (add_optimal_redundant_edges st) v -> articulation st v.
Proof.
  apply articulation_grows; [apply planner_grows|apply planner_n_nodes].
Qed.

Lemma planner_creates_no_articulation_point_witness :
  articulation (add_optimal_redundant_edges (analyzed star7)) 0 /\
  articulation (analyzed star7) 0.
Proof.
  split; [exact star7_planned_hub|].
  exact (planner_creates_no_articulation_point (analyzed star7) 0 star7_planned_hub).
Defined.

(** X23.  On a network of at most [MAX_NEIGHBORS + 1] nodes a run never
    makes things worse: every node flagged as a cut vertex in the state the
    run ends in was flagged by the first analysis, and the final count of
    the statistics is at most the count that was logged. *)
Theorem small_network_run_flags_no_new_node (rand_seq : nat -> Z)
    (target_edges : Z -> Z) (accept : Z -> Z -> bool)
    (opened_old opened_final : bool) (c : nat) (st : state) :
  (forall k, 0 <= rand_seq k) -> 1 <= n_nodes st <= MAX_NEIGHBORS + 1 ->
  let g := snd (generate_random_topology rand_seq target_edges accept c
                  (init_arrays st)) in
  exists a o,
    find_biconnected_components g = Some a /\
    run_meshification rand_seq target_edges accept opened_old opened_final c st
      = Some o /\
    (forall v, 0 <= v < n_nodes st ->
       is_cut (out_state o) v <> 0 -> is_cut a v <> 0) /\
    final_cut_vertices (out_metrics o) <= fst (log_initial o).
Proof.
  intros Hr Hn g.
  assert (Hn' : 1 <= n_nodes st <= MAX_NODES) by (unfold MAX_NEIGHBORS, MAX_NODES in *; lia).
  destruct (run_meshification_stages rand_seq target_edges accept opened_old
              opened_final Hr c st Hn')
    as (a & f & Ea & Hif & E & Hgn & Hgok & Hred & Hadd & Hw & Hfn & _).
  fold g in Ea, Hgn, Hgok.
  assert (Hsg : simple_graph g) by (apply wf_links_simple_graph; try apply Hgok; lia).
  assert (Hcg : connected g) by now apply generate_connected.
  destruct (analysis_exact g a Hsg Hcg Ea) as (Hsa & Hca & _).
  pose proof (analysis_exact_articulation g a Hsg Hcg Ea) as Ha.
  pose proof (find_biconnected_components_frame g a Ea) as (Fa & _).
  assert (Han : n_nodes a = n_nodes st) by (destruct Fa as (H & _); congruence).
  assert (Hsub : forall v, 0 <= v < n_nodes st -> is_cut f v <> 0 -> is_cut a v <> 0).
  { destruct (0 <? Z.of_nat (length (cut_vertices a))); [|now subst f].
    set (p := add_optimal_redundant_edges a) in *.
    assert (Hwp : well_formed p).
    { apply planner_well_formed.
      - apply (find_biconnected_components_blocks_in_range g); [|exact Ea].
        now apply simple_graph_neighbors_in_range.
      - apply (well_formed_ext g a Fa). split; apply Hgok. }
    assert (Hsp : simple_graph p).
    { apply well_formed_simple_graph; [exact Hwp|].
      unfold p. rewrite planner_n_nodes. apply Hsa. }
    assert (Hcp : connected p) by (unfold p; now apply planner_connected).
    pose proof (analysis_exact_articulation p f Hsp Hcp Hif) as Hf.
    pose proof (find_biconnected_components_frame p f Hif) as (Ff & _).
    intros v Hv Hc. apply Ha; [unfold inr; lia|].
    apply planner_articulation. fold p.
    apply (articulation_ext p f v Ff). apply Hf; [unfold inr; lia|exact Hc]. }
  exists a. eexists. split; [exact Ea|]. split; [exact E|].
  cbn [out_state out_metrics log_initial fst]. split; [exact Hsub|].
  destruct (compute_network_metrics_spec f) as (_ & M2 & _). rewrite M2.
  apply inj_le. unfold cut_vertices. rewrite Hfn, Han.
  apply filter_length_mono. intros v Hv Hc.
  fold (nodes (n_nodes st)) in Hv. apply nodes_In in Hv.
  apply negb_true_iff, Z.eqb_neq. apply negb_true_iff, Z.eqb_neq in Hc. now apply Hsub.
Qed.

(** The run in which [rand()] returns 0 every time, on ten nodes: node 0
    is flagged by the first analysis, four links are added, and node 0 is
    the one node flagged at the end. *)
Lemma small_network_run_flags_no_new_node_witness :
  (forall k : nat, 0 <= (fun _ : nat => 0) k) /\
  1 <= n_nodes (boot 10) <= MAX_NEIGHBORS + 1 /\
  (exists a o,
    find_biconnected_components generated_star10 = Some a /\
    run_meshification (fun _ => 0) (fun n => n * 15 / 10) (fun _ _ => true) true true
      0 (boot 10) = Some o /\
    (forall v, 0 <= v < n_nodes (boot 10) ->
       is_cut (out_state o) v <> 0 -> is_cut a v <> 0) /\
    final_cut_vertices (out_metrics o) <= fst (log_initial o)) /\
  cut_vertices (analyzed generated_star10) = [0] /\
  option_map
    (fun o => (cut_vertices (out_state o), redundant_edges_added (out_state o),
               fst (log_initial o), final_cut_vertices (out_metrics o)))
    (run_meshification (fun _ => 0) (fun n => n * 15 / 10) (fun _ _ => true)
       true true 0 (boot 10))
  = Some ([0], 4, 1, 1).
Proof.
  assert (Hn : 1 <= n_nodes (boot 10) <= MAX_NEIGHBORS + 1)
    by (split; vm_compute; discriminate).
  split; [exact (fun _ => Z.le_refl 0)|]. split; [exact Hn|].
  split; [|vm_compute; split; reflexivity].
  exact (small_network_run_flags_no_new_node (fun _ => 0) (fun n => n * 15 / 10)
           (fun _ _ => true) true true 0 (boot 10) (fun _ => Z.le_refl 0) Hn).
Defined.

(** X24.  Run a second time on its own result, without a new analysis,
    the planner adds nothing: it classifies the same leaf blocks, finds
    every pair of representatives dealt with (the same node, already
    linked, or without spare capacity) and leaves the graph and the
    redundancy tags as they are; it only resets [redundant_edges_added]
    to 0, so the count of the first run is lost. *)
Theorem planner_run_twice_adds_nothing (st : state) :
  blocks_in_range st ->
  let st1 := add_optimal_redundant_edges st in
  let st2 := add_optimal_redundant_edges st1 in
  same_graph st1 st2 /\ same_analysis st1 st2 /\
  redundant_edge st2 = redundant_edge st1 /\
  (forall u, neighbor_list st2 u = neighbor_list st1 u) /\
  redundant_edges_added st2 = 0.
Proof.
  intros Hr st1 st2.
  assert (E : st2 = set_redundant_edges_added 0 (identify_leaf_blocks st1))
    by (unfold st2, st1; now apply planner_twice).
  destruct (identify_leaf_blocks_frame st1) as (Hg & Ha & Hred & _).
  assert (Hg2 : same_graph st1 st2) by (rewrite E; exact Hg).
  split; [exact Hg2|]. split; [rewrite E; exact Ha|]. split; [rewrite E; exact Hred|].
  split; [intros u; now apply neighbor_list_ext|]. rewrite E. reflexivity.
Qed.

(** On the analysed star of the generator the first run adds four links
    and the second none. *)
Lemma planner_run_twice_adds_nothing_witness :
  blocks_in_range (analyzed generated_star10) /\
  (same_graph (add_optimal_redundant_edges (analyzed generated_star10))
     (add_optimal_redundant_edges
        (add_optimal_redundant_edges (analyzed generated_star10))) /\
   same_analysis (add_optimal_redundant_edges (analyzed generated_star10))
     (add_optimal_redundant_edges
        (add_optimal_redundant_edges (analyzed generated_star10))) /\
   redundant_edge
     (add_optimal_redundant_edges
        (add_optimal_redundant_edges (analyzed generated_star10)))
     = redundant_edge (add_optimal_redundant_edges (analyzed generated_star10)) /\
   (forall u,
      neighbor_list
        (add_optimal_redundant_edges
           (add_optimal_redundant_edges (analyzed generated_star10))) u
      = neighbor_list (add_optimal_redundant_edges (analyzed generated_star10)) u) /\
   redundant_edges_added
     (add_optimal_redundant_edges
        (add_optimal_redundant_edges (analyzed generated_star10))) = 0) /\
  redundant_edges_added (add_optimal_redundant_edges (analyzed generated_star10)) = 4.
Proof.
  split; [exact analyzed_generated_star10_blocks|].
  split; [|vm_compute; reflexivity].
  exact (planner_run_twice_adds_nothing (analyzed generated_star10)
           analyzed_generated_star10_blocks).
Defined.
(** ** The edge stack after the analysis *)

Lemma star7_simple : simple_graph star7.
Proof. apply simple_graphb_true. vm_compute. reflexivity. Qed.

Lemma star7_connected : connected star7.
Proof. apply connectedb_true; [exact star7_simple|]. vm_compute. reflexivity. Qed.

(** X25.  On a connected simple graph small enough for the edge stack
    never to fill ([MAX_NEIGHBORS * n_nodes <= MAX_NODES * 10 - 1]) the
    analysis returns, and it leaves edges on the stack exactly when node 0,
    where the search starts, is an articulation point: then the edges up
    to the one pushed for the first child of node 0 are never popped into
    a block; otherwise the stack is left empty. *)
Theorem root_cut_vertex_leaves_edges_on_stack (g : state) :
  simple_graph g -> connected g ->
  MAX_NEIGHBORS * n_nodes g <= MAX_NODES * 10 - 1 ->
  exists st', find_biconnected_components g = Some st' /\
    (articulation g 0 -> 0 < stack_top st') /\
    (~ articulation g 0 -> stack_top st' = 0).
Proof.
  intros Hs Hc Hn.
  destruct (find_biconnected_components_root_stack g Hs Hc Hn) as (st' & E & H1 & H2).
  exists st'. split; [exact E|]. split; [exact H1|].
  apply H2. unfold MAX_NEIGHBORS, MAX_NODES, MAX_BLOCKS in *. lia.
Qed.

Lemma root_cut_vertex_leaves_edges_on_stack_witness :
  simple_graph star7 /\ connected star7 /\
  MAX_NEIGHBORS * n_nodes star7 <= MAX_NODES * 10 - 1 /\
  exists st', find_biconnected_components star7 = Some st' /\
    (articulation star7 0 -> 0 < stack_top st') /\
    (~ articulation star7 0 -> stack_top st' = 0).
Proof.
  assert (Hn : MAX_NEIGHBORS * n_nodes star7 <= MAX_NODES * 10 - 1)
    by (vm_compute; discriminate).
  split; [exact star7_simple|]. split; [exact star7_connected|]. split; [exact Hn|].
  exact (root_cut_vertex_leaves_edges_on_stack star7 star7_simple star7_connected Hn).
Defined.
